(** * cc/resources/picture_layer_tiling.cc: a shallow embedding

    The tile-grid manager of the compositor: rectangle expansion with its
    one-entry memo, the coverage iterator, and the tile/bundle bookkeeping
    of a tiling that shares bundles with its twin.

    C++ [int]/[int64] values are modelled in [Z]; signed overflow is
    undefined behaviour in the source, so the model describes the
    executions that stay inside the machine range.  C++ [/] on integers
    truncates towards zero and is [Z.quot].  ComputeExpansionDelta, which
    mixes [int], [int64] and [double], is modelled at machine width: its
    integers wrap in two's complement, the narrowing of its [int64]
    result to [int] included, and its [double] arithmetic is IEEE 754
    binary64 with its rounding. *)

From Stdlib Require Import ZArith Lia List Bool Sorting.Sorted Permutation.
From Stdlib Require Floats.SpecFloat.
From Stdlib Require QArith Qround.
From stdpp Require Import base decidable option list gmap.

Local Open Scope Z_scope.

(** ** Geometry (ui/gfx) *)

Module gfx.

(** Modelled from the spec: gfx::Size (ui/gfx/size.h is not among the
    sources).  A size never holds a negative extent: the constructor
    clamps it to zero. *)
Record Size := RawSize { size_width : Z; size_height : Z }.

Definition MakeSize (w h : Z) : Size := RawSize (Z.max 0 w) (Z.max 0 h).

(** Modelled from the spec: gfx::Rect (ui/gfx/rect.h is not among the
    sources): an origin and a size on the integer grid, covering the
    half-open ranges [x, right) and [y, bottom). *)
Record Rect := RawRect { x : Z; y : Z; width : Z; height : Z }.

(** gfx::Rect(x, y, width, height): negative extents are clamped. *)
Definition MakeRect (x0 y0 w h : Z) : Rect :=
  RawRect x0 y0 (Z.max 0 w) (Z.max 0 h).

(** gfx::Rect() and gfx::Rect(size). *)
Definition EmptyRect : Rect := RawRect 0 0 0 0.
Definition RectOfSize (s : Size) : Rect :=
  MakeRect 0 0 (size_width s) (size_height s).

Definition size (r : Rect) : Size := RawSize (width r) (height r).
Definition right (r : Rect) : Z := x r + width r.
Definition bottom (r : Rect) : Z := y r + height r.

Definition IsEmpty (r : Rect) : bool := (width r <=? 0) || (height r <=? 0).

Definition SizeIsEmpty (s : Size) : bool :=
  (size_width s <=? 0) || (size_height s <=? 0).

(** Rect::set_size. *)
Definition set_size (r : Rect) (s : Size) : Rect :=
  MakeRect (x r) (y r) (size_width s) (size_height s).

(** Rect::Inset(left, top, right, bottom). *)
Definition Inset4 (r : Rect) (l t rt b : Z) : Rect :=
  RawRect (x r + l) (y r + t)
          (Z.max (width r - l - rt) 0) (Z.max (height r - t - b) 0).

(** Rect::Inset(horizontal, vertical). *)
Definition Inset (r : Rect) (horizontal vertical : Z) : Rect :=
  Inset4 r horizontal vertical horizontal vertical.

(** Rect::Intersect / gfx::IntersectRects. *)
Definition IntersectRects (a b : Rect) : Rect :=
  if IsEmpty a || IsEmpty b then MakeRect 0 0 0 0
  else
    let rx := Z.max (x a) (x b) in
    let ry := Z.max (y a) (y b) in
    let rr := Z.min (right a) (right b) in
    let rb := Z.min (bottom a) (bottom b) in
    if (rr <=? rx) || (rb <=? ry) then MakeRect 0 0 0 0
    else MakeRect rx ry (rr - rx) (rb - ry).

(** Rect::Intersects(rect). *)
Definition Intersects (a b : Rect) : bool :=
  negb (IsEmpty a) && negb (IsEmpty b) &&
  (x b <? right a) && (x a <? right b) &&
  (y b <? bottom a) && (y a <? bottom b).

(** Rect::Contains(rect). *)
Definition Contains (a b : Rect) : bool :=
  (x a <=? x b) && (right b <=? right a) &&
  (y a <=? y b) && (bottom b <=? bottom a).

(** Rect::Contains(point_x, point_y), as a proposition. *)
Definition ContainsPoint (r : Rect) (px py : Z) : Prop :=
  x r <= px < right r /\ y r <= py < bottom r.

(** Inclusion and disjointness of the covered sets of grid points. *)
Definition Subset (a b : Rect) : Prop :=
  forall px py, ContainsPoint a px py -> ContainsPoint b px py.

Definition Disjoint (a b : Rect) : Prop :=
  forall px py, ~ (ContainsPoint a px py /\ ContainsPoint b px py).

Definition area (r : Rect) : Z := width r * height r.

#[global] Instance Rect_eq_dec : EqDecision Rect.
Proof. solve_decision. Defined.

#[global] Instance Size_eq_dec : EqDecision Size.
Proof. solve_decision. Defined.

End gfx.

(** ** Rectangle expansion *)

(** The value an [int] holds for an integer: the integer modulo 2^32, in
    two's complement.  It is the result of narrowing an [int64], and what
    the hardware leaves when [int] arithmetic overflows. *)
Definition to_int (z : Z) : Z := (z + 2 ^ 31) mod 2 ^ 32 - 2 ^ 31.

(** The same for [int64]. *)
Definition to_int64 (z : Z) : Z := (z + 2 ^ 63) mod 2 ^ 64 - 2 ^ 63.

(** C++ [double]: IEEE 754 binary64, with the operations of the
    specification of floating-point arithmetic of the Standard Library. *)
Module Double.

Definition double : Type := SpecFloat.spec_float.

Definition prec : Z := 53.
Definition emax : Z := 1024.

(** The conversion of an [int] or [int64] to [double]: to the nearest
    double, ties to even. *)
Definition of_int (z : Z) : double := SpecFloat.binary_normalize prec emax z 0 false.

Definition mul : double -> double -> double := SpecFloat.SFmul prec emax.
Definition sub : double -> double -> double := SpecFloat.SFsub prec emax.

(** [std::sqrt]: the correctly rounded square root. *)
Definition sqrt : double -> double := SpecFloat.SFsqrt prec emax.

(** [static_cast<int>(x)]: the fraction is discarded.  A value outside
    the range of [int], an infinity or a NaN has no defined conversion in
    C++; the model returns what the x86 conversion instruction delivers
    for them, the smallest [int]. *)
Definition to_int (x : double) : Z :=
  match x with
  | SpecFloat.S754_zero _ => 0
  | SpecFloat.S754_finite s m e =>
      let t := SpecFloat.cond_Zopp s (Z.shiftl (Z.pos m) e) in
      if (- 2 ^ 31 <=? t) && (t <? 2 ^ 31) then t else - 2 ^ 31
  | _ => - 2 ^ 31
  end.

End Double.

(** Compute the delta to expand from edges to cover target_area.  [a]
    and [b] are [int], [c] is an [int64]; in the linear case the [int64]
    quotient is narrowed by the return; in the quadratic case the
    discriminant is formed and its root taken in [double], and the root is
    converted to [int]. *)
Definition ComputeExpansionDelta
    (num_x_edges num_y_edges width height target_area : Z) : Z :=
  let a := to_int (num_y_edges * num_x_edges) in
  let b := to_int (num_y_edges * width + num_x_edges * height) in
  let c := to_int64 (width * height - target_area) in
  if a =? 0 then to_int (Z.quot (to_int64 (- c)) b)
  else
    let discriminant :=
      Double.sub (Double.of_int (to_int64 (b * b)))
        (Double.mul (Double.mul (Double.of_int 4) (Double.of_int a))
                    (Double.of_int c)) in
    Z.quot (to_int (- b + Double.to_int (Double.sqrt discriminant)))
           (to_int (2 * a)).

Inductive Edge := BOTTOM | TOP | LEFT | RIGHT.

(** The target of [EdgeEvent::num_edges]: one of the two local counters. *)
Inductive EdgeCounter := NUM_X_EDGES | NUM_Y_EDGES.

Record EdgeEvent := mkEvent {
  edge : Edge;
  num_edges : EdgeCounter;
  distance : Z
}.

#[global] Instance Edge_eq_dec : EqDecision Edge.
Proof. solve_decision. Defined.

#[global] Instance EdgeCounter_eq_dec : EqDecision EdgeCounter.
Proof. solve_decision. Defined.

(** [if (events[i].distance > events[j].distance) std::swap(...)]. *)
Definition swap_if_greater (i j : nat) (events : list EdgeEvent)
  : list EdgeEvent :=
  match events !! i, events !! j with
  | Some ei, Some ej =>
      if distance ej <? distance ei
      then <[j := ei]> (<[i := ej]> events)
      else events
  | _, _ => events
  end.

Definition sort_events (events : list EdgeEvent) : list EdgeEvent :=
  swap_if_greater 1 2
    (swap_if_greater 1 3
      (swap_if_greater 0 2
        (swap_if_greater 2 3
          (swap_if_greater 0 1 events)))).

(** The locals the event loop updates. *)
Record ExpandState := mkExpand {
  origin_x : Z;
  origin_y : Z;
  cur_width : Z;
  cur_height : Z;
  num_x_edges : Z;
  num_y_edges : Z;
  events : list EdgeEvent
}.

(** [--*event.num_edges]. *)
Definition decrement_edges (c : EdgeCounter) (st : ExpandState) : ExpandState :=
  match c with
  | NUM_X_EDGES =>
      mkExpand (origin_x st) (origin_y st) (cur_width st) (cur_height st)
               (num_x_edges st - 1) (num_y_edges st) (events st)
  | NUM_Y_EDGES =>
      mkExpand (origin_x st) (origin_y st) (cur_width st) (cur_height st)
               (num_x_edges st) (num_y_edges st - 1) (events st)
  end.

(** The [switch] on the edge kind: move one edge outwards by [delta]. *)
Definition move_edge (e : Edge) (delta : Z) (st : ExpandState) : ExpandState :=
  match e with
  | BOTTOM =>
      mkExpand (origin_x st) (origin_y st - delta)
               (cur_width st) (cur_height st + delta)
               (num_x_edges st) (num_y_edges st) (events st)
  | TOP =>
      mkExpand (origin_x st) (origin_y st)
               (cur_width st) (cur_height st + delta)
               (num_x_edges st) (num_y_edges st) (events st)
  | LEFT =>
      mkExpand (origin_x st - delta) (origin_y st)
               (cur_width st + delta) (cur_height st)
               (num_x_edges st) (num_y_edges st) (events st)
  | RIGHT =>
      mkExpand (origin_x st) (origin_y st)
               (cur_width st + delta) (cur_height st)
               (num_x_edges st) (num_y_edges st) (events st)
  end.

Definition set_events (evs : list EdgeEvent) (st : ExpandState) : ExpandState :=
  mkExpand (origin_x st) (origin_y st) (cur_width st) (cur_height st)
           (num_x_edges st) (num_y_edges st) evs.

(** One round of the inner loop: the edge of [events[i]] moves and
    [events[i].distance -= delta]. *)
Definition apply_delta_at (delta : Z) (st : ExpandState) (i : nat) : ExpandState :=
  match events st !! i with
  | Some ev =>
      let st1 := move_edge (edge ev) delta st in
      set_events
        (<[i := mkEvent (edge ev) (num_edges ev) (distance ev - delta)]>
           (events st1)) st1
  | None => st
  end.

(** [for (int i = event_index; i < 4; i++)]. *)
Definition apply_delta (delta : Z) (event_index : nat) (st : ExpandState)
  : ExpandState :=
  fold_left (apply_delta_at delta) (seq event_index (4 - event_index)) st.

(** The body of the event loop for one [event_index]; the boolean is the
    [break] test.  [event] is a reference into the array, so the test
    reads the distance after the inner loop has reduced it. *)
Definition expand_step (target_area : Z) (event_index : nat) (st : ExpandState)
  : ExpandState * bool :=
  match events st !! event_index with
  | Some event =>
      let delta0 := ComputeExpansionDelta (num_x_edges st) (num_y_edges st)
                      (cur_width st) (cur_height st) target_area in
      let delta := if distance event <? delta0 then distance event else delta0 in
      let st1 := decrement_edges (num_edges event) st in
      let st2 := apply_delta delta event_index st1 in
      let event_distance :=
        match events st2 !! event_index with
        | Some ev => distance ev
        | None => 0
        end in
      (st2, delta <? event_distance)
  | None => (st, true)
  end.

(** [for (int event_index = 0; event_index < 4; event_index++)], with
    [remaining] = 4 - event_index. *)
Fixpoint expand_loop (target_area : Z) (remaining : nat) (event_index : nat)
    (st : ExpandState) : ExpandState :=
  match remaining with
  | O => st
  | S remaining' =>
      let '(st', stop) := expand_step target_area event_index st in
      if stop then st'
      else expand_loop target_area remaining' (S event_index) st'
  end.

Record RectExpansionCache := mkCache {
  previous_start : gfx.Rect;
  previous_bounds : gfx.Rect;
  previous_result : gfx.Rect;
  previous_target : Z
}.

(** RectExpansionCache::RectExpansionCache(). *)
Definition NewRectExpansionCache : RectExpansionCache :=
  mkCache gfx.EmptyRect gfx.EmptyRect gfx.EmptyRect 0.

Definition cache_hit (cache : RectExpansionCache)
    (starting_rect : gfx.Rect) (target_area : Z) (bounding_rect : gfx.Rect)
  : bool :=
  bool_decide (previous_start cache = starting_rect) &&
  bool_decide (previous_bounds cache = bounding_rect) &&
  (previous_target cache =? target_area).

(** [if (cache) cache->previous_result = rect]. *)
Definition store_result (cache : option RectExpansionCache) (r : gfx.Rect)
  : option RectExpansionCache :=
  match cache with
  | Some c => Some (mkCache (previous_start c) (previous_bounds c) r
                            (previous_target c))
  | None => None
  end.

Definition initial_events (rect bounding_rect : gfx.Rect) : list EdgeEvent :=
  [ mkEvent BOTTOM NUM_Y_EDGES (gfx.y rect - gfx.y bounding_rect);
    mkEvent TOP NUM_Y_EDGES (gfx.bottom bounding_rect - gfx.bottom rect);
    mkEvent LEFT NUM_X_EDGES (gfx.x rect - gfx.x bounding_rect);
    mkEvent RIGHT NUM_X_EDGES (gfx.right bounding_rect - gfx.right rect) ].

(** The part of ExpandRectEquallyToAreaBoundedBy after the memo check. *)
Definition expand_uncached
    (starting_rect : gfx.Rect) (target_area : Z) (bounding_rect : gfx.Rect)
  : gfx.Rect :=
  let delta := ComputeExpansionDelta 2 2 (gfx.width starting_rect)
                 (gfx.height starting_rect) target_area in
  let expanded_starting_rect :=
    if 0 <? delta then gfx.Inset starting_rect (- delta) (- delta)
    else starting_rect in
  let rect := gfx.IntersectRects expanded_starting_rect bounding_rect in
  if gfx.IsEmpty rect then rect
  else if (0 <=? delta) && bool_decide (rect = expanded_starting_rect) then rect
  else
    let st0 := mkExpand (gfx.x rect) (gfx.y rect)
                 (gfx.width rect) (gfx.height rect) 2 2
                 (sort_events (initial_events rect bounding_rect)) in
    let st := expand_loop target_area 4 0 st0 in
    gfx.MakeRect (origin_x st) (origin_y st) (cur_width st) (cur_height st).

(** PictureLayerTiling::ExpandRectEquallyToAreaBoundedBy.  The cache is
    passed by pointer and may be null; the call returns the rectangle and
    the cache as the call leaves it. *)
Definition ExpandRectEquallyToAreaBoundedBy
    (starting_rect : gfx.Rect) (target_area : Z) (bounding_rect : gfx.Rect)
    (cache : option RectExpansionCache)
  : gfx.Rect * option RectExpansionCache :=
  if gfx.IsEmpty starting_rect then (starting_rect, cache)
  else
    match cache with
    | Some c =>
        if cache_hit c starting_rect target_area bounding_rect
        then (previous_result c, cache)
        else
          let c1 := mkCache starting_rect bounding_rect (previous_result c)
                            target_area in
          let r := expand_uncached starting_rect target_area bounding_rect in
          (r, store_result (Some c1) r)
    | None =>
        (expand_uncached starting_rect target_area bounding_rect, None)
    end.

(** ** Floating-point scaling

    Scale factors are C++ [float]s.  The embedding keeps them abstract:
    the operations on them that the tiling uses form an interface, and
    every statement below holds for any implementation of it. *)

Class FloatOps := {
  float : Type;
  (** [0.0f] and [1.0f] *)
  float_zero : float;
  float_one : float;
  (** [a / b] *)
  float_div : float -> float -> float;
  (** gfx::ScaleToEnclosingRect(rect, scale) *)
  ScaleToEnclosingRect : gfx.Rect -> float -> gfx.Rect;
  (** gfx::ToCeiledSize(gfx::ScaleSize(size, scale)) *)
  ScaleToCeiledSize : gfx.Size -> float -> gfx.Size
}.

(** ** Grid mapper (cc/base/tiling_data) *)

(** Modelled from the spec: TilingData, the grid mapper of section 4.1
    (cc/base/tiling_data.cc is not among the sources).  Given the total
    content size and the tile size with its border, it maps a coordinate
    to its tile index clamped to the valid range, a tile index to its
    bounds and its bounds with border, and a rectangle to the index range
    of the tiles it overlaps. *)
Record TilingData := mkTilingData {
  max_texture_size : gfx.Size;
  total_size : gfx.Size;
  border_texels : Z
}.

Definition ComputeNumTiles (max_texture total border : Z) : Z :=
  if max_texture - 2 * border <=? 0
  then (if (0 <? total) && (total <=? max_texture) then 1 else 0)
  else
    let num_tiles :=
      Z.max 1 (1 + Z.quot (total - 1 - 2 * border) (max_texture - 2 * border)) in
    if 0 <? total then num_tiles else 0.

Definition num_tiles_x (td : TilingData) : Z :=
  ComputeNumTiles (gfx.size_width (max_texture_size td))
                  (gfx.size_width (total_size td)) (border_texels td).

Definition num_tiles_y (td : TilingData) : Z :=
  ComputeNumTiles (gfx.size_height (max_texture_size td))
                  (gfx.size_height (total_size td)) (border_texels td).

Definition SetTotalSize (td : TilingData) (s : gfx.Size) : TilingData :=
  mkTilingData (max_texture_size td) s (border_texels td).

Definition SetMaxTextureSize (td : TilingData) (s : gfx.Size) : TilingData :=
  mkTilingData s (total_size td) (border_texels td).

(** The index of the tile along one axis whose bounds hold [src]. *)
Definition IndexFromSrcCoord (num_tiles max_texture border src : Z) : Z :=
  if num_tiles <=? 1 then 0
  else Z.min (Z.max (Z.quot (src - border) (max_texture - 2 * border)) 0)
             (num_tiles - 1).

Definition TileXIndexFromSrcCoord (td : TilingData) (src : Z) : Z :=
  IndexFromSrcCoord (num_tiles_x td) (gfx.size_width (max_texture_size td))
                    (border_texels td) src.

Definition TileYIndexFromSrcCoord (td : TilingData) (src : Z) : Z :=
  IndexFromSrcCoord (num_tiles_y td) (gfx.size_height (max_texture_size td))
                    (border_texels td) src.

(** Low and high end of tile [i] along one axis, borders excluded. *)
Definition tile_lo (max_texture border i : Z) : Z :=
  (max_texture - 2 * border) * i + (if i =? 0 then 0 else border).

Definition tile_hi (num_tiles max_texture total border i : Z) : Z :=
  Z.min ((max_texture - 2 * border) * (i + 1) + border
         + (if i + 1 =? num_tiles then border else 0))
        total.

Definition TileBounds (td : TilingData) (i j : Z) : gfx.Rect :=
  let lo_x := tile_lo (gfx.size_width (max_texture_size td)) (border_texels td) i in
  let lo_y := tile_lo (gfx.size_height (max_texture_size td)) (border_texels td) j in
  let hi_x := tile_hi (num_tiles_x td) (gfx.size_width (max_texture_size td))
                (gfx.size_width (total_size td)) (border_texels td) i in
  let hi_y := tile_hi (num_tiles_y td) (gfx.size_height (max_texture_size td))
                (gfx.size_height (total_size td)) (border_texels td) j in
  gfx.MakeRect lo_x lo_y (hi_x - lo_x) (hi_y - lo_y).

Definition TileBoundsWithBorder (td : TilingData) (i j : Z) : gfx.Rect :=
  let bounds := TileBounds td i j in
  if border_texels td =? 0 then bounds
  else
    let x1 := gfx.x bounds - (if 0 <? i then border_texels td else 0) in
    let x2 := gfx.right bounds
              + (if i <? num_tiles_x td - 1 then border_texels td else 0) in
    let y1 := gfx.y bounds - (if 0 <? j then border_texels td else 0) in
    let y2 := gfx.bottom bounds
              + (if j <? num_tiles_y td - 1 then border_texels td else 0) in
    gfx.MakeRect x1 y1 (x2 - x1) (y2 - y1).

(** The inclusive index range (left, top, right, bottom) of the tiles a
    rectangle overlaps; [None] when it overlaps none. *)
Definition index_range (td : TilingData) (rect : gfx.Rect)
  : option (Z * Z * Z * Z) :=
  if (num_tiles_x td <=? 0) || (num_tiles_y td <=? 0) then None
  else
    let r := gfx.IntersectRects rect (gfx.RectOfSize (total_size td)) in
    if gfx.IsEmpty r then None
    else Some (TileXIndexFromSrcCoord td (gfx.x r),
               TileYIndexFromSrcCoord td (gfx.y r),
               TileXIndexFromSrcCoord td (gfx.right r - 1),
               TileYIndexFromSrcCoord td (gfx.bottom r - 1)).

(** The cells of an inclusive index range, left to right, top to bottom. *)
Definition cells_of_range (range : Z * Z * Z * Z) : list (Z * Z) :=
  let '(l, t, r, b) := range in
  j ← seqZ t (b - t + 1); i ← seqZ l (r - l + 1); [(i, j)].

Definition in_range (range : option (Z * Z * Z * Z)) (cell : Z * Z) : bool :=
  match range with
  | Some (l, t, r, b) =>
      (l <=? cell.1) && (cell.1 <=? r) && (t <=? cell.2) && (cell.2 <=? b)
  | None => false
  end.

(** TilingData::Iterator: the cells a rectangle overlaps. *)
Definition TilingData_Iterator (td : TilingData) (rect : gfx.Rect)
  : list (Z * Z) :=
  match index_range td rect with
  | Some range => cells_of_range range
  | None => []
  end.

(** TilingData::DifferenceIterator: the cells [consider] overlaps and
    [ignore] does not. *)
Definition TilingData_DifferenceIterator
    (td : TilingData) (consider ignore : gfx.Rect) : list (Z * Z) :=
  filter (fun cell => in_range (index_range td ignore) cell = false)
         (TilingData_Iterator td consider).

(** ** Regions (cc/base/region) *)

(** Modelled from the spec: Region, a set of grid points kept as a list
    of rectangles (cc/base/region.cc is not among the sources). *)
Definition Region := list gfx.Rect.

Definition Region_Intersects (region : Region) (rect : gfx.Rect) : bool :=
  existsb (fun r => gfx.Intersects r rect) region.

(** The bands of [a] that [b] leaves uncovered. *)
Definition rect_subtract (a b : gfx.Rect) : Region :=
  if negb (gfx.Intersects a b) then (if gfx.IsEmpty a then [] else [a])
  else
    let i := gfx.IntersectRects a b in
    filter (fun r => negb (gfx.IsEmpty r))
      [ gfx.MakeRect (gfx.x a) (gfx.y a) (gfx.width a) (gfx.y i - gfx.y a);
        gfx.MakeRect (gfx.x a) (gfx.y i) (gfx.x i - gfx.x a) (gfx.height i);
        gfx.MakeRect (gfx.right i) (gfx.y i)
                     (gfx.right a - gfx.right i) (gfx.height i);
        gfx.MakeRect (gfx.x a) (gfx.bottom i)
                     (gfx.width a) (gfx.bottom a - gfx.bottom i) ].

Definition Region_Subtract (region : Region) (rect : gfx.Rect) : Region :=
  r ← region; rect_subtract r rect.

(** ** Tiles and tile bundles *)

Inductive WhichTree := ACTIVE_TREE | PENDING_TREE.

#[global] Instance WhichTree_eq_dec : EqDecision WhichTree.
Proof. solve_decision. Defined.

#[global] Instance WhichTree_countable : Countable WhichTree.
Proof.
  refine (inj_countable' (fun t => match t with
                                   | ACTIVE_TREE => false
                                   | PENDING_TREE => true
                                   end)
                         (fun b => if b then PENDING_TREE else ACTIVE_TREE) _).
  intros []; reflexivity.
Defined.

(** A tile is opaque to the tiling: only its identity matters. *)
Abbreviation Tile := nat.

(** Heap address of a reference-counted TileBundle. *)
Abbreviation BundleId := nat.

Abbreviation TileBundleMapKey := (Z * Z)%type.

(** Modelled from the spec: TileBundle (cc/resources/tile_bundle.cc is not
    among the sources).  A bundle is created for a block of grid cells and
    holds at most one tile reference per tree and cell. *)
Record TileBundle := mkBundle {
  index_offset_x : Z;
  index_offset_y : Z;
  index_count_x : Z;
  index_count_y : Z;
  tiles_ : gmap (WhichTree * Z * Z) Tile
}.

Module Bundle.

Definition TileAt (b : TileBundle) (tree : WhichTree) (i j : Z) : option Tile :=
  tiles_ b !! (tree, i, j).

Definition AddTileAt (b : TileBundle) (tree : WhichTree) (i j : Z) (t : Tile)
  : TileBundle :=
  mkBundle (index_offset_x b) (index_offset_y b)
           (index_count_x b) (index_count_y b)
           (<[(tree, i, j) := t]> (tiles_ b)).

(** Returns the bundle without the slot and whether it was occupied. *)
Definition RemoveTileAt (b : TileBundle) (tree : WhichTree) (i j : Z)
  : TileBundle * bool :=
  (mkBundle (index_offset_x b) (index_offset_y b)
            (index_count_x b) (index_count_y b)
            (delete (tree, i, j) (tiles_ b)),
   bool_decide (is_Some (tiles_ b !! (tree, i, j)))).

Definition IsEmpty (b : TileBundle) : bool := bool_decide (tiles_ b = ∅).

(** Modelled from the spec: the swap-if-required hook reconciles a tree
    transition that is still pending on the bundle.  The operations
    modelled here contain no tree transition, so nothing is pending and
    the hook leaves the slots as they are. *)
Definition SwapTilesIfRequired (b : TileBundle) : TileBundle := b.

End Bundle.

(** ** The tiling and its collaborators *)

Definition kTileBundleWidth : Z := 2.
Definition kTileBundleHeight : Z := 2.

Definition ComputeTileBundleIndex (i j : Z) : TileBundleMapKey :=
  (Z.quot i kTileBundleWidth, Z.quot j kTileBundleHeight).

Definition ComputeBundleTextureSize (tile_size : gfx.Size) (td : TilingData)
  : gfx.Size :=
  let border := border_texels td in
  let inner_tile_width := gfx.size_width tile_size - 2 * border in
  let bundle_width := inner_tile_width * kTileBundleWidth + 2 * border in
  let inner_tile_height := gfx.size_height tile_size - 2 * border in
  let bundle_height := inner_tile_height * kTileBundleHeight + 2 * border in
  gfx.MakeSize bundle_width bundle_height.

(** The objects that outlive a call and are shared between tilings: the
    reference-counted bundles, the supply of fresh tiles and bundles, and
    the requests the collaborator has received. *)
Record World := mkWorld {
  bundles : gmap BundleId TileBundle;
  next_bundle : BundleId;
  next_tile : Tile;
  tile_requests : list gfx.Rect;
  bundle_requests : list (Z * Z * Z * Z)
}.

Section Tiling.

Context `{FloatOps}.

Record PictureLayerTiling := mkTiling {
  contents_scale_ : float;
  layer_bounds_ : gfx.Size;
  tiling_data_ : TilingData;
  bundle_tiling_data_ : TilingData;
  tile_bundles_ : gmap TileBundleMapKey BundleId;
  live_tiles_rect_ : gfx.Rect;
  current_tree_ : WhichTree
}.

(** PictureLayerTilingClient, the collaborator interface.  CreateTile may
    return NULL; [CreateTile_returns_tile] tells for which allocation
    rectangles it returns a tile. *)
Record PictureLayerTilingClient := mkClient {
  CalculateTileSize : gfx.Size -> gfx.Size;
  CreateTile_returns_tile : gfx.Rect -> bool;
  GetInvalidation : Region;
  GetTwinTiling : option PictureLayerTiling
}.

Definition set_tile_bundles (t : PictureLayerTiling)
    (m : gmap TileBundleMapKey BundleId) : PictureLayerTiling :=
  mkTiling (contents_scale_ t) (layer_bounds_ t) (tiling_data_ t)
           (bundle_tiling_data_ t) m (live_tiles_rect_ t) (current_tree_ t).

Definition set_live_tiles_rect (t : PictureLayerTiling) (r : gfx.Rect)
  : PictureLayerTiling :=
  mkTiling (contents_scale_ t) (layer_bounds_ t) (tiling_data_ t)
           (bundle_tiling_data_ t) (tile_bundles_ t) r (current_tree_ t).

Definition set_bundles (w : World) (m : gmap BundleId TileBundle) : World :=
  mkWorld m (next_bundle w) (next_tile w) (tile_requests w) (bundle_requests w).

(** PictureLayerTiling::PictureLayerTiling. *)
Definition Create (client : PictureLayerTilingClient)
    (contents_scale : float) (layer_bounds : gfx.Size) : PictureLayerTiling :=
  let content_bounds := ScaleToCeiledSize layer_bounds contents_scale in
  let tile_size := CalculateTileSize client content_bounds in
  let td0 := mkTilingData (gfx.MakeSize 0 0) (gfx.MakeSize 0 0) 1 in
  let td := SetMaxTextureSize (SetTotalSize td0 content_bounds) tile_size in
  let btd := SetMaxTextureSize (SetTotalSize td0 content_bounds)
               (ComputeBundleTextureSize tile_size td) in
  mkTiling contents_scale layer_bounds td btd ∅ gfx.EmptyRect PENDING_TREE.

Definition ContentRect (t : PictureLayerTiling) : gfx.Rect :=
  gfx.RectOfSize (total_size (tiling_data_ t)).

(** client_->CreateTileBundle: a fresh, empty bundle object. *)
Definition client_CreateTileBundle (w : World) (offset_x offset_y width height : Z)
  : World * BundleId :=
  let id := next_bundle w in
  (mkWorld (<[id := mkBundle offset_x offset_y width height ∅]> (bundles w))
           (S id) (next_tile w) (tile_requests w)
           (bundle_requests w ++ [(offset_x, offset_y, width, height)]),
   id).

(** client_->CreateTile: the request is recorded; the result is a fresh
    tile or NULL. *)
Definition client_CreateTile (client : PictureLayerTilingClient) (w : World)
    (tile_rect : gfx.Rect) : World * option Tile :=
  let w' := mkWorld (bundles w) (next_bundle w)
              (if CreateTile_returns_tile client tile_rect
               then S (next_tile w) else next_tile w)
              (tile_requests w ++ [tile_rect]) (bundle_requests w) in
  (w', if CreateTile_returns_tile client tile_rect
       then Some (next_tile w) else None).

(** Update the bundle object behind a pointer. *)
Definition update_bundle (w : World) (id : BundleId) (b : TileBundle) : World :=
  set_bundles w (<[id := b]> (bundles w)).

(** PictureLayerTiling::TileBundleAt.  The swap hook runs on the bundle
    found; the result is the pointer to it. *)
Definition TileBundleAt (t : PictureLayerTiling) (i j : Z) : option BundleId :=
  tile_bundles_ t !! (i, j).

Definition TileBundleContainingTileAt (t : PictureLayerTiling) (i j : Z)
  : option BundleId :=
  let key := ComputeTileBundleIndex i j in
  TileBundleAt t key.1 key.2.

(** bundle->TileAt(tree, i, j) through a pointer. *)
Definition bundle_TileAt (w : World) (id : BundleId) (tree : WhichTree) (i j : Z)
  : option Tile :=
  match bundles w !! id with
  | Some b => Bundle.TileAt (Bundle.SwapTilesIfRequired b) tree i j
  | None => None
  end.

(** bundle->AddTileAt(tree, i, j, tile) through a pointer. *)
Definition bundle_AddTileAt (w : World) (id : BundleId) (tree : WhichTree)
    (i j : Z) (tile : Tile) : World :=
  match bundles w !! id with
  | Some b => update_bundle w id (Bundle.AddTileAt b tree i j tile)
  | None => w
  end.

(** PictureLayerTiling::TileAt. *)
Definition TileAt (w : World) (t : PictureLayerTiling) (tree : WhichTree)
    (i j : Z) : option Tile :=
  match TileBundleContainingTileAt t i j with
  | Some id => bundle_TileAt w id tree i j
  | None => None
  end.

(** PictureLayerTiling::CreateBundleForTileAt. *)
Definition CreateBundleForTileAt (w : World) (t : PictureLayerTiling)
    (i j : Z) (twin_tiling : option PictureLayerTiling)
  : World * PictureLayerTiling * BundleId :=
  let key := ComputeTileBundleIndex i j in
  let candidate_bundle :=
    match twin_tiling with
    | Some twin =>
        if bool_decide (max_texture_size (tiling_data_ t)
                        = max_texture_size (tiling_data_ twin))
        then TileBundleAt twin key.1 key.2
        else None
    | None => None
    end in
  let '(w1, id) :=
    match candidate_bundle with
    | Some id => (w, id)
    | None => client_CreateTileBundle w (key.1 * kTileBundleWidth)
                (key.2 * kTileBundleHeight) kTileBundleWidth kTileBundleHeight
    end in
  (w1, set_tile_bundles t (<[key := id]> (tile_bundles_ t)), id).

(** The first statements of CreateTile:
    [bundle = TileBundleContainingTileAt(i, j);
     if (!bundle) bundle = CreateBundleForTileAt(i, j, twin_tiling);] *)
Definition bundle_for_tile (w : World) (t : PictureLayerTiling) (i j : Z)
    (twin_tiling : option PictureLayerTiling)
  : World * PictureLayerTiling * BundleId :=
  match TileBundleContainingTileAt t i j with
  | Some id => (w, t, id)
  | None => CreateBundleForTileAt w t i j twin_tiling
  end.

Definition other_tree (tree : WhichTree) : WhichTree :=
  match tree with
  | ACTIVE_TREE => PENDING_TREE
  | PENDING_TREE => ACTIVE_TREE
  end.

(** PictureLayerTiling::CreateTile. *)
Definition CreateTile (client : PictureLayerTilingClient)
    (w : World) (t : PictureLayerTiling) (tree : WhichTree) (i j : Z)
    (twin_tiling : option PictureLayerTiling) : World * PictureLayerTiling :=
  let '(w1, t1, bundle) := bundle_for_tile w t i j twin_tiling in
  let paint_rect := TileBoundsWithBorder (tiling_data_ t1) i j in
  let tile_rect := gfx.set_size paint_rect (max_texture_size (tiling_data_ t1)) in
  let twin_tree := other_tree tree in
  let adopted :=
    match bundle_TileAt w1 bundle twin_tree i j with
    | Some candidate_tile =>
        let rect := ScaleToEnclosingRect paint_rect
                      (float_div float_one (contents_scale_ t1)) in
        if negb (Region_Intersects (GetInvalidation client) rect)
        then Some candidate_tile else None
    | None => None
    end in
  match adopted with
  | Some candidate_tile =>
      (bundle_AddTileAt w1 bundle tree i j candidate_tile, t1)
  | None =>
      let '(w2, tile) := client_CreateTile client w1 tile_rect in
      match tile with
      | Some tl => (bundle_AddTileAt w2 bundle tree i j tl, t1)
      | None => (w2, t1)
      end
  end.

(** PictureLayerTiling::RemoveTile. *)
Definition RemoveTile (w : World) (t : PictureLayerTiling) (tree : WhichTree)
    (i j : Z) : World * bool :=
  let key := ComputeTileBundleIndex i j in
  match tile_bundles_ t !! key with
  | None => (w, false)
  | Some id =>
      match bundles w !! id with
      | Some b =>
          let '(b', removed) :=
            Bundle.RemoveTileAt (Bundle.SwapTilesIfRequired b) tree i j in
          (update_bundle w id b', removed)
      | None => (w, false)
      end
  end.

(** PictureLayerTiling::RemoveBundleContainingTileAtIfEmpty. *)
Definition RemoveBundleContainingTileAtIfEmpty (w : World)
    (t : PictureLayerTiling) (i j : Z) : PictureLayerTiling :=
  let key := ComputeTileBundleIndex i j in
  match tile_bundles_ t !! key with
  | None => t
  | Some id =>
      match bundles w !! id with
      | Some b =>
          if Bundle.IsEmpty b
          then set_tile_bundles t (delete key (tile_bundles_ t))
          else t
      | None => t
      end
  end.

(** PictureLayerTiling::Reset. *)
Definition Reset (t : PictureLayerTiling) : PictureLayerTiling :=
  set_tile_bundles (set_live_tiles_rect t gfx.EmptyRect) ∅.

(** The first loop of SetLiveTilesRect. *)
Definition remove_tiles (tree : WhichTree) (cells : list (Z * Z))
    (st : World * PictureLayerTiling) : World * PictureLayerTiling :=
  fold_left (fun '(w, t) cell =>
               let w1 := (RemoveTile w t tree cell.1 cell.2).1 in
               (w1, RemoveBundleContainingTileAtIfEmpty w1 t cell.1 cell.2))
            cells st.

(** The second loop of SetLiveTilesRect and of Invalidate. *)
Definition create_tiles (client : PictureLayerTilingClient) (tree : WhichTree)
    (twin_tiling : option PictureLayerTiling) (cells : list (Z * Z))
    (st : World * PictureLayerTiling) : World * PictureLayerTiling :=
  fold_left (fun '(w, t) cell =>
               CreateTile client w t tree cell.1 cell.2 twin_tiling)
            cells st.

(** PictureLayerTiling::SetLiveTilesRect. *)
Definition SetLiveTilesRect (client : PictureLayerTilingClient)
    (w : World) (t : PictureLayerTiling) (new_live_tiles_rect : gfx.Rect)
  : World * PictureLayerTiling :=
  if bool_decide (live_tiles_rect_ t = new_live_tiles_rect) then (w, t)
  else
    let '(w1, t1) :=
      remove_tiles (current_tree_ t)
        (TilingData_DifferenceIterator (tiling_data_ t)
           (live_tiles_rect_ t) new_live_tiles_rect)
        (w, t) in
    if gfx.IsEmpty new_live_tiles_rect
    then (w1, set_live_tiles_rect t1 new_live_tiles_rect)
    else
      let twin_tiling := GetTwinTiling client in
      let '(w2, t2) :=
        create_tiles client (current_tree_ t1) twin_tiling
          (TilingData_DifferenceIterator (tiling_data_ t1)
             new_live_tiles_rect (live_tiles_rect_ t1))
          (w1, t1) in
      (w2, set_live_tiles_rect t2 new_live_tiles_rect).

(** The removal pass of Invalidate over the cells of one content
    rectangle: the world and the keys of the tiles that were deleted. *)
Definition invalidate_cells (t : PictureLayerTiling) (cells : list (Z * Z))
    (acc : World * list (Z * Z)) : World * list (Z * Z) :=
  fold_left (fun '(w, new_tile_keys) cell =>
               let '(w1, deleted) := RemoveTile w t PENDING_TREE cell.1 cell.2 in
               (w1, if deleted then new_tile_keys ++ [cell] else new_tile_keys))
            cells acc.

Definition invalidate_rects (t : PictureLayerTiling) (layer_region : Region)
    (acc : World * list (Z * Z)) : World * list (Z * Z) :=
  fold_left (fun acc layer_rect =>
               let content_rect :=
                 gfx.IntersectRects
                   (ScaleToEnclosingRect layer_rect (contents_scale_ t))
                   (live_tiles_rect_ t) in
               if gfx.IsEmpty content_rect then acc
               else invalidate_cells t
                      (TilingData_Iterator (tiling_data_ t) content_rect) acc)
            layer_region acc.

(** PictureLayerTiling::Invalidate. *)
Definition Invalidate (client : PictureLayerTilingClient)
    (w : World) (t : PictureLayerTiling) (layer_region : Region)
  : World * PictureLayerTiling :=
  let '(w1, new_tile_keys) := invalidate_rects t layer_region (w, []) in
  let twin_tiling := GetTwinTiling client in
  create_tiles client PENDING_TREE twin_tiling new_tile_keys (w1, t).

(** PictureLayerTiling::CreateMissingTilesInLiveTilesRect. *)
Definition CreateMissingTilesInLiveTilesRect (client : PictureLayerTilingClient)
    (w : World) (t : PictureLayerTiling) : World * PictureLayerTiling :=
  let twin_tiling := GetTwinTiling client in
  fold_left (fun '(w, t) cell =>
               match TileAt w t PENDING_TREE cell.1 cell.2 with
               | Some _ => (w, t)
               | None => CreateTile client w t PENDING_TREE cell.1 cell.2
                           twin_tiling
               end)
            (TilingData_Iterator (tiling_data_ t) (live_tiles_rect_ t)) (w, t).

(** PictureLayerTiling::SetLayerBounds. *)
Definition SetLayerBounds (client : PictureLayerTilingClient)
    (w : World) (t : PictureLayerTiling) (layer_bounds : gfx.Size)
  : World * PictureLayerTiling :=
  if bool_decide (layer_bounds_ t = layer_bounds) then (w, t)
  else
    let old_layer_bounds := layer_bounds_ t in
    let t0 := mkTiling (contents_scale_ t) layer_bounds (tiling_data_ t)
                (bundle_tiling_data_ t) (tile_bundles_ t) (live_tiles_rect_ t)
                (current_tree_ t) in
    let content_bounds := ScaleToCeiledSize layer_bounds (contents_scale_ t0) in
    let tile_size := CalculateTileSize client content_bounds in
    if negb (bool_decide (tile_size = max_texture_size (tiling_data_ t0)))
    then
      let td := SetMaxTextureSize
                  (SetTotalSize (tiling_data_ t0) content_bounds) tile_size in
      let btd := SetMaxTextureSize
                   (SetTotalSize (bundle_tiling_data_ t0) content_bounds)
                   (ComputeBundleTextureSize tile_size td) in
      (w, Reset (mkTiling (contents_scale_ t0) (layer_bounds_ t0) td btd
                   (tile_bundles_ t0) (live_tiles_rect_ t0) (current_tree_ t0)))
    else
      let bounded_live_tiles_rect :=
        gfx.IntersectRects (live_tiles_rect_ t0) (gfx.RectOfSize content_bounds) in
      let '(w1, t1) := SetLiveTilesRect client w t0 bounded_live_tiles_rect in
      let t2 := mkTiling (contents_scale_ t1) (layer_bounds_ t1)
                  (SetTotalSize (tiling_data_ t1) content_bounds)
                  (SetTotalSize (bundle_tiling_data_ t1) content_bounds)
                  (tile_bundles_ t1) (live_tiles_rect_ t1) (current_tree_ t1) in
      let layer_region :=
        Region_Subtract [gfx.RectOfSize (layer_bounds_ t2)]
                        (gfx.RectOfSize old_layer_bounds) in
      Invalidate client w1 t2 layer_region.

(** ** Coverage iterator *)

Record CoverageIterator := mkIter {
  dest_rect_ : gfx.Rect;
  dest_to_content_scale_ : float;
  current_tile_ : option Tile;
  current_geometry_rect_ : gfx.Rect;
  tile_i_ : Z;
  tile_j_ : Z;
  left_ : Z;
  top_ : Z;
  right_ : Z;
  bottom_ : Z;
  tree_ : WhichTree
}.

(** [operator bool]: the iterator still points at a cell. *)
Definition iterator_valid (it : CoverageIterator) : bool :=
  tile_j_ it <=? bottom_ it.

(** CoverageIterator::operator++. *)
Definition CoverageIterator_next (w : World) (tiling : PictureLayerTiling)
    (it : CoverageIterator) : CoverageIterator :=
  if bottom_ it <? tile_j_ it then it
  else
    let first_time := tile_i_ it <? left_ it in
    let tile_i1 := tile_i_ it + 1 in
    let new_row := right_ it <? tile_i1 in
    let tile_i2 := if new_row then left_ it else tile_i1 in
    let tile_j2 := if new_row then tile_j_ it + 1 else tile_j_ it in
    if new_row && (bottom_ it <? tile_j2)
    then mkIter (dest_rect_ it) (dest_to_content_scale_ it) None
                (current_geometry_rect_ it) tile_i2 tile_j2
                (left_ it) (top_ it) (right_ it) (bottom_ it) (tree_ it)
    else
      let current_tile := TileAt w tiling (tree_ it) tile_i2 tile_j2 in
      let last_geometry_rect := current_geometry_rect_ it in
      let content_rect := TileBounds (tiling_data_ tiling) tile_i2 tile_j2 in
      let geometry0 :=
        gfx.IntersectRects
          (ScaleToEnclosingRect content_rect
             (float_div float_one (dest_to_content_scale_ it)))
          (dest_rect_ it) in
      let geometry :=
        if first_time then geometry0
        else
          let min_left :=
            if new_row then gfx.x (dest_rect_ it)
            else gfx.right last_geometry_rect in
          let min_top :=
            if new_row then gfx.bottom last_geometry_rect
            else gfx.y last_geometry_rect in
          let inset_left := Z.max 0 (min_left - gfx.x geometry0) in
          let inset_top := Z.max 0 (min_top - gfx.y geometry0) in
          gfx.Inset4 geometry0 inset_left inset_top 0 0 in
      mkIter (dest_rect_ it) (dest_to_content_scale_ it) current_tile
             geometry tile_i2 tile_j2
             (left_ it) (top_ it) (right_ it) (bottom_ it) (tree_ it).

(** CoverageIterator::CoverageIterator(tiling, dest_scale, dest_rect). *)
Definition CoverageIterator_new (w : World) (tiling : PictureLayerTiling)
    (dest_scale : float) (dest_rect : gfx.Rect) : CoverageIterator :=
  let it0 := mkIter dest_rect float_zero None gfx.EmptyRect 0 0 0 0 (-1) (-1)
               (current_tree_ tiling) in
  if gfx.IsEmpty dest_rect then it0
  else
    let scale := float_div (contents_scale_ tiling) dest_scale in
    let content_rect :=
      gfx.IntersectRects (ScaleToEnclosingRect dest_rect scale)
        (gfx.RectOfSize (total_size (tiling_data_ tiling))) in
    let it1 := mkIter dest_rect scale None gfx.EmptyRect 0 0 0 0 (-1) (-1)
                 (current_tree_ tiling) in
    if gfx.IsEmpty content_rect then it1
    else
      let td := tiling_data_ tiling in
      let left := TileXIndexFromSrcCoord td (gfx.x content_rect) in
      let top := TileYIndexFromSrcCoord td (gfx.y content_rect) in
      let right := TileXIndexFromSrcCoord td (gfx.right content_rect - 1) in
      let bottom := TileYIndexFromSrcCoord td (gfx.bottom content_rect - 1) in
      CoverageIterator_next w tiling
        (mkIter dest_rect scale None gfx.EmptyRect (left - 1) top
                left top right bottom (current_tree_ tiling)).

(** The triples the iterator yields while it is valid: geometry rectangle,
    tile or absent, and the grid cell.  [fuel] bounds the number of
    increments. *)
Fixpoint coverage_steps (w : World) (tiling : PictureLayerTiling) (fuel : nat)
    (it : CoverageIterator) : list (gfx.Rect * option Tile * (Z * Z)) :=
  match fuel with
  | O => []
  | S fuel' =>
      if iterator_valid it
      then (current_geometry_rect_ it, current_tile_ it, (tile_i_ it, tile_j_ it))
           :: coverage_steps w tiling fuel' (CoverageIterator_next w tiling it)
      else []
  end.

End Tiling.

(** ** Further members of the tiling *)

Section Lifetime.

Context `{FloatOps}.

(** PictureLayerTiling::~PictureLayerTiling: [SetLiveTilesRect(gfx::Rect())]. *)
Definition PictureLayerTiling_destructor (client : PictureLayerTilingClient)
    (w : World) (t : PictureLayerTiling) : World * PictureLayerTiling :=
  SetLiveTilesRect client w t gfx.EmptyRect.

End Lifetime.

(** * Notions used to state and prove the properties *)

(** The delta over unbounded integers with the integer square root:
    what ComputeExpansionDelta computes where its conversions are exact. *)
Definition exact_delta (num_x_edges num_y_edges width height target_area : Z) : Z :=
  let a := num_y_edges * num_x_edges in
  let b := num_y_edges * width + num_x_edges * height in
  let c := width * height - target_area in
  if a =? 0 then Z.quot (- c) b
  else Z.quot (- b + Z.sqrt (b * b - 4 * a * c)) (2 * a).

(** The double that holds a positive integer below 2^53 exactly: the
    mantissa is the integer shifted to 53 bits. *)
Definition normal_double (s : bool) (n : Z) : Double.double :=
  SpecFloat.S754_finite s (Z.to_pos (n * 2 ^ (52 - Z.log2 n))) (Z.log2 n - 52).

Definition exact_double (n : Z) : Double.double :=
  match n with
  | 0 => SpecFloat.S754_zero false
  | Z.pos _ => normal_double false n
  | Z.neg _ => normal_double true (- n)
  end.

Definition closer (a b : EdgeEvent) : Prop := distance a <= distance b.

Ltac place_head :=
  first [ refine (@Permutation_cons_app _ _ [] _ _ _)
        | refine (@Permutation_cons_app _ _ [_] _ _ _)
        | refine (@Permutation_cons_app _ _ [_; _] _ _ _)
        | refine (@Permutation_cons_app _ _ [_; _; _] _ _ _) ]; simpl.

Definition edge_counter (e : Edge) : EdgeCounter :=
  match e with
  | BOTTOM | TOP => NUM_Y_EDGES
  | LEFT | RIGHT => NUM_X_EDGES
  end.

(** Distance from an edge of the current rectangle to the same edge of
    the bounding rectangle. *)
Definition edge_dist (B : gfx.Rect) (st : ExpandState) (e : Edge) : Z :=
  match e with
  | BOTTOM => origin_y st - gfx.y B
  | TOP => gfx.bottom B - (origin_y st + cur_height st)
  | LEFT => origin_x st - gfx.x B
  | RIGHT => gfx.right B - (origin_x st + cur_width st)
  end.

Definition move_edges (es : list Edge) (delta : Z) (st : ExpandState)
  : ExpandState :=
  fold_left (fun st e => move_edge e delta st) es st.

Definition count_edge (e : Edge) (es : list Edge) : Z :=
  Z.of_nat (count_occ Edge_eq_dec es e).

Definition reduce_distance (delta : Z) (ev : EdgeEvent) : EdgeEvent :=
  mkEvent (edge ev) (num_edges ev) (distance ev - delta).

(** What the event loop maintains from [event_index = k] on: the
    rectangle lies inside the bounding rectangle, and the pending events
    are distinct edges, ordered, each holding the distance its edge still
    has to travel. *)
Record tracks (B : gfx.Rect) (st : ExpandState) (k : nat) : Prop := {
  tracks_length : length (events st) = 4%nat;
  tracks_inside : forall e, 0 <= edge_dist B st e;
  tracks_nodup : NoDup (map edge (drop k (events st)));
  tracks_distance :
    Forall (fun ev => distance ev = edge_dist B st (edge ev)) (drop k (events st));
  tracks_sorted : StronglySorted closer (drop k (events st))
}.

(** What the loop maintains in addition while the area does not exceed
    the target: the counters count the pending edges per axis. *)
Record growing (T : Z) (st : ExpandState) (k : nat) : Prop := {
  growing_counter :
    Forall (fun ev => num_edges ev = edge_counter (edge ev)) (drop k (events st));
  growing_x : num_x_edges st
              = count_edge LEFT (map edge (drop k (events st)))
                + count_edge RIGHT (map edge (drop k (events st)));
  growing_y : num_y_edges st
              = count_edge BOTTOM (map edge (drop k (events st)))
                + count_edge TOP (map edge (drop k (events st)));
  growing_width : 0 <= cur_width st;
  growing_height : 0 <= cur_height st;
  growing_area : cur_width st * cur_height st <= T
}.

(** The delta one round of the loop applies, and the state it leaves. *)
Definition clamped_delta (T : Z) (st : ExpandState) (event : EdgeEvent) : Z :=
  let delta0 := ComputeExpansionDelta (num_x_edges st) (num_y_edges st)
                  (cur_width st) (cur_height st) T in
  if distance event <? delta0 then distance event else delta0.

Definition after_step (T : Z) (k : nat) (st : ExpandState) (event : EdgeEvent)
  : ExpandState :=
  set_events (take k (events st)
              ++ map (reduce_distance (clamped_delta T st event))
                     (drop k (events st)))
    (move_edges (map edge (drop k (events st))) (clamped_delta T st event)
       (decrement_edges (num_edges event) st)).

(** The rectangle the loop leaves, seen through the edge distances. *)
Definition rect_of (st : ExpandState) : gfx.Rect :=
  gfx.MakeRect (origin_x st) (origin_y st) (cur_width st) (cur_height st).

(** *** The state the loop starts from *)
Definition loop_start (rect B : gfx.Rect) : ExpandState :=
  mkExpand (gfx.x rect) (gfx.y rect) (gfx.width rect) (gfx.height rect) 2 2
           (sort_events (initial_events rect B)).

(** A cache is consistent when the result it stores for a non-empty
    starting rectangle is the one the expansion computes for the stored
    inputs.  The cache of a fresh tiling is consistent and every call
    keeps it so. *)
Definition cache_consistent (cache : option RectExpansionCache) : Prop :=
  match cache with
  | Some c =>
      gfx.IsEmpty (previous_start c) = false ->
      previous_result c
      = expand_uncached (previous_start c) (previous_target c) (previous_bounds c)
  | None => True
  end.

Definition expanded_start (start : gfx.Rect) (T : Z) : gfx.Rect :=
  let delta := ComputeExpansionDelta 2 2 (gfx.width start) (gfx.height start) T in
  if 0 <? delta then gfx.Inset start (- delta) (- delta) else start.

(** The cell the [n]-th step of a row-major walk over [columns] columns
    stands on. *)
Definition row_major_cell (columns : Z) (n : nat) : Z * Z :=
  (Z.of_nat n mod columns, Z.of_nat n / columns).

(** Two consecutive geometry rectangles leave no gap and do not overlap:
    within a row the next one starts where the previous one ends, and a
    new row starts at the left edge, right below the previous row. *)
Definition abut (content a b : gfx.Rect) : Prop :=
  (gfx.right a = gfx.x b /\ gfx.y a = gfx.y b /\ gfx.bottom a = gfx.bottom b)
  \/ (gfx.right a = gfx.right content /\ gfx.x b = gfx.x content
      /\ gfx.bottom a = gfx.y b).

(** *** Consistency of the bundle pointers *)
Definition slot_key (slot : WhichTree * Z * Z) : TileBundleMapKey :=
  ComputeTileBundleIndex slot.1.2 slot.2.

(** The pointers of one bundle collection: every pointer is live and was
    handed out by the world, no bundle is reachable under two keys, and
    the slots of the bundle under a key belong to cells of that key. *)
Record pointers_ok (w : World) (m : gmap TileBundleMapKey BundleId) : Prop := {
  ptr_live : forall k id, m !! k = Some id -> is_Some (bundles w !! id);
  ptr_fresh : forall k id, m !! k = Some id -> (id < next_bundle w)%nat;
  ptr_inj : forall k k' id, m !! k = Some id -> m !! k' = Some id -> k = k';
  ptr_slots : forall k id b slot,
      m !! k = Some id -> bundles w !! id = Some b ->
      is_Some (tiles_ b !! slot) -> slot_key slot = k
}.

(** Two collections agree when a bundle they share sits under the same
    key in both. *)
Definition agree (m m' : gmap TileBundleMapKey BundleId) : Prop :=
  forall k k' id, m !! k = Some id -> m' !! k' = Some id -> k = k'.

(** A tiling and its twin over one world. *)
Record consistent (w : World) (m : gmap TileBundleMapKey BundleId)
    (twin : option (gmap TileBundleMapKey BundleId)) : Prop := {
  own_ok : pointers_ok w m;
  twin_ok : forall m', twin = Some m' -> pointers_ok w m' /\ agree m m'
}.

(** Every key of the collection has a bundle with an occupied slot,
    unless [P] excuses the key. *)
Definition occupied_unless (w : World) (m : gmap TileBundleMapKey BundleId)
    (P : TileBundleMapKey -> Prop) : Prop :=
  forall k id, m !! k = Some id ->
    P k \/ exists b slot, bundles w !! id = Some b /\ is_Some (tiles_ b !! slot).

Definition cell_key (cell : Z * Z) : TileBundleMapKey :=
  ComputeTileBundleIndex cell.1 cell.2.

(** A run of calls that share one cache, as UpdateTilePriorities makes
    them frame after frame: the rectangles returned, in order. *)
Fixpoint expand_calls (calls : list (gfx.Rect * Z * gfx.Rect))
    (cache : option RectExpansionCache) : list gfx.Rect :=
  match calls with
  | [] => []
  | (starting_rect, target_area, bounding_rect) :: rest =>
      let r := ExpandRectEquallyToAreaBoundedBy starting_rect target_area
                 bounding_rect cache in
      r.1 :: expand_calls rest r.2
  end.

(** The cells of row [j] from column [i] to column [r]. *)
Definition row_from (i r j : Z) : list (Z * Z) :=
  (fun i' => (i', j)) <$> seqZ i (r - i + 1).

Section Properties.

Context `{FloatOps}.

(** The step the coverage walk yields at a cell. *)
Definition step_at (w : World) (tiling : PictureLayerTiling) (cell : Z * Z)
  : gfx.Rect * option Tile * (Z * Z) :=
  (TileBounds (tiling_data_ tiling) cell.1 cell.2,
   TileAt w tiling (current_tree_ tiling) cell.1 cell.2, cell).

(** The iterator while it stands on a cell. *)
Definition iterator_at (w : World) (tiling : PictureLayerTiling) (cell : Z * Z)
  : CoverageIterator :=
  mkIter (ContentRect tiling) float_one
         (TileAt w tiling (current_tree_ tiling) cell.1 cell.2)
         (TileBounds (tiling_data_ tiling) cell.1 cell.2)
         cell.1 cell.2 0 0
         (num_tiles_x (tiling_data_ tiling) - 1)
         (num_tiles_y (tiling_data_ tiling) - 1) (current_tree_ tiling).

Definition twin_bundles (twin : option PictureLayerTiling)
  : option (gmap TileBundleMapKey BundleId) :=
  tile_bundles_ <$> twin.

(** The bundle the twin offers for a key: shared only when the tile
    sizes match. *)
Definition twin_candidate (t : PictureLayerTiling)
    (twin : option PictureLayerTiling) (key : TileBundleMapKey)
  : option BundleId :=
  match twin with
  | Some tw =>
      if bool_decide (max_texture_size (tiling_data_ t)
                      = max_texture_size (tiling_data_ tw))
      then tile_bundles_ tw !! key
      else None
  | None => None
  end.

(** The tile of the other tree that CreateTile adopts, if any. *)
Definition adopted_tile (client : PictureLayerTilingClient) (w1 : World)
    (t1 : PictureLayerTiling) (tree : WhichTree) (i j : Z) : option Tile :=
  match TileAt w1 t1 (other_tree tree) i j with
  | Some candidate_tile =>
      if Region_Intersects (GetInvalidation client)
           (ScaleToEnclosingRect (TileBoundsWithBorder (tiling_data_ t1) i j)
              (float_div float_one (contents_scale_ t1)))
      then None else Some candidate_tile
  | None => None
  end.

(** The outcome of CreateTile when it asks the collaborator: the request
    is for the allocation rectangle, and the tile is stored only when the
    collaborator returned one. *)
Definition tile_requested (client : PictureLayerTilingClient) (w1 : World)
    (t1 : PictureLayerTiling) (tree : WhichTree) (i j : Z) (result : World)
  : Prop :=
  let tile_rect :=
    gfx.set_size (TileBoundsWithBorder (tiling_data_ t1) i j)
                 (max_texture_size (tiling_data_ t1)) in
  tile_requests result = tile_requests w1 ++ [tile_rect] /\
  if CreateTile_returns_tile client tile_rect
  then TileAt result t1 tree i j = Some (next_tile w1)
       /\ next_tile result = S (next_tile w1)
  else bundles result = bundles w1 /\ next_tile result = next_tile w1.

Definition without_slot (b : TileBundle) (tree : WhichTree) (i j : Z)
  : TileBundle :=
  mkBundle (index_offset_x b) (index_offset_y b)
           (index_count_x b) (index_count_y b)
           (delete (tree, i, j) (tiles_ b)).

(** *** The removal pass of SetLiveTilesRect *)
Definition remove_step (tree : WhichTree) (st : World * PictureLayerTiling)
    (cell : Z * Z) : World * PictureLayerTiling :=
  ((RemoveTile st.1 st.2 tree cell.1 cell.2).1,
   RemoveBundleContainingTileAtIfEmpty
     (RemoveTile st.1 st.2 tree cell.1 cell.2).1 st.2 cell.1 cell.2).

(** The invariant of the bundle collection: a key is present exactly when
    some tile slot inside its bundle is occupied for some tree. *)
Definition bundle_invariant (w : World) (t : PictureLayerTiling) : Prop :=
  forall k, is_Some (tile_bundles_ t !! k) <->
            exists tree i j, ComputeTileBundleIndex i j = k
                             /\ is_Some (TileAt w t tree i j).

(** The operations of the claim, and RemoveTile followed by
    RemoveBundleContainingTileAtIfEmpty as SetLiveTilesRect pairs them. *)
Inductive Operation :=
| OpCreateTile (tree : WhichTree) (i j : Z)
| OpRemoveTile (tree : WhichTree) (i j : Z)
| OpRemoveTileAndBundle (tree : WhichTree) (i j : Z)
| OpSetLiveTilesRect (new_live_tiles_rect : gfx.Rect)
| OpInvalidate (layer_region : Region)
| OpSetLayerBounds (layer_bounds : gfx.Size).

Definition apply_operation (client : PictureLayerTilingClient)
    (st : World * PictureLayerTiling) (op : Operation)
  : World * PictureLayerTiling :=
  match op with
  | OpCreateTile tree i j =>
      CreateTile client st.1 st.2 tree i j (GetTwinTiling client)
  | OpRemoveTile tree i j => ((RemoveTile st.1 st.2 tree i j).1, st.2)
  | OpRemoveTileAndBundle tree i j => remove_step tree st (i, j)
  | OpSetLiveTilesRect r => SetLiveTilesRect client st.1 st.2 r
  | OpInvalidate region => Invalidate client st.1 st.2 region
  | OpSetLayerBounds s => SetLayerBounds client st.1 st.2 s
  end.

Definition run_operations (client : PictureLayerTilingClient)
    (ops : list Operation) (st : World * PictureLayerTiling)
  : World * PictureLayerTiling :=
  fold_left (apply_operation client) ops st.

Definition bare_removal (op : Operation) : bool :=
  match op with
  | OpRemoveTile _ _ _ => true
  | _ => false
  end.

(** The inductive strengthening of the invariant. *)
Definition well_kept (w : World) (m : gmap TileBundleMapKey BundleId)
    (twin : option PictureLayerTiling) : Prop :=
  consistent w m (twin_bundles twin) /\ occupied_unless w m (fun _ => False).

(** A cell that lies in the old live rectangle and not in the new one. *)
Definition cell_removed (td : TilingData) (A B : gfx.Rect) (cell : Z * Z) : bool :=
  in_range (index_range td A) cell && negb (in_range (index_range td B) cell).

(** What every iterator reached by the walk satisfies while it is valid. *)
Definition on_cell (dest_rect : gfx.Rect) (it : CoverageIterator) : Prop :=
  dest_rect_ it = dest_rect /\
  (iterator_valid it = true ->
   left_ it <= tile_i_ it /\
   gfx.Subset (current_geometry_rect_ it) dest_rect).

(** What a step shows of the tiling: the tile and its cell. *)
Definition tile_and_cell (s : gfx.Rect * option Tile * (Z * Z))
  : option Tile * (Z * Z) := (s.1.2, s.2).

(** The cells Invalidate visits: those the scaled rectangles of the
    region overlap inside the live rectangle, in the order of the visit. *)
Definition invalidated_cells (t : PictureLayerTiling) (layer_region : Region)
  : list (Z * Z) :=
  layer_rect ← layer_region;
  if gfx.IsEmpty (gfx.IntersectRects
                    (ScaleToEnclosingRect layer_rect (contents_scale_ t))
                    (live_tiles_rect_ t))
  then []
  else TilingData_Iterator (tiling_data_ t)
         (gfx.IntersectRects
            (ScaleToEnclosingRect layer_rect (contents_scale_ t))
            (live_tiles_rect_ t)).

(** The body of the loop of CreateMissingTilesInLiveTilesRect. *)
Definition create_missing_step (client : PictureLayerTilingClient)
    (st : World * PictureLayerTiling) (cell : Z * Z)
  : World * PictureLayerTiling :=
  match TileAt st.1 st.2 PENDING_TREE cell.1 cell.2 with
  | Some _ => st
  | None => CreateTile client st.1 st.2 PENDING_TREE cell.1 cell.2
              (GetTwinTiling client)
  end.

(** The bundle grid is the tile grid with the inner tile size doubled. *)
Definition grids_aligned (t : PictureLayerTiling) : Prop :=
  max_texture_size (bundle_tiling_data_ t)
  = ComputeBundleTextureSize (max_texture_size (tiling_data_ t)) (tiling_data_ t) /\
  total_size (bundle_tiling_data_ t) = total_size (tiling_data_ t) /\
  border_texels (bundle_tiling_data_ t) = border_texels (tiling_data_ t) /\
  0 <= border_texels (tiling_data_ t).

End Properties.

(** * A concrete instance: rational scales and a 4 x 4 sample tiling *)

(** Scale factors as exact rationals: scaling without rounding error. *)
Definition rational_scale : FloatOps := {|
  float := QArith_base.Q;
  float_zero := QArith_base.Qmake 0 1;
  float_one := QArith_base.Qmake 1 1;
  float_div := QArith_base.Qdiv;
  ScaleToEnclosingRect r s :=
    let x := Qround.Qfloor (QArith_base.Qmult (QArith_base.inject_Z (gfx.x r)) s) in
    let y := Qround.Qfloor (QArith_base.Qmult (QArith_base.inject_Z (gfx.y r)) s) in
    let rt := if gfx.width r =? 0 then x
              else Qround.Qceiling
                     (QArith_base.Qmult (QArith_base.inject_Z (gfx.right r)) s) in
    let bt := if gfx.height r =? 0 then y
              else Qround.Qceiling
                     (QArith_base.Qmult (QArith_base.inject_Z (gfx.bottom r)) s) in
    gfx.MakeRect x y (rt - x) (bt - y);
  ScaleToCeiledSize sz s :=
    gfx.MakeSize
      (Qround.Qceiling
         (QArith_base.Qmult (QArith_base.inject_Z (gfx.size_width sz)) s))
      (Qround.Qceiling
         (QArith_base.Qmult (QArith_base.inject_Z (gfx.size_height sz)) s))
|}.

(** A collaborator that cuts 256x256 tiles and has nothing invalidated. *)
Definition sample_client (returns_tile : bool)
    (twin : option (@PictureLayerTiling rational_scale))
  : @PictureLayerTilingClient rational_scale :=
  @mkClient rational_scale (fun _ => gfx.MakeSize 256 256) (fun _ => returns_tile)
            [] twin.

Definition empty_world : World := mkWorld ∅ 0 0 [] [].

(** A 1000x1000 layer at scale 1: a grid of 4 by 4 tiles. *)
Definition sample_tiling : @PictureLayerTiling rational_scale :=
  @Create rational_scale (sample_client true None)
          (QArith_base.Qmake 1 1) (gfx.MakeSize 1000 1000).

Definition one : @float rational_scale := QArith_base.Qmake 1 1.

(** The twin of the sample tiling after one tile was created for the
    active tree, and the world that holds it. *)
Definition twin_state : World * @PictureLayerTiling rational_scale :=
  @CreateTile rational_scale (sample_client true None) empty_world sample_tiling
              ACTIVE_TREE 0 0 None.

(** The sample tiling with all 16 tiles live. *)
Definition live_state : World * @PictureLayerTiling rational_scale :=
  @SetLiveTilesRect rational_scale (sample_client true None) empty_world
                    sample_tiling (gfx.MakeRect 0 0 1000 1000).

(** The sample tiling with its live rectangle set and no tile created
    yet. *)
Definition unfilled_tiling : @PictureLayerTiling rational_scale :=
  @set_live_tiles_rect rational_scale sample_tiling (gfx.MakeRect 0 0 1000 1000).

(** The sample tiling with the 3 x 3 cells of its top-left corner live. *)
Definition partly_live : World * @PictureLayerTiling rational_scale :=
  @SetLiveTilesRect rational_scale (sample_client true None) empty_world
                    sample_tiling (gfx.MakeRect 0 0 600 600).

(** * Properties *)

(** ** Machine numbers: where the conversions of ComputeExpansionDelta are exact *)

Lemma to_int_small z : - 2 ^ 31 <= z < 2 ^ 31 -> to_int z = z.
Proof.
  intros Hz. unfold to_int. rewrite Z.mod_small; lia.
Qed.

Lemma to_int64_small z : - 2 ^ 63 <= z < 2 ^ 63 -> to_int64 z = z.
Proof.
  intros Hz. unfold to_int64. rewrite Z.mod_small; lia.
Qed.

Lemma digits2_pos_size p : SpecFloat.digits2_pos p = Pos.size p.
Proof. induction p as [p IH | p IH |]; simpl; congruence. Qed.

Lemma Zdigits2_log2 p : SpecFloat.Zdigits2 (Z.pos p) = Z.log2 (Z.pos p) + 1.
Proof.
  unfold SpecFloat.Zdigits2. rewrite digits2_pos_size.
  destruct p; simpl; lia.
Qed.

Lemma log2_shifted n k : 0 < n -> 0 <= k -> Z.log2 (n * 2 ^ k) = Z.log2 n + k.
Proof. intros Hn Hk. rewrite Z.log2_mul_pow2 by lia. lia. Qed.

Lemma log2_below n d : 0 < n -> 0 <= d -> n < 2 ^ d -> Z.log2 n < d.
Proof. intros Hn Hd Hlt. apply Z.log2_lt_pow2; assumption. Qed.

Lemma Pos_iter_xO m d : Z.pos (Pos.iter xO m d) = Z.pos m * 2 ^ Z.pos d.
Proof.
  induction d as [| d IH] using Pos.peano_ind.
  - simpl. lia.
  - rewrite Pos.iter_succ, Pos2Z.inj_xO, IH, Pos2Z.inj_succ, Z.pow_succ_r by lia.
    lia.
Qed.

Local Abbreviation shr_exact m := (SpecFloat.Build_shr_record m false false).

Lemma shr_1_even m : 0 < m -> SpecFloat.shr_1 (shr_exact (2 * m)) = shr_exact m.
Proof. intros Hm. destruct m as [| p | p]; try lia. reflexivity. Qed.

Lemma iter_shr_1 k : forall m,
  0 < m ->
  SpecFloat.iter_pos SpecFloat.shr_1 k (shr_exact (m * 2 ^ Z.pos k)) = shr_exact m.
Proof.
  induction k as [k IH | k IH |]; intros m Hm; cbn [SpecFloat.iter_pos].
  - replace (m * 2 ^ Z.pos k~1) with (2 * ((m * 2 ^ Z.pos k) * 2 ^ Z.pos k)).
    2:{ assert (Z.pos k~1 = Z.pos k + Z.pos k + 1) as -> by lia.
        rewrite !Z.pow_add_r by lia. ring. }
    rewrite shr_1_even by nia. rewrite IH by nia. apply IH, Hm.
  - replace (m * 2 ^ Z.pos k~0) with ((m * 2 ^ Z.pos k) * 2 ^ Z.pos k).
    2:{ assert (Z.pos k~0 = Z.pos k + Z.pos k) as -> by lia.
        rewrite Z.pow_add_r by lia. ring. }
    rewrite IH by nia. apply IH, Hm.
  - replace (m * 2 ^ 1) with (2 * m) by lia. apply shr_1_even, Hm.
Qed.

Lemma fexp_normal e :
  - 1021 <= e -> SpecFloat.fexp Double.prec Double.emax e = e - 53.
Proof.
  intros He. unfold SpecFloat.fexp, SpecFloat.emin, Double.prec, Double.emax. lia.
Qed.

Lemma shifted_mantissa n :
  0 < n < 2 ^ 53 ->
  0 <= Z.log2 n <= 52 /\ 0 < n * 2 ^ (52 - Z.log2 n) /\
  Z.log2 (n * 2 ^ (52 - Z.log2 n)) = 52.
Proof.
  intros Hn. pose proof (Z.log2_nonneg n) as H0.
  pose proof (log2_below n 53 ltac:(lia) ltac:(lia) ltac:(lia)) as H1.
  split; [lia |]. split.
  - apply Z.mul_pos_pos; [lia |]. apply Z.pow_pos_nonneg; lia.
  - rewrite log2_shifted by lia. lia.
Qed.

(** Rounding a mantissa that holds an integer below 2^53 followed by
    zero bits only drops those bits. *)
Lemma binary_round_aux_exact s M E n :
  0 < n < 2 ^ 53 -> E <= 0 ->
  Z.pos M = n * 2 ^ (- E) ->
  0 <= Z.log2 n - 52 - E ->
  SpecFloat.binary_round_aux Double.prec Double.emax s (Z.pos M) E SpecFloat.loc_Exact
  = normal_double s n.
Proof.
  intros Hn HE HM Hdigits.
  destruct (shifted_mantissa n Hn) as (Hlog & Hpos & Hlog').
  unfold normal_double.
  remember (n * 2 ^ (52 - Z.log2 n)) as m' eqn:Hm'.
  destruct m' as [| P | P]; try lia.
  assert (H1 : SpecFloat.shr_fexp Double.prec Double.emax (Z.pos M) E
                 SpecFloat.loc_Exact
               = (shr_exact (Z.pos P), Z.log2 n - 52)).
  { unfold SpecFloat.shr_fexp. rewrite Zdigits2_log2, HM, log2_shifted by lia.
    rewrite fexp_normal by lia. cbn [SpecFloat.shr_record_of_loc].
    replace (Z.log2 n + - E + 1 + E - 53 - E) with (Z.log2 n - 52 - E) by lia.
    unfold SpecFloat.shr.
    destruct (Z.log2 n - 52 - E) as [| k | k] eqn:Hk; [| | lia].
    - f_equal; [| lia]. f_equal. rewrite Hm'. f_equal. f_equal. lia.
    - f_equal; [| lia].
      replace (n * 2 ^ (- E)) with (Z.pos P * 2 ^ Z.pos k).
      + apply iter_shr_1. lia.
      + rewrite Hm', <- Z.mul_assoc, <- Z.pow_add_r by lia.
        f_equal. f_equal. lia. }
  assert (H2 : SpecFloat.shr_fexp Double.prec Double.emax (Z.pos P) (Z.log2 n - 52)
                 SpecFloat.loc_Exact
               = (shr_exact (Z.pos P), Z.log2 n - 52)).
  { unfold SpecFloat.shr_fexp. rewrite Zdigits2_log2, Hlog', fexp_normal by lia.
    cbn [SpecFloat.shr_record_of_loc].
    replace (52 + 1 + (Z.log2 n - 52) - 53 - (Z.log2 n - 52)) with 0 by lia.
    reflexivity. }
  unfold SpecFloat.binary_round_aux. rewrite H1.
  cbn [SpecFloat.shr_m SpecFloat.loc_of_shr_record SpecFloat.round_nearest_even].
  rewrite H2. cbn [SpecFloat.shr_m].
  unfold Double.emax, Double.prec.
  destruct (Z.leb_spec (Z.log2 n - 52) (1024 - 53)); [reflexivity | lia].
Qed.

(** Normalizing an integer below 2^53 held at a non-positive exponent. *)
Lemma binary_round_exact s M E n :
  0 < n < 2 ^ 53 -> - 1000 <= E <= 0 ->
  Z.pos M = n * 2 ^ (- E) ->
  SpecFloat.binary_round Double.prec Double.emax s M E = normal_double s n.
Proof.
  intros Hn HE HM.
  destruct (shifted_mantissa n Hn) as (Hlog & Hpos & Hlog').
  unfold SpecFloat.binary_round.
  assert (Hd : Z.pos (SpecFloat.digits2_pos M) = Z.log2 n - E + 1).
  { change (Z.pos (SpecFloat.digits2_pos M)) with (SpecFloat.Zdigits2 (Z.pos M)).
    rewrite Zdigits2_log2, HM, log2_shifted by lia. lia. }
  rewrite Hd, fexp_normal by lia.
  unfold SpecFloat.shl_align.
  destruct (Z.log2 n - E + 1 + E - 53 - E) as [| k | k] eqn:Hk.
  - apply binary_round_aux_exact; [exact Hn | lia | exact HM | lia].
  - apply binary_round_aux_exact; [exact Hn | lia | exact HM | lia].
  - apply binary_round_aux_exact; [exact Hn | lia | | lia].
    rewrite Pos_iter_xO, HM, <- Z.mul_assoc, <- Z.pow_add_r by lia.
    f_equal. f_equal. lia.
Qed.

Lemma of_int_exact n : - 2 ^ 53 < n < 2 ^ 53 -> Double.of_int n = exact_double n.
Proof.
  intros Hn. unfold Double.of_int, SpecFloat.binary_normalize, exact_double.
  destruct n as [| p | p]; [reflexivity | |].
  - apply binary_round_exact; [lia | lia | simpl; lia].
  - apply binary_round_exact; [lia | lia | simpl; lia].
Qed.

Lemma exact_double_pos n : 0 < n -> exact_double n = normal_double false n.
Proof. intros Hn. destruct n; try lia. reflexivity. Qed.

Lemma exact_double_neg n : n < 0 -> exact_double n = normal_double true (- n).
Proof. intros Hn. destruct n; try lia. reflexivity. Qed.

Lemma normal_mantissa n :
  0 < n < 2 ^ 53 ->
  Z.pos (Z.to_pos (n * 2 ^ (52 - Z.log2 n))) = n * 2 ^ (52 - Z.log2 n).
Proof.
  intros Hn. destruct (shifted_mantissa n Hn) as (_ & Hpos & _).
  apply Z2Pos.id, Hpos.
Qed.

Lemma mul_normal s p n :
  0 < p -> 0 < n -> p * n < 2 ^ 53 ->
  Double.mul (normal_double false p) (normal_double s n) = normal_double s (p * n).
Proof.
  intros Hp Hn Hpn.
  assert (Hp' : p < 2 ^ 53) by nia. assert (Hn' : n < 2 ^ 53) by nia.
  destruct (shifted_mantissa p ltac:(lia)) as (Hlp & _ & _).
  destruct (shifted_mantissa n ltac:(lia)) as (Hln & _ & _).
  pose proof (Z.log2_mul_below p n Hp Hn) as Hbelow.
  unfold Double.mul, normal_double at 1 2, SpecFloat.SFmul. cbn [xorb].
  apply binary_round_aux_exact; [nia | lia | | lia].
  rewrite Pos2Z.inj_mul, !normal_mantissa by lia.
  replace (- (Z.log2 p - 52 + (Z.log2 n - 52)))
    with ((52 - Z.log2 p) + (52 - Z.log2 n)) by lia.
  rewrite Z.pow_add_r by lia. ring.
Qed.

(** A product of integers that stays below 2^53 is exact. *)
Lemma mul_exact p n :
  0 < p -> - 2 ^ 53 < p * n < 2 ^ 53 ->
  Double.mul (exact_double p) (exact_double n) = exact_double (p * n).
Proof.
  intros Hp Hpn. rewrite (exact_double_pos p Hp).
  destruct (Z.lt_trichotomy n 0) as [Hn | [-> | Hn]].
  - rewrite (exact_double_neg n Hn), exact_double_neg by nia.
    rewrite mul_normal by nia. f_equal. ring.
  - rewrite Z.mul_0_r. reflexivity.
  - rewrite (exact_double_pos n Hn), exact_double_pos by nia.
    apply mul_normal; nia.
Qed.

Lemma shl_align_fst mx ex ez :
  ez <= ex ->
  Z.pos (SpecFloat.shl_align mx ex ez).1 = Z.pos mx * 2 ^ (ex - ez).
Proof.
  intros Hle. unfold SpecFloat.shl_align.
  destruct (ez - ex) as [| d | d] eqn:Hd; cbn [fst]; try lia.
  - replace (ex - ez) with 0 by lia. lia.
  - rewrite Pos_iter_xO. f_equal. f_equal. lia.
Qed.

Lemma sub_normal sx sy x y :
  0 < x < 2 ^ 53 -> 0 < y < 2 ^ 53 ->
  - 2 ^ 53 < SpecFloat.cond_Zopp sx x - SpecFloat.cond_Zopp sy y < 2 ^ 53 ->
  Double.sub (normal_double sx x) (normal_double sy y)
  = exact_double (SpecFloat.cond_Zopp sx x - SpecFloat.cond_Zopp sy y).
Proof.
  intros Hx Hy Hxy.
  destruct (shifted_mantissa x Hx) as (Hlx & _ & _).
  destruct (shifted_mantissa y Hy) as (Hly & _ & _).
  unfold Double.sub, normal_double, SpecFloat.SFsub.
  set (ez := Z.min (Z.log2 x - 52) (Z.log2 y - 52)).
  rewrite !shl_align_fst by lia. rewrite !normal_mantissa by lia.
  assert (Hvalue :
    SpecFloat.cond_Zopp sx (x * 2 ^ (52 - Z.log2 x) * 2 ^ (Z.log2 x - 52 - ez))
    - SpecFloat.cond_Zopp sy (y * 2 ^ (52 - Z.log2 y) * 2 ^ (Z.log2 y - 52 - ez))
    = (SpecFloat.cond_Zopp sx x - SpecFloat.cond_Zopp sy y) * 2 ^ (- ez)).
  { rewrite <- !Z.mul_assoc, <- !Z.pow_add_r by lia.
    replace (52 - Z.log2 x + (Z.log2 x - 52 - ez)) with (- ez) by lia.
    replace (52 - Z.log2 y + (Z.log2 y - 52 - ez)) with (- ez) by lia.
    destruct sx, sy; cbn [SpecFloat.cond_Zopp]; ring. }
  rewrite Hvalue.
  set (v := SpecFloat.cond_Zopp sx x - SpecFloat.cond_Zopp sy y) in *.
  assert (Hpow : 0 < 2 ^ (- ez)) by (apply Z.pow_pos_nonneg; lia).
  unfold SpecFloat.binary_normalize.
  destruct (v * 2 ^ (- ez)) as [| M | M] eqn:HM.
  - assert (v = 0) as -> by nia. reflexivity.
  - assert (Hv : 0 < v) by nia. rewrite (exact_double_pos v Hv).
    apply binary_round_exact; [lia | lia | lia].
  - assert (Hv : v < 0) by nia. rewrite (exact_double_neg v Hv).
    apply binary_round_exact; [lia | lia |].
    rewrite Z.mul_opp_l, HM. reflexivity.
Qed.

(** A difference of integers below 2^53 that stays below 2^53 is exact. *)
Lemma sub_exact x y :
  - 2 ^ 53 < x < 2 ^ 53 -> - 2 ^ 53 < y < 2 ^ 53 -> - 2 ^ 53 < x - y < 2 ^ 53 ->
  Double.sub (exact_double x) (exact_double y) = exact_double (x - y).
Proof.
  intros Hx Hy Hxy.
  destruct (Z.lt_trichotomy y 0) as [Hy0 | [-> | Hy0]].
  - rewrite (exact_double_neg y Hy0).
    destruct (Z.lt_trichotomy x 0) as [Hx0 | [-> | Hx0]].
    + rewrite (exact_double_neg x Hx0), sub_normal by (cbn; lia).
      f_equal. cbn. lia.
    + replace (0 - y) with (- y) by lia.
      rewrite (exact_double_pos (- y)) by lia. reflexivity.
    + rewrite (exact_double_pos x Hx0), sub_normal by (cbn; lia).
      f_equal. cbn. lia.
  - rewrite Z.sub_0_r. destruct x; reflexivity.
  - rewrite (exact_double_pos y Hy0).
    destruct (Z.lt_trichotomy x 0) as [Hx0 | [-> | Hx0]].
    + rewrite (exact_double_neg x Hx0), sub_normal by (cbn; lia).
      f_equal. cbn. lia.
    + replace (0 - y) with (- y) by lia.
      rewrite (exact_double_neg (- y)) by lia.
      rewrite Z.opp_involutive. reflexivity.
    + rewrite (exact_double_pos x Hx0), sub_normal by (cbn; lia).
      f_equal.
Qed.

Lemma div_between q n p : 0 < p -> n * p <= q < (n + 1) * p -> q / p = n.
Proof.
  intros Hp Hq. symmetry. apply (Z.div_unique q p n (q - n * p)); [| ring].
  left. lia.
Qed.

Lemma shiftl_neg a k : 0 <= k -> Z.shiftl a (- k) = a / 2 ^ k.
Proof. intros Hk. rewrite <- Z.shiftr_div_pow2 by exact Hk. reflexivity. Qed.

(** The root of an integer scaled by an even power of two, against the
    scaled integer root. *)
Lemma sqrtrem_scaled D p q r :
  0 <= D -> 0 < p -> D * (p * p) = q * q + r -> 0 <= r <= 2 * q ->
  Z.sqrt D * p <= q < (Z.sqrt D + 1) * p.
Proof.
  intros HD Hp Hq Hr.
  pose proof (Z.sqrt_spec D HD) as Hn. cbv zeta in Hn.
  pose proof (Z.sqrt_nonneg D) as Hn0.
  set (n := Z.sqrt D) in *. unfold Z.succ in Hn. split.
  - destruct (Z.le_gt_cases (n * p) q) as [Hle | Hgt]; [exact Hle | exfalso].
    assert (H1 : (q + 1) * (q + 1) <= (n * p) * (n * p)) by nia.
    nia.
  - destruct (Z.lt_ge_cases q ((n + 1) * p)) as [Hlt | Hge]; [exact Hlt | exfalso].
    assert (H1 : ((n + 1) * p) * ((n + 1) * p) <= q * q) by nia.
    nia.
Qed.

Lemma shr_fexp_53 q E loc :
  2 ^ 52 <= q < 2 ^ 53 -> - 1000 <= E ->
  SpecFloat.shr_fexp Double.prec Double.emax q E loc
  = (SpecFloat.shr_record_of_loc q loc, E).
Proof.
  intros Hq HE. unfold SpecFloat.shr_fexp.
  destruct q as [| Q | Q]; try lia.
  rewrite Zdigits2_log2, (Z.log2_unique (Z.pos Q) 52) by (unfold Z.succ; lia).
  rewrite fexp_normal by lia.
  replace (52 + 1 + E - 53 - E) with 0 by lia. reflexivity.
Qed.

(** Rounding a mantissa of 53 bits to nearest: one unit is added when the
    discarded part is more than half a unit. *)
Lemma binary_round_aux_53 q E (up : bool) loc :
  2 ^ 52 <= q < 2 ^ 53 -> - 1000 <= E <= 0 ->
  loc = (if up then SpecFloat.loc_Inexact Gt else SpecFloat.loc_Inexact Lt)
  \/ (up = false /\ loc = SpecFloat.loc_Exact) ->
  q + (if up then 1 else 0) < 2 ^ 53 ->
  SpecFloat.binary_round_aux Double.prec Double.emax false q E loc
  = SpecFloat.S754_finite false (Z.to_pos (q + (if up then 1 else 0))) E.
Proof.
  intros Hq HE Hloc Hq'. unfold SpecFloat.binary_round_aux.
  rewrite shr_fexp_53 by lia.
  assert (Hround : SpecFloat.round_nearest_even
                     (SpecFloat.shr_m (SpecFloat.shr_record_of_loc q loc))
                     (SpecFloat.loc_of_shr_record (SpecFloat.shr_record_of_loc q loc))
                   = q + (if up then 1 else 0)).
  { destruct Hloc as [-> | [-> ->]]; [destruct up |]; cbn; lia. }
  rewrite Hround, shr_fexp_53 by (destruct up; lia).
  cbn [SpecFloat.shr_record_of_loc SpecFloat.shr_m].
  destruct (q + (if up then 1 else 0)) as [| Q | Q] eqn:HQ; try (destruct up; lia).
  unfold Double.emax, Double.prec.
  destruct (Z.leb_spec E (1024 - 53)); [reflexivity | lia].
Qed.

(** The rounded root of a mantissa of 53 bits held at a negative
    exponent: the rounding never reaches the next integer. *)
Lemma sqrt_normal D :
  0 < D < 2 ^ 52 ->
  Double.to_int (Double.sqrt (normal_double false D)) = Z.sqrt D.
Proof.
  intros HD.
  destruct (shifted_mantissa D ltac:(lia)) as (Hl & Hmpos & Hlm).
  pose proof (log2_below D 52 ltac:(lia) ltac:(lia) ltac:(lia)) as Hl52.
  pose proof (normal_mantissa D ltac:(lia)) as Hmant.
  unfold Double.sqrt, normal_double, SpecFloat.SFsqrt, SpecFloat.SFsqrt_core_binary.
  rewrite Zdigits2_log2, Hmant, Hlm.
  set (e := Z.log2 D - 52) in *.
  set (k := 26 - e / 2).
  assert (Hk : 27 <= k <= 52)
    by (subst k e; Z.to_euclidean_division_equations; lia).
  assert (He' : Z.min (SpecFloat.fexp Double.prec Double.emax (Z.div2 (52 + 1 + e + 1)))
                      (Z.div2 e) = - k).
  { rewrite !Z.div2_div, fexp_normal
      by (subst e; Z.to_euclidean_division_equations; lia).
    subst k e. Z.to_euclidean_division_equations. lia. }
  rewrite He'.
  assert (Hs : e - 2 * - k = 2 * k + e) by lia. rewrite Hs.
  assert (Hspos : 0 < 2 * k + e) by (subst e; lia).
  assert (Hexp : 52 - Z.log2 D + (2 * k + e) = k + k) by (subst e; lia).
  set (P := 2 ^ k).
  assert (HP : 2 ^ 27 <= P).
  { subst P. apply Z.pow_le_mono_r; lia. }
  assert (Hm' : match 2 * k + e with
                | 0 => D * 2 ^ (52 - Z.log2 D)
                | Z.pos _ => Z.shiftl (D * 2 ^ (52 - Z.log2 D)) (2 * k + e)
                | Z.neg _ => 0
                end = D * (P * P)).
  { destruct (2 * k + e) as [| sp | sp]; try lia.
    rewrite Z.shiftl_mul_pow2 by lia.
    rewrite <- Z.mul_assoc, <- Z.pow_add_r, Hexp by lia.
    subst P. rewrite Z.pow_add_r by lia. reflexivity. }
  rewrite Hm'.
  pose proof (Z.sqrtrem_spec (D * (P * P)) ltac:(nia)) as Hspec.
  destruct (Z.sqrtrem (D * (P * P))) as [q r]. destruct Hspec as [Hq Hr].
  destruct (sqrtrem_scaled D P q r ltac:(lia) ltac:(lia) Hq Hr) as [Hlo Hhi].
  pose proof (Z.sqrt_spec D ltac:(lia)) as Hn. cbv zeta in Hn. unfold Z.succ in Hn.
  pose proof (Z.sqrt_nonneg D) as Hn0.
  set (n := Z.sqrt D) in *.
  assert (Hn26 : n < 2 ^ 26) by nia.
  assert (Hq52 : 2 ^ 52 <= q < 2 ^ 53).
  { assert (Hm : 2 ^ 52 <= D * 2 ^ (52 - Z.log2 D) < 2 ^ 53).
    { pose proof (Z.log2_spec _ Hmpos) as Hspec. rewrite Hlm in Hspec.
      unfold Z.succ in Hspec. exact Hspec. }
    assert (Hshift : 2 ^ 52 <= 2 ^ (2 * k + e) <= 2 ^ 53).
    { split; apply Z.pow_le_mono_r; subst k e;
        Z.to_euclidean_division_equations; lia. }
    assert (Hscaled : D * (P * P) = D * 2 ^ (52 - Z.log2 D) * 2 ^ (2 * k + e)).
    { rewrite <- Z.mul_assoc, <- Z.pow_add_r, Hexp by lia.
      subst P. rewrite Z.pow_add_r by lia. reflexivity. }
    set (m := D * 2 ^ (52 - Z.log2 D)) in *. set (S := 2 ^ (2 * k + e)) in *.
    split.
    - destruct (Z.le_gt_cases (2 ^ 52) q) as [Hle | Hgt]; [exact Hle | exfalso].
      assert ((q + 1) * (q + 1) <= 2 ^ 52 * 2 ^ 52) by nia. nia.
    - destruct (Z.lt_ge_cases q (2 ^ 53)) as [Hlt | Hge]; [exact Hlt | exfalso].
      assert (2 ^ 53 * 2 ^ 53 <= q * q) by nia. nia. }
  set (up := negb (r =? 0) && negb (r <=? q)).
  assert (Hup : up = true -> q < r).
  { subst up. intros Hu. apply andb_true_iff in Hu as [_ Hu].
    apply negb_true_iff, Z.leb_gt in Hu. exact Hu. }
  assert (Hbelow : q + (if up then 1 else 0) < (n + 1) * P).
  { destruct up; [| lia]. specialize (Hup eq_refl).
    destruct (Z.lt_ge_cases (q + 1) ((n + 1) * P)) as [Hlt | Hge]; [exact Hlt |].
    exfalso. assert (Heq : q + 1 = (n + 1) * P) by lia.
    assert (HPP : 2 ^ 27 * 2 ^ 27 <= P * P) by nia.
    assert (Hle : D * (P * P) <= (q + 1) * (q + 1) - P * P).
    { rewrite Heq. nia. }
    nia. }
  assert (Hq53 : q + (if up then 1 else 0) < 2 ^ 53).
  { destruct up; [| lia].
    destruct (Z.lt_ge_cases (q + 1) (2 ^ 53)) as [Hlt | Hge]; [exact Hlt |].
    exfalso. assert (Heq : q + 1 = 2 ^ 53) by lia.
    assert (Hmult : 2 ^ 53 = 2 ^ (53 - k) * P).
    { subst P. rewrite <- Z.pow_add_r by lia. f_equal. lia. }
    assert (Hc : 0 < 2 ^ (53 - k)) by (apply Z.pow_pos_nonneg; lia).
    set (c := 2 ^ (53 - k)) in *.
    assert (n + 1 <= c) by nia. nia. }
  assert (Hloc : (if r =? 0
                  then SpecFloat.loc_Exact
                  else SpecFloat.loc_Inexact (if r <=? q then Lt else Gt))
                 = (if up then SpecFloat.loc_Inexact Gt else SpecFloat.loc_Inexact Lt)
                 \/ (up = false /\ (if r =? 0
                                     then SpecFloat.loc_Exact
                                     else SpecFloat.loc_Inexact
                                            (if r <=? q then Lt else Gt))
                                    = SpecFloat.loc_Exact)).
  { subst up. destruct (r =? 0); [right; split; reflexivity |].
    destruct (r <=? q); left; reflexivity. }
  rewrite (binary_round_aux_53 q (- k) up _ Hq52 ltac:(lia) Hloc Hq53).
  unfold Double.to_int. cbn [SpecFloat.cond_Zopp].
  rewrite Z2Pos.id by (destruct up; lia).
  rewrite shiftl_neg by lia. fold P.
  rewrite (div_between _ n P) by (destruct up; lia).
  destruct (Z.leb_spec (- 2 ^ 31) n); [| lia].
  destruct (Z.ltb_spec n (2 ^ 31)); [reflexivity | lia].
Qed.

(** The truncated double root of an integer below 2^52 is its integer
    square root. *)
Lemma sqrt_exact D :
  0 <= D < 2 ^ 52 -> Double.to_int (Double.sqrt (exact_double D)) = Z.sqrt D.
Proof.
  intros HD. destruct (Z.eq_dec D 0) as [-> | Hnz]; [reflexivity |].
  rewrite exact_double_pos by lia. apply sqrt_normal. lia.
Qed.

Lemma linear_quotient_fits n u v T :
  n = 1 \/ n = 2 -> 0 < u <= 2 ^ 24 -> 0 <= v <= 2 ^ 24 -> 0 <= T < 2 ^ 31 ->
  - 2 ^ 31 <= Z.quot (T - u * v) (n * u) < 2 ^ 31.
Proof.
  intros Hn Hu Hv HT.
  change (2 ^ 24) with 16777216 in *. change (2 ^ 31) with 2147483648 in *.
  assert (Huv : 0 <= u * v <= 16777216 * u) by nia.
  set (p := u * v) in *.
  assert (Hb : n * u <> 0) by nia.
  pose proof (Z.quot_rem' (T - p) (n * u)) as Hq.
  pose proof (Z.rem_bound_abs (T - p) (n * u) Hb) as Hr.
  set (q := Z.quot (T - p) (n * u)) in *.
  set (r := Z.rem (T - p) (n * u)) in *.
  destruct Hn as [-> | ->]; nia.
Qed.

(** Where the extents are at most 2^24 and the target area is below
    2^31, every conversion of ComputeExpansionDelta is exact. *)
Lemma ComputeExpansionDelta_exact nx ny w h T :
  0 <= nx <= 2 -> 0 <= ny <= 2 ->
  0 <= w <= 2 ^ 24 -> 0 <= h <= 2 ^ 24 -> 0 <= T < 2 ^ 31 ->
  ComputeExpansionDelta nx ny w h T = exact_delta nx ny w h T.
Proof.
  intros Hnx Hny Hw Hh HT.
  unfold ComputeExpansionDelta, exact_delta.
  change (2 ^ 24) with 16777216 in *. change (2 ^ 31) with 2147483648 in *.
  assert (Hwh : 0 <= w * h <= 16777216 * 16777216) by nia.
  assert (Hbounds :
    0 <= ny * w + nx * h <= 67108864 /\ 0 <= ny * nx <= 4 /\
    - 33554432 <= ny * w - nx * h <= 33554432).
  { assert (Hx : nx = 0 \/ nx = 1 \/ nx = 2) by lia.
    assert (Hy : ny = 0 \/ ny = 1 \/ ny = 2) by lia.
    destruct Hx as [-> | [-> | ->]], Hy as [-> | [-> | ->]]; lia. }
  destruct Hbounds as (Hb & Ha4 & Hdiff).
  rewrite (to_int_small (ny * nx)) by (change (2 ^ 31) with 2147483648; lia).
  rewrite (to_int_small (ny * w + nx * h))
    by (change (2 ^ 31) with 2147483648; lia).
  rewrite (to_int64_small (w * h - T))
    by (change (2 ^ 63) with 9223372036854775808; lia).
  rewrite (to_int64_small (- (w * h - T)))
    by (change (2 ^ 63) with 9223372036854775808; lia).
  destruct (Z.eqb_spec (ny * nx) 0) as [Ha | Ha].
  - apply to_int_small. change (2 ^ 31) with 2147483648.
    replace (- (w * h - T)) with (T - w * h) by lia.
    destruct (Z.eq_dec (ny * w + nx * h) 0) as [-> | Hbnz].
    { rewrite Z.quot_0_r_ext by reflexivity. lia. }
    assert (Hcases : nx = 0 \/ ny = 0) by nia.
    destruct Hcases as [-> | ->].
    + replace (ny * w + 0 * h) with (ny * w) in * by lia.
      apply linear_quotient_fits; lia.
    + replace (0 * w + nx * h) with (nx * h) in * by lia.
      replace (w * h) with (h * w) by lia.
      apply linear_quotient_fits; lia.
  - cbv zeta.
    assert (Hid : (ny * w + nx * h) * (ny * w + nx * h) - 4 * (ny * nx) * (w * h - T)
                  = (ny * w - nx * h) * (ny * w - nx * h) + 4 * (ny * nx) * T)
      by ring.
    set (a := ny * nx) in *. set (b := ny * w + nx * h) in *.
    set (c := w * h - T) in *. set (g := ny * w - nx * h) in *.
    assert (Hbb : 0 <= b * b <= 67108864 * 67108864) by nia.
    assert (Hc : - 2147483648 < c <= 16777216 * 16777216) by (subst c; lia).
    assert (Hac : - 2 ^ 53 < 4 * a * c < 2 ^ 53).
    { change (2 ^ 53) with 9007199254740992. nia. }
    assert (Hgg : 0 <= g * g <= 33554432 * 33554432) by nia.
    assert (HD : 0 <= b * b - 4 * a * c < 2 ^ 52).
    { rewrite Hid. change (2 ^ 52) with 4503599627370496. nia. }
    change (2 ^ 53) with 9007199254740992 in Hac.
    rewrite (to_int64_small (b * b))
      by (change (2 ^ 63) with 9223372036854775808; lia).
    rewrite !of_int_exact by (change (2 ^ 53) with 9007199254740992; lia).
    rewrite (mul_exact 4 a) by (change (2 ^ 53) with 9007199254740992; lia).
    rewrite (mul_exact (4 * a) c) by (change (2 ^ 53) with 9007199254740992; lia).
    rewrite sub_exact by (change (2 ^ 53) with 9007199254740992; lia).
    rewrite sqrt_exact by exact HD.
    assert (Hs : 0 <= Z.sqrt (b * b - 4 * a * c) < 67108864).
    { split; [apply Z.sqrt_nonneg |].
      apply Z.sqrt_lt_square; [lia | lia |].
      change (2 ^ 52) with 4503599627370496 in HD. lia. }
    rewrite (to_int_small (- b + _)) by (change (2 ^ 31) with 2147483648; lia).
    rewrite (to_int_small (2 * a)) by (change (2 ^ 31) with 2147483648; lia).
    reflexivity.
Qed.

(** ** The expansion delta *)

Lemma sqrt_bounds d : 0 <= d ->
  Z.sqrt d * Z.sqrt d <= d < (Z.sqrt d + 1) * (Z.sqrt d + 1) /\ 0 <= Z.sqrt d.
Proof.
  intros Hd. split.
  - apply Z.sqrt_spec; assumption.
  - apply Z.sqrt_nonneg.
Qed.

(** [(2 a d + b)^2 - D = 4 a ((w + nx d) (h + ny d) - T)]. *)
Lemma discriminant_identity nx ny w h T d :
  let a := ny * nx in
  let b := ny * w + nx * h in
  let c := w * h - T in
  (2 * a * d + b) * (2 * a * d + b) - (b * b - 4 * a * c)
  = 4 * a * ((w + nx * d) * (h + ny * d) - T).
Proof. cbv zeta. ring. Qed.

Lemma square_le_mono u v : 0 <= u -> u <= v -> u * u <= v * v.
Proof. intros. nia. Qed.

Lemma square_lt_mono u v : 0 <= u -> u < v -> u * u < v * v.
Proof. intros. nia. Qed.

Lemma exact_delta_grows nx ny w h T :
  0 <= nx -> 0 <= ny -> 0 <= w -> 0 <= h -> w * h <= T ->
  0 <= exact_delta nx ny w h T /\
  forall e, 0 <= e <= exact_delta nx ny w h T ->
            (w + nx * e) * (h + ny * e) <= T.
Proof.
  intros Hnx Hny Hw Hh Harea. unfold exact_delta.
  set (a := ny * nx). set (b := ny * w + nx * h). set (c := w * h - T).
  assert (Ha : 0 <= a) by (subst a; nia).
  assert (Hb : 0 <= b) by (subst b; nia).
  assert (Hc : c <= 0) by (subst c; lia).
  destruct (Z.eqb_spec a 0) as [Ha0 | Ha0].
  - assert (Hq : 0 <= Z.quot (- c) b /\ b * Z.quot (- c) b <= - c).
    { destruct (Z.eq_dec b 0) as [-> | Hbnz].
      - rewrite Z.quot_0_r_ext by reflexivity. lia.
      - Z.to_euclidean_division_equations. nia. }
    destruct Hq as [Hq0 Hq1]. split; [exact Hq0 |].
    intros e He.
    assert (Hexp : (w + nx * e) * (h + ny * e) = w * h + b * e + a * (e * e))
      by (subst a b; ring).
    rewrite Hexp, Ha0. subst c. nia.
  - assert (Hapos : 0 < a) by lia.
    set (D := b * b - 4 * a * c).
    assert (HD : b * b <= D) by (subst D; nia).
    destruct (sqrt_bounds D) as [[Hs1 Hs2] Hs0]; [nia |].
    set (s := Z.sqrt D) in *.
    assert (Hbs : b <= s) by nia.
    assert (Hq : 0 <= Z.quot (- b + s) (2 * a)
                 /\ 2 * a * Z.quot (- b + s) (2 * a) <= - b + s).
    { Z.to_euclidean_division_equations. nia. }
    destruct Hq as [Hq0 Hq1]. split; [exact Hq0 |].
    intros e He.
    assert (Hle : 2 * a * e + b <= s) by nia.
    assert (Hsq : (2 * a * e + b) * (2 * a * e + b) <= D).
    { etransitivity; [apply square_le_mono; [nia | exact Hle] | exact Hs1]. }
    pose proof (discriminant_identity nx ny w h T e) as Hid. cbv zeta in Hid.
    fold a b c in Hid. fold D in Hid.
    nia.
Qed.

Lemma exact_delta_22_upper w h T :
  0 <= w -> 0 <= h -> 0 < T ->
  T < (w + 2 * (exact_delta 2 2 w h T + 1))
      * (h + 2 * (exact_delta 2 2 w h T + 1)).
Proof.
  intros Hw Hh HT. unfold exact_delta.
  change (2 * 2 =? 0) with false. cbv iota.
  set (b := 2 * w + 2 * h). set (c := w * h - T).
  set (D := b * b - 4 * (2 * 2) * c).
  assert (HD : 0 <= D).
  { assert (HDeq : D = 4 * ((w - h) * (w - h)) + 16 * T) by (subst D b c; ring).
    pose proof (Z.square_nonneg (w - h)). lia. }
  destruct (sqrt_bounds D) as [[Hs1 Hs2] Hs0]; [exact HD |].
  set (s := Z.sqrt D) in *.
  change (2 * (2 * 2)) with 8.
  set (d := Z.quot (- b + s) 8).
  assert (Hq : - b + s < 8 * d + 8).
  { clearbody s b D. subst d. Z.to_euclidean_division_equations. lia. }
  assert (Hb : 0 <= b) by (subst b; lia).
  assert (Hlt : s + 1 <= b + 8 * (d + 1)) by lia.
  assert (Hsq : D < (b + 8 * (d + 1)) * (b + 8 * (d + 1))).
  { eapply Z.lt_le_trans; [exact Hs2 |]. apply square_le_mono; lia. }
  pose proof (discriminant_identity 2 2 w h T (d + 1)) as Hid. cbv zeta in Hid.
  fold b c in Hid. fold D in Hid.
  nia.
Qed.

Lemma exact_delta_22_shrinks w h T :
  0 <= w -> 0 <= h -> 0 < T -> T < w * h ->
  exact_delta 2 2 w h T <= 0.
Proof.
  intros Hw Hh HT Harea. unfold exact_delta.
  change (2 * 2 =? 0) with false. cbv iota.
  set (b := 2 * w + 2 * h). set (c := w * h - T).
  set (D := b * b - 4 * (2 * 2) * c).
  assert (HD : 0 <= D).
  { assert (HDeq : D = 4 * ((w - h) * (w - h)) + 16 * T) by (subst D b c; ring).
    pose proof (Z.square_nonneg (w - h)). lia. }
  destruct (sqrt_bounds D) as [[Hs1 Hs2] Hs0]; [exact HD |].
  set (s := Z.sqrt D) in *.
  assert (Hb : 0 <= b) by (subst b; lia).
  assert (Hsb : s <= b).
  { assert (D < b * b) by (subst D c; nia). nia. }
  change (2 * (2 * 2)) with 8. clearbody s b D.
  Z.to_euclidean_division_equations. lia.
Qed.

(** The same facts for the function itself, where its conversions are
    exact. *)
Lemma ComputeExpansionDelta_grows nx ny w h T :
  0 <= nx <= 2 -> 0 <= ny <= 2 -> 0 <= w <= 2 ^ 24 -> 0 <= h <= 2 ^ 24 ->
  w * h <= T -> T < 2 ^ 31 ->
  0 <= ComputeExpansionDelta nx ny w h T /\
  forall e, 0 <= e <= ComputeExpansionDelta nx ny w h T ->
            (w + nx * e) * (h + ny * e) <= T.
Proof.
  intros Hnx Hny Hw Hh Harea HT.
  rewrite ComputeExpansionDelta_exact by (try assumption; nia).
  apply exact_delta_grows; lia.
Qed.

Lemma ComputeExpansionDelta_22_upper w h T :
  0 <= w <= 2 ^ 24 -> 0 <= h <= 2 ^ 24 -> 0 < T < 2 ^ 31 ->
  T < (w + 2 * (ComputeExpansionDelta 2 2 w h T + 1))
      * (h + 2 * (ComputeExpansionDelta 2 2 w h T + 1)).
Proof.
  intros Hw Hh HT. rewrite ComputeExpansionDelta_exact by lia.
  apply exact_delta_22_upper; lia.
Qed.

Lemma ComputeExpansionDelta_22_shrinks w h T :
  0 <= w <= 2 ^ 24 -> 0 <= h <= 2 ^ 24 -> 0 < T < 2 ^ 31 -> T < w * h ->
  ComputeExpansionDelta 2 2 w h T <= 0.
Proof.
  intros Hw Hh HT Harea. rewrite ComputeExpansionDelta_exact by lia.
  apply exact_delta_22_shrinks; lia.
Qed.

Lemma sort_events_sorted_perm (l : list EdgeEvent) :
  length l = 4%nat ->
  l ≡ₚ sort_events l /\ StronglySorted closer (sort_events l).
Proof.
  intros Hlen.
  destruct l as [| e0 [| e1 [| e2 [| e3 [| ? ?]]]]]; try discriminate Hlen.
  unfold sort_events, swap_if_greater; simpl.
  repeat (match goal with
          | |- context [if ?a <? ?b then _ else _] =>
              destruct (Z.ltb_spec a b); simpl
          end).
  all: split;
    [ do 4 place_head; constructor
    | repeat constructor; unfold closer; lia ].
Qed.

Lemma count_edge_cons e e' es :
  count_edge e (e' :: es) = (if decide (e' = e) then 1 else 0) + count_edge e es.
Proof.
  unfold count_edge. simpl. destruct (Edge_eq_dec e' e); destruct (decide (e' = e));
    try contradiction; lia.
Qed.

Lemma count_edge_nonneg e es : 0 <= count_edge e es.
Proof. unfold count_edge. lia. Qed.

Lemma move_edges_spec B es delta st :
  let st' := move_edges es delta st in
  (forall e, edge_dist B st' e = edge_dist B st e - delta * count_edge e es) /\
  cur_width st' = cur_width st + delta * (count_edge LEFT es + count_edge RIGHT es) /\
  cur_height st' = cur_height st + delta * (count_edge BOTTOM es + count_edge TOP es) /\
  num_x_edges st' = num_x_edges st /\ num_y_edges st' = num_y_edges st /\
  events st' = events st.
Proof.
  revert st. induction es as [| e0 es IH]; intros st; cbv zeta.
  - unfold move_edges, count_edge; simpl.
    split; [intros e; lia | repeat split; lia].
  - change (move_edges (e0 :: es) delta st)
      with (move_edges es delta (move_edge e0 delta st)).
    destruct (IH (move_edge e0 delta st)) as (Hd & Hw & Hh & Hnx & Hny & Hev).
    rewrite !count_edge_cons.
    split; [| split; [| split; [| split; [| split]]]].
    + intros e. rewrite Hd, count_edge_cons.
      destruct e0, e; simpl; repeat case_decide; try congruence; lia.
    + rewrite Hw. destruct e0; simpl; repeat case_decide; try congruence; lia.
    + rewrite Hh. destruct e0; simpl; repeat case_decide; try congruence; lia.
    + rewrite Hnx. destruct e0; reflexivity.
    + rewrite Hny. destruct e0; reflexivity.
    + rewrite Hev. destruct e0; reflexivity.
Qed.

Lemma move_edge_set_events e delta evs st :
  move_edge e delta (set_events evs st) = set_events evs (move_edge e delta st).
Proof. destruct e; reflexivity. Qed.

Lemma move_edges_set_events es delta evs st :
  move_edges es delta (set_events evs st) = set_events evs (move_edges es delta st).
Proof.
  revert st. induction es as [| e es IH]; intros st; [reflexivity |].
  unfold move_edges in *; simpl. rewrite move_edge_set_events. apply IH.
Qed.

Lemma set_events_twice evs evs' st :
  set_events evs (set_events evs' st) = set_events evs st.
Proof. reflexivity. Qed.

(** The inner loop in closed form: the events from [k] on lose [delta]
    and their edges move. *)
Lemma apply_delta_fold delta (m k : nat) st :
  (k + m)%nat = length (events st) ->
  fold_left (apply_delta_at delta) (seq k m) st
  = set_events (take k (events st)
                ++ map (reduce_distance delta) (drop k (events st)))
      (move_edges (map edge (drop k (events st))) delta st).
Proof.
  revert k st. induction m as [| m IH]; intros k st Hlen.
  - simpl. assert (Hk : (length (events st) <= k)%nat) by lia.
    rewrite drop_ge by exact Hk. rewrite take_ge by exact Hk. simpl.
    rewrite app_nil_r. destruct st; reflexivity.
  - simpl.
    destruct (lookup_lt_is_Some_2 (events st) k) as [ev Hev]; [lia |].
    unfold apply_delta_at at 2. rewrite Hev.
    assert (Hevs : events (move_edge (edge ev) delta st) = events st)
      by (destruct (edge ev); reflexivity).
    rewrite Hevs.
    rewrite IH.
    2:{ simpl. rewrite length_insert. lia. }
    simpl events.
    rewrite drop_insert_lt by lia.
    rewrite (take_S_r _ _ _ (list_lookup_insert_eq _ _ _ (lookup_lt_Some _ _ _ Hev))).
    rewrite take_insert_ge by lia.
    rewrite (drop_S _ _ _ Hev). simpl.
    rewrite move_edges_set_events, set_events_twice.
    rewrite <- app_assoc. simpl. reflexivity.
Qed.

Lemma count_edge_NoDup e es :
  NoDup es ->
  ((e ∈ es) /\ count_edge e es = 1) \/ ((e ∉ es) /\ count_edge e es = 0).
Proof.
  intros Hnd. unfold count_edge.
  destruct (decide (e ∈ es)) as [Hin | Hnin].
  - left. split; [exact Hin |].
    apply NoDup_ListNoDup in Hnd.
    pose proof (proj1 (NoDup_count_occ Edge_eq_dec es) Hnd e) as Hle.
    apply list_elem_of_In in Hin.
    pose proof (proj1 (count_occ_In Edge_eq_dec es e) Hin) as Hgt.
    lia.
  - right. split; [exact Hnin |].
    rewrite (proj1 (count_occ_not_In Edge_eq_dec es e)); [reflexivity |].
    intros Hin. apply Hnin, list_elem_of_In, Hin.
Qed.

Lemma map_edge_reduce delta evs :
  map edge (map (reduce_distance delta) evs) = map edge evs.
Proof. rewrite map_map. apply map_ext. reflexivity. Qed.

Lemma sorted_reduce delta evs :
  StronglySorted closer evs ->
  StronglySorted closer (map (reduce_distance delta) evs).
Proof.
  induction 1 as [| ev evs Hs IH Hall]; simpl; constructor; [exact IH |].
  rewrite Forall_map. eapply Forall_impl; [exact Hall |].
  intros ev' Hc. unfold closer, reduce_distance in *; simpl. lia.
Qed.

Lemma edge_dist_decrement B c st e :
  edge_dist B (decrement_edges c st) e = edge_dist B st e.
Proof. destruct c, e; reflexivity. Qed.

Lemma edge_dist_set_events B evs st e :
  edge_dist B (set_events evs st) e = edge_dist B st e.
Proof. destruct e; reflexivity. Qed.

Section Step.

Variables (B : gfx.Rect) (T : Z) (k : nat) (st : ExpandState).
Variable event : EdgeEvent.
Hypothesis Hinv : tracks B st k.
Hypothesis Hevent : events st !! k = Some event.
Local Abbreviation delta0 :=
  (ComputeExpansionDelta (num_x_edges st) (num_y_edges st)
     (cur_width st) (cur_height st) T).
Local Abbreviation delta := (clamped_delta T st event).
Local Abbreviation pending := (drop k (events st)).
Local Abbreviation st2 := (after_step T k st event).

Lemma expand_step_unfold :
  expand_step T k st
  = (st2, delta <? match events st2 !! k with
                   | Some ev => distance ev
                   | None => 0
                   end).
Proof.
  unfold expand_step. rewrite Hevent. fold delta0.
  change (if distance event <? delta0 then distance event else delta0) with delta.
  assert (Hst2 : apply_delta delta k (decrement_edges (num_edges event) st) = st2).
  { unfold apply_delta. rewrite apply_delta_fold.
    - unfold after_step. fold delta.
      destruct (num_edges event); reflexivity.
    - pose proof (tracks_length _ _ _ Hinv) as Hlen.
      pose proof (lookup_lt_Some _ _ _ Hevent) as Hlt.
      destruct (num_edges event); simpl; lia. }
  rewrite Hst2. reflexivity.
Qed.

Lemma pending_cons : pending = event :: drop (S k) (events st).
Proof. apply drop_S, Hevent. Qed.

Lemma delta_le_distance : delta <= distance event.
Proof.
  unfold clamped_delta. fold delta0.
  destruct (Z.ltb_spec (distance event) delta0); lia.
Qed.

Lemma edge_dist_st2 e :
  edge_dist B st2 e = edge_dist B st e - delta * count_edge e (map edge pending).
Proof.
  unfold after_step. fold delta pending. rewrite edge_dist_set_events.
  destruct (move_edges_spec B (map edge pending) delta
              (decrement_edges (num_edges event) st)) as (Hd & _).
  rewrite Hd, edge_dist_decrement. reflexivity.
Qed.

Lemma pending_edge_distance ev :
  ev ∈ pending ->
  distance ev = edge_dist B st (edge ev) /\ distance event <= distance ev.
Proof.
  intros Hin. split.
  - pose proof (tracks_distance _ _ _ Hinv) as Hall.
    rewrite Forall_forall in Hall. apply Hall, Hin.
  - pose proof (tracks_sorted _ _ _ Hinv) as Hs. fold pending in Hs.
    rewrite pending_cons in Hs, Hin. inversion Hs as [| ? ? _ Hall]; subst.
    apply elem_of_cons in Hin as [-> | Hin]; [lia |].
    rewrite Forall_forall in Hall. apply Hall, Hin.
Qed.

Lemma edge_dist_st2_pending ev :
  ev ∈ pending -> edge_dist B st2 (edge ev) = distance ev - delta.
Proof.
  intros Hin. rewrite edge_dist_st2.
  destruct (count_edge_NoDup (edge ev) (map edge pending)
              (tracks_nodup _ _ _ Hinv)) as [[_ ->] | [Hnin _]].
  - destruct (pending_edge_distance ev Hin) as [-> _]. lia.
  - exfalso. apply Hnin, list_elem_of_fmap. exists ev. split; [reflexivity | exact Hin].
Qed.

Lemma st2_inside e : 0 <= edge_dist B st2 e.
Proof.
  pose proof (tracks_inside _ _ _ Hinv e) as H0.
  destruct (count_edge_NoDup e (map edge pending) (tracks_nodup _ _ _ Hinv))
    as [[Hin Hc] | [_ Hc]].
  - apply list_elem_of_fmap in Hin as (ev & -> & Hin).
    rewrite (edge_dist_st2_pending ev Hin).
    destruct (pending_edge_distance ev Hin) as [_ Hle].
    pose proof delta_le_distance. lia.
  - rewrite edge_dist_st2, Hc. lia.
Qed.

Lemma st2_pending :
  drop (S k) (events st2) = map (reduce_distance delta) (drop (S k) (events st)).
Proof.
  unfold after_step. fold delta pending.
  simpl events. rewrite pending_cons. simpl.
  pose proof (lookup_lt_Some _ _ _ Hevent) as Hlt.
  rewrite drop_app_ge by (rewrite length_take; lia).
  rewrite length_take. replace (S k - k `min` length (events st))%nat with 1%nat by lia.
  reflexivity.
Qed.

Lemma st2_event_distance :
  match events st2 !! k with
  | Some ev => distance ev
  | None => 0
  end = distance event - delta.
Proof.
  unfold after_step. fold delta pending.
  simpl events. rewrite pending_cons. simpl.
  pose proof (lookup_lt_Some _ _ _ Hevent) as Hlt.
  rewrite lookup_app_r by (rewrite length_take; lia).
  rewrite length_take. replace (k - k `min` length (events st))%nat with 0%nat by lia.
  reflexivity.
Qed.

Lemma st2_tracks : tracks B st2 (S k).
Proof.
  pose proof pending_cons as Hp.
  constructor.
  - unfold after_step. simpl events.
    rewrite length_app, length_map, length_take, length_drop.
    pose proof (tracks_length _ _ _ Hinv). lia.
  - apply st2_inside.
  - rewrite st2_pending, map_edge_reduce.
    pose proof (tracks_nodup _ _ _ Hinv) as Hnd. fold pending in Hnd.
    rewrite Hp in Hnd. simpl in Hnd. apply NoDup_cons in Hnd. tauto.
  - rewrite st2_pending, Forall_map. apply Forall_forall. intros ev Hin.
    simpl. rewrite (edge_dist_st2_pending ev); [reflexivity |].
    rewrite Hp. apply elem_of_cons. right. exact Hin.
  - rewrite st2_pending. apply sorted_reduce.
    pose proof (tracks_sorted _ _ _ Hinv) as Hs. fold pending in Hs.
    rewrite Hp in Hs. inversion Hs; assumption.
Qed.

Lemma expand_step_eq :
  expand_step T k st = (st2, delta <? distance event - delta).
Proof. rewrite expand_step_unfold, st2_event_distance. reflexivity. Qed.

Hypothesis Hgrow : growing T st k.

Lemma counters_nonneg : 0 <= num_x_edges st /\ 0 <= num_y_edges st.
Proof.
  rewrite (growing_x _ _ _ Hgrow), (growing_y _ _ _ Hgrow).
  pose proof (count_edge_nonneg LEFT (map edge (drop k (events st)))).
  pose proof (count_edge_nonneg RIGHT (map edge (drop k (events st)))).
  pose proof (count_edge_nonneg TOP (map edge (drop k (events st)))).
  pose proof (count_edge_nonneg BOTTOM (map edge (drop k (events st)))).
  lia.
Qed.

Lemma counters_at_most_two : num_x_edges st <= 2 /\ num_y_edges st <= 2.
Proof.
  rewrite (growing_x _ _ _ Hgrow), (growing_y _ _ _ Hgrow).
  pose proof (tracks_nodup _ _ _ Hinv) as Hnd.
  destruct (count_edge_NoDup LEFT _ Hnd) as [[_ ->] | [_ ->]];
    destruct (count_edge_NoDup RIGHT _ Hnd) as [[_ ->] | [_ ->]];
    destruct (count_edge_NoDup TOP _ Hnd) as [[_ ->] | [_ ->]];
    destruct (count_edge_NoDup BOTTOM _ Hnd) as [[_ ->] | [_ ->]]; lia.
Qed.

Hypothesis HT : T < 2 ^ 31.
Hypothesis HBw : gfx.width B <= 2 ^ 24.
Hypothesis HBh : gfx.height B <= 2 ^ 24.

(** Inside the bounding rectangle the extents stay in the range where
    ComputeExpansionDelta is exact. *)
Lemma extents_in_range : cur_width st <= 2 ^ 24 /\ cur_height st <= 2 ^ 24.
Proof.
  pose proof (tracks_inside _ _ _ Hinv LEFT) as Hl.
  pose proof (tracks_inside _ _ _ Hinv RIGHT) as Hr.
  pose proof (tracks_inside _ _ _ Hinv BOTTOM) as Hb.
  pose proof (tracks_inside _ _ _ Hinv TOP) as Ht.
  unfold edge_dist, gfx.right, gfx.bottom in *. lia.
Qed.

Lemma delta_grows :
  0 <= delta /\
  (cur_width st + num_x_edges st * delta)
  * (cur_height st + num_y_edges st * delta) <= T.
Proof.
  destruct counters_nonneg as [Hnx Hny].
  destruct counters_at_most_two as [Hnx2 Hny2].
  destruct extents_in_range as [Hw Hh].
  pose proof (growing_width _ _ _ Hgrow) as Hw0.
  pose proof (growing_height _ _ _ Hgrow) as Hh0.
  destruct (ComputeExpansionDelta_grows (num_x_edges st) (num_y_edges st)
              (cur_width st) (cur_height st) T ltac:(lia) ltac:(lia)
              ltac:(lia) ltac:(lia) (growing_area _ _ _ Hgrow) HT) as [H0 Hall].
  fold delta0 in H0, Hall.
  assert (Hd : 0 <= distance event).
  { assert (Hin : event ∈ pending) by (rewrite pending_cons; apply elem_of_cons; auto).
    destruct (pending_edge_distance event Hin) as [-> _].
    apply (tracks_inside _ _ _ Hinv). }
  assert (Hrange : 0 <= delta <= delta0).
  { unfold clamped_delta. fold delta0.
    destruct (Z.ltb_spec (distance event) delta0); lia. }
  split; [lia | apply Hall, Hrange].
Qed.

Lemma st2_monotone e : edge_dist B st2 e <= edge_dist B st e.
Proof.
  rewrite edge_dist_st2. destruct delta_grows as [Hd _].
  pose proof (count_edge_nonneg e (map edge pending)). nia.
Qed.

Lemma st2_growing : growing T st2 (S k).
Proof.
  pose proof pending_cons as Hp.
  destruct (move_edges_spec B (map edge pending) delta
              (decrement_edges (num_edges event) st))
    as (_ & Hw & Hh & Hnx & Hny & _).
  assert (Hst2 : st2 = set_events
                         (take k (events st) ++ map (reduce_distance delta) pending)
                         (move_edges (map edge pending) delta
                            (decrement_edges (num_edges event) st)))
    by reflexivity.
  pose proof (growing_counter _ _ _ Hgrow) as Hctr. fold pending in Hctr.
  rewrite Hp in Hctr. apply Forall_cons in Hctr as [Hc0 Hctr].
  pose proof (growing_x _ _ _ Hgrow) as Hx. pose proof (growing_y _ _ _ Hgrow) as Hy.
  fold pending in Hx, Hy.
  assert (Hw2 : cur_width st2 = cur_width st + num_x_edges st * delta).
  { rewrite Hst2. simpl cur_width. rewrite Hw, Hx.
    destruct (num_edges event); simpl; lia. }
  assert (Hh2 : cur_height st2 = cur_height st + num_y_edges st * delta).
  { rewrite Hst2. simpl cur_height. rewrite Hh, Hy.
    destruct (num_edges event); simpl; lia. }
  destruct delta_grows as [Hd Harea]. destruct counters_nonneg as [Hx0 Hy0].
  pose proof (growing_width _ _ _ Hgrow). pose proof (growing_height _ _ _ Hgrow).
  constructor.
  - rewrite st2_pending, Forall_map. eapply Forall_impl; [exact Hctr |].
    intros ev Hev. exact Hev.
  - rewrite st2_pending, map_edge_reduce.
    rewrite Hst2. simpl num_x_edges. rewrite Hnx.
    rewrite Hp in Hx. simpl in Hx. rewrite !count_edge_cons in Hx.
    destruct (num_edges event), (edge event); simpl in *;
      repeat case_decide; try congruence; try discriminate; lia.
  - rewrite st2_pending, map_edge_reduce.
    rewrite Hst2. simpl num_y_edges. rewrite Hny.
    rewrite Hp in Hy. simpl in Hy. rewrite !count_edge_cons in Hy.
    destruct (num_edges event), (edge event); simpl in *;
      repeat case_decide; try congruence; try discriminate; lia.
  - rewrite Hw2. nia.
  - rewrite Hh2. nia.
  - rewrite Hw2, Hh2. exact Harea.
Qed.

End Step.

Lemma expand_loop_inside B T n : forall k st,
  tracks B st k -> (k + n = 4)%nat ->
  forall e, 0 <= edge_dist B (expand_loop T n k st) e.
Proof.
  induction n as [| n IH]; intros k st Hinv Hk e; simpl.
  - apply (tracks_inside _ _ _ Hinv).
  - destruct (lookup_lt_is_Some_2 (events st) k) as [event Hevent].
    { rewrite (tracks_length _ _ _ Hinv). lia. }
    rewrite (expand_step_eq B T k st event Hinv Hevent).
    destruct (clamped_delta T st event <? _).
    + apply (st2_inside B T k st event Hinv Hevent).
    + apply IH; [apply (st2_tracks B T k st event Hinv Hevent) | lia].
Qed.

Lemma expand_loop_grows B T n : forall k st,
  T < 2 ^ 31 -> gfx.width B <= 2 ^ 24 -> gfx.height B <= 2 ^ 24 ->
  tracks B st k -> growing T st k -> (k + n = 4)%nat ->
  forall e, edge_dist B (expand_loop T n k st) e <= edge_dist B st e.
Proof.
  induction n as [| n IH]; intros k st HT HBw HBh Hinv Hgrow Hk e; simpl.
  - lia.
  - destruct (lookup_lt_is_Some_2 (events st) k) as [event Hevent].
    { rewrite (tracks_length _ _ _ Hinv). lia. }
    rewrite (expand_step_eq B T k st event Hinv Hevent).
    pose proof (st2_monotone B T k st event Hinv Hevent Hgrow HT HBw HBh e) as Hmono.
    destruct (clamped_delta T st event <? _); [exact Hmono |].
    etransitivity; [| exact Hmono].
    apply IH; [exact HT | exact HBw | exact HBh
              | apply (st2_tracks B T k st event Hinv Hevent)
              | apply (st2_growing B T k st event Hinv Hevent Hgrow HT HBw HBh)
              | lia].
Qed.

(** *** Rectangles as point sets *)
Lemma IsEmpty_false r : gfx.IsEmpty r = false <-> 0 < gfx.width r /\ 0 < gfx.height r.
Proof.
  unfold gfx.IsEmpty. rewrite orb_false_iff, !Z.leb_gt. reflexivity.
Qed.

Lemma IsEmpty_no_points r px py :
  gfx.IsEmpty r = true -> ~ gfx.ContainsPoint r px py.
Proof.
  unfold gfx.IsEmpty, gfx.ContainsPoint, gfx.right, gfx.bottom.
  rewrite orb_true_iff, !Z.leb_le. lia.
Qed.

Lemma IntersectRects_nonempty a b :
  gfx.IsEmpty (gfx.IntersectRects a b) = false ->
  gfx.IsEmpty a = false /\ gfx.IsEmpty b = false /\
  Z.max (gfx.x a) (gfx.x b) < Z.min (gfx.right a) (gfx.right b) /\
  Z.max (gfx.y a) (gfx.y b) < Z.min (gfx.bottom a) (gfx.bottom b) /\
  gfx.IntersectRects a b
  = gfx.RawRect (Z.max (gfx.x a) (gfx.x b)) (Z.max (gfx.y a) (gfx.y b))
      (Z.min (gfx.right a) (gfx.right b) - Z.max (gfx.x a) (gfx.x b))
      (Z.min (gfx.bottom a) (gfx.bottom b) - Z.max (gfx.y a) (gfx.y b)).
Proof.
  unfold gfx.IntersectRects.
  destruct (gfx.IsEmpty a) eqn:Ha; [simpl; discriminate |].
  destruct (gfx.IsEmpty b) eqn:Hb; [simpl; discriminate |]. simpl.
  destruct (Z.leb_spec (Z.min (gfx.right a) (gfx.right b))
                       (Z.max (gfx.x a) (gfx.x b))); [simpl; discriminate |].
  destruct (Z.leb_spec (Z.min (gfx.bottom a) (gfx.bottom b))
                       (Z.max (gfx.y a) (gfx.y b))); [simpl; discriminate |].
  simpl. intros _. repeat split; try assumption.
  unfold gfx.MakeRect. f_equal; lia.
Qed.

Lemma IntersectRects_points a b px py :
  gfx.ContainsPoint (gfx.IntersectRects a b) px py
  <-> gfx.ContainsPoint a px py /\ gfx.ContainsPoint b px py.
Proof.
  destruct (gfx.IsEmpty (gfx.IntersectRects a b)) eqn:He.
  - split.
    + intros Hp. exfalso. exact (IsEmpty_no_points _ _ _ He Hp).
    + intros [Hpa Hpb]. exfalso. revert He.
      unfold gfx.IntersectRects.
      destruct (gfx.IsEmpty a) eqn:Ha; [exfalso; exact (IsEmpty_no_points _ _ _ Ha Hpa) |].
      destruct (gfx.IsEmpty b) eqn:Hb; [exfalso; exact (IsEmpty_no_points _ _ _ Hb Hpb) |].
      simpl. unfold gfx.ContainsPoint in *.
      destruct (Z.leb_spec (Z.min (gfx.right a) (gfx.right b))
                           (Z.max (gfx.x a) (gfx.x b))); [lia |].
      destruct (Z.leb_spec (Z.min (gfx.bottom a) (gfx.bottom b))
                           (Z.max (gfx.y a) (gfx.y b))); [lia |].
      simpl. unfold gfx.IsEmpty; simpl.
      rewrite orb_true_iff, !Z.leb_le. lia.
  - destruct (IntersectRects_nonempty a b He) as (_ & _ & Hx & Hy & ->).
    unfold gfx.ContainsPoint, gfx.right, gfx.bottom; simpl. lia.
Qed.

Lemma Subset_IntersectRects_r a b : gfx.Subset (gfx.IntersectRects a b) b.
Proof. intros px py Hp. apply IntersectRects_points in Hp. tauto. Qed.

Lemma Subset_trans a b c : gfx.Subset a b -> gfx.Subset b c -> gfx.Subset a c.
Proof. unfold gfx.Subset. auto. Qed.

Lemma Subset_IntersectRects_mono a a' b :
  gfx.Subset a a' -> gfx.Subset (gfx.IntersectRects a b) (gfx.IntersectRects a' b).
Proof.
  intros Hs px py Hp. apply IntersectRects_points in Hp as [Hpa Hpb].
  apply IntersectRects_points. split; [apply Hs, Hpa | exact Hpb].
Qed.

Lemma Subset_Inset_outwards r d : 0 <= d -> gfx.Subset r (gfx.Inset r (- d) (- d)).
Proof.
  intros Hd px py. unfold gfx.ContainsPoint, gfx.Inset, gfx.Inset4, gfx.right, gfx.bottom.
  simpl. lia.
Qed.

Lemma rect_of_inside B st :
  (forall e, 0 <= edge_dist B st e) ->
  gfx.Subset (rect_of st) B /\
  (gfx.IsEmpty (rect_of st) = true \/ gfx.Contains B (rect_of st) = true).
Proof.
  intros Hin.
  pose proof (Hin BOTTOM). pose proof (Hin TOP).
  pose proof (Hin LEFT). pose proof (Hin RIGHT).
  unfold edge_dist in *. split.
  - intros px py. unfold gfx.ContainsPoint, rect_of, gfx.right, gfx.bottom in *.
    simpl. lia.
  - destruct (gfx.IsEmpty (rect_of st)) eqn:He; [left; reflexivity | right].
    apply IsEmpty_false in He. unfold rect_of in *. simpl in He.
    unfold gfx.Contains, gfx.right, gfx.bottom in *. simpl.
    rewrite !andb_true_iff, !Z.leb_le. lia.
Qed.

Lemma rect_of_grows B st st' :
  0 <= cur_width st -> 0 <= cur_height st ->
  (forall e, edge_dist B st' e <= edge_dist B st e) ->
  gfx.Subset (rect_of st) (rect_of st').
Proof.
  intros Hw Hh Hle.
  pose proof (Hle BOTTOM). pose proof (Hle TOP).
  pose proof (Hle LEFT). pose proof (Hle RIGHT).
  unfold edge_dist in *.
  intros px py. unfold gfx.ContainsPoint, rect_of, gfx.right, gfx.bottom in *.
  simpl. lia.
Qed.

Lemma loop_start_tracks a B :
  gfx.IsEmpty (gfx.IntersectRects a B) = false ->
  tracks B (loop_start (gfx.IntersectRects a B) B) 0.
Proof.
  intros He.
  destruct (IntersectRects_nonempty a B He) as (Ha & HB & Hx & Hy & Heq).
  set (rect := gfx.IntersectRects a B) in *.
  destruct (sort_events_sorted_perm (initial_events rect B) eq_refl)
    as [Hperm Hsorted].
  constructor; simpl; rewrite ?drop_0.
  - rewrite <- Hperm. reflexivity.
  - intros e. rewrite Heq. unfold edge_dist, gfx.right, gfx.bottom; simpl.
    destruct e; lia.
  - rewrite <- Hperm. simpl.
    refine (bool_decide_unpack _ _). vm_compute. exact I.
  - rewrite <- Hperm. unfold initial_events.
    repeat constructor; unfold edge_dist, gfx.right, gfx.bottom; simpl; lia.
  - exact Hsorted.
Qed.

Lemma loop_start_growing T rect B :
  0 <= gfx.width rect -> 0 <= gfx.height rect -> gfx.area rect <= T ->
  growing T (loop_start rect B) 0.
Proof.
  intros Hw Hh Harea.
  destruct (sort_events_sorted_perm (initial_events rect B) eq_refl)
    as [Hperm _].
  assert (Hcount : forall e,
            count_edge e (map edge (sort_events (initial_events rect B))) = 1).
  { intros e. unfold count_edge.
    rewrite <- (proj1 (Permutation_count_occ Edge_eq_dec _ _)
                  (Permutation_map edge Hperm) e).
    destruct e; reflexivity. }
  constructor; simpl; rewrite ?drop_0; try assumption.
  - rewrite <- Hperm. repeat constructor.
  - rewrite !Hcount. reflexivity.
  - rewrite !Hcount. reflexivity.
Qed.

Lemma expand_uncached_cases start T B :
  let rect := gfx.IntersectRects (expanded_start start T) B in
  expand_uncached start T B = rect \/
  (gfx.IsEmpty rect = false /\
   expand_uncached start T B = rect_of (expand_loop T 4 0 (loop_start rect B))).
Proof.
  cbv zeta. unfold expand_uncached, expanded_start.
  set (delta := ComputeExpansionDelta 2 2 (gfx.width start) (gfx.height start) T).
  set (expanded := if 0 <? delta then _ else _).
  destruct (gfx.IsEmpty (gfx.IntersectRects expanded B)) eqn:He; [left; reflexivity |].
  destruct (_ && _); [left; reflexivity |].
  right. split; reflexivity.
Qed.

Lemma Subset_expanded_start start T : gfx.Subset start (expanded_start start T).
Proof.
  unfold expanded_start.
  destruct (Z.ltb_spec 0 (ComputeExpansionDelta 2 2 (gfx.width start)
                            (gfx.height start) T)).
  - apply Subset_Inset_outwards. lia.
  - intros px py Hp. exact Hp.
Qed.

Lemma area_expanded_start start T :
  gfx.IsEmpty start = false -> gfx.area start <= T ->
  gfx.width start <= 2 ^ 24 -> gfx.height start <= 2 ^ 24 -> T < 2 ^ 31 ->
  0 <= gfx.width (expanded_start start T) /\
  0 <= gfx.height (expanded_start start T) /\
  gfx.area (expanded_start start T) <= T.
Proof.
  intros Hne Harea Hw24 Hh24 HT. apply IsEmpty_false in Hne as [Hw Hh].
  unfold gfx.area in *.
  assert (Hgrows := ComputeExpansionDelta_grows 2 2 (gfx.width start)
                      (gfx.height start) T ltac:(lia) ltac:(lia) ltac:(lia)
                      ltac:(lia) Harea HT).
  destruct Hgrows as [Hd Hall].
  unfold expanded_start.
  set (delta := ComputeExpansionDelta 2 2 (gfx.width start) (gfx.height start) T) in *.
  destruct (Z.ltb_spec 0 delta); [| lia].
  unfold gfx.Inset, gfx.Inset4; simpl.
  specialize (Hall delta ltac:(lia)).
  rewrite !Z.max_l by lia.
  repeat split; lia.
Qed.

(** A starting rectangle larger than the target is not grown before it
    is clipped. *)
Lemma expanded_start_larger start T :
  gfx.IsEmpty start = false -> 0 < T -> T < gfx.area start ->
  gfx.width start <= 2 ^ 24 -> gfx.height start <= 2 ^ 24 -> T < 2 ^ 31 ->
  expanded_start start T = start.
Proof.
  intros Hne HT0 Harea Hw24 Hh24 HT. apply IsEmpty_false in Hne as [Hw Hh].
  unfold gfx.area in Harea. unfold expanded_start.
  pose proof (ComputeExpansionDelta_22_shrinks (gfx.width start) (gfx.height start) T
                ltac:(lia) ltac:(lia) ltac:(lia) Harea) as Hd.
  destruct (Z.ltb_spec 0 (ComputeExpansionDelta 2 2 (gfx.width start)
                            (gfx.height start) T)); [lia | reflexivity].
Qed.

Lemma area_IntersectRects a B T :
  0 <= gfx.width a -> 0 <= gfx.height a -> gfx.area a <= T ->
  gfx.IsEmpty (gfx.IntersectRects a B) = false ->
  0 <= gfx.width (gfx.IntersectRects a B) /\
  0 <= gfx.height (gfx.IntersectRects a B) /\
  gfx.area (gfx.IntersectRects a B) <= T.
Proof.
  intros Hw Hh Harea He.
  destruct (IntersectRects_nonempty a B He) as (_ & _ & Hx & Hy & ->).
  unfold gfx.area, gfx.right, gfx.bottom in *. simpl. nia.
Qed.

(** The rectangle the loop starts from fits the target when the clipped
    start does. *)
Lemma clipped_start_fits start T B :
  gfx.IsEmpty start = false -> 0 < T ->
  gfx.width start <= 2 ^ 24 -> gfx.height start <= 2 ^ 24 -> T < 2 ^ 31 ->
  gfx.area (gfx.IntersectRects start B) <= T ->
  gfx.IsEmpty (gfx.IntersectRects (expanded_start start T) B) = false ->
  0 <= gfx.width (gfx.IntersectRects (expanded_start start T) B) /\
  0 <= gfx.height (gfx.IntersectRects (expanded_start start T) B) /\
  gfx.area (gfx.IntersectRects (expanded_start start T) B) <= T.
Proof.
  intros Hne HT0 Hw24 Hh24 HT Harea He.
  destruct (Z.le_gt_cases (gfx.area start) T) as [Hfits | Hlarger].
  - destruct (area_expanded_start start T Hne Hfits Hw24 Hh24 HT)
      as (Hw & Hh & Ha).
    exact (area_IntersectRects _ B T Hw Hh Ha He).
  - rewrite (expanded_start_larger start T Hne HT0 Hlarger Hw24 Hh24 HT) in *.
    destruct (IntersectRects_nonempty _ _ He) as (_ & _ & Hx & Hy & Heq).
    split; [| split; [| exact Harea]];
      rewrite Heq; unfold gfx.right, gfx.bottom in *; simpl; lia.
Qed.

(** Inside the bounding rectangle always; no smaller than the clipped
    start when that fits the target and the arithmetic is exact. *)
Lemma expand_uncached_spec start T B :
  gfx.IsEmpty start = false -> 0 < T ->
  gfx.Subset (expand_uncached start T B) B /\
  (gfx.IsEmpty (expand_uncached start T B) = true
   \/ gfx.Contains B (expand_uncached start T B) = true) /\
  (gfx.width start <= 2 ^ 24 -> gfx.height start <= 2 ^ 24 ->
   gfx.width B <= 2 ^ 24 -> gfx.height B <= 2 ^ 24 -> T < 2 ^ 31 ->
   gfx.area (gfx.IntersectRects start B) <= T ->
   gfx.Subset (gfx.IntersectRects start B) (expand_uncached start T B)).
Proof.
  intros Hne HT0.
  pose proof (Subset_IntersectRects_mono _ _ B (Subset_expanded_start start T))
    as Hsub.
  destruct (expand_uncached_cases start T B) as [-> | [He ->]].
  - split; [apply Subset_IntersectRects_r |].
    split; [| intros _ _ _ _ _ _; exact Hsub].
    destruct (gfx.IsEmpty (gfx.IntersectRects (expanded_start start T) B)) eqn:He;
      [left; reflexivity | right].
    destruct (IntersectRects_nonempty _ _ He) as (_ & _ & Hx & Hy & ->).
    unfold gfx.Contains, gfx.right, gfx.bottom in *; simpl.
    rewrite !andb_true_iff, !Z.leb_le. lia.
  - set (rect := gfx.IntersectRects (expanded_start start T) B) in *.
    pose proof (loop_start_tracks (expanded_start start T) B He) as Htr.
    fold rect in Htr.
    pose proof (expand_loop_inside B T 4 0 _ Htr eq_refl) as Hin.
    destruct (rect_of_inside B _ Hin) as [Hs Hc].
    split; [exact Hs |]. split; [exact Hc |].
    intros Hw24 Hh24 HBw HBh HT Harea.
    pose proof (clipped_start_fits start T B Hne HT0 Hw24 Hh24 HT Harea He)
      as Hrect. fold rect in Hrect.
    destruct Hrect as (Hw' & Hh' & Ha').
    pose proof (loop_start_growing T rect B Hw' Hh' Ha') as Hgr.
    pose proof (expand_loop_grows B T 4 0 _ HT HBw HBh Htr Hgr eq_refl) as Hle.
    eapply Subset_trans; [exact Hsub |]. fold rect.
    eapply Subset_trans; [| apply (rect_of_grows B (loop_start rect B)); assumption].
    intros px py Hp. unfold rect_of, loop_start, gfx.ContainsPoint, gfx.right,
      gfx.bottom in *. simpl. lia.
Qed.

Lemma Expand_result start T B cache :
  gfx.IsEmpty start = false -> cache_consistent cache ->
  (ExpandRectEquallyToAreaBoundedBy start T B cache).1 = expand_uncached start T B.
Proof.
  intros Hne Hc. unfold ExpandRectEquallyToAreaBoundedBy. rewrite Hne.
  destruct cache as [c |]; [| reflexivity].
  destruct (cache_hit c start T B) eqn:Hhit; [| reflexivity].
  unfold cache_hit in Hhit. rewrite !andb_true_iff in Hhit.
  destruct Hhit as [[Hs Hb] Ht].
  apply bool_decide_eq_true in Hs, Hb. apply Z.eqb_eq in Ht.
  simpl in *. rewrite Hc by (rewrite Hs; exact Hne). rewrite Hs, Hb, Ht. reflexivity.
Qed.

Lemma Expand_keeps_consistent start T B cache :
  cache_consistent cache ->
  cache_consistent (ExpandRectEquallyToAreaBoundedBy start T B cache).2.
Proof.
  intros Hc. unfold ExpandRectEquallyToAreaBoundedBy.
  destruct (gfx.IsEmpty start); [exact Hc |].
  destruct cache as [c |]; [| exact I].
  destruct (cache_hit c start T B); [exact Hc |].
  simpl. intros _. reflexivity.
Qed.

(** C2 (amended): for a non-empty starting rectangle, a positive target
    area and a non-empty bounding rectangle, the rectangle returned by
    ExpandRectEquallyToAreaBoundedBy lies inside the bounding rectangle
    (it is empty or the bounding rectangle contains it); and, where the
    widths and heights of both rectangles are at most 2^24 and the target
    area is below 2^31, so that the conversions of ComputeExpansionDelta
    are exact, it contains the intersection of the starting rectangle with
    the bounding rectangle whenever the area of that intersection does not
    exceed the target area. *)
Theorem ExpandRectEquallyToAreaBoundedBy_bounded_and_grows start T B cache :
  gfx.IsEmpty start = false -> 0 < T -> gfx.IsEmpty B = false ->
  cache_consistent cache ->
  let result := (ExpandRectEquallyToAreaBoundedBy start T B cache).1 in
  gfx.Subset result B /\
  (gfx.IsEmpty result = true \/ gfx.Contains B result = true) /\
  (gfx.width start <= 2 ^ 24 -> gfx.height start <= 2 ^ 24 ->
   gfx.width B <= 2 ^ 24 -> gfx.height B <= 2 ^ 24 -> T < 2 ^ 31 ->
   gfx.area (gfx.IntersectRects start B) <= T ->
   gfx.Subset (gfx.IntersectRects start B) result).
Proof.
  intros Hne HT _ Hc. cbv zeta. rewrite (Expand_result start T B cache Hne Hc).
  apply expand_uncached_spec; assumption.
Qed.

(** C2, at a 50 x 50 start inside a 200 x 200 bounding rectangle with
    target area 40000: the result lies inside the bounding rectangle and
    contains the start. *)
Lemma ExpandRectEquallyToAreaBoundedBy_bounded_and_grows_witness :
  let start := gfx.MakeRect 100 100 50 50 in
  let B := gfx.MakeRect 0 0 200 200 in
  let result := (ExpandRectEquallyToAreaBoundedBy start 40000 B
                   (Some NewRectExpansionCache)).1 in
  gfx.Subset result B /\
  (gfx.IsEmpty result = true \/ gfx.Contains B result = true) /\
  gfx.Subset (gfx.IntersectRects start B) result.
Proof.
  destruct (ExpandRectEquallyToAreaBoundedBy_bounded_and_grows
              (gfx.MakeRect 100 100 50 50) 40000 (gfx.MakeRect 0 0 200 200)
              (Some NewRectExpansionCache)) as (Hin & Hcontains & Hgrows).
  - reflexivity.
  - lia.
  - reflexivity.
  - simpl. intros Hf. discriminate Hf.
  - split; [exact Hin |]. split; [exact Hcontains |].
    refine (Hgrows _ _ _ _ _ _); vm_compute; first [reflexivity | discriminate].
Defined.

(** C2 as stated fails where the target area is smaller than the starting
    rectangle: a 100 x 100 start with target area 100 returns the 10 x 10
    rectangle at (45, 45), which does not contain the start. *)
Lemma ExpandRectEquallyToAreaBoundedBy_shrinks_below_start :
  let start := gfx.MakeRect 0 0 100 100 in
  let B := gfx.MakeRect 0 0 1000 1000 in
  let result := (ExpandRectEquallyToAreaBoundedBy start 100 B None).1 in
  gfx.IsEmpty start = false /\ 0 < 100 /\ gfx.IsEmpty B = false /\
  result = gfx.MakeRect 45 45 10 10 /\
  ~ (gfx.Subset (gfx.IntersectRects start B) result /\ gfx.Subset result B).
Proof.
  cbv zeta.
  assert (Hres : (ExpandRectEquallyToAreaBoundedBy (gfx.MakeRect 0 0 100 100) 100
                    (gfx.MakeRect 0 0 1000 1000) None).1
                 = gfx.MakeRect 45 45 10 10) by (vm_compute; reflexivity).
  rewrite Hres. repeat split; try reflexivity.
  intros [Hsub _]. specialize (Hsub 0 0).
  assert (Hin : gfx.ContainsPoint
                  (gfx.IntersectRects (gfx.MakeRect 0 0 100 100)
                                      (gfx.MakeRect 0 0 1000 1000)) 0 0).
  { apply IntersectRects_points.
    unfold gfx.ContainsPoint, gfx.right, gfx.bottom; simpl. lia. }
  apply Hsub in Hin. unfold gfx.ContainsPoint in Hin; simpl in Hin. lia.
Qed.

(** Beyond the exact range the containment is lost although the start
    fits the target: with a target area above 2^34 the delta of the one
    remaining edge, 2^32 - 1, is narrowed to -1 and the result is empty. *)
Lemma ExpandRectEquallyToAreaBoundedBy_narrowed_delta :
  let start := gfx.MakeRect 0 0 1 1 in
  let B := gfx.MakeRect 0 0 1 3 in
  let result := (ExpandRectEquallyToAreaBoundedBy start 25769803773 B None).1 in
  gfx.area (gfx.IntersectRects start B) <= 25769803773 /\
  result = gfx.MakeRect 1 0 (-1) 3 /\ gfx.IsEmpty result = true /\
  ~ gfx.Subset (gfx.IntersectRects start B) result.
Proof.
  cbv zeta.
  assert (Hres : (ExpandRectEquallyToAreaBoundedBy (gfx.MakeRect 0 0 1 1)
                    25769803773 (gfx.MakeRect 0 0 1 3) None).1
                 = gfx.MakeRect 1 0 (-1) 3) by (vm_compute; reflexivity).
  rewrite Hres. split; [vm_compute; discriminate |].
  split; [reflexivity |]. split; [reflexivity |].
  intros Hsub. specialize (Hsub 0 0).
  assert (Hin : gfx.ContainsPoint
                  (gfx.IntersectRects (gfx.MakeRect 0 0 1 1) (gfx.MakeRect 0 0 1 3))
                  0 0).
  { apply IntersectRects_points.
    unfold gfx.ContainsPoint, gfx.right, gfx.bottom; simpl. lia. }
  apply Hsub in Hin. unfold gfx.ContainsPoint in Hin; simpl in Hin. lia.
Qed.

Lemma cache_hit_true c start T B :
  cache_hit c start T B = true
  <-> previous_start c = start /\ previous_bounds c = B /\ previous_target c = T.
Proof.
  unfold cache_hit. rewrite !andb_true_iff, !bool_decide_eq_true, Z.eqb_eq. tauto.
Qed.

Lemma cache_hit_false c start T B :
  cache_hit c start T B = false
  <-> previous_start c <> start \/ previous_bounds c <> B \/ previous_target c <> T.
Proof.
  rewrite <- not_true_iff_false, cache_hit_true.
  destruct (decide (previous_start c = start)), (decide (previous_bounds c = B)),
    (Z.eq_dec (previous_target c) T); tauto.
Qed.

Lemma Expand_with_cache start T B c :
  gfx.IsEmpty start = false ->
  ExpandRectEquallyToAreaBoundedBy start T B (Some c)
  = if cache_hit c start T B then (previous_result c, Some c)
    else (expand_uncached start T B,
          Some (mkCache start B (expand_uncached start T B) T)).
Proof.
  intros Hne. unfold ExpandRectEquallyToAreaBoundedBy. rewrite Hne.
  destruct (cache_hit c start T B); reflexivity.
Qed.

(** C6: after a call of ExpandRectEquallyToAreaBoundedBy with a cache,
    the cache holds the call's three inputs and its result, and a second
    call with the same inputs and that cache returns the stored result,
    which is the first call's rectangle, and leaves the cache as it is.
    The stored result is served as it is: a call whose three inputs are
    those the cache holds returns the rectangle the cache stores, whatever
    that rectangle is, and does not change the cache.  When any of the
    three inputs differs from what the cache held, the entry is overwritten
    with the new inputs and the result computed for them, the one a call
    without a cache returns. *)
Theorem ExpandRectEquallyToAreaBoundedBy_memoized start T B c :
  gfx.IsEmpty start = false -> 0 < T -> gfx.IsEmpty B = false ->
  let first := ExpandRectEquallyToAreaBoundedBy start T B (Some c) in
  (exists c1, first.2 = Some c1 /\
              previous_start c1 = start /\ previous_bounds c1 = B /\
              previous_target c1 = T /\ previous_result c1 = first.1 /\
              ExpandRectEquallyToAreaBoundedBy start T B first.2
              = (previous_result c1, Some c1)) /\
  ExpandRectEquallyToAreaBoundedBy start T B first.2 = (first.1, first.2) /\
  (forall stored,
     ExpandRectEquallyToAreaBoundedBy start T B (Some (mkCache start B stored T))
     = (stored, Some (mkCache start B stored T))) /\
  (previous_start c = start -> previous_bounds c = B -> previous_target c = T ->
   first = (previous_result c, Some c)) /\
  (previous_start c <> start \/ previous_bounds c <> B \/ previous_target c <> T ->
   first.2 = Some (mkCache start B first.1 T) /\
   first.1 = (ExpandRectEquallyToAreaBoundedBy start T B None).1).
Proof.
  intros Hne _ _. cbv zeta.
  assert (Hserved : forall stored,
            ExpandRectEquallyToAreaBoundedBy start T B
              (Some (mkCache start B stored T))
            = (stored, Some (mkCache start B stored T))).
  { intros stored. rewrite (Expand_with_cache start T B _ Hne).
    assert (Hhit : cache_hit (mkCache start B stored T) start T B = true)
      by (apply cache_hit_true; auto).
    rewrite Hhit. reflexivity. }
  assert (Huncached : (ExpandRectEquallyToAreaBoundedBy start T B None).1
                      = expand_uncached start T B).
  { unfold ExpandRectEquallyToAreaBoundedBy. rewrite Hne. reflexivity. }
  rewrite (Expand_with_cache start T B c Hne).
  destruct (cache_hit c start T B) eqn:Hhit; cbn [fst snd].
  - pose proof (proj1 (cache_hit_true _ _ _ _) Hhit) as (Hs & Hb & Ht).
    assert (Hagain : ExpandRectEquallyToAreaBoundedBy start T B (Some c)
                     = (previous_result c, Some c)).
    { rewrite (Expand_with_cache start T B c Hne), Hhit. reflexivity. }
    split_and!.
    + exists c. split_and!; auto.
    + exact Hagain.
    + exact Hserved.
    + intros _ _ _. reflexivity.
    + intros Hdiff. apply cache_hit_false in Hdiff. congruence.
  - split_and!.
    + eexists. split_and!; try reflexivity. apply Hserved.
    + apply Hserved.
    + exact Hserved.
    + intros Hs Hb Ht. exfalso.
      assert (Htrue : cache_hit c start T B = true) by (apply cache_hit_true; auto).
      congruence.
    + intros _. split; [reflexivity | symmetry; exact Huncached].
Qed.

(** C6, at a 50 x 50 start inside a 200 x 200 bounding rectangle with
    target area 40000: after a call on an empty cache the second call
    returns the same rectangle, and a cache that stores another rectangle
    for these inputs has that rectangle returned. *)
Lemma ExpandRectEquallyToAreaBoundedBy_memoized_witness :
  let start := gfx.MakeRect 100 100 50 50 in
  let B := gfx.MakeRect 0 0 200 200 in
  let first := ExpandRectEquallyToAreaBoundedBy start 40000 B
                 (Some NewRectExpansionCache) in
  first.1 = gfx.MakeRect 0 0 200 200 /\
  ExpandRectEquallyToAreaBoundedBy start 40000 B first.2 = (first.1, first.2) /\
  ExpandRectEquallyToAreaBoundedBy start 40000 B
    (Some (mkCache start B (gfx.MakeRect 1 2 3 4) 40000))
  = (gfx.MakeRect 1 2 3 4, Some (mkCache start B (gfx.MakeRect 1 2 3 4) 40000)).
Proof.
  split; [vm_compute; reflexivity |].
  destruct (ExpandRectEquallyToAreaBoundedBy_memoized
              (gfx.MakeRect 100 100 50 50) 40000 (gfx.MakeRect 0 0 200 200)
              NewRectExpansionCache) as (_ & Hagain & Hserved & _);
    [reflexivity | lia | reflexivity |].
  split; [exact Hagain | apply Hserved].
Defined.

(** C7 (amended): for a width and a height between 0 and 2^24 and a
    positive target area below 2^31, where the double and int conversions
    of the function are exact, ComputeExpansionDelta with two free edges on
    each axis returns d = (-b + s) / 8, with b = 2w + 2h, s the integer
    square root of b^2 - 16 (w h - target_area), and the division truncated
    toward zero.  The product (w + 2(d+1))(h + 2(d+1)) exceeds the target;
    when w h does not exceed the target, d is not negative and
    (w + 2d)(h + 2d) does not exceed the target, so d is the largest delta
    that fits; when w h exceeds the target, d is not positive; and d is the
    exact solution whenever a non-negative integer solution exists.  With
    edge counts between 0 and 2 whose product is zero and a divisor that is
    not, it returns the quotient, truncated toward zero,
    (target_area - w * h) / (num_y_edges * w + num_x_edges * h). *)
Theorem ComputeExpansionDelta_rounded_down w h T :
  0 <= w <= 2 ^ 24 -> 0 <= h <= 2 ^ 24 -> 0 < T < 2 ^ 31 ->
  let d := ComputeExpansionDelta 2 2 w h T in
  let b := 2 * w + 2 * h in
  d = Z.quot (- b + Z.sqrt (b * b - 16 * (w * h - T))) 8 /\
  T < (w + 2 * (d + 1)) * (h + 2 * (d + 1)) /\
  (w * h <= T -> 0 <= d /\ (w + 2 * d) * (h + 2 * d) <= T) /\
  (T < w * h -> d <= 0) /\
  (forall e, 0 <= e -> (w + 2 * e) * (h + 2 * e) = T -> d = e) /\
  (forall num_x num_y,
     0 <= num_x <= 2 -> 0 <= num_y <= 2 ->
     num_y * num_x = 0 -> num_y * w + num_x * h <> 0 ->
     ComputeExpansionDelta num_x num_y w h T
     = Z.quot (T - w * h) (num_y * w + num_x * h)).
Proof.
  intros Hw Hh HT. cbv zeta.
  pose proof (ComputeExpansionDelta_22_upper w h T Hw Hh HT) as Hup.
  assert (Hgrow : w * h <= T ->
                  0 <= ComputeExpansionDelta 2 2 w h T /\
                  (w + 2 * ComputeExpansionDelta 2 2 w h T)
                  * (h + 2 * ComputeExpansionDelta 2 2 w h T) <= T).
  { intros Harea.
    destruct (ComputeExpansionDelta_grows 2 2 w h T ltac:(lia) ltac:(lia) Hw Hh
                Harea ltac:(lia)) as [Hd Hall].
    split; [exact Hd | apply Hall; lia]. }
  split_and!.
  - rewrite ComputeExpansionDelta_exact by lia. unfold exact_delta.
    change (2 * 2 =? 0) with false. cbv iota.
    replace (4 * (2 * 2) * (w * h - T)) with (16 * (w * h - T)) by lia.
    reflexivity.
  - exact Hup.
  - exact Hgrow.
  - apply ComputeExpansionDelta_22_shrinks; assumption.
  - intros e He Heq.
    destruct Hgrow as [Hd Hle]; [nia |].
    set (d := ComputeExpansionDelta 2 2 w h T) in *.
    destruct (Z.lt_trichotomy d e) as [Hlt | [Heq' | Hgt]]; [| exact Heq' |].
    + exfalso. assert (d + 1 <= e) by lia. nia.
    + exfalso. assert (e + 1 <= d) by lia. nia.
  - intros num_x num_y Hx Hy Ha _.
    rewrite ComputeExpansionDelta_exact by lia. unfold exact_delta.
    rewrite Ha. simpl. f_equal. lia.
Qed.

(** C7, at a 50 x 50 rectangle and target area 40000: the delta is 75,
    the grown area fits the target and the next delta does not. *)
Lemma ComputeExpansionDelta_rounded_down_witness :
  let d := ComputeExpansionDelta 2 2 50 50 40000 in
  d = 75 /\ (50 + 2 * d) * (50 + 2 * d) <= 40000
  /\ 40000 < (50 + 2 * (d + 1)) * (50 + 2 * (d + 1)).
Proof.
  split; [vm_compute; reflexivity |].
  destruct (ComputeExpansionDelta_rounded_down 50 50 40000)
    as (_ & Hup & Hfit & _); [lia | lia | lia |].
  split; [apply Hfit; lia | exact Hup].
Defined.

(** C7 as stated fails: for w = h = 1 and target area 2 the function
    returns 0, and (1 + 2 * 0) * (1 + 2 * 0) is 1, not 2. *)
Lemma ComputeExpansionDelta_not_exact :
  let d := ComputeExpansionDelta 2 2 1 1 2 in
  d = 0 /\ (1 + 2 * d) * (1 + 2 * d) <> 2.
Proof. split; [vm_compute; reflexivity | vm_compute; discriminate]. Qed.

(** With a starting rectangle larger than the target the delta is not
    the root truncated toward zero: for 10 x 10 and target 65 the root is
    about -0.97 and the function returns -1. *)
Lemma ComputeExpansionDelta_below_truncated_root :
  ComputeExpansionDelta 2 2 10 10 65 = -1
  /\ (10 + 2 * -1) * (10 + 2 * -1) < 65 < (10 + 2 * 0) * (10 + 2 * 0).
Proof. split; [vm_compute; reflexivity | lia]. Qed.

(** Beyond the exact range the double-precision root can be one too
    large: the area grown by the returned delta exceeds the target. *)
Lemma ComputeExpansionDelta_double_rounding :
  let T := 2 ^ 54 - 2 in
  let d := ComputeExpansionDelta 2 2 1 3 T in
  d = 67108863 /\ (1 + 2 * d) * (3 + 2 * d) = T + 1.
Proof. split; vm_compute; reflexivity. Qed.

(** Beyond the exact range the quotient of the linear case does not fit
    an [int] and is narrowed. *)
Lemma ComputeExpansionDelta_narrowing :
  ComputeExpansionDelta 0 1 1 1 (2 ^ 33 + 1) = 0
  /\ Z.quot (2 ^ 33 + 1 - 1 * 1) (1 * 1 + 0 * 1) = 2 ^ 33.
Proof. split; vm_compute; reflexivity. Qed.

(** *** One axis of the grid *)
Section Axis.

#[local] Set Default Proof Using "All".

Variables (max_texture total border : Z).
Hypothesis Hborder : 0 <= border.
Hypothesis Hinner : 0 < max_texture - 2 * border.
Hypothesis Htotal : 0 < total.
Local Abbreviation num := (ComputeNumTiles max_texture total border).
Local Abbreviation lo := (tile_lo max_texture border).
Local Abbreviation hi := (tile_hi num max_texture total border).

Lemma num_tiles_eq :
  num = Z.max 1 (1 + Z.quot (total - 1 - 2 * border) (max_texture - 2 * border)).
Proof.
  unfold ComputeNumTiles.
  destruct (Z.leb_spec (max_texture - 2 * border) 0); [lia |].
  destruct (Z.ltb_spec 0 total); [reflexivity | lia].
Qed.

Lemma num_tiles_pos : 1 <= num.
Proof. rewrite num_tiles_eq. lia. Qed.

(** Every tile but the last ends strictly inside the total size. *)
Lemma inner_tile_end i :
  0 <= i -> i + 1 < num ->
  (max_texture - 2 * border) * (i + 1) + border < total.
Proof.
  intros Hi Hlt. rewrite num_tiles_eq in Hlt.
  assert (Hq : i + 1 <= Z.quot (total - 1 - 2 * border) (max_texture - 2 * border))
    by lia.
  assert (Hnum : 0 <= total - 1 - 2 * border).
  { destruct (Z.lt_ge_cases (total - 1 - 2 * border) 0) as [Hneg | Hpos]; [| exact Hpos].
    exfalso. revert Hq. generalize (max_texture - 2 * border) Hinner. intros m Hm Hq.
    Z.to_euclidean_division_equations. nia. }
  revert Hq. generalize (max_texture - 2 * border) Hinner. intros m Hm Hq.
  Z.to_euclidean_division_equations. nia.
Qed.

Lemma last_tile_end :
  total <= (max_texture - 2 * border) * num + 2 * border.
Proof.
  rewrite num_tiles_eq.
  generalize (max_texture - 2 * border) Hinner. intros m Hm.
  Z.to_euclidean_division_equations. nia.
Qed.

Lemma tile_lo_0 : lo 0 = 0.
Proof. unfold tile_lo. simpl. lia. Qed.

Lemma tile_hi_next i : 0 <= i -> i + 1 < num -> hi i = lo (i + 1).
Proof.
  intros Hi Hlt. unfold tile_hi, tile_lo.
  pose proof (inner_tile_end i Hi Hlt).
  destruct (Z.eqb_spec (i + 1) num); [lia |].
  destruct (Z.eqb_spec (i + 1) 0); lia.
Qed.

Lemma tile_hi_last : hi (num - 1) = total.
Proof.
  unfold tile_hi. replace (num - 1 + 1) with num by lia.
  rewrite Z.eqb_refl. pose proof last_tile_end. lia.
Qed.

Lemma tile_lo_mono i i' : 0 <= i -> i <= i' -> lo i <= lo i'.
Proof.
  intros Hi Hle. unfold tile_lo.
  destruct (Z.eqb_spec i 0), (Z.eqb_spec i' 0); nia.
Qed.

Lemma tile_nonempty i : 0 <= i -> i < num -> lo i < hi i.
Proof.
  intros Hi Hlt.
  destruct (Z.eq_dec (i + 1) num) as [Hlast | Hmid].
  - replace i with (num - 1) by lia. rewrite tile_hi_last.
    unfold tile_lo.
    destruct (Z.eqb_spec (num - 1) 0) as [-> | Hnz]; [lia |].
    pose proof (inner_tile_end (num - 2) ltac:(lia) ltac:(lia)) as Hend.
    replace (num - 2 + 1) with (num - 1) in Hend by lia. lia.
  - rewrite tile_hi_next by lia. unfold tile_lo.
    destruct (Z.eqb_spec i 0), (Z.eqb_spec (i + 1) 0); nia.
Qed.

Lemma tile_hi_le_total i : hi i <= total.
Proof. unfold tile_hi. lia. Qed.

Lemma tile_lo_nonneg i : 0 <= i -> 0 <= lo i.
Proof. intros Hi. rewrite <- tile_lo_0. apply tile_lo_mono; lia. Qed.

(** Tiles with distinct indices do not overlap. *)
Lemma tile_before i i' : 0 <= i -> i < i' -> i' < num -> hi i <= lo i'.
Proof.
  intros Hi Hlt Hnum. rewrite tile_hi_next by lia. apply tile_lo_mono; lia.
Qed.

(** Every coordinate of the total extent lies in some tile. *)
Lemma tile_covers p :
  0 <= p < total -> exists i, 0 <= i < num /\ lo i <= p < hi i.
Proof.
  intros Hp.
  assert (Hfind : forall n : nat, Z.of_nat n < num -> p < hi (Z.of_nat n) ->
                  exists i, 0 <= i < num /\ lo i <= p < hi i).
  { induction n as [| n IH]; intros Hn Hlt.
    - exists 0. rewrite tile_lo_0. change (Z.of_nat 0) with 0 in *.
      pose proof num_tiles_pos. lia.
    - destruct (Z.lt_ge_cases p (hi (Z.of_nat n))) as [Hin | Hout].
      + apply IH; lia.
      + exists (Z.of_nat (S n)). rewrite (tile_hi_next (Z.of_nat n)) in Hout by lia.
        replace (Z.of_nat n + 1) with (Z.of_nat (S n)) in Hout by lia. lia. }
  pose proof num_tiles_pos.
  apply (Hfind (Z.to_nat (num - 1))).
  - lia.
  - rewrite Z2Nat.id by lia. rewrite tile_hi_last. lia.
Qed.

Lemma IndexFromSrcCoord_first : IndexFromSrcCoord num max_texture border 0 = 0.
Proof.
  unfold IndexFromSrcCoord. destruct (Z.leb_spec num 1); [reflexivity |].
  assert (Hq : Z.quot (0 - border) (max_texture - 2 * border) <= 0).
  { generalize (max_texture - 2 * border) Hinner. intros m Hm.
    Z.to_euclidean_division_equations. nia. }
  lia.
Qed.

Lemma IndexFromSrcCoord_last :
  IndexFromSrcCoord num max_texture border (total - 1) = num - 1.
Proof.
  unfold IndexFromSrcCoord. pose proof num_tiles_pos.
  destruct (Z.leb_spec num 1); [lia |].
  assert (Hq : num - 1 <= Z.quot (total - 1 - border) (max_texture - 2 * border)).
  { pose proof num_tiles_eq as Heq. revert Heq.
    generalize (max_texture - 2 * border) Hinner. intros m Hm Heq.
    Z.to_euclidean_division_equations. nia. }
  lia.
Qed.

End Axis.

Lemma row_major_cell_range columns rows n :
  0 < columns -> Z.of_nat n < columns * rows ->
  0 <= (row_major_cell columns n).1 < columns /\
  0 <= (row_major_cell columns n).2 < rows.
Proof.
  intros Hc Hn. unfold row_major_cell; simpl.
  pose proof (Z.mod_pos_bound (Z.of_nat n) columns Hc).
  pose proof (Z.div_pos (Z.of_nat n) columns ltac:(lia) Hc).
  split; [lia |]. split; [lia |].
  apply Z.div_lt_upper_bound; [lia |]. lia.
Qed.

Lemma row_major_cell_next columns n :
  0 < columns ->
  let '(i, j) := row_major_cell columns n in
  row_major_cell columns (S n)
  = if i + 1 <? columns then (i + 1, j) else (0, j + 1).
Proof.
  intros Hc. unfold row_major_cell.
  pose proof (Z.mod_pos_bound (Z.of_nat n) columns Hc) as Hm.
  pose proof (Z.div_mod (Z.of_nat n) columns ltac:(lia)) as Hdm.
  replace (Z.of_nat (S n)) with (Z.of_nat n + 1) by lia.
  destruct (Z.ltb_spec (Z.of_nat n mod columns + 1) columns) as [Hlt | Hge].
  - f_equal.
    + symmetry. apply (Z.mod_unique _ _ (Z.of_nat n / columns)); lia.
    + symmetry. apply (Z.div_unique _ _ _ (Z.of_nat n mod columns + 1)); lia.
  - f_equal.
    + symmetry. apply (Z.mod_unique _ _ (Z.of_nat n / columns + 1)); lia.
    + symmetry. apply (Z.div_unique _ _ _ 0); lia.
Qed.

Lemma row_major_cell_inj columns n m :
  0 < columns -> row_major_cell columns n = row_major_cell columns m -> n = m.
Proof.
  intros Hc Heq. unfold row_major_cell in Heq. injection Heq as Hm Hd.
  pose proof (Z.div_mod (Z.of_nat n) columns ltac:(lia)).
  pose proof (Z.div_mod (Z.of_nat m) columns ltac:(lia)).
  apply Nat2Z.inj. congruence.
Qed.

Section Grid.

#[local] Set Default Proof Using "All".

Variable td : TilingData.
Hypothesis Hborder : 0 <= border_texels td.
Hypothesis Hinner_x : 0 < gfx.size_width (max_texture_size td) - 2 * border_texels td.
Hypothesis Hinner_y : 0 < gfx.size_height (max_texture_size td) - 2 * border_texels td.
Hypothesis Htotal_x : 0 < gfx.size_width (total_size td).
Hypothesis Htotal_y : 0 < gfx.size_height (total_size td).
Local Abbreviation lo_x :=
  (tile_lo (gfx.size_width (max_texture_size td)) (border_texels td)).
Local Abbreviation lo_y :=
  (tile_lo (gfx.size_height (max_texture_size td)) (border_texels td)).
Local Abbreviation hi_x :=
  (tile_hi (num_tiles_x td) (gfx.size_width (max_texture_size td))
           (gfx.size_width (total_size td)) (border_texels td)).
Local Abbreviation hi_y :=
  (tile_hi (num_tiles_y td) (gfx.size_height (max_texture_size td))
           (gfx.size_height (total_size td)) (border_texels td)).

Lemma num_tiles_x_pos : 1 <= num_tiles_x td.
Proof. apply num_tiles_pos; assumption. Qed.

Lemma num_tiles_y_pos : 1 <= num_tiles_y td.
Proof. apply num_tiles_pos; assumption. Qed.

Lemma total_rect :
  gfx.RectOfSize (total_size td)
  = gfx.RawRect 0 0 (gfx.size_width (total_size td)) (gfx.size_height (total_size td)).
Proof. unfold gfx.RectOfSize, gfx.MakeRect. f_equal; lia. Qed.

Lemma TileBounds_raw i j :
  0 <= i < num_tiles_x td -> 0 <= j < num_tiles_y td ->
  TileBounds td i j = gfx.RawRect (lo_x i) (lo_y j) (hi_x i - lo_x i) (hi_y j - lo_y j)
  /\ lo_x i < hi_x i /\ lo_y j < hi_y j.
Proof.
  intros Hi Hj.
  pose proof (tile_nonempty _ _ _ Hborder Hinner_x Htotal_x i (proj1 Hi) (proj2 Hi)) as Hx.
  pose proof (tile_nonempty _ _ _ Hborder Hinner_y Htotal_y j (proj1 Hj) (proj2 Hj)) as Hy.
  split; [| split; assumption].
  unfold TileBounds, gfx.MakeRect, num_tiles_x, num_tiles_y in *. f_equal; lia.
Qed.

Lemma TileBounds_in_total i j :
  0 <= i < num_tiles_x td -> 0 <= j < num_tiles_y td ->
  gfx.IntersectRects (TileBounds td i j) (gfx.RectOfSize (total_size td))
  = TileBounds td i j.
Proof.
  intros Hi Hj. destruct (TileBounds_raw i j Hi Hj) as (-> & Hx & Hy).
  rewrite total_rect.
  pose proof (tile_lo_nonneg _ _ _ Hborder Hinner_x Htotal_x i (proj1 Hi)).
  pose proof (tile_lo_nonneg _ _ _ Hborder Hinner_y Htotal_y j (proj1 Hj)).
  pose proof (tile_hi_le_total _ _ _ Hborder Hinner_x Htotal_x i).
  pose proof (tile_hi_le_total _ _ _ Hborder Hinner_y Htotal_y j).
  unfold num_tiles_x, num_tiles_y in *.
  unfold gfx.IntersectRects, gfx.IsEmpty, gfx.right, gfx.bottom; simpl.
  repeat match goal with
         | |- context [?a <=? ?b] => destruct (Z.leb_spec a b); try lia
         end; simpl.
  unfold gfx.MakeRect. f_equal; lia.
Qed.

Lemma TileBounds_points px py :
  gfx.ContainsPoint (gfx.RectOfSize (total_size td)) px py <->
  exists i j, (0 <= i < num_tiles_x td /\ 0 <= j < num_tiles_y td)
              /\ gfx.ContainsPoint (TileBounds td i j) px py.
Proof.
  rewrite total_rect. split.
  - intros Hp. unfold gfx.ContainsPoint, gfx.right, gfx.bottom in Hp; simpl in Hp.
    destruct Hp as [Hx Hy].
    destruct (tile_covers _ _ _ Hborder Hinner_x Htotal_x px Hx)
      as (i & Hi & Hpx).
    destruct (tile_covers _ _ _ Hborder Hinner_y Htotal_y py Hy)
      as (j & Hj & Hpy).
    exists i, j. split; [split; assumption |].
    destruct (TileBounds_raw i j Hi Hj) as (-> & _ & _).
    unfold gfx.ContainsPoint, gfx.right, gfx.bottom; simpl.
    unfold num_tiles_x, num_tiles_y in *. lia.
  - intros (i & j & [Hi Hj] & Hp).
    destruct (TileBounds_raw i j Hi Hj) as (Heq & Hx & Hy). rewrite Heq in Hp.
    pose proof (tile_lo_nonneg _ _ _ Hborder Hinner_x Htotal_x i (proj1 Hi)).
    pose proof (tile_lo_nonneg _ _ _ Hborder Hinner_y Htotal_y j (proj1 Hj)).
    pose proof (tile_hi_le_total _ _ _ Hborder Hinner_x Htotal_x i).
    pose proof (tile_hi_le_total _ _ _ Hborder Hinner_y Htotal_y j).
    unfold num_tiles_x, num_tiles_y in *.
    unfold gfx.ContainsPoint, gfx.right, gfx.bottom in *; simpl in *. lia.
Qed.

Lemma TileBounds_disjoint i j i' j' :
  0 <= i < num_tiles_x td -> 0 <= j < num_tiles_y td ->
  0 <= i' < num_tiles_x td -> 0 <= j' < num_tiles_y td ->
  (i, j) <> (i', j') ->
  gfx.Disjoint (TileBounds td i j) (TileBounds td i' j').
Proof.
  intros Hi Hj Hi' Hj' Hne px py [Hp Hp'].
  destruct (TileBounds_raw i j Hi Hj) as (Heq & _ & _). rewrite Heq in Hp.
  destruct (TileBounds_raw i' j' Hi' Hj') as (Heq' & _ & _). rewrite Heq' in Hp'.
  unfold gfx.ContainsPoint, gfx.right, gfx.bottom in Hp, Hp'; simpl in Hp, Hp'.
  assert (Hcases : i < i' \/ i' < i \/ j < j' \/ j' < j).
  { destruct (Z.eq_dec i i') as [-> | ?]; [| lia].
    destruct (Z.eq_dec j j') as [-> | ?]; [congruence | lia]. }
  unfold num_tiles_x, num_tiles_y in *.
  destruct Hcases as [Hc | [Hc | [Hc | Hc]]].
  - pose proof (tile_before _ _ _ Hborder Hinner_x Htotal_x i i' (proj1 Hi) Hc (proj2 Hi')). lia.
  - pose proof (tile_before _ _ _ Hborder Hinner_x Htotal_x i' i (proj1 Hi') Hc (proj2 Hi)). lia.
  - pose proof (tile_before _ _ _ Hborder Hinner_y Htotal_y j j' (proj1 Hj) Hc (proj2 Hj')). lia.
  - pose proof (tile_before _ _ _ Hborder Hinner_y Htotal_y j' j (proj1 Hj') Hc (proj2 Hj)). lia.
Qed.

End Grid.

Section Coverage.

Context `{FloatOps}.
Variables (w : World) (tiling : PictureLayerTiling).

Lemma iterator_done_stays it :
  bottom_ it < tile_j_ it ->
  CoverageIterator_next w tiling it = it /\
  forall fuel, coverage_steps w tiling fuel it = [].
Proof.
  intros Hdone. split.
  - unfold CoverageIterator_next.
    destruct (Z.ltb_spec (bottom_ it) (tile_j_ it)); [reflexivity | lia].
  - intros [| fuel]; [reflexivity |]. simpl. unfold iterator_valid.
    destruct (Z.leb_spec (tile_j_ it) (bottom_ it)); [lia | reflexivity].
Qed.

(** C10: a CoverageIterator constructed over an empty destination
    rectangle, or over one whose scaled footprint does not meet the content
    rectangle, has no current tile and is past its last row: it is not
    valid, advancing leaves it unchanged, and iterating yields no step. *)
Theorem CoverageIterator_nothing_to_cover dest_scale dest_rect :
  gfx.IsEmpty dest_rect = true \/
  gfx.IsEmpty (gfx.IntersectRects
                 (ScaleToEnclosingRect dest_rect
                    (float_div (contents_scale_ tiling) dest_scale))
                 (ContentRect tiling)) = true ->
  let it := CoverageIterator_new w tiling dest_scale dest_rect in
  current_tile_ it = None /\ bottom_ it < tile_j_ it /\
  iterator_valid it = false /\
  CoverageIterator_next w tiling it = it /\
  forall fuel, coverage_steps w tiling fuel it = [].
Proof.
  intros Hempty. cbv zeta.
  assert (Hit : current_tile_ (CoverageIterator_new w tiling dest_scale dest_rect) = None
                /\ bottom_ (CoverageIterator_new w tiling dest_scale dest_rect)
                   < tile_j_ (CoverageIterator_new w tiling dest_scale dest_rect)).
  { unfold CoverageIterator_new.
    destruct (gfx.IsEmpty dest_rect) eqn:Hd; [simpl; split; [reflexivity | lia] |].
    destruct Hempty as [Hf | He]; [discriminate Hf |].
    unfold ContentRect in He. rewrite He. simpl. split; [reflexivity | lia]. }
  destruct Hit as [Htile Hdone].
  destruct (iterator_done_stays _ Hdone) as [Hnext Hsteps].
  repeat split; try assumption.
  unfold iterator_valid.
  destruct (Z.leb_spec (tile_j_ (CoverageIterator_new w tiling dest_scale dest_rect))
                       (bottom_ (CoverageIterator_new w tiling dest_scale dest_rect)));
    [lia | reflexivity].
Qed.

(** *** Walking the whole content rectangle at the tiling's own scale *)
Local Abbreviation td := (tiling_data_ tiling).
Hypothesis Hborder : 0 <= border_texels td.
Hypothesis Hinner_x : 0 < gfx.size_width (max_texture_size td) - 2 * border_texels td.
Hypothesis Hinner_y : 0 < gfx.size_height (max_texture_size td) - 2 * border_texels td.
Hypothesis Htotal_x : 0 < gfx.size_width (total_size td).
Hypothesis Htotal_y : 0 < gfx.size_height (total_size td).
Hypothesis Hsame_scale :
  float_div (contents_scale_ tiling) (contents_scale_ tiling) = float_one.
Hypothesis Hone : float_div float_one float_one = float_one.
Hypothesis Hscale_one :
  forall r, 0 <= gfx.width r -> 0 <= gfx.height r ->
            ScaleToEnclosingRect r float_one = r.
Local Abbreviation content := (ContentRect tiling).
Local Abbreviation columns := (num_tiles_x td).
Local Abbreviation rows := (num_tiles_y td).

Lemma content_raw :
  content = gfx.RawRect 0 0 (gfx.size_width (total_size td))
                        (gfx.size_height (total_size td)).
Proof. apply total_rect; assumption. Qed.

Lemma geometry_at i j :
  0 <= i < columns -> 0 <= j < rows ->
  gfx.IntersectRects
    (ScaleToEnclosingRect (TileBounds td i j) (float_div float_one float_one))
    content
  = TileBounds td i j.
Proof.
  intros Hi Hj. rewrite Hone.
  destruct (TileBounds_raw td Hborder Hinner_x Hinner_y Htotal_x Htotal_y i j Hi Hj)
    as (Heq & Hx & Hy).
  rewrite Hscale_one by (rewrite Heq; simpl; lia).
  apply TileBounds_in_total; assumption.
Qed.

Lemma Inset4_none r a b :
  a <= 0 -> b <= 0 -> 0 <= gfx.width r -> 0 <= gfx.height r ->
  gfx.Inset4 r (Z.max 0 a) (Z.max 0 b) 0 0 = r.
Proof.
  intros Ha Hb Hw Hh. unfold gfx.Inset4. rewrite !Z.max_l by lia.
  destruct r; simpl in *. f_equal; lia.
Qed.

Lemma iterator_first :
  CoverageIterator_new w tiling (contents_scale_ tiling) content
  = iterator_at w tiling (0, 0).
Proof.
  pose proof (num_tiles_x_pos td Hborder Hinner_x Hinner_y Htotal_x Htotal_y) as Hcx.
  pose proof (num_tiles_y_pos td Hborder Hinner_x Hinner_y Htotal_x Htotal_y) as Hcy.
  unfold CoverageIterator_new. rewrite Hsame_scale.
  rewrite content_raw.
  assert (Hne : gfx.IsEmpty (gfx.RawRect 0 0 (gfx.size_width (total_size td))
                               (gfx.size_height (total_size td))) = false).
  { apply IsEmpty_false. simpl. lia. }
  rewrite Hne.
  rewrite Hscale_one by (simpl; lia).
  assert (Hself : gfx.IntersectRects
                    (gfx.RawRect 0 0 (gfx.size_width (total_size td))
                       (gfx.size_height (total_size td)))
                    (gfx.RectOfSize (total_size (tiling_data_ tiling)))
                  = gfx.RawRect 0 0 (gfx.size_width (total_size td))
                      (gfx.size_height (total_size td))).
  { rewrite (total_rect td Hborder Hinner_x Hinner_y Htotal_x Htotal_y).
    unfold gfx.IntersectRects. rewrite Hne. simpl.
    unfold gfx.right, gfx.bottom; simpl.
    repeat match goal with
           | |- context [?a <=? ?b] => destruct (Z.leb_spec a b); try lia
           end; simpl.
    unfold gfx.MakeRect. f_equal; lia. }
  rewrite Hself, Hne. cbv zeta.
  unfold gfx.right, gfx.bottom. simpl gfx.x. simpl gfx.y. simpl gfx.width. simpl gfx.height.
 
  unfold TileXIndexFromSrcCoord, TileYIndexFromSrcCoord.
  fold (num_tiles_x td). fold (num_tiles_y td).
  unfold num_tiles_x, num_tiles_y.
  rewrite (IndexFromSrcCoord_first _ _ _ Hborder Hinner_x Htotal_x).
  rewrite (IndexFromSrcCoord_first _ _ _ Hborder Hinner_y Htotal_y).
  replace (0 + gfx.size_width (total_size td) - 1)
    with (gfx.size_width (total_size td) - 1) by lia.
  replace (0 + gfx.size_height (total_size td) - 1)
    with (gfx.size_height (total_size td) - 1) by lia.
  rewrite (IndexFromSrcCoord_last _ _ _ Hborder Hinner_x Htotal_x).
  rewrite (IndexFromSrcCoord_last _ _ _ Hborder Hinner_y Htotal_y).
  fold (num_tiles_x td). fold (num_tiles_y td).
  unfold CoverageIterator_next. simpl.
  change (0 - 1 + 1) with 0. change (0 - 1 <? 0) with true.
  destruct (Z.ltb_spec (rows - 1) 0); [lia |].
  destruct (Z.ltb_spec (columns - 1) 0); [lia |]. simpl.
  unfold iterator_at. simpl. rewrite <- content_raw.
  rewrite geometry_at by lia. reflexivity.
Qed.

Lemma iterator_step (n : nat) :
  Z.of_nat n < columns * rows ->
  let next := CoverageIterator_next w tiling (iterator_at w tiling (row_major_cell columns n)) in
  if Z.of_nat (S n) <? columns * rows
  then next = iterator_at w tiling (row_major_cell columns (S n))
       /\ abut content (TileBounds td (row_major_cell columns n).1
                                      (row_major_cell columns n).2)
               (TileBounds td (row_major_cell columns (S n)).1
                              (row_major_cell columns (S n)).2)
  else bottom_ next < tile_j_ next.
Proof.
  intros Hn. cbv zeta.
  pose proof (num_tiles_x_pos td Hborder Hinner_x Hinner_y Htotal_x Htotal_y) as Hcx.
  pose proof (num_tiles_y_pos td Hborder Hinner_x Hinner_y Htotal_x Htotal_y) as Hcy.
  destruct (row_major_cell_range columns rows n ltac:(lia) Hn) as [Hi Hj].
  pose proof (row_major_cell_next columns n ltac:(lia)) as Hnext.
  destruct (row_major_cell columns n) as [i j] eqn:Hcell. simpl in Hi, Hj.
  assert (Hlin : Z.of_nat n = columns * j + i).
  { unfold row_major_cell in Hcell. injection Hcell as <- <-.
    apply Z.div_mod. lia. }
  assert (HSn : Z.of_nat (S n) = columns * j + i + 1) by lia.
  assert (Hrow_end : columns * j + columns <= columns * rows) by nia.
  rewrite Hnext. clear Hnext.
  unfold CoverageIterator_next, iterator_at. simpl.
  destruct (Z.ltb_spec (rows - 1) j); [lia |].
  destruct (Z.ltb_spec i 0); [lia |].
  destruct (TileBounds_raw td Hborder Hinner_x Hinner_y Htotal_x Htotal_y i j Hi Hj)
    as (Hcur & Hcx' & Hcy').
  destruct (Z.ltb_spec (columns - 1) (i + 1)) as [Hwrap | Hsame]; simpl.
  - (* end of a row *)
    destruct (Z.ltb_spec (i + 1) columns); [lia |].
    assert (Hi_last : i = columns - 1) by lia.
    destruct (Z.ltb_spec (rows - 1) (j + 1)) as [Hlast | Hmore].
    + assert (Hj_last : j = rows - 1) by lia.
      destruct (Z.ltb_spec (Z.of_nat (S n)) (columns * rows)); [nia |].
      simpl. lia.
    + assert (Hrow_next : columns * (j + 1) + columns <= columns * rows) by nia.
      destruct (Z.ltb_spec (Z.of_nat (S n)) (columns * rows)); [| nia].
      simpl.
      assert (Hcol0 : 0 <= 0 < columns) by lia. assert (Hj1 : 0 <= j + 1 < rows) by lia.
      rewrite (geometry_at 0 (j + 1) Hcol0 Hj1).
      destruct (TileBounds_raw td Hborder Hinner_x Hinner_y Htotal_x Htotal_y
                  0 (j + 1) Hcol0 Hj1) as (Hnew & Hnx & Hny).
      pose proof (tile_hi_next _ _ _ Hborder Hinner_y Htotal_y j (proj1 Hj)
                    ltac:(unfold num_tiles_y in *; lia)) as Hrow.
      pose proof (tile_lo_0 _ _ _ Hborder Hinner_x Htotal_x) as Hlo0.
      pose proof (tile_hi_last _ _ _ Hborder Hinner_x Htotal_x) as Hend.
      fold (num_tiles_x td) in Hend. rewrite <- Hi_last in Hend.
      split.
      * f_equal. rewrite ?content_raw, Hcur, Hnew.
        unfold gfx.bottom, gfx.right; simpl.
        apply Inset4_none; simpl; unfold num_tiles_y in *; lia.
      * right. rewrite content_raw, Hcur, Hnew.
        unfold gfx.bottom, gfx.right; simpl. unfold num_tiles_y in *. lia.
  - (* next column of the same row *)
    destruct (Z.ltb_spec (i + 1) columns); [| lia].
    destruct (Z.ltb_spec (Z.of_nat (S n)) (columns * rows)); [| lia].
    simpl.
    assert (Hi1 : 0 <= i + 1 < columns) by lia.
    rewrite (geometry_at (i + 1) j Hi1 Hj).
    destruct (TileBounds_raw td Hborder Hinner_x Hinner_y Htotal_x Htotal_y
                (i + 1) j Hi1 Hj) as (Hnew & Hnx & Hny).
    pose proof (tile_hi_next _ _ _ Hborder Hinner_x Htotal_x i (proj1 Hi)
                  ltac:(unfold num_tiles_x in *; lia)) as Hcol.
    split.
    + f_equal. rewrite Hcur, Hnew. unfold gfx.bottom, gfx.right; simpl.
      apply Inset4_none; simpl; unfold num_tiles_x in *; lia.
    + left. rewrite Hcur, Hnew. unfold gfx.bottom, gfx.right; simpl.
      unfold num_tiles_x in *. lia.
Qed.

Lemma iterator_at_valid n :
  Z.of_nat n < columns * rows ->
  iterator_valid (iterator_at w tiling (row_major_cell columns n)) = true.
Proof.
  intros Hn.
  pose proof (num_tiles_x_pos td Hborder Hinner_x Hinner_y Htotal_x Htotal_y) as Hcx.
  assert (Hc : 0 < columns) by lia.
  destruct (row_major_cell_range columns rows n Hc Hn) as [_ Hj].
  unfold iterator_valid, iterator_at. cbn [tile_j_ bottom_]. apply Z.leb_le. lia.
Qed.

Lemma coverage_steps_from (remaining : nat) : forall (n fuel : nat),
  Z.of_nat n + Z.of_nat (S remaining) = columns * rows ->
  (S remaining <= fuel)%nat ->
  coverage_steps w tiling fuel (iterator_at w tiling (row_major_cell columns n))
  = map (fun m => step_at w tiling (row_major_cell columns m)) (seq n (S remaining)).
Proof.
  induction remaining as [| remaining IH]; intros n fuel Hn Hfuel;
    (destruct fuel as [| fuel]; [lia |]).
  - simpl. rewrite iterator_at_valid by lia.
    pose proof (iterator_step n ltac:(lia)) as Hstep. cbv zeta in Hstep.
    destruct (Z.ltb_spec (Z.of_nat (S n)) (columns * rows)); [lia |].
    destruct (iterator_done_stays _ Hstep) as [_ ->]. reflexivity.
  - cbn [coverage_steps seq map]. rewrite iterator_at_valid by lia.
    pose proof (iterator_step n ltac:(lia)) as Hstep. cbv zeta in Hstep.
    destruct (Z.ltb_spec (Z.of_nat (S n)) (columns * rows)); [| lia].
    destruct Hstep as [-> _].
    rewrite (IH (S n) fuel) by lia. reflexivity.
Qed.

Lemma row_major_cell_of i j :
  0 <= i < columns -> 0 <= j ->
  row_major_cell columns (Z.to_nat (columns * j + i)) = (i, j).
Proof.
  intros Hi Hj. unfold row_major_cell. rewrite Z2Nat.id by nia.
  f_equal; symmetry.
  - apply (Z.mod_unique _ _ j); lia.
  - apply (Z.div_unique _ _ _ i); lia.
Qed.

(** C3: iterating a CoverageIterator over the full content rectangle at
    the tiling's own contents scale yields one step per grid cell, in
    row-major order, each with the cell's tile bounds as geometry
    rectangle; a point lies in the content rectangle exactly when it lies
    in some step's geometry rectangle, two different steps have disjoint
    geometry rectangles, and consecutive steps abut (left edge on the
    previous right edge within a row, top edge on the previous row's bottom
    at a row start).  The grid is taken well formed (non-negative border,
    tiles larger than twice the border, a non-empty layer) and the scale
    arithmetic exact (s / s = 1 and scaling by 1 leaves a rectangle as it
    is). *)
Theorem CoverageIterator_covers_content (fuel : nat) :
  (Z.to_nat (columns * rows) <= fuel)%nat ->
  let steps :=
    coverage_steps w tiling fuel
      (CoverageIterator_new w tiling (contents_scale_ tiling) content) in
  length steps = Z.to_nat (columns * rows) /\
  (forall n, (n < length steps)%nat ->
     steps !! n = Some (step_at w tiling (row_major_cell columns n))) /\
  (forall px py,
     gfx.ContainsPoint content px py <->
     exists n s, steps !! n = Some s /\ gfx.ContainsPoint s.1.1 px py) /\
  (forall n m sa sb,
     n <> m -> steps !! n = Some sa -> steps !! m = Some sb ->
     gfx.Disjoint sa.1.1 sb.1.1) /\
  (forall n sa sb,
     steps !! n = Some sa -> steps !! S n = Some sb ->
     abut content sa.1.1 sb.1.1).
Proof.
  intros Hfuel. cbv zeta.
  pose proof (num_tiles_x_pos td Hborder Hinner_x Hinner_y Htotal_x Htotal_y) as Hcx.
  pose proof (num_tiles_y_pos td Hborder Hinner_x Hinner_y Htotal_x Htotal_y) as Hcy.
  assert (Hcount : 1 <= columns * rows) by nia.
  set (count := Z.to_nat (columns * rows)) in *.
  assert (Hsteps :
    coverage_steps w tiling fuel
      (CoverageIterator_new w tiling (contents_scale_ tiling) content)
    = map (fun m => step_at w tiling (row_major_cell columns m)) (seq 0 count)).
  { rewrite iterator_first.
    destruct count as [| remaining] eqn:Hc; [lia |].
    change (0, 0) with (row_major_cell columns 0).
    apply coverage_steps_from; lia. }
  rewrite Hsteps.
  assert (Hlookup : forall n s,
            map (fun m => step_at w tiling (row_major_cell columns m)) (seq 0 count) !! n = Some s
            <-> (n < count)%nat /\ s = step_at w tiling (row_major_cell columns n)).
  { intros n s. rewrite list_lookup_fmap. split.
    - intros Hl. destruct (seq 0 count !! n) as [m |] eqn:Hm; [| discriminate].
      apply lookup_seq in Hm as [-> Hlt]. simpl in Hl. injection Hl as <-. auto.
    - intros [Hlt ->]. rewrite lookup_seq_lt by exact Hlt. reflexivity. }
  assert (Hcell : forall n, (n < count)%nat ->
            0 <= (row_major_cell columns n).1 < columns /\
            0 <= (row_major_cell columns n).2 < rows).
  { intros n Hlt. apply row_major_cell_range; lia. }
  split; [rewrite length_map, length_seq; reflexivity |].
  split; [| split; [| split]].
  - intros n Hlt. rewrite length_map, length_seq in Hlt. apply Hlookup. auto.
  - intros px py.
    rewrite (TileBounds_points td Hborder Hinner_x Hinner_y Htotal_x Htotal_y). split.
    + intros (i & j & [Hi Hj] & Hp).
      exists (Z.to_nat (columns * j + i)), (step_at w tiling (i, j)). split; [| exact Hp].
      apply Hlookup. split; [nia |].
      rewrite row_major_cell_of by lia. reflexivity.
    + intros (n & s & Hl & Hp). apply Hlookup in Hl as [Hlt ->].
      destruct (Hcell n Hlt) as [Hi Hj].
      exists (row_major_cell columns n).1, (row_major_cell columns n).2.
      split; [split; assumption | exact Hp].
  - intros n m sa sb Hne Ha Hb.
    apply Hlookup in Ha as [Hn ->]. apply Hlookup in Hb as [Hm ->].
    destruct (Hcell n Hn) as [Hi Hj]. destruct (Hcell m Hm) as [Hi' Hj'].
    apply (TileBounds_disjoint td Hborder Hinner_x Hinner_y Htotal_x Htotal_y);
      try assumption.
    intros Heq. apply Hne. apply (row_major_cell_inj columns); [lia |].
    destruct (row_major_cell columns n), (row_major_cell columns m). exact Heq.
  - intros n sa sb Ha Hb.
    apply Hlookup in Ha as [Hn ->]. apply Hlookup in Hb as [Hm ->].
    pose proof (iterator_step n ltac:(lia)) as Hstep. cbv zeta in Hstep.
    destruct (Z.ltb_spec (Z.of_nat (S n)) (columns * rows)); [| lia].
    destruct Hstep as [_ Habut]. exact Habut.
Qed.

End Coverage.

Lemma occupied_unless_weaken w m (P Q : TileBundleMapKey -> Prop) :
  (forall k, P k -> Q k) -> occupied_unless w m P -> occupied_unless w m Q.
Proof.
  intros Hsub Hocc k id Hk. destruct (Hocc k id Hk) as [Hin | Hex]; auto.
Qed.

(** **** Changing one bundle object *)
Lemma pointers_ok_update w m id b b' :
  pointers_ok w m ->
  bundles w !! id = Some b ->
  (forall slot, is_Some (tiles_ b' !! slot) ->
                is_Some (tiles_ b !! slot)
                \/ forall k, m !! k = Some id -> slot_key slot = k) ->
  pointers_ok (update_bundle w id b') m.
Proof.
  intros Hok Hb Hslots. constructor; simpl.
  - intros k id' Hk. destruct (decide (id = id')) as [<- | Hne].
    + rewrite lookup_insert_eq. eauto.
    + rewrite lookup_insert_ne by exact Hne. apply (ptr_live _ _ Hok k), Hk.
  - intros k id' Hk. apply (ptr_fresh _ _ Hok k), Hk.
  - apply (ptr_inj _ _ Hok).
  - intros k id' b0 slot Hk Hb0 Hslot.
    destruct (decide (id = id')) as [<- | Hne].
    + rewrite lookup_insert_eq in Hb0. injection Hb0 as <-.
      destruct (Hslots slot Hslot) as [Hold | Hnew].
      * apply (ptr_slots _ _ Hok k id b slot Hk Hb Hold).
      * apply Hnew, Hk.
    + rewrite lookup_insert_ne in Hb0 by exact Hne.
      apply (ptr_slots _ _ Hok k id' b0 slot Hk Hb0 Hslot).
Qed.

Lemma consistent_update w m twin id b b' k0 :
  consistent w m twin ->
  m !! k0 = Some id ->
  bundles w !! id = Some b ->
  (forall slot, is_Some (tiles_ b' !! slot) ->
                is_Some (tiles_ b !! slot) \/ slot_key slot = k0) ->
  consistent (update_bundle w id b') m twin.
Proof.
  intros [Hown Htwin] Hk0 Hb Hslots. constructor.
  - apply (pointers_ok_update w m id b b' Hown Hb).
    intros slot Hslot. destruct (Hslots slot Hslot) as [Hold | Hkey]; [auto |].
    right. intros k Hk. rewrite Hkey. apply (ptr_inj _ _ Hown k0 k id Hk0 Hk).
  - intros m' ->. destruct (Htwin m' eq_refl) as [Hok' Hagree].
    split; [| exact Hagree].
    apply (pointers_ok_update w m' id b b' Hok' Hb).
    intros slot Hslot. destruct (Hslots slot Hslot) as [Hold | Hkey]; [auto |].
    right. intros k Hk. rewrite Hkey. apply (Hagree k0 k id Hk0 Hk).
Qed.

(** **** Removing a key *)
Lemma pointers_ok_delete w m k0 :
  pointers_ok w m -> pointers_ok w (delete k0 m).
Proof.
  intros Hok. constructor.
  - intros k id Hk. apply lookup_delete_Some in Hk as [_ Hk].
    apply (ptr_live _ _ Hok k), Hk.
  - intros k id Hk. apply lookup_delete_Some in Hk as [_ Hk].
    apply (ptr_fresh _ _ Hok k), Hk.
  - intros k k' id Hk Hk'. apply lookup_delete_Some in Hk as [_ Hk].
    apply lookup_delete_Some in Hk' as [_ Hk'].
    apply (ptr_inj _ _ Hok k k' id Hk Hk').
  - intros k id b slot Hk. apply lookup_delete_Some in Hk as [_ Hk].
    apply (ptr_slots _ _ Hok k id b slot Hk).
Qed.

Lemma consistent_delete w m twin k0 :
  consistent w m twin -> consistent w (delete k0 m) twin.
Proof.
  intros [Hown Htwin]. constructor.
  - apply pointers_ok_delete, Hown.
  - intros m' ->. destruct (Htwin m' eq_refl) as [Hok' Hagree].
    split; [exact Hok' |].
    intros k k' id Hk. apply lookup_delete_Some in Hk as [_ Hk].
    apply (Hagree k k' id Hk).
Qed.

(** **** Adding a key *)
Lemma pointers_ok_more_bundles w m b0 :
  pointers_ok w m ->
  tiles_ b0 = ∅ ->
  pointers_ok (mkWorld (<[next_bundle w := b0]> (bundles w)) (S (next_bundle w))
                 (next_tile w) (tile_requests w) (bundle_requests w ++ [
                   (index_offset_x b0, index_offset_y b0,
                    index_count_x b0, index_count_y b0)])) m.
Proof.
  intros Hok Hempty. constructor; simpl.
  - intros k id Hk. pose proof (ptr_fresh _ _ Hok k id Hk).
    rewrite lookup_insert_ne by lia. apply (ptr_live _ _ Hok k), Hk.
  - intros k id Hk. pose proof (ptr_fresh _ _ Hok k id Hk). lia.
  - apply (ptr_inj _ _ Hok).
  - intros k id b slot Hk Hb. pose proof (ptr_fresh _ _ Hok k id Hk).
    rewrite lookup_insert_ne in Hb by lia.
    apply (ptr_slots _ _ Hok k id b slot Hk Hb).
Qed.

Lemma consistent_insert w m twin key id :
  consistent w m twin ->
  is_Some (bundles w !! id) ->
  (id < next_bundle w)%nat ->
  (forall b slot, bundles w !! id = Some b -> is_Some (tiles_ b !! slot) ->
                  slot_key slot = key) ->
  (forall k, m !! k <> Some id) ->
  (forall m', twin = Some m' -> forall k', m' !! k' = Some id -> k' = key) ->
  consistent w (<[key := id]> m) twin.
Proof.
  intros [Hown Htwin] Hlive Hfresh Hslots Hnew Htw. constructor.
  - constructor.
    + intros k id' Hk. apply lookup_insert_Some in Hk as [[_ <-] | [_ Hk]];
        [exact Hlive | apply (ptr_live _ _ Hown k), Hk].
    + intros k id' Hk. apply lookup_insert_Some in Hk as [[_ <-] | [_ Hk]];
        [exact Hfresh | apply (ptr_fresh _ _ Hown k), Hk].
    + intros k k' id' Hk Hk'.
      apply lookup_insert_Some in Hk as [[<- <-] | [Hne Hk]];
        apply lookup_insert_Some in Hk' as [[<- Heq] | [Hne' Hk']]; subst;
        try reflexivity.
      * exfalso. exact (Hnew k' Hk').
      * exfalso. exact (Hnew k Hk).
      * apply (ptr_inj _ _ Hown k k' id' Hk Hk').
    + intros k id' b slot Hk Hb Hslot.
      apply lookup_insert_Some in Hk as [[<- <-] | [_ Hk]].
      * apply (Hslots b slot Hb Hslot).
      * apply (ptr_slots _ _ Hown k id' b slot Hk Hb Hslot).
  - intros m' ->. destruct (Htwin m' eq_refl) as [Hok' Hagree].
    split; [exact Hok' |].
    intros k k' id' Hk Hk'.
    apply lookup_insert_Some in Hk as [[<- <-] | [_ Hk]].
    + symmetry. apply (Htw m' eq_refl k' Hk').
    + apply (Hagree k k' id' Hk Hk').
Qed.

Lemma consistent_more_bundles w m twin b0 :
  consistent w m twin ->
  tiles_ b0 = ∅ ->
  consistent (mkWorld (<[next_bundle w := b0]> (bundles w)) (S (next_bundle w))
                (next_tile w) (tile_requests w) (bundle_requests w ++ [
                  (index_offset_x b0, index_offset_y b0,
                   index_count_x b0, index_count_y b0)])) m twin.
Proof.
  intros [Hown Htwin] Hempty. constructor.
  - apply pointers_ok_more_bundles; assumption.
  - intros m' ->. destruct (Htwin m' eq_refl) as [Hok' Hagree].
    split; [| exact Hagree]. apply pointers_ok_more_bundles; assumption.
Qed.

(** The world only changed in its request log and tile supply. *)
Lemma consistent_same_bundles w w' m twin :
  bundles w' = bundles w -> next_bundle w' = next_bundle w ->
  consistent w m twin -> consistent w' m twin.
Proof.
  intros Hb Hn [Hown Htwin].
  assert (Hok : forall m0, pointers_ok w m0 -> pointers_ok w' m0).
  { intros m0 Hok. constructor.
    - intros k id Hk. rewrite Hb. apply (ptr_live _ _ Hok k), Hk.
    - intros k id Hk. rewrite Hn. apply (ptr_fresh _ _ Hok k), Hk.
    - apply (ptr_inj _ _ Hok).
    - intros k id b slot Hk. rewrite Hb. apply (ptr_slots _ _ Hok k), Hk. }
  constructor; [apply Hok, Hown |].
  intros m' ->. destruct (Htwin m' eq_refl) as [Hok' Hagree]. auto.
Qed.

Section BundleLookup.

Context `{FloatOps}.

Lemma CreateBundleForTileAt_eq w t i j twin :
  CreateBundleForTileAt w t i j twin
  = let key := ComputeTileBundleIndex i j in
    match twin_candidate t twin key with
    | Some id => (w, set_tile_bundles t (<[key := id]> (tile_bundles_ t)), id)
    | None =>
        let '(w1, id) :=
          client_CreateTileBundle w (key.1 * kTileBundleWidth)
            (key.2 * kTileBundleHeight) kTileBundleWidth kTileBundleHeight in
        (w1, set_tile_bundles t (<[key := id]> (tile_bundles_ t)), id)
    end.
Proof.
  unfold CreateBundleForTileAt, twin_candidate, TileBundleAt.
  destruct (ComputeTileBundleIndex i j) as [ki kj]. simpl.
  destruct twin as [tw |]; [| reflexivity].
  destruct (bool_decide (max_texture_size (tiling_data_ t)
                         = max_texture_size (tiling_data_ tw))); [| reflexivity].
  destruct (tile_bundles_ tw !! (ki, kj)); reflexivity.
Qed.

Lemma twin_candidate_Some t twin key id :
  twin_candidate t twin key = Some id ->
  exists tw, twin = Some tw /\ tile_bundles_ tw !! key = Some id
             /\ max_texture_size (tiling_data_ t)
                = max_texture_size (tiling_data_ tw).
Proof.
  unfold twin_candidate. destruct twin as [tw |]; [| discriminate].
  destruct (bool_decide_reflect (max_texture_size (tiling_data_ t)
                                 = max_texture_size (tiling_data_ tw)));
    [| discriminate].
  intros Hl. exists tw. auto.
Qed.

Lemma set_tile_bundles_same t : set_tile_bundles t (tile_bundles_ t) = t.
Proof. destruct t; reflexivity. Qed.

Lemma bundle_for_tile_eq w t i j twin :
  bundle_for_tile w t i j twin
  = match tile_bundles_ t !! ComputeTileBundleIndex i j with
    | Some id => (w, t, id)
    | None => CreateBundleForTileAt w t i j twin
    end.
Proof.
  unfold bundle_for_tile, TileBundleContainingTileAt, TileBundleAt.
  rewrite <- surjective_pairing. reflexivity.
Qed.

(** What locating or creating the bundle of a cell establishes. *)
Lemma bundle_for_tile_spec w t i j twin (P : TileBundleMapKey -> Prop) w1 t1 id :
  consistent w (tile_bundles_ t) (twin_bundles twin) ->
  occupied_unless w (tile_bundles_ t) P ->
  bundle_for_tile w t i j twin = (w1, t1, id) ->
  let key := ComputeTileBundleIndex i j in
  tile_bundles_ t1 !! key = Some id /\
  t1 = set_tile_bundles t (tile_bundles_ t1) /\
  (forall k, k <> key -> tile_bundles_ t1 !! k = tile_bundles_ t !! k) /\
  consistent w1 (tile_bundles_ t1) (twin_bundles twin) /\
  occupied_unless w1 (tile_bundles_ t1) (fun k => k = key \/ P k) /\
  tile_requests w1 = tile_requests w /\ next_tile w1 = next_tile w.
Proof.
  intros Hcons Hocc Hfind. cbv zeta.
  rewrite bundle_for_tile_eq in Hfind.
  set (key := ComputeTileBundleIndex i j) in *.
  destruct (tile_bundles_ t !! key) as [id0 |] eqn:Hkey.
  - injection Hfind as <- <- <-.
    split_and!; auto using set_tile_bundles_same.
    eapply occupied_unless_weaken; [| exact Hocc].
    intros k Hk. auto.
  - rewrite CreateBundleForTileAt_eq in Hfind. cbv zeta in Hfind. fold key in Hfind.
    destruct (twin_candidate t twin key) as [idt |] eqn:Hcand.
    + injection Hfind as <- <- <-. simpl.
      destruct (twin_candidate_Some _ _ _ _ Hcand) as (tw & -> & Htw & _).
      destruct (twin_ok _ _ _ Hcons (tile_bundles_ tw) eq_refl) as [Hok' Hagree].
      rewrite lookup_insert_eq.
      split; [reflexivity |]. split; [reflexivity |].
      split; [intros k Hne; apply lookup_insert_ne; intros Heq; apply Hne; symmetry; exact Heq |].
      split; [| split; [| auto]].
      * apply consistent_insert; try assumption.
        -- apply (ptr_live _ _ Hok' key), Htw.
        -- apply (ptr_fresh _ _ Hok' key), Htw.
        -- intros b slot Hb Hslot. apply (ptr_slots _ _ Hok' key idt b slot Htw Hb Hslot).
        -- intros k Hk. pose proof (Hagree k key idt Hk Htw) as Hkk.
           rewrite Hkk, Hkey in Hk. discriminate Hk.
        -- intros m' Hm' k' Hk'. injection Hm' as <-.
           apply (ptr_inj _ _ Hok' k' key idt Hk' Htw).
      * intros k id' Hk. apply lookup_insert_Some in Hk as [[<- _] | [_ Hk]].
        -- left. auto.
        -- destruct (Hocc k id' Hk) as [Hin | Hex]; auto.
    + unfold client_CreateTileBundle in Hfind. injection Hfind as <- <- <-. simpl.
      rewrite lookup_insert_eq.
      split; [reflexivity |]. split; [reflexivity |].
      split; [intros k Hne; apply lookup_insert_ne; intros Heq; apply Hne; symmetry; exact Heq |].
      pose proof (consistent_more_bundles w (tile_bundles_ t) (twin_bundles twin)
                    (mkBundle (key.1 * kTileBundleWidth) (key.2 * kTileBundleHeight)
                       kTileBundleWidth kTileBundleHeight ∅) Hcons eq_refl)
        as Hcons1. simpl in Hcons1.
      split; [| split; [| split; reflexivity]].
      * apply consistent_insert; try exact Hcons1; simpl.
        -- rewrite lookup_insert_eq. eauto.
        -- lia.
        -- intros b slot Hb Hslot. rewrite lookup_insert_eq in Hb.
           injection Hb as <-. simpl in Hslot. rewrite lookup_empty in Hslot.
           destruct Hslot as [? Hs]. discriminate Hs.
        -- intros k Hk. pose proof (ptr_fresh _ _ (own_ok _ _ _ Hcons) k _ Hk). lia.
        -- intros m' Hm' k' Hk'.
           destruct (twin_ok _ _ _ Hcons m' Hm') as [Hok' _].
           pose proof (ptr_fresh _ _ Hok' k' _ Hk'). lia.
      * intros k id' Hk. apply lookup_insert_Some in Hk as [[<- _] | [_ Hk]].
        -- left. auto.
        -- destruct (Hocc k id' Hk) as [Hin | (b & slot & Hb & Hslot)].
           ++ left. auto.
           ++ right. exists b, slot. split; [| exact Hslot]. simpl.
              pose proof (ptr_fresh _ _ (own_ok _ _ _ Hcons) k id' Hk).
              rewrite lookup_insert_ne by lia. exact Hb.
Qed.

End BundleLookup.

Section Creation.

Context `{FloatOps}.

Lemma TileAt_eq w t tree i j :
  TileAt w t tree i j
  = match tile_bundles_ t !! ComputeTileBundleIndex i j with
    | Some id => bundle_TileAt w id tree i j
    | None => None
    end.
Proof.
  unfold TileAt, TileBundleContainingTileAt, TileBundleAt.
  rewrite <- surjective_pairing. reflexivity.
Qed.

Lemma bundle_TileAt_eq w id tree i j :
  bundle_TileAt w id tree i j
  = match bundles w !! id with
    | Some b => tiles_ b !! (tree, i, j)
    | None => None
    end.
Proof. reflexivity. Qed.

(** bundle->AddTileAt on a live bundle of the collection. *)
Lemma bundle_AddTileAt_spec w m twin id tree i j tile (P : TileBundleMapKey -> Prop) :
  consistent w m twin ->
  m !! ComputeTileBundleIndex i j = Some id ->
  occupied_unless w m P ->
  let w' := bundle_AddTileAt w id tree i j tile in
  consistent w' m twin /\
  occupied_unless w' m (fun k => k <> ComputeTileBundleIndex i j /\ P k) /\
  bundle_TileAt w' id tree i j = Some tile /\
  (forall id' tree' i' j', (id', tree', i', j') <> (id, tree, i, j) ->
     bundle_TileAt w' id' tree' i' j' = bundle_TileAt w id' tree' i' j') /\
  tile_requests w' = tile_requests w /\ next_tile w' = next_tile w /\
  bundle_requests w' = bundle_requests w.
Proof.
  intros Hcons Hkey Hocc. cbv zeta.
  destruct (ptr_live _ _ (own_ok _ _ _ Hcons) _ _ Hkey) as [b Hb].
  unfold bundle_AddTileAt. rewrite Hb.
  split_and!; try reflexivity.
  - apply (consistent_update w m twin id b _ (ComputeTileBundleIndex i j) Hcons Hkey Hb).
    intros slot Hslot. simpl in Hslot.
    destruct (decide (slot = (tree, i, j))) as [-> | Hne]; [right; reflexivity |].
    rewrite lookup_insert_ne in Hslot by congruence. auto.
  - intros k id' Hk.
    destruct (decide (id' = id)) as [-> | Hne].
    + right. eexists _, (tree, i, j). simpl. rewrite lookup_insert_eq. split; [reflexivity |].
      simpl. rewrite lookup_insert_eq. eauto.
    + destruct (Hocc k id' Hk) as [Hin | (b' & slot & Hb' & Hslot)].
      * left. split; [| exact Hin]. intros ->. apply Hne. congruence.
      * right. exists b', slot. simpl. rewrite lookup_insert_ne by congruence. auto.
  - rewrite bundle_TileAt_eq. simpl. rewrite lookup_insert_eq. simpl.
    apply lookup_insert_eq.
  - intros id' tree' i' j' Hne. rewrite !bundle_TileAt_eq. simpl.
    destruct (decide (id' = id)) as [-> | Hid].
    + rewrite lookup_insert_eq, Hb. simpl. apply lookup_insert_ne. congruence.
    + rewrite lookup_insert_ne by congruence. reflexivity.
Qed.

Lemma client_CreateTile_spec client w tile_rect :
  let '(w', tile) := client_CreateTile client w tile_rect in
  bundles w' = bundles w /\ next_bundle w' = next_bundle w /\
  bundle_requests w' = bundle_requests w /\
  tile_requests w' = tile_requests w ++ [tile_rect] /\
  (if CreateTile_returns_tile client tile_rect
   then tile = Some (next_tile w) /\ next_tile w' = S (next_tile w)
   else tile = None /\ next_tile w' = next_tile w).
Proof.
  unfold client_CreateTile.
  destruct (CreateTile_returns_tile client tile_rect); simpl; split_and!; reflexivity.
Qed.

Lemma CreateTile_eq client w t tree i j twin w1 t1 id :
  bundle_for_tile w t i j twin = (w1, t1, id) ->
  tile_bundles_ t1 !! ComputeTileBundleIndex i j = Some id ->
  CreateTile client w t tree i j twin
  = match adopted_tile client w1 t1 tree i j with
    | Some candidate_tile => (bundle_AddTileAt w1 id tree i j candidate_tile, t1)
    | None =>
        let tile_rect :=
          gfx.set_size (TileBoundsWithBorder (tiling_data_ t1) i j)
                       (max_texture_size (tiling_data_ t1)) in
        match (client_CreateTile client w1 tile_rect).2 with
        | Some tl =>
            (bundle_AddTileAt (client_CreateTile client w1 tile_rect).1
               id tree i j tl, t1)
        | None => ((client_CreateTile client w1 tile_rect).1, t1)
        end
    end.
Proof.
  intros Hfind Hkey. unfold CreateTile, adopted_tile. rewrite Hfind.
  rewrite TileAt_eq, Hkey.
  destruct (bundle_TileAt w1 id (other_tree tree) i j) as [cand |];
    [destruct (Region_Intersects _ _) |]; cbn [negb];
    unfold client_CreateTile;
    try match goal with
        | |- context [CreateTile_returns_tile ?c ?r] =>
            destruct (CreateTile_returns_tile c r)
        end; reflexivity.
Qed.

Lemma occupied_unless_same_bundles w w' m (P : TileBundleMapKey -> Prop) :
  bundles w' = bundles w -> occupied_unless w m P -> occupied_unless w' m P.
Proof.
  intros Hb Hocc k id Hk. rewrite Hb. apply (Hocc k id Hk).
Qed.

(** CreateTile keeps the pointers consistent, and when the collaborator
    hands out a tile for the cell, the bundle of the cell ends up with an
    occupied slot. *)
Lemma CreateTile_preserves client w t tree i j twin (P : TileBundleMapKey -> Prop) :
  consistent w (tile_bundles_ t) (twin_bundles twin) ->
  occupied_unless w (tile_bundles_ t) P ->
  (forall r, CreateTile_returns_tile client r = true) ->
  let w' := (CreateTile client w t tree i j twin).1 in
  let t' := (CreateTile client w t tree i j twin).2 in
  t' = set_tile_bundles t (tile_bundles_ t') /\
  consistent w' (tile_bundles_ t') (twin_bundles twin) /\
  occupied_unless w' (tile_bundles_ t')
    (fun k => k <> ComputeTileBundleIndex i j /\ P k).
Proof.
  intros Hcons Hocc Hclient. cbv zeta.
  destruct (bundle_for_tile w t i j twin) as [[w1 t1] id] eqn:Hfind.
  destruct (bundle_for_tile_spec w t i j twin _ w1 t1 id Hcons Hocc Hfind)
    as (Hkey & Ht1 & _ & Hcons1 & Hocc1 & _ & _).
  assert (Hdone : forall w2,
            consistent w2 (tile_bundles_ t1) (twin_bundles twin) ->
            occupied_unless w2 (tile_bundles_ t1)
              (fun k => k = ComputeTileBundleIndex i j \/ P k) ->
            forall tile,
            consistent (bundle_AddTileAt w2 id tree i j tile) (tile_bundles_ t1)
              (twin_bundles twin) /\
            occupied_unless (bundle_AddTileAt w2 id tree i j tile) (tile_bundles_ t1)
              (fun k => k <> ComputeTileBundleIndex i j /\ P k)).
  { intros w2 Hc2 Ho2 tile.
    destruct (bundle_AddTileAt_spec w2 _ _ id tree i j tile _ Hc2 Hkey Ho2)
      as (Hc & Ho & _).
    split; [exact Hc |]. eapply occupied_unless_weaken; [| exact Ho].
    intros k [Hne [Heq | HP]]; [contradiction | auto]. }
  rewrite (CreateTile_eq client w t tree i j twin w1 t1 id Hfind Hkey).
  destruct (adopted_tile client w1 t1 tree i j) as [cand |].
  - simpl. split; [exact Ht1 |]. apply Hdone; assumption.
  - cbv zeta.
    pose proof (client_CreateTile_spec client w1
                  (gfx.set_size (TileBoundsWithBorder (tiling_data_ t1) i j)
                     (max_texture_size (tiling_data_ t1)))) as Hreq.
    destruct (client_CreateTile client w1 _) as [w2 tile].
    destruct Hreq as (Hb & Hn & _ & _ & Htile). rewrite Hclient in Htile.
    destruct Htile as [-> _]. simpl. split; [exact Ht1 |].
    apply Hdone.
    + apply (consistent_same_bundles w1 w2 _ _ Hb Hn Hcons1).
    + apply (occupied_unless_same_bundles w1 w2 _ _ Hb Hocc1).
Qed.

Lemma bundle_AddTileAt_lookup w id tree i j tile :
  is_Some (bundles w !! id) ->
  bundle_TileAt (bundle_AddTileAt w id tree i j tile) id tree i j = Some tile.
Proof.
  intros [b Hb]. unfold bundle_AddTileAt. rewrite Hb, bundle_TileAt_eq. simpl.
  rewrite lookup_insert_eq. simpl. apply lookup_insert_eq.
Qed.

Lemma bundle_AddTileAt_logs w id tree i j tile :
  tile_requests (bundle_AddTileAt w id tree i j tile) = tile_requests w /\
  next_tile (bundle_AddTileAt w id tree i j tile) = next_tile w /\
  bundle_requests (bundle_AddTileAt w id tree i j tile) = bundle_requests w /\
  next_bundle (bundle_AddTileAt w id tree i j tile) = next_bundle w.
Proof.
  unfold bundle_AddTileAt. destruct (bundles w !! id); simpl; auto.
Qed.

Lemma bundle_for_tile_key w t i j twin w1 t1 id :
  bundle_for_tile w t i j twin = (w1, t1, id) ->
  tile_bundles_ t1 !! ComputeTileBundleIndex i j = Some id.
Proof.
  rewrite bundle_for_tile_eq.
  destruct (tile_bundles_ t !! ComputeTileBundleIndex i j) as [id0 |] eqn:Hkey.
  - intros Heq. injection Heq as <- <- <-. exact Hkey.
  - rewrite CreateBundleForTileAt_eq. cbv zeta.
    destruct (twin_candidate t twin (ComputeTileBundleIndex i j)) as [idt |].
    + intros Heq. injection Heq as <- <- <-. simpl. apply lookup_insert_eq.
    + unfold client_CreateTileBundle. intros Heq. injection Heq as <- <- <-.
      simpl. apply lookup_insert_eq.
Qed.

(** The branch of CreateTile that asks the collaborator. *)
Lemma CreateTile_requests client w1 t1 tree i j id :
  tile_bundles_ t1 !! ComputeTileBundleIndex i j = Some id ->
  is_Some (bundles w1 !! id) ->
  let tile_rect :=
    gfx.set_size (TileBoundsWithBorder (tiling_data_ t1) i j)
                 (max_texture_size (tiling_data_ t1)) in
  let r := match (client_CreateTile client w1 tile_rect).2 with
           | Some tl =>
               (bundle_AddTileAt (client_CreateTile client w1 tile_rect).1
                  id tree i j tl, t1)
           | None => ((client_CreateTile client w1 tile_rect).1, t1)
           end in
  r.2 = t1 /\ tile_requested client w1 t1 tree i j r.1.
Proof.
  intros Hkey Hlive. cbv zeta. unfold tile_requested. cbv zeta.
  pose proof (client_CreateTile_spec client w1
                (gfx.set_size (TileBoundsWithBorder (tiling_data_ t1) i j)
                   (max_texture_size (tiling_data_ t1)))) as Hspec.
  destruct (client_CreateTile client w1 _) as [w2 tile].
  destruct Hspec as (Hb & _ & _ & Hlog & Htile). simpl.
  destruct (CreateTile_returns_tile client _).
  - destruct Htile as [-> Hnext]. simpl.
    destruct (bundle_AddTileAt_logs w2 id tree i j (next_tile w1))
      as (Hl & Hn & _ & _).
    rewrite Hl, Hn, TileAt_eq, Hkey.
    rewrite bundle_AddTileAt_lookup by (rewrite Hb; exact Hlive). auto.
  - destruct Htile as [-> Hnext]. simpl. auto.
Qed.

(** The branch of CreateTile that adopts the other tree's tile. *)
Lemma CreateTile_adopts w1 t1 tree i j id candidate_tile :
  tile_bundles_ t1 !! ComputeTileBundleIndex i j = Some id ->
  is_Some (bundles w1 !! id) ->
  let w2 := bundle_AddTileAt w1 id tree i j candidate_tile in
  TileAt w2 t1 tree i j = Some candidate_tile /\
  tile_requests w2 = tile_requests w1 /\ next_tile w2 = next_tile w1.
Proof.
  intros Hkey Hlive. cbv zeta.
  destruct (bundle_AddTileAt_logs w1 id tree i j candidate_tile) as (Hl & Hn & _ & _).
  rewrite Hl, Hn, TileAt_eq, Hkey, bundle_AddTileAt_lookup by exact Hlive. auto.
Qed.

(** C8: once CreateTile has the cell's bundle, if the other tree holds a
    tile at the cell and the cell's bordered bounds, scaled back to layer
    space, do not intersect the collaborator's invalidation, that very tile
    is stored for the requested tree and no tile is requested; otherwise
    one tile is requested for the allocation rectangle (the bordered bounds
    with the maximum texture size) and it is stored only when the
    collaborator returned one: a null result leaves the bundles as they
    were.  The bundle pointer of the cell is taken to be live. *)
Theorem CreateTile_adopts_or_requests client w t tree i j twin w1 t1 id :
  bundle_for_tile w t i j twin = (w1, t1, id) ->
  is_Some (bundles w1 !! id) ->
  let result := CreateTile client w t tree i j twin in
  result.2 = t1 /\
  match TileAt w1 t1 (other_tree tree) i j with
  | Some candidate_tile =>
      if Region_Intersects (GetInvalidation client)
           (ScaleToEnclosingRect (TileBoundsWithBorder (tiling_data_ t1) i j)
              (float_div float_one (contents_scale_ t1)))
      then tile_requested client w1 t1 tree i j result.1
      else TileAt result.1 t1 tree i j = Some candidate_tile
           /\ tile_requests result.1 = tile_requests w1
           /\ next_tile result.1 = next_tile w1
  | None => tile_requested client w1 t1 tree i j result.1
  end.
Proof.
  intros Hfind Hlive. cbv zeta.
  pose proof (bundle_for_tile_key w t i j twin w1 t1 id Hfind) as Hkey.
  rewrite (CreateTile_eq client w t tree i j twin w1 t1 id Hfind Hkey).
  pose proof (CreateTile_requests client w1 t1 tree i j id Hkey Hlive) as Hreq.
  cbv zeta in Hreq. unfold adopted_tile.
  destruct (TileAt w1 t1 (other_tree tree) i j) as [cand |]; [| exact Hreq].
  destruct (Region_Intersects _ _); [exact Hreq |].
  split; [reflexivity |].
  exact (CreateTile_adopts w1 t1 tree i j id cand Hkey Hlive).
Qed.

(** C5: when the two tilings have the same tile size, this tiling has no
    bundle at the cell's key and the twin holds one, CreateBundleForTileAt
    stores the twin's bundle itself and requests none from the collaborator;
    after CreateTile both tilings resolve the cell to that one bundle, so
    every slot read through the twin equals the slot read through this
    tiling, and the tile just created is reachable from the twin. *)
Theorem CreateTile_shares_twin_bundle client w t tw tree i j id :
  max_texture_size (tiling_data_ t) = max_texture_size (tiling_data_ tw) ->
  tile_bundles_ t !! ComputeTileBundleIndex i j = None ->
  tile_bundles_ tw !! ComputeTileBundleIndex i j = Some id ->
  is_Some (bundles w !! id) ->
  CreateBundleForTileAt w t i j (Some tw)
  = (w, set_tile_bundles t (<[ComputeTileBundleIndex i j := id]> (tile_bundles_ t)),
     id) /\
  let result := CreateTile client w t tree i j (Some tw) in
  TileBundleContainingTileAt result.2 i j = Some id /\
  TileBundleContainingTileAt tw i j = Some id /\
  bundle_requests result.1 = bundle_requests w /\
  next_bundle result.1 = next_bundle w /\
  (forall tr, TileAt result.1 tw tr i j = TileAt result.1 result.2 tr i j) /\
  (forall tile, TileAt result.1 result.2 tree i j = Some tile ->
                TileAt result.1 tw tree i j = Some tile) /\
  ((forall r, CreateTile_returns_tile client r = true) ->
   is_Some (TileAt result.1 tw tree i j)).
Proof.
  intros Hsize Hnone Htwin Hlive.
  assert (Hbundle : CreateBundleForTileAt w t i j (Some tw)
            = (w, set_tile_bundles t
                    (<[ComputeTileBundleIndex i j := id]> (tile_bundles_ t)), id)).
  { rewrite CreateBundleForTileAt_eq. cbv zeta. unfold twin_candidate.
    rewrite bool_decide_eq_true_2 by exact Hsize. rewrite Htwin. reflexivity. }
  split; [exact Hbundle |]. cbv zeta.
  set (t1 := set_tile_bundles t
               (<[ComputeTileBundleIndex i j := id]> (tile_bundles_ t))) in *.
  assert (Hfind : bundle_for_tile w t i j (Some tw) = (w, t1, id)).
  { rewrite bundle_for_tile_eq, Hnone. exact Hbundle. }
  assert (Hkey : tile_bundles_ t1 !! ComputeTileBundleIndex i j = Some id).
  { subst t1. simpl. apply lookup_insert_eq. }
  assert (Hout : (CreateTile client w t tree i j (Some tw)).2 = t1 /\
            ((forall r, CreateTile_returns_tile client r = true) ->
             is_Some (TileAt (CreateTile client w t tree i j (Some tw)).1
                             t1 tree i j))).
  { rewrite (CreateTile_eq client w t tree i j (Some tw) w t1 id Hfind Hkey).
    destruct (adopted_tile client w t1 tree i j) as [cand |].
    - split; [reflexivity |]. intros _.
      destruct (CreateTile_adopts w t1 tree i j id cand Hkey Hlive) as (Hcand & _).
      cbn [fst]. rewrite Hcand. eauto.
    - destruct (CreateTile_requests client w t1 tree i j id Hkey Hlive)
        as [Ht Hreq].
      cbv zeta in Ht, Hreq. split; [exact Ht |]. intros Hclient.
      unfold tile_requested in Hreq. cbv zeta in Hreq. rewrite Hclient in Hreq.
      destruct Hreq as (_ & Hnew & _). cbv zeta. rewrite Hnew. eauto. }
  destruct Hout as [Ht Hsome].
  set (result := CreateTile client w t tree i j (Some tw)) in *.
  rewrite Ht.
  assert (Hk1 : TileBundleContainingTileAt t1 i j = Some id).
  { unfold TileBundleContainingTileAt, TileBundleAt.
    rewrite <- surjective_pairing. exact Hkey. }
  assert (Hk2 : TileBundleContainingTileAt tw i j = Some id).
  { unfold TileBundleContainingTileAt, TileBundleAt.
    rewrite <- surjective_pairing. exact Htwin. }
  assert (Hsame : forall tr, TileAt result.1 tw tr i j = TileAt result.1 t1 tr i j).
  { intros tr. rewrite !TileAt_eq, Hkey, Htwin. reflexivity. }
  assert (Hlogs : bundle_requests result.1 = bundle_requests w
                  /\ next_bundle result.1 = next_bundle w).
  { subst result.
    rewrite (CreateTile_eq client w t tree i j (Some tw) w t1 id Hfind Hkey).
    destruct (adopted_tile client w t1 tree i j) as [cand |].
    - simpl. destruct (bundle_AddTileAt_logs w id tree i j cand) as (_ & _ & Hb & Hn).
      auto.
    - cbv zeta.
      pose proof (client_CreateTile_spec client w
                    (gfx.set_size (TileBoundsWithBorder (tiling_data_ t1) i j)
                       (max_texture_size (tiling_data_ t1)))) as Hspec.
      destruct (client_CreateTile client w _) as [w2 tile].
      destruct Hspec as (_ & Hn & Hb & _ & _). simpl.
      destruct tile as [tl |]; simpl; [| auto].
      destruct (bundle_AddTileAt_logs w2 id tree i j tl) as (_ & _ & Hb' & Hn').
      rewrite Hb', Hn'. auto. }
  destruct Hlogs as [Hlog1 Hlog2].
  split_and!; try assumption.
  - intros tile Htile. rewrite Hsame. exact Htile.
  - intros Hclient. rewrite Hsame. apply Hsome, Hclient.
Qed.

End Creation.

Section Removal.

Context `{FloatOps}.

Lemma RemoveTile_eq w t tree i j :
  RemoveTile w t tree i j
  = match tile_bundles_ t !! ComputeTileBundleIndex i j with
    | Some id =>
        match bundles w !! id with
        | Some b => (update_bundle w id (without_slot b tree i j),
                     bool_decide (is_Some (tiles_ b !! (tree, i, j))))
        | None => (w, false)
        end
    | None => (w, false)
    end.
Proof.
  unfold RemoveTile.
  destruct (tile_bundles_ t !! ComputeTileBundleIndex i j) as [id |]; [| reflexivity].
  destruct (bundles w !! id); reflexivity.
Qed.

Lemma RemoveTile_logs w t tree i j :
  tile_requests (RemoveTile w t tree i j).1 = tile_requests w /\
  next_tile (RemoveTile w t tree i j).1 = next_tile w /\
  bundle_requests (RemoveTile w t tree i j).1 = bundle_requests w /\
  next_bundle (RemoveTile w t tree i j).1 = next_bundle w.
Proof.
  rewrite RemoveTile_eq.
  destruct (tile_bundles_ t !! ComputeTileBundleIndex i j) as [id |]; [| auto].
  destruct (bundles w !! id); simpl; auto.
Qed.

(** The tile of the cell is gone for the tree. *)
Lemma RemoveTile_removed w t tree i j :
  TileAt (RemoveTile w t tree i j).1 t tree i j = None.
Proof.
  rewrite RemoveTile_eq, TileAt_eq.
  destruct (tile_bundles_ t !! ComputeTileBundleIndex i j) as [id |]; [| reflexivity].
  rewrite bundle_TileAt_eq.
  destruct (bundles w !! id) as [b |] eqn:Hb; simpl.
  - rewrite lookup_insert_eq. simpl. apply lookup_delete_eq.
  - rewrite Hb. reflexivity.
Qed.

(** Every other slot of every bundle is as it was. *)
Lemma RemoveTile_other_slots w t tree i j id' tree' i' j' :
  (tree', i', j') <> (tree, i, j) ->
  bundle_TileAt (RemoveTile w t tree i j).1 id' tree' i' j'
  = bundle_TileAt w id' tree' i' j'.
Proof.
  intros Hne. rewrite RemoveTile_eq, !bundle_TileAt_eq.
  destruct (tile_bundles_ t !! ComputeTileBundleIndex i j) as [id |]; [| reflexivity].
  destruct (bundles w !! id) as [b |] eqn:Hb; [| reflexivity]. simpl.
  destruct (decide (id' = id)) as [-> | Hid].
  - rewrite lookup_insert_eq, Hb. simpl. apply lookup_delete_ne. congruence.
  - rewrite lookup_insert_ne by congruence. reflexivity.
Qed.

Lemma RemoveTile_other w t tree i j t0 tree' i' j' :
  (tree', i', j') <> (tree, i, j) ->
  TileAt (RemoveTile w t tree i j).1 t0 tree' i' j' = TileAt w t0 tree' i' j'.
Proof.
  intros Hne. rewrite !TileAt_eq.
  destruct (tile_bundles_ t0 !! ComputeTileBundleIndex i' j'); [| reflexivity].
  apply RemoveTile_other_slots, Hne.
Qed.

Lemma RemoveTile_consistent w t tree i j m twin :
  consistent w m twin -> consistent (RemoveTile w t tree i j).1 m twin.
Proof.
  intros Hcons. rewrite RemoveTile_eq.
  destruct (tile_bundles_ t !! ComputeTileBundleIndex i j) as [id |]; [| exact Hcons].
  destruct (bundles w !! id) as [b |] eqn:Hb; [| exact Hcons]. simpl.
  destruct Hcons as [Hown Htwin].
  assert (Hfewer : forall slot,
            is_Some (tiles_ (without_slot b tree i j) !! slot) ->
            is_Some (tiles_ b !! slot)).
  { intros slot Hslot. simpl in Hslot.
    apply lookup_delete_is_Some in Hslot. tauto. }
  constructor.
  - apply (pointers_ok_update w m id b _ Hown Hb).
    intros slot Hslot. left. apply Hfewer, Hslot.
  - intros m' ->. destruct (Htwin m' eq_refl) as [Hok' Hagree]. split; [| exact Hagree].
    apply (pointers_ok_update w m' id b _ Hok' Hb).
    intros slot Hslot. left. apply Hfewer, Hslot.
Qed.

Lemma RemoveTile_occupied w t tree i j (P : TileBundleMapKey -> Prop) :
  pointers_ok w (tile_bundles_ t) ->
  occupied_unless w (tile_bundles_ t) P ->
  occupied_unless (RemoveTile w t tree i j).1 (tile_bundles_ t)
    (fun k => ((RemoveTile w t tree i j).2 = true /\ k = ComputeTileBundleIndex i j)
              \/ P k).
Proof.
  intros Hok Hocc. rewrite RemoveTile_eq.
  destruct (tile_bundles_ t !! ComputeTileBundleIndex i j) as [id |] eqn:Hkey;
    [| eapply occupied_unless_weaken; [| exact Hocc]; auto].
  destruct (bundles w !! id) as [b |] eqn:Hb;
    [| eapply occupied_unless_weaken; [| exact Hocc]; auto]. simpl.
  intros k id' Hk.
  destruct (decide (id' = id)) as [-> | Hid].
  - pose proof (ptr_inj _ _ Hok _ _ _ Hk Hkey) as ->.
    destruct (bool_decide_reflect (is_Some (tiles_ b !! (tree, i, j)))) as [Hs | Hs].
    + left. left. auto.
    + destruct (Hocc _ _ Hkey) as [Hin | (b' & slot & Hb' & Hslot)]; [auto |].
      right. simpl. rewrite lookup_insert_eq. eexists _, slot. split; [reflexivity |].
      simpl. rewrite Hb in Hb'. injection Hb' as <-.
      rewrite delete_id; [exact Hslot |].
      apply eq_None_not_Some. exact Hs.
  - destruct (Hocc k id' Hk) as [Hin | (b' & slot & Hb' & Hslot)].
    + left. auto.
    + right. exists b', slot. simpl. rewrite lookup_insert_ne by congruence. auto.
Qed.

(** *** Erasing an empty bundle *)
Lemma RemoveBundle_eq w t i j :
  RemoveBundleContainingTileAtIfEmpty w t i j
  = match tile_bundles_ t !! ComputeTileBundleIndex i j with
    | Some id =>
        match bundles w !! id with
        | Some b =>
            if Bundle.IsEmpty b
            then set_tile_bundles t
                   (delete (ComputeTileBundleIndex i j) (tile_bundles_ t))
            else t
        | None => t
        end
    | None => t
    end.
Proof. reflexivity. Qed.

Lemma RemoveBundle_fields w t i j :
  RemoveBundleContainingTileAtIfEmpty w t i j
  = set_tile_bundles t
      (tile_bundles_ (RemoveBundleContainingTileAtIfEmpty w t i j)).
Proof.
  rewrite RemoveBundle_eq.
  destruct (tile_bundles_ t !! ComputeTileBundleIndex i j) as [id |];
    [| symmetry; apply set_tile_bundles_same].
  destruct (bundles w !! id) as [b |]; [| symmetry; apply set_tile_bundles_same].
  destruct (Bundle.IsEmpty b); [reflexivity | symmetry; apply set_tile_bundles_same].
Qed.

(** Only the key of the cell can go, and only when its bundle is empty;
    it never takes a tile with it. *)
Lemma RemoveBundle_bundles w t i j k :
  tile_bundles_ (RemoveBundleContainingTileAtIfEmpty w t i j) !! k
  = match tile_bundles_ t !! k with
    | Some id =>
        if bool_decide (k = ComputeTileBundleIndex i j)
        then match bundles w !! id with
             | Some b => if Bundle.IsEmpty b then None else Some id
             | None => Some id
             end
        else Some id
    | None => None
    end.
Proof.
  rewrite RemoveBundle_eq.
  destruct (bool_decide_reflect (k = ComputeTileBundleIndex i j)) as [-> | Hne].
  - destruct (tile_bundles_ t !! ComputeTileBundleIndex i j) as [id |] eqn:Hkey;
      [| rewrite Hkey; reflexivity].
    destruct (bundles w !! id) as [b |]; [| rewrite Hkey; reflexivity].
    destruct (Bundle.IsEmpty b); [| rewrite Hkey; reflexivity].
    simpl. apply lookup_delete_eq.
  - assert (Hsame : forall t', tile_bundles_ t' = tile_bundles_ t
                               \/ tile_bundles_ t'
                                  = delete (ComputeTileBundleIndex i j) (tile_bundles_ t) ->
              tile_bundles_ t' !! k
              = match tile_bundles_ t !! k with Some id => Some id | None => None end).
    { intros t' [-> | ->]; [| rewrite lookup_delete_ne by congruence];
        destruct (tile_bundles_ t !! k); reflexivity. }
    apply Hsame.
    destruct (tile_bundles_ t !! ComputeTileBundleIndex i j) as [id |]; [| auto].
    destruct (bundles w !! id) as [b |]; [| auto].
    destruct (Bundle.IsEmpty b); simpl; auto.
Qed.

Lemma IsEmpty_no_tile b slot : Bundle.IsEmpty b = true -> tiles_ b !! slot = None.
Proof.
  unfold Bundle.IsEmpty. intros He. apply bool_decide_eq_true in He.
  rewrite He. apply lookup_empty.
Qed.

Lemma RemoveBundle_TileAt w t i j tree i' j' :
  TileAt w (RemoveBundleContainingTileAtIfEmpty w t i j) tree i' j'
  = TileAt w t tree i' j'.
Proof.
  rewrite !TileAt_eq, RemoveBundle_bundles.
  destruct (tile_bundles_ t !! ComputeTileBundleIndex i' j') as [id |]; [| reflexivity].
  destruct (bool_decide _); [| reflexivity].
  unfold bundle_TileAt.
  destruct (bundles w !! id) as [b |] eqn:Hb; [| rewrite Hb; reflexivity].
  destruct (Bundle.IsEmpty b) eqn:He; [| rewrite Hb; reflexivity].
  symmetry. apply IsEmpty_no_tile, He.
Qed.

Lemma RemoveBundle_sub w t i j k id :
  tile_bundles_ (RemoveBundleContainingTileAtIfEmpty w t i j) !! k = Some id ->
  tile_bundles_ t !! k = Some id.
Proof.
  rewrite RemoveBundle_bundles.
  destruct (tile_bundles_ t !! k) as [id' |]; [| discriminate].
  destruct (bool_decide _); [| auto].
  destruct (bundles w !! id') as [b |]; [| auto].
  destruct (Bundle.IsEmpty b); [discriminate | auto].
Qed.

Lemma consistent_sub w m m' twin :
  (forall k id, m' !! k = Some id -> m !! k = Some id) ->
  consistent w m twin -> consistent w m' twin.
Proof.
  intros Hsub [Hown Htwin]. constructor.
  - constructor.
    + intros k id Hk. apply (ptr_live _ _ Hown k), Hsub, Hk.
    + intros k id Hk. apply (ptr_fresh _ _ Hown k), Hsub, Hk.
    + intros k k' id Hk Hk'. apply (ptr_inj _ _ Hown k k' id); apply Hsub; assumption.
    + intros k id b slot Hk. apply (ptr_slots _ _ Hown k id b slot), Hsub, Hk.
  - intros m0 ->. destruct (Htwin m0 eq_refl) as [Hok' Hagree]. split; [exact Hok' |].
    intros k k' id Hk. apply (Hagree k k' id), Hsub, Hk.
Qed.

Lemma RemoveBundle_consistent w t i j twin :
  consistent w (tile_bundles_ t) twin ->
  consistent w (tile_bundles_ (RemoveBundleContainingTileAtIfEmpty w t i j)) twin.
Proof. apply consistent_sub. intros k id. apply RemoveBundle_sub. Qed.

Lemma RemoveBundle_occupied w t i j (P : TileBundleMapKey -> Prop) :
  pointers_ok w (tile_bundles_ t) ->
  occupied_unless w (tile_bundles_ t) P ->
  occupied_unless w (tile_bundles_ (RemoveBundleContainingTileAtIfEmpty w t i j))
    (fun k => k <> ComputeTileBundleIndex i j /\ P k).
Proof.
  intros Hok Hocc k id Hk.
  pose proof (RemoveBundle_sub _ _ _ _ _ _ Hk) as Hk0.
  rewrite RemoveBundle_bundles, Hk0 in Hk.
  destruct (decide (k = ComputeTileBundleIndex i j)) as [-> | Hne].
  - rewrite bool_decide_eq_true_2 in Hk by reflexivity.
    destruct (ptr_live _ _ Hok _ _ Hk0) as [b Hb]. rewrite Hb in Hk.
    destruct (Bundle.IsEmpty b) eqn:He; [discriminate |].
    right. unfold Bundle.IsEmpty in He. apply bool_decide_eq_false in He.
    apply map_choose in He as (slot & tile & Hslot). exists b, slot. eauto.
  - destruct (Hocc k id Hk0) as [HP | Hex]; auto.
Qed.

End Removal.

Section Loops.

Context `{FloatOps}.

Lemma remove_tiles_cons tree cell cells st :
  remove_tiles tree (cell :: cells) st
  = remove_tiles tree cells (remove_step tree st cell).
Proof. destruct st as [w t]. reflexivity. Qed.

Lemma remove_tiles_nil tree st : remove_tiles tree [] st = st.
Proof. reflexivity. Qed.

Lemma remove_step_removed tree w t cell :
  TileAt (remove_step tree (w, t) cell).1 (remove_step tree (w, t) cell).2
         tree cell.1 cell.2 = None.
Proof.
  unfold remove_step; simpl. rewrite RemoveBundle_TileAt. apply RemoveTile_removed.
Qed.

Lemma remove_step_other tree w t cell tree' i' j' :
  tree' <> tree \/ (i', j') <> cell ->
  TileAt (remove_step tree (w, t) cell).1 (remove_step tree (w, t) cell).2
         tree' i' j' = TileAt w t tree' i' j'.
Proof.
  intros Hne. unfold remove_step; simpl. rewrite RemoveBundle_TileAt.
  apply RemoveTile_other. destruct cell as [i j]. simpl.
  intros Heq. injection Heq as -> -> ->. destruct Hne as [Hne | Hne]; congruence.
Qed.

Lemma remove_tiles_spec tree cells : forall w t,
  let w' := (remove_tiles tree cells (w, t)).1 in
  let t' := (remove_tiles tree cells (w, t)).2 in
  t' = set_tile_bundles t (tile_bundles_ t') /\
  (tile_requests w' = tile_requests w /\ next_tile w' = next_tile w /\
   bundle_requests w' = bundle_requests w /\ next_bundle w' = next_bundle w) /\
  (forall cell, cell ∈ cells -> TileAt w' t' tree cell.1 cell.2 = None) /\
  (forall tree' i' j', tree' <> tree \/ (i', j') ∉ cells ->
     TileAt w' t' tree' i' j' = TileAt w t tree' i' j') /\
  (forall k id, tile_bundles_ t' !! k = Some id -> tile_bundles_ t !! k = Some id) /\
  (forall twin (P : TileBundleMapKey -> Prop),
     consistent w (tile_bundles_ t) twin ->
     occupied_unless w (tile_bundles_ t) P ->
     consistent w' (tile_bundles_ t') twin /\
     occupied_unless w' (tile_bundles_ t')
       (fun k => (k ∉ cell_key <$> cells) /\ P k)).
Proof.
  induction cells as [| cell cells IH]; intros w t; cbv zeta.
  - rewrite remove_tiles_nil. simpl.
    split_and!; auto using set_tile_bundles_same.
    + intros cell Hin. apply elem_of_nil in Hin. contradiction.
    + intros twin P Hc Ho. split; [exact Hc |].
      eapply occupied_unless_weaken; [| exact Ho]. intros k HP. split; [| exact HP].
      apply not_elem_of_nil.
  - rewrite remove_tiles_cons.
    destruct (remove_step tree (w, t) cell) as [w1 t1] eqn:Hstep.
    pose proof (remove_step_removed tree w t cell) as Hgone.
    pose proof (remove_step_other tree w t cell) as Hother.
    rewrite Hstep in Hgone, Hother. simpl in Hgone, Hother.
    assert (Ht1 : t1 = RemoveBundleContainingTileAtIfEmpty
                         (RemoveTile w t tree cell.1 cell.2).1 t cell.1 cell.2)
      by (unfold remove_step in Hstep; simpl in Hstep; injection Hstep as _ <-;
          reflexivity).
    assert (Hw1 : w1 = (RemoveTile w t tree cell.1 cell.2).1)
      by (unfold remove_step in Hstep; simpl in Hstep; injection Hstep as <- _;
          reflexivity).
    destruct (IH w1 t1) as (Hf & Hlogs & Hnone & Hsame & Hsub & Hinv).
    split_and!.
    + rewrite Hf at 1. rewrite Ht1 at 1. rewrite RemoveBundle_fields.
      destruct t; reflexivity.
    + destruct Hlogs as (-> & _). rewrite Hw1. apply RemoveTile_logs.
    + destruct Hlogs as (_ & -> & _). rewrite Hw1. apply RemoveTile_logs.
    + destruct Hlogs as (_ & _ & -> & _). rewrite Hw1. apply RemoveTile_logs.
    + destruct Hlogs as (_ & _ & _ & ->). rewrite Hw1. apply RemoveTile_logs.
    + intros c Hin. apply elem_of_cons in Hin as [-> | Hin]; [| apply Hnone, Hin].
      destruct (decide (cell ∈ cells)) as [Hin | Hnin]; [apply Hnone, Hin |].
      rewrite Hsame by (right; destruct cell; exact Hnin). exact Hgone.
    + intros tree' i' j' Hne. rewrite Hsame.
      * apply Hother. destruct Hne as [Hne | Hne]; [auto |].
        right. intros <-. apply Hne. apply elem_of_cons. auto.
      * destruct Hne as [Hne | Hne]; [auto |].
        right. intros Hin. apply Hne. apply elem_of_cons. auto.
    + intros k id Hk. apply Hsub in Hk. rewrite Ht1 in Hk.
      apply RemoveBundle_sub in Hk. exact Hk.
    + intros twin P Hc Ho.
      pose proof (RemoveTile_consistent w t tree cell.1 cell.2 _ _ Hc) as Hc1.
      pose proof (RemoveTile_occupied w t tree cell.1 cell.2 P (own_ok _ _ _ Hc) Ho)
        as Ho1.
      rewrite <- Hw1 in Hc1, Ho1, Ht1.
      pose proof (RemoveBundle_consistent w1 t cell.1 cell.2 _ Hc1) as Hc2.
      pose proof (RemoveBundle_occupied w1 t cell.1 cell.2 _ (own_ok _ _ _ Hc1) Ho1)
        as Ho2.
      rewrite <- Ht1 in Hc2, Ho2.
      destruct (Hinv twin _ Hc2 Ho2) as [Hc3 Ho3]. split; [exact Hc3 |].
      eapply occupied_unless_weaken; [| exact Ho3].
      intros k [Hnin [Hne [[_ Heq] | HP]]]; [contradiction |].
      split; [| exact HP]. rewrite fmap_cons. intros Hin.
      apply elem_of_cons in Hin as [Heq | Hin]; [| contradiction].
      apply Hne. exact Heq.
Qed.

(** *** The creation pass of SetLiveTilesRect and Invalidate *)
Lemma create_tiles_cons client tree twin cell cells st :
  create_tiles client tree twin (cell :: cells) st
  = create_tiles client tree twin cells
      (CreateTile client st.1 st.2 tree cell.1 cell.2 twin).
Proof. destruct st as [w t]. reflexivity. Qed.

Lemma create_tiles_preserves client tree twin cells :
  (forall r, CreateTile_returns_tile client r = true) ->
  forall w t (P : TileBundleMapKey -> Prop),
  consistent w (tile_bundles_ t) (twin_bundles twin) ->
  occupied_unless w (tile_bundles_ t) P ->
  let w' := (create_tiles client tree twin cells (w, t)).1 in
  let t' := (create_tiles client tree twin cells (w, t)).2 in
  t' = set_tile_bundles t (tile_bundles_ t') /\
  consistent w' (tile_bundles_ t') (twin_bundles twin) /\
  occupied_unless w' (tile_bundles_ t') (fun k => (k ∉ cell_key <$> cells) /\ P k).
Proof.
  intros Hclient. induction cells as [| cell cells IH]; intros w t P Hc Ho; cbv zeta.
  - simpl. split; [symmetry; apply set_tile_bundles_same |]. split; [exact Hc |].
    eapply occupied_unless_weaken; [| exact Ho]. intros k HP. split; [| exact HP].
    apply not_elem_of_nil.
  - rewrite create_tiles_cons. simpl fst. simpl snd.
    destruct (CreateTile_preserves client w t tree cell.1 cell.2 twin P Hc Ho Hclient)
      as (Ht1 & Hc1 & Ho1).
    destruct (CreateTile client w t tree cell.1 cell.2 twin) as [w1 t1].
    simpl in Ht1, Hc1, Ho1.
    destruct (IH w1 t1 _ Hc1 Ho1) as (Ht2 & Hc2 & Ho2).
    split_and!.
    + rewrite Ht2 at 1. rewrite Ht1 at 1. destruct t; reflexivity.
    + exact Hc2.
    + eapply occupied_unless_weaken; [| exact Ho2].
      intros k [Hnin [Hne HP]]. split; [| exact HP].
      rewrite fmap_cons. intros Hin. apply elem_of_cons in Hin as [Heq | Hin];
        [apply Hne; exact Heq | contradiction].
Qed.

(** *** The removal pass of Invalidate *)
Lemma invalidate_cells_spec t twin cells : forall w keys,
  consistent w (tile_bundles_ t) twin ->
  occupied_unless w (tile_bundles_ t) (fun k => k ∈ cell_key <$> keys) ->
  let w' := (invalidate_cells t cells (w, keys)).1 in
  let keys' := (invalidate_cells t cells (w, keys)).2 in
  consistent w' (tile_bundles_ t) twin /\
  occupied_unless w' (tile_bundles_ t) (fun k => k ∈ cell_key <$> keys').
Proof.
  induction cells as [| cell cells IH]; intros w keys Hc Ho; cbv zeta.
  - simpl. auto.
  - unfold invalidate_cells. simpl fold_left.
    pose proof (RemoveTile_consistent w t PENDING_TREE cell.1 cell.2 _ _ Hc) as Hc1.
    pose proof (RemoveTile_occupied w t PENDING_TREE cell.1 cell.2 _
                  (own_ok _ _ _ Hc) Ho) as Ho1.
    destruct (RemoveTile w t PENDING_TREE cell.1 cell.2) as [w1 deleted].
    simpl in Hc1, Ho1.
    apply (IH w1 (if deleted then keys ++ [cell] else keys) Hc1).
    eapply occupied_unless_weaken; [| exact Ho1].
    intros k [[-> ->] | Hin].
    + rewrite fmap_app. apply elem_of_app. right. simpl. apply list_elem_of_singleton.
      reflexivity.
    + destruct deleted; [| exact Hin].
      rewrite fmap_app. apply elem_of_app. auto.
Qed.

Lemma invalidate_rects_spec t twin layer_region : forall w keys,
  consistent w (tile_bundles_ t) twin ->
  occupied_unless w (tile_bundles_ t) (fun k => k ∈ cell_key <$> keys) ->
  let w' := (invalidate_rects t layer_region (w, keys)).1 in
  let keys' := (invalidate_rects t layer_region (w, keys)).2 in
  consistent w' (tile_bundles_ t) twin /\
  occupied_unless w' (tile_bundles_ t) (fun k => k ∈ cell_key <$> keys').
Proof.
  induction layer_region as [| layer_rect rects IH]; intros w keys Hc Ho; cbv zeta.
  - simpl. auto.
  - unfold invalidate_rects. simpl fold_left.
    destruct (gfx.IsEmpty _).
    + apply (IH w keys Hc Ho).
    + destruct (invalidate_cells_spec t twin
                  (TilingData_Iterator (tiling_data_ t)
                     (gfx.IntersectRects
                        (ScaleToEnclosingRect layer_rect (contents_scale_ t))
                        (live_tiles_rect_ t))) w keys Hc Ho) as [Hc1 Ho1].
      destruct (invalidate_cells t _ (w, keys)) as [w1 keys1].
      apply (IH w1 keys1 Hc1 Ho1).
Qed.

End Loops.

Section Invariant.

Context `{FloatOps}.

Lemma well_kept_invariant w t twin :
  well_kept w (tile_bundles_ t) twin -> bundle_invariant w t.
Proof.
  intros [Hc Ho] k. split.
  - intros [id Hk]. destruct (Ho k id Hk) as [[] | (b & slot & Hb & Hslot)].
    pose proof (ptr_slots _ _ (own_ok _ _ _ Hc) k id b slot Hk Hb Hslot) as Hkey.
    destruct slot as [[tree i] j]. exists tree, i, j. split; [exact Hkey |].
    unfold slot_key in Hkey; simpl in Hkey.
    rewrite TileAt_eq, Hkey, Hk, bundle_TileAt_eq, Hb. exact Hslot.
  - intros (tree & i & j & <- & Htile). rewrite TileAt_eq in Htile.
    destruct (tile_bundles_ t !! ComputeTileBundleIndex i j); [eauto |].
    destruct Htile as [? Hn]. discriminate Hn.
Qed.

Variable client : PictureLayerTilingClient.
Hypothesis Hclient : forall r, CreateTile_returns_tile client r = true.
Local Abbreviation twin := (GetTwinTiling client).

Lemma CreateTile_well_kept w t tree i j :
  well_kept w (tile_bundles_ t) twin ->
  well_kept (CreateTile client w t tree i j twin).1
            (tile_bundles_ (CreateTile client w t tree i j twin).2) twin.
Proof.
  intros [Hc Ho].
  destruct (CreateTile_preserves client w t tree i j twin _ Hc Ho Hclient)
    as (_ & Hc1 & Ho1).
  split; [exact Hc1 |]. eapply occupied_unless_weaken; [| exact Ho1].
  intros k [_ []].
Qed.

Lemma remove_step_well_kept w t tree cell :
  well_kept w (tile_bundles_ t) twin ->
  well_kept (remove_step tree (w, t) cell).1
            (tile_bundles_ (remove_step tree (w, t) cell).2) twin.
Proof.
  intros [Hc Ho].
  destruct (remove_tiles_spec tree [cell] w t) as (_ & _ & _ & _ & _ & Hinv).
  destruct (Hinv _ _ Hc Ho) as [Hc1 Ho1].
  split; [exact Hc1 |]. eapply occupied_unless_weaken; [| exact Ho1].
  intros k [_ []].
Qed.

Lemma SetLiveTilesRect_well_kept w t r :
  well_kept w (tile_bundles_ t) twin ->
  well_kept (SetLiveTilesRect client w t r).1
            (tile_bundles_ (SetLiveTilesRect client w t r).2) twin.
Proof.
  intros [Hc Ho]. unfold SetLiveTilesRect.
  destruct (bool_decide _); [split; assumption |].
  destruct (remove_tiles_spec (current_tree_ t)
              (TilingData_DifferenceIterator (tiling_data_ t) (live_tiles_rect_ t) r)
              w t) as (_ & _ & _ & _ & _ & Hinv).
  destruct (Hinv _ _ Hc Ho) as [Hc1 Ho1].
  destruct (remove_tiles _ _ (w, t)) as [w1 t1]. simpl in Hc1, Ho1.
  assert (Ho1' : occupied_unless w1 (tile_bundles_ t1) (fun _ => False)).
  { eapply occupied_unless_weaken; [| exact Ho1]. intros k [_ []]. }
  destruct (gfx.IsEmpty r); [split; assumption |].
  destruct (create_tiles_preserves client (current_tree_ t1) twin
              (TilingData_DifferenceIterator (tiling_data_ t1) r (live_tiles_rect_ t1))
              Hclient w1 t1 _ Hc1 Ho1') as (_ & Hc2 & Ho2).
  destruct (create_tiles _ _ _ _ (w1, t1)) as [w2 t2]. simpl in Hc2, Ho2. simpl.
  split; [exact Hc2 |]. eapply occupied_unless_weaken; [| exact Ho2].
  intros k [_ []].
Qed.

Lemma Invalidate_well_kept w t region :
  well_kept w (tile_bundles_ t) twin ->
  well_kept (Invalidate client w t region).1
            (tile_bundles_ (Invalidate client w t region).2) twin.
Proof.
  intros [Hc Ho]. unfold Invalidate.
  assert (Ho0 : occupied_unless w (tile_bundles_ t)
                  (fun k => k ∈ cell_key <$> ([] : list (Z * Z)))).
  { eapply occupied_unless_weaken; [| exact Ho]. intros k []. }
  destruct (invalidate_rects_spec t _ region w [] Hc Ho0) as [Hc1 Ho1].
  destruct (invalidate_rects t region (w, [])) as [w1 keys]. simpl in Hc1, Ho1.
  destruct (create_tiles_preserves client PENDING_TREE twin keys
              Hclient w1 t _ Hc1 Ho1) as (_ & Hc2 & Ho2).
  split; [exact Hc2 |]. eapply occupied_unless_weaken; [| exact Ho2].
  intros k [Hnin Hin]. contradiction.
Qed.

Lemma well_kept_empty w m :
  well_kept w m twin -> well_kept w ∅ twin.
Proof.
  intros [Hc Ho]. split.
  - eapply consistent_sub; [| exact Hc]. intros k id Hk.
    rewrite lookup_empty in Hk. discriminate Hk.
  - intros k id Hk. rewrite lookup_empty in Hk. discriminate Hk.
Qed.

Lemma SetLayerBounds_well_kept w t s :
  well_kept w (tile_bundles_ t) twin ->
  well_kept (SetLayerBounds client w t s).1
            (tile_bundles_ (SetLayerBounds client w t s).2) twin.
Proof.
  intros Hk. unfold SetLayerBounds.
  destruct (bool_decide (layer_bounds_ t = s)); [exact Hk |].
  destruct (negb _).
  - simpl. apply (well_kept_empty w _ Hk).
  - set (t0 := mkTiling _ s _ _ _ _ _).
    pose proof (SetLiveTilesRect_well_kept w t0
                  (gfx.IntersectRects (live_tiles_rect_ t0)
                     (gfx.RectOfSize (ScaleToCeiledSize s (contents_scale_ t0)))) Hk)
      as Hk1.
    destruct (SetLiveTilesRect client w t0 _) as [w1 t1]. simpl in Hk1.
    apply Invalidate_well_kept. exact Hk1.
Qed.

Lemma apply_operation_well_kept st op :
  bare_removal op = false ->
  well_kept st.1 (tile_bundles_ st.2) twin ->
  well_kept (apply_operation client st op).1
            (tile_bundles_ (apply_operation client st op).2) twin.
Proof.
  destruct st as [w t]. intros Hop Hk.
  destruct op as [tree i j | tree i j | tree i j | r | region | s]; simpl.
  - apply CreateTile_well_kept, Hk.
  - discriminate Hop.
  - apply (remove_step_well_kept w t tree (i, j)), Hk.
  - apply SetLiveTilesRect_well_kept, Hk.
  - apply Invalidate_well_kept, Hk.
  - apply SetLayerBounds_well_kept, Hk.
Qed.

Lemma run_operations_well_kept ops : forall st,
  Forall (fun op => bare_removal op = false) ops ->
  well_kept st.1 (tile_bundles_ st.2) twin ->
  well_kept (run_operations client ops st).1
            (tile_bundles_ (run_operations client ops st).2) twin.
Proof.
  induction ops as [| op ops IH]; intros st Hops Hk; [exact Hk |].
  apply Forall_cons in Hops as [Hop Hops]. simpl.
  apply IH; [exact Hops |]. apply apply_operation_well_kept; assumption.
Qed.

End Invariant.

Section Reachable.

Context `{FloatOps}.

(** C1 (amended): starting from a freshly constructed tiling, after any
    sequence of CreateTile, RemoveTile followed by
    RemoveBundleContainingTileAtIfEmpty, SetLiveTilesRect, Invalidate and
    SetLayerBounds, with a collaborator that returns a tile for every
    request, a bundle key is present in the tiling's bundle map if and only
    if some slot of that bundle is occupied for some tree.  RemoveTile on
    its own is left out of the sequences: it does not erase the bundle it
    empties.  The operations are those of this tiling; the twin is not
    operated on meanwhile, and its bundle pointers are sound at the start
    (live, handed out by the world, one key per bundle). *)
Theorem bundle_invariant_reachable client w0 contents_scale layer_bounds ops :
  (forall r, CreateTile_returns_tile client r = true) ->
  consistent w0 ∅ (twin_bundles (GetTwinTiling client)) ->
  Forall (fun op => bare_removal op = false) ops ->
  let st := run_operations client ops
              (w0, Create client contents_scale layer_bounds) in
  bundle_invariant st.1 st.2.
Proof.
  intros Hclient Htwin Hops. cbv zeta.
  apply (well_kept_invariant _ _ (GetTwinTiling client)).
  apply (run_operations_well_kept client Hclient ops); [exact Hops |].
  simpl. split; [exact Htwin |].
  intros k id Hk. rewrite lookup_empty in Hk. discriminate Hk.
Qed.

End Reachable.

(** *** Index ranges *)
Lemma in_cells_of_range l t r b i j :
  (i, j) ∈ cells_of_range (l, t, r, b) <-> (l <= i <= r) /\ (t <= j <= b).
Proof.
  unfold cells_of_range. rewrite list_elem_of_bind. split.
  - intros (j' & Hin & Hj). apply elem_of_seqZ in Hj.
    apply list_elem_of_bind in Hin as (i' & Hin & Hi). apply elem_of_seqZ in Hi.
    apply list_elem_of_singleton in Hin. injection Hin as -> ->. lia.
  - intros [Hi Hj]. exists j. split; [| apply elem_of_seqZ; lia].
    apply list_elem_of_bind. exists i. split; [| apply elem_of_seqZ; lia].
    apply list_elem_of_singleton. reflexivity.
Qed.

Lemma in_Iterator td rect cell :
  cell ∈ TilingData_Iterator td rect <-> in_range (index_range td rect) cell = true.
Proof.
  unfold TilingData_Iterator, in_range.
  destruct (index_range td rect) as [[[[l t] r] b] |].
  - destruct cell as [i j]. rewrite in_cells_of_range. simpl.
    rewrite !andb_true_iff, !Z.leb_le. tauto.
  - split; [intros Hin; apply elem_of_nil in Hin; contradiction | discriminate].
Qed.

Lemma in_DifferenceIterator td consider ignore cell :
  cell ∈ TilingData_DifferenceIterator td consider ignore
  <-> in_range (index_range td consider) cell = true
      /\ in_range (index_range td ignore) cell = false.
Proof.
  unfold TilingData_DifferenceIterator.
  rewrite list_elem_of_filter, in_Iterator. tauto.
Qed.

Lemma num_tiles_inner max_texture total border :
  1 < ComputeNumTiles max_texture total border -> 0 < max_texture - 2 * border.
Proof.
  unfold ComputeNumTiles.
  destruct (Z.leb_spec (max_texture - 2 * border) 0); [| lia].
  destruct (_ && _); lia.
Qed.

Lemma IndexFromSrcCoord_mono max_texture total border s s' :
  s <= s' ->
  IndexFromSrcCoord (ComputeNumTiles max_texture total border) max_texture border s
  <= IndexFromSrcCoord (ComputeNumTiles max_texture total border) max_texture border s'.
Proof.
  intros Hle. unfold IndexFromSrcCoord.
  destruct (Z.leb_spec (ComputeNumTiles max_texture total border) 1) as [| Hnum];
    [lia |].
  pose proof (num_tiles_inner _ _ _ Hnum) as Hinner.
  assert (Hq : Z.quot (s - border) (max_texture - 2 * border)
               <= Z.quot (s' - border) (max_texture - 2 * border))
    by (apply Z.quot_le_mono; lia).
  lia.
Qed.

Lemma index_range_mono td A B l t r b :
  gfx.Subset B A ->
  index_range td B = Some (l, t, r, b) ->
  exists l' t' r' b',
    index_range td A = Some (l', t', r', b')
    /\ l' <= l /\ r <= r' /\ t' <= t /\ b <= b'.
Proof.
  intros Hsub. unfold index_range.
  destruct (_ || _); [discriminate |].
  set (total := gfx.RectOfSize (total_size td)).
  destruct (gfx.IsEmpty (gfx.IntersectRects B total)) eqn:HeB; [discriminate |].
  intros Heq. injection Heq as <- <- <- <-.
  pose proof (Subset_IntersectRects_mono B A total Hsub) as Hsub'.
  destruct (IntersectRects_nonempty B total HeB) as (_ & _ & HxB & HyB & HrawB).
  set (rB := gfx.IntersectRects B total) in *.
  set (rA := gfx.IntersectRects A total) in *.
  assert (Hfirst : gfx.ContainsPoint rB (gfx.x rB) (gfx.y rB)).
  { rewrite HrawB. unfold gfx.ContainsPoint, gfx.right, gfx.bottom in *.
    cbn [gfx.x gfx.y gfx.width gfx.height]. lia. }
  assert (Hlast : gfx.ContainsPoint rB (gfx.right rB - 1) (gfx.bottom rB - 1)).
  { rewrite HrawB. unfold gfx.ContainsPoint, gfx.right, gfx.bottom in *.
    cbn [gfx.x gfx.y gfx.width gfx.height]. lia. }
  apply Hsub' in Hfirst, Hlast.
  destruct (gfx.IsEmpty rA) eqn:HeA;
    [exfalso; exact (IsEmpty_no_points _ _ _ HeA Hfirst) |].
  eexists _, _, _, _. split; [reflexivity |].
  unfold gfx.ContainsPoint in Hfirst, Hlast.
  unfold TileXIndexFromSrcCoord, TileYIndexFromSrcCoord, num_tiles_x, num_tiles_y.
  split_and!; apply IndexFromSrcCoord_mono; lia.
Qed.

Lemma DifferenceIterator_inside td A B :
  gfx.Subset B A -> TilingData_DifferenceIterator td B A = [].
Proof.
  intros Hsub. apply elem_of_nil_inv. intros [i j] Hin.
  apply in_DifferenceIterator in Hin as [HB HA].
  unfold in_range in HB.
  destruct (index_range td B) as [[[[l t] r] b] |] eqn:HrB; [| discriminate].
  destruct (index_range_mono td A B l t r b Hsub HrB)
    as (l' & t' & r' & b' & HrA & Hl & Hr & Ht & Hb).
  rewrite HrA in HA. simpl in HA, HB.
  rewrite !andb_true_iff, !Z.leb_le in HB.
  assert (Htrue : (l' <=? i) && (i <=? r') && (t' <=? j) && (j <=? b') = true)
    by (rewrite !andb_true_iff, !Z.leb_le; lia).
  congruence.
Qed.

Section Shrink.

Context `{FloatOps}.

Lemma TileAt_set_live_tiles_rect w t r tree i j :
  TileAt w (set_live_tiles_rect t r) tree i j = TileAt w t tree i j.
Proof. reflexivity. Qed.

Lemma SetLiveTilesRect_shrink_eq client w t B :
  gfx.Subset B (live_tiles_rect_ t) -> live_tiles_rect_ t <> B ->
  SetLiveTilesRect client w t B
  = let st := remove_tiles (current_tree_ t)
                (TilingData_DifferenceIterator (tiling_data_ t)
                   (live_tiles_rect_ t) B) (w, t) in
    (st.1, set_live_tiles_rect st.2 B).
Proof.
  intros Hsub Hne. unfold SetLiveTilesRect.
  rewrite bool_decide_eq_false_2 by exact Hne.
  destruct (remove_tiles_spec (current_tree_ t)
              (TilingData_DifferenceIterator (tiling_data_ t) (live_tiles_rect_ t) B)
              w t) as (Hf & _).
  destruct (remove_tiles _ _ (w, t)) as [w1 t1]. simpl in Hf. cbv zeta. simpl.
  destruct (gfx.IsEmpty B); [reflexivity |].
  assert (Hlive : live_tiles_rect_ t1 = live_tiles_rect_ t)
    by (rewrite Hf; reflexivity).
  rewrite Hlive, DifferenceIterator_inside by exact Hsub. reflexivity.
Qed.

(** C4: when the new live rectangle B is strictly contained in the old
    one A, SetLiveTilesRect stores B, leaves no current-tree tile at any
    cell of A \ B, leaves every other slot (another tree, or a cell outside
    A \ B, hence every cell in B) holding the identical tile, requests no
    tile from the collaborator, adds no bundle key, and keeps a removed
    cell's bundle key only while that bundle still holds a tile. *)
Theorem SetLiveTilesRect_shrink client w t B :
  gfx.Subset B (live_tiles_rect_ t) -> live_tiles_rect_ t <> B ->
  let A := live_tiles_rect_ t in
  let td := tiling_data_ t in
  let w' := (SetLiveTilesRect client w t B).1 in
  let t' := (SetLiveTilesRect client w t B).2 in
  live_tiles_rect_ t' = B /\
  (forall i j, cell_removed td A B (i, j) = true ->
     TileAt w' t' (current_tree_ t) i j = None) /\
  (forall tree i j,
     tree <> current_tree_ t \/ cell_removed td A B (i, j) = false ->
     TileAt w' t' tree i j = TileAt w t tree i j) /\
  (tile_requests w' = tile_requests w /\ next_tile w' = next_tile w) /\
  (forall k id, tile_bundles_ t' !! k = Some id -> tile_bundles_ t !! k = Some id) /\
  (pointers_ok w (tile_bundles_ t) ->
   forall i j id,
     cell_removed td A B (i, j) = true ->
     tile_bundles_ t' !! ComputeTileBundleIndex i j = Some id ->
     exists b slot, bundles w' !! id = Some b /\ is_Some (tiles_ b !! slot)).
Proof.
  intros Hsub Hne. cbv zeta.
  rewrite (SetLiveTilesRect_shrink_eq client w t B Hsub Hne). cbv zeta.
  set (cells := TilingData_DifferenceIterator (tiling_data_ t) (live_tiles_rect_ t) B).
  destruct (remove_tiles_spec (current_tree_ t) cells w t)
    as (Hf & Hlogs & Hnone & Hsame & Hsubmap & Hinv).
  assert (Hcells : forall cell, cell ∈ cells
            <-> cell_removed (tiling_data_ t) (live_tiles_rect_ t) B cell = true).
  { intros cell. subst cells. rewrite in_DifferenceIterator. unfold cell_removed.
    rewrite andb_true_iff, negb_true_iff. reflexivity. }
  simpl fst. simpl snd.
  split_and!.
  - reflexivity.
  - intros i j Hrem. rewrite TileAt_set_live_tiles_rect.
    apply (Hnone (i, j)), Hcells, Hrem.
  - intros tree i j Hcase. rewrite TileAt_set_live_tiles_rect. apply Hsame.
    destruct Hcase as [Htree | Hkeep]; [auto |]. right. intros Hin.
    apply Hcells in Hin. congruence.
  - apply Hlogs.
  - apply Hlogs.
  - intros k id Hk. apply Hsubmap, Hk.
  - intros Hok i j id Hrem Hk.
    assert (Htriv : occupied_unless w (tile_bundles_ t) (fun _ => True))
      by (intros k0 id0 _; auto).
    assert (Hcons : consistent w (tile_bundles_ t) None)
      by (constructor; [exact Hok | intros m' Hm'; discriminate Hm']).
    destruct (Hinv None _ Hcons Htriv) as [_ Hocc].
    destruct (Hocc _ _ Hk) as [[Hnin _] | Hex]; [| exact Hex].
    exfalso. apply Hnin. apply list_elem_of_fmap. exists (i, j).
    split; [reflexivity | apply Hcells, Hrem].
Qed.

End Shrink.

Lemma rational_scale_one r :
  0 <= gfx.width r -> 0 <= gfx.height r ->
  @ScaleToEnclosingRect rational_scale r (@float_one rational_scale) = r.
Proof.
  intros Hw Hh. destruct r as [x y wd ht]. simpl in *.
  unfold Qround.Qceiling, Qround.Qfloor, QArith_base.Qmult, QArith_base.Qopp,
    QArith_base.inject_Z, gfx.right, gfx.bottom. simpl.
  rewrite !Z.mul_1_r, !Z.div_1_r.
  replace (- (- (x + wd) / 1)) with (x + wd) by (rewrite Z.div_1_r; lia).
  replace (- (- (y + ht) / 1)) with (y + ht) by (rewrite Z.div_1_r; lia).
  unfold gfx.MakeRect.
  destruct (Z.eqb_spec wd 0), (Z.eqb_spec ht 0); f_equal; lia.
Qed.

Example sample_grid :
  (num_tiles_x (tiling_data_ sample_tiling), num_tiles_y (tiling_data_ sample_tiling))
  = (4, 4).
Proof. vm_compute. reflexivity. Qed.

(** C1 as stated fails: CreateTile at cell (0, 0) followed by RemoveTile
    at the same cell leaves bundle key (0, 0) in the map although every slot
    of that bundle is empty. *)
Lemma bundle_invariant_broken_by_RemoveTile :
  let st := @run_operations rational_scale (sample_client true None)
              [OpCreateTile PENDING_TREE 0 0; OpRemoveTile PENDING_TREE 0 0]
              (empty_world, sample_tiling) in
  tile_bundles_ st.2 !! (0, 0) = Some 0%nat /\
  ~ @bundle_invariant rational_scale st.1 st.2.
Proof.
  cbv zeta.
  set (st := @run_operations rational_scale (sample_client true None)
               [OpCreateTile PENDING_TREE 0 0; OpRemoveTile PENDING_TREE 0 0]
               (empty_world, sample_tiling)).
  assert (Hkey : tile_bundles_ st.2 = {[ (0, 0) := 0%nat ]})
    by (vm_compute; reflexivity).
  assert (Hbundle : bundles st.1 = {[ 0%nat := mkBundle 0 0 2 2 ∅ ]})
    by (vm_compute; reflexivity).
  split; [rewrite Hkey; reflexivity |].
  intros Hinv.
  destruct (proj1 (Hinv (0, 0))) as (tree & i & j & Hij & [tile Htile]).
  - rewrite Hkey. rewrite lookup_singleton_eq. eauto.
  - rewrite TileAt_eq, Hij, Hkey, lookup_singleton_eq in Htile.
    rewrite bundle_TileAt_eq, Hbundle, lookup_singleton_eq in Htile.
    simpl in Htile. rewrite lookup_empty in Htile. discriminate Htile.
Qed.

Lemma consistent_fresh w (twin : option (@PictureLayerTiling rational_scale)) :
  twin = None -> consistent w ∅ (@twin_bundles rational_scale twin).
Proof.
  intros ->. constructor.
  - constructor; intros; rewrite lookup_empty in *; discriminate.
  - intros m' Hm'. discriminate Hm'.
Defined.

(** C1, at a concrete run on the 4 x 4 sample grid: a tile is created,
    the live rectangle set, a rectangle invalidated, a tile removed with its
    bundle check, and the layer bounds changed. *)
Lemma bundle_invariant_reachable_witness :
  let st := @run_operations rational_scale (sample_client true None)
              [OpCreateTile PENDING_TREE 0 0;
               OpSetLiveTilesRect (gfx.MakeRect 0 0 600 600);
               OpInvalidate [gfx.MakeRect 0 0 10 10];
               OpRemoveTileAndBundle PENDING_TREE 0 0;
               OpSetLayerBounds (gfx.MakeSize 900 900)]
              (empty_world, sample_tiling) in
  @bundle_invariant rational_scale st.1 st.2.
Proof.
  apply (@bundle_invariant_reachable rational_scale (sample_client true None)
           empty_world one (gfx.MakeSize 1000 1000)).
  - intros r. reflexivity.
  - apply consistent_fresh. reflexivity.
  - repeat constructor.
Defined.

(** C3, on the 4 x 4 sample grid: sixteen steps. *)
Lemma CoverageIterator_covers_content_witness :
  length (@coverage_steps rational_scale empty_world sample_tiling 16
            (@CoverageIterator_new rational_scale empty_world sample_tiling one
               (@ContentRect rational_scale sample_tiling)))
  = 16%nat.
Proof.
  refine (proj1 (@CoverageIterator_covers_content rational_scale empty_world
                   sample_tiling _ _ _ _ _ _ _ _ 16%nat _)).
  - vm_compute. discriminate.
  - vm_compute. reflexivity.
  - vm_compute. reflexivity.
  - vm_compute. reflexivity.
  - vm_compute. reflexivity.
  - reflexivity.
  - reflexivity.
  - apply rational_scale_one.
  - vm_compute. lia.
Defined.

(** C10, over a destination rectangle of width 0 on the sample
    tiling. *)
Lemma CoverageIterator_nothing_to_cover_witness :
  let it := @CoverageIterator_new rational_scale empty_world sample_tiling one
              (gfx.MakeRect 10 10 0 5) in
  current_tile_ it = None /\ bottom_ it < tile_j_ it /\
  iterator_valid it = false /\
  @CoverageIterator_next rational_scale empty_world sample_tiling it = it /\
  forall fuel, @coverage_steps rational_scale empty_world sample_tiling fuel it = [].
Proof.
  apply (@CoverageIterator_nothing_to_cover rational_scale empty_world
           sample_tiling one (gfx.MakeRect 10 10 0 5)).
  left. reflexivity.
Defined.

(** C4, shrinking the fully tiled 1000 x 1000 sample tiling to its top
    left 254 x 254 corner. *)
Lemma SetLiveTilesRect_shrink_witness :
  let w := live_state.1 in
  let t := live_state.2 in
  let B := gfx.MakeRect 0 0 254 254 in
  let w' := (@SetLiveTilesRect rational_scale (sample_client true None) w t B).1 in
  let t' := (@SetLiveTilesRect rational_scale (sample_client true None) w t B).2 in
  live_tiles_rect_ t' = B /\
  (forall i j, cell_removed (tiling_data_ t) (live_tiles_rect_ t) B (i, j) = true ->
     @TileAt rational_scale w' t' (current_tree_ t) i j = None).
Proof.
  cbv zeta.
  destruct (@SetLiveTilesRect_shrink rational_scale (sample_client true None)
              live_state.1 live_state.2 (gfx.MakeRect 0 0 254 254))
    as (Hlive & Hgone & _).
  - replace (live_tiles_rect_ live_state.2) with (gfx.RawRect 0 0 1000 1000)
      by (vm_compute; reflexivity).
    intros px py. unfold gfx.ContainsPoint, gfx.right, gfx.bottom. simpl. lia.
  - vm_compute. discriminate.
  - split; [exact Hlive | exact Hgone].
Defined.

(** C5, creating cell (0, 0) of the pending tree beside a twin that
    holds the active tree's tile of that cell. *)
Lemma CreateTile_shares_twin_bundle_witness :
  let result := @CreateTile rational_scale (sample_client true (Some twin_state.2))
                  twin_state.1 sample_tiling PENDING_TREE 0 0 (Some twin_state.2) in
  @TileBundleContainingTileAt rational_scale result.2 0 0 = Some 0%nat /\
  @TileBundleContainingTileAt rational_scale twin_state.2 0 0 = Some 0%nat /\
  bundle_requests result.1 = bundle_requests twin_state.1.
Proof.
  cbv zeta.
  destruct (@CreateTile_shares_twin_bundle rational_scale
              (sample_client true (Some twin_state.2)) twin_state.1 sample_tiling
              twin_state.2 PENDING_TREE 0 0 0%nat)
    as (_ & Hmine & Htwin & Hreq & _).
  - vm_compute. reflexivity.
  - vm_compute. reflexivity.
  - vm_compute. reflexivity.
  - eexists. vm_compute. reflexivity.
  - split; [exact Hmine |]. split; [exact Htwin | exact Hreq].
Defined.

(** C8, creating cell (0, 0) of the pending tree beside a twin that
    holds the active tree's tile of that cell. *)
Lemma CreateTile_adopts_or_requests_witness :
  (@CreateTile rational_scale (sample_client true (Some twin_state.2))
     twin_state.1 sample_tiling PENDING_TREE 0 0 (Some twin_state.2)).2
  = @set_tile_bundles rational_scale sample_tiling {[ (0, 0) := 0%nat ]}.
Proof.
  refine (proj1 (@CreateTile_adopts_or_requests rational_scale
                   (sample_client true (Some twin_state.2)) twin_state.1
                   sample_tiling PENDING_TREE 0 0 (Some twin_state.2)
                   twin_state.1 _ 0%nat _ _)).
  - vm_compute. reflexivity.
  - eexists. vm_compute. reflexivity.
Defined.

(** The tile the twin holds for the active tree is the very tile the
    pending tree ends up with: no request reaches the collaborator. *)
Example CreateTile_reuses_twin_tile :
  let result := @CreateTile rational_scale (sample_client true (Some twin_state.2))
                  twin_state.1 sample_tiling PENDING_TREE 0 0 (Some twin_state.2) in
  @TileAt rational_scale result.1 result.2 PENDING_TREE 0 0
  = @TileAt rational_scale twin_state.1 twin_state.2 ACTIVE_TREE 0 0
  /\ @TileAt rational_scale result.1 result.2 PENDING_TREE 0 0 = Some 0%nat
  /\ tile_requests result.1 = tile_requests twin_state.1.
Proof. vm_compute. repeat split; reflexivity. Qed.

(** A NULL tile from the collaborator leaves the new bundle empty. *)
Example CreateTile_null_leaves_empty_bundle :
  let st := @CreateTile rational_scale (sample_client false None) empty_world
              sample_tiling PENDING_TREE 0 0 None in
  tile_bundles_ st.2 !! (0, 0) = Some 0%nat /\
  bundles st.1 !! 0%nat = Some (mkBundle 0 0 2 2 ∅) /\
  tile_requests st.1 = [gfx.MakeRect 0 0 256 256].
Proof. vm_compute. repeat split; reflexivity. Qed.

(** Invalidating layer rectangle (0,0,10,10) of the live 4x4 grid
    recreates tile (0,0) and no other tile. *)
Example Invalidate_recreates_one_tile :
  let st := @Invalidate rational_scale (sample_client true None)
              live_state.1 live_state.2 [gfx.MakeRect 0 0 10 10] in
  @TileAt rational_scale live_state.1 live_state.2 PENDING_TREE 0 0 = Some 0%nat /\
  @TileAt rational_scale st.1 st.2 PENDING_TREE 0 0 = Some 16%nat /\
  @TileAt rational_scale st.1 st.2 PENDING_TREE 1 0
  = @TileAt rational_scale live_state.1 live_state.2 PENDING_TREE 1 0 /\
  length (tile_requests st.1) = 17%nat.
Proof. vm_compute. repeat split; reflexivity. Qed.

(** ** Further properties: rectangle expansion *)

Lemma exact_delta_largest_fit nx ny w h T :
  0 <= nx -> 0 <= ny -> 0 <= w -> 0 <= h ->
  0 < ny * w + nx * h -> w * h <= T ->
  T < (w + nx * (exact_delta nx ny w h T + 1))
      * (h + ny * (exact_delta nx ny w h T + 1)).
Proof.
  intros Hnx Hny Hw Hh Hbpos Harea.
  destruct (exact_delta_grows nx ny w h T Hnx Hny Hw Hh Harea) as [Hd _].
  revert Hd. unfold exact_delta.
  set (a := ny * nx). set (b := ny * w + nx * h) in *. set (c := w * h - T).
  assert (Ha : 0 <= a) by (subst a; nia).
  assert (Hc : c <= 0) by (subst c; lia).
  assert (Hexp : forall e,
            (w + nx * e) * (h + ny * e) - T = c + b * e + a * (e * e))
    by (intros e; subst a b c; ring).
  destruct (Z.eqb_spec a 0) as [Ha0 | Ha0]; intros Hd.
  - rewrite Z.quot_div_nonneg in * by lia.
    pose proof (Z.mul_succ_div_gt (- c) b Hbpos) as Hgt.
    specialize (Hexp (- c / b + 1)). rewrite Ha0 in Hexp. lia.
  - assert (Hapos : 0 < a) by lia.
    set (D := b * b - 4 * a * c).
    assert (HD : b * b <= D) by (subst D; nia).
    destruct (sqrt_bounds D) as [[Hs1 Hs2] Hs0]; [nia |].
    set (s := Z.sqrt D) in *.
    assert (Hbs : b <= s) by nia.
    rewrite Z.quot_div_nonneg in * by lia.
    pose proof (Z.mul_succ_div_gt (- b + s) (2 * a) ltac:(lia)) as Hgt.
    set (d := (- b + s) / (2 * a)) in *.
    assert (Hlt : s + 1 <= b + 2 * a * (d + 1)) by lia.
    assert (Hsq : D < (2 * a * (d + 1) + b) * (2 * a * (d + 1) + b)).
    { eapply Z.lt_le_trans; [exact Hs2 |]. apply square_le_mono; lia. }
    pose proof (discriminant_identity nx ny w h T (d + 1)) as Hid.
    cbv zeta in Hid. fold a b c in Hid. fold D in Hid.
    nia.
Qed.

(** X1: for edge counts between 0 and 2 in the two dimensions, not both
    making the linear coefficient vanish, a width and a height between 0
    and 2^24 and a target area below 2^31 that the rectangle's area does
    not exceed (the range where the conversions of the function are exact),
    the delta returned by ComputeExpansionDelta is non-negative and is the
    largest one that fits: growing the width by num_x_edges * delta and the
    height by num_y_edges * delta keeps the area within the target, and one
    more unit of delta exceeds it. *)
Theorem ComputeExpansionDelta_largest_fit nx ny w h T :
  0 <= nx <= 2 -> 0 <= ny <= 2 -> 0 <= w <= 2 ^ 24 -> 0 <= h <= 2 ^ 24 ->
  0 < ny * w + nx * h -> w * h <= T -> T < 2 ^ 31 ->
  let d := ComputeExpansionDelta nx ny w h T in
  0 <= d /\
  (w + nx * d) * (h + ny * d) <= T < (w + nx * (d + 1)) * (h + ny * (d + 1)).
Proof.
  intros Hnx Hny Hw Hh Hbpos Harea HT. cbv zeta.
  destruct (ComputeExpansionDelta_grows nx ny w h T Hnx Hny Hw Hh Harea HT)
    as [Hd Hfit].
  split; [exact Hd |]. split; [apply Hfit; lia |].
  rewrite ComputeExpansionDelta_exact by (try assumption; nia).
  apply exact_delta_largest_fit; lia.
Qed.

(** X1, at one free edge in x and two in y on a 30 x 40 rectangle with
    target area 5000: the delta is 25. *)
Lemma ComputeExpansionDelta_largest_fit_witness :
  let d := ComputeExpansionDelta 1 2 30 40 5000 in
  d = 25 /\ (30 + 1 * d) * (40 + 2 * d) <= 5000 < (30 + 1 * (d + 1)) * (40 + 2 * (d + 1)).
Proof.
  split; [vm_compute; reflexivity |].
  apply (ComputeExpansionDelta_largest_fit 1 2 30 40 5000); lia.
Defined.

Lemma Expand_without_cache start T B cache :
  cache_consistent cache ->
  (ExpandRectEquallyToAreaBoundedBy start T B cache).1
  = (ExpandRectEquallyToAreaBoundedBy start T B None).1.
Proof.
  intros Hc. destruct (gfx.IsEmpty start) eqn:Hne.
  - unfold ExpandRectEquallyToAreaBoundedBy. rewrite Hne. reflexivity.
  - rewrite (Expand_result start T B cache Hne Hc).
    rewrite (Expand_result start T B None Hne I). reflexivity.
Qed.

(** X4: along any sequence of calls of ExpandRectEquallyToAreaBoundedBy
    that share one cache, starting from a freshly constructed cache, every
    call returns the rectangle the same call returns without a cache. *)
Theorem ExpandRectEquallyToAreaBoundedBy_cache_transparent
    (calls : list (gfx.Rect * Z * gfx.Rect)) :
  expand_calls calls (Some NewRectExpansionCache)
  = map (fun call => (ExpandRectEquallyToAreaBoundedBy call.1.1 call.1.2 call.2
                        None).1) calls.
Proof.
  assert (Hfresh : cache_consistent (Some NewRectExpansionCache)).
  { simpl. intros Hne. discriminate Hne. }
  revert Hfresh. generalize (Some NewRectExpansionCache).
  induction calls as [| [[start T] B] calls IH]; intros cache Hc; [reflexivity |].
  cbn [expand_calls map fst snd]. f_equal.
  - apply Expand_without_cache, Hc.
  - apply IH, Expand_keeps_consistent, Hc.
Qed.

Lemma expand_loop_growing B T n : forall k st,
  T < 2 ^ 31 -> gfx.width B <= 2 ^ 24 -> gfx.height B <= 2 ^ 24 ->
  tracks B st k -> growing T st k -> (k + n = 4)%nat ->
  0 <= cur_width (expand_loop T n k st) /\
  0 <= cur_height (expand_loop T n k st) /\
  cur_width (expand_loop T n k st) * cur_height (expand_loop T n k st) <= T.
Proof.
  induction n as [| n IH]; intros k st HT HBw HBh Hinv Hgrow Hk; simpl.
  - destruct Hgrow. auto.
  - destruct (lookup_lt_is_Some_2 (events st) k) as [event Hevent].
    { rewrite (tracks_length _ _ _ Hinv). lia. }
    rewrite (expand_step_eq B T k st event Hinv Hevent).
    pose proof (st2_growing B T k st event Hinv Hevent Hgrow HT HBw HBh) as Hgrow2.
    destruct (clamped_delta T st event <? _).
    + destruct Hgrow2. auto.
    + apply IH; [exact HT | exact HBw | exact HBh
                | apply (st2_tracks B T k st event Hinv Hevent) | exact Hgrow2 | lia].
Qed.

Lemma area_rect_of st :
  0 <= cur_width st -> 0 <= cur_height st ->
  gfx.area (rect_of st) = cur_width st * cur_height st.
Proof.
  intros Hw Hh. unfold gfx.area, rect_of, gfx.MakeRect. simpl.
  rewrite !Z.max_r by lia. reflexivity.
Qed.

Lemma area_empty r : gfx.IsEmpty r = true -> 0 <= gfx.width r ->
  0 <= gfx.height r -> gfx.area r = 0.
Proof.
  unfold gfx.IsEmpty, gfx.area. rewrite orb_true_iff, !Z.leb_le. nia.
Qed.

Lemma IntersectRects_extents a b :
  0 <= gfx.width (gfx.IntersectRects a b) /\ 0 <= gfx.height (gfx.IntersectRects a b).
Proof.
  unfold gfx.IntersectRects.
  repeat match goal with
         | |- context [if ?c then _ else _] => destruct c
         end; simpl; lia.
Qed.

Lemma expand_uncached_area start T B :
  gfx.IsEmpty start = false -> 0 < T ->
  gfx.width start <= 2 ^ 24 -> gfx.height start <= 2 ^ 24 ->
  gfx.width B <= 2 ^ 24 -> gfx.height B <= 2 ^ 24 -> T < 2 ^ 31 ->
  gfx.area (gfx.IntersectRects start B) <= T ->
  gfx.area (expand_uncached start T B) <= T.
Proof.
  intros Hne HT0 Hw24 Hh24 HBw HBh HT Harea.
  destruct (expand_uncached_cases start T B) as [-> | [He ->]].
  - destruct (gfx.IsEmpty (gfx.IntersectRects (expanded_start start T) B)) eqn:He.
    + destruct (IntersectRects_extents (expanded_start start T) B) as [Hw Hh].
      rewrite (area_empty _ He Hw Hh). lia.
    + apply (clipped_start_fits start T B Hne HT0 Hw24 Hh24 HT Harea He).
  - set (rect := gfx.IntersectRects (expanded_start start T) B) in *.
    pose proof (loop_start_tracks (expanded_start start T) B He) as Htr.
    fold rect in Htr.
    destruct (clipped_start_fits start T B Hne HT0 Hw24 Hh24 HT Harea He)
      as (Hw' & Hh' & Ha').
    fold rect in Hw', Hh', Ha'.
    pose proof (loop_start_growing T rect B Hw' Hh' Ha') as Hgr.
    destruct (expand_loop_growing B T 4 0 _ HT HBw HBh Htr Hgr eq_refl)
      as (Hw2 & Hh2 & Ha2).
    rewrite area_rect_of by assumption. exact Ha2.
Qed.

(** X2: where the widths and heights of the starting and the bounding
    rectangle are at most 2^24 and the positive target area is below 2^31
    (the range where the conversions of ComputeExpansionDelta are exact),
    when the area of the starting rectangle clipped to the bounding
    rectangle does not exceed the target area, the area of the rectangle
    returned by ExpandRectEquallyToAreaBoundedBy does not exceed it either,
    with or without a cache whose stored result is the one of its stored
    arguments. *)
Theorem ExpandRectEquallyToAreaBoundedBy_within_target start T B cache :
  gfx.IsEmpty start = false -> 0 < T < 2 ^ 31 ->
  gfx.width start <= 2 ^ 24 -> gfx.height start <= 2 ^ 24 ->
  gfx.width B <= 2 ^ 24 -> gfx.height B <= 2 ^ 24 ->
  cache_consistent cache ->
  gfx.area (gfx.IntersectRects start B) <= T ->
  gfx.area (ExpandRectEquallyToAreaBoundedBy start T B cache).1 <= T.
Proof.
  intros Hne HT Hw24 Hh24 HBw HBh Hc Harea.
  rewrite (Expand_result start T B cache Hne Hc).
  apply expand_uncached_area; try assumption; lia.
Qed.

(** X2, at a 200 x 200 start, larger than the target area 10000, whose
    part inside the bounding rectangle is 50 x 50: the result is the
    100 x 100 rectangle at (150, 150). *)
Lemma ExpandRectEquallyToAreaBoundedBy_within_target_witness :
  gfx.area (gfx.MakeRect 0 0 200 200) = 40000 /\
  (ExpandRectEquallyToAreaBoundedBy (gfx.MakeRect 0 0 200 200) 10000
     (gfx.MakeRect 150 150 1000 1000) (Some NewRectExpansionCache)).1
  = gfx.MakeRect 150 150 100 100 /\
  gfx.area (ExpandRectEquallyToAreaBoundedBy (gfx.MakeRect 0 0 200 200) 10000
              (gfx.MakeRect 150 150 1000 1000) (Some NewRectExpansionCache)).1
  <= 10000.
Proof.
  split; [reflexivity |]. split; [vm_compute; reflexivity |].
  apply (ExpandRectEquallyToAreaBoundedBy_within_target
           (gfx.MakeRect 0 0 200 200) 10000 (gfx.MakeRect 150 150 1000 1000)
           (Some NewRectExpansionCache)).
  - reflexivity.
  - lia.
  - vm_compute. discriminate.
  - vm_compute. discriminate.
  - vm_compute. discriminate.
  - vm_compute. discriminate.
  - simpl. intros Hf. discriminate Hf.
  - vm_compute. discriminate.
Defined.

Lemma IntersectRects_inside a B :
  gfx.IsEmpty a = false -> gfx.Subset a B -> gfx.IntersectRects a B = a.
Proof.
  intros Hne Hsub. pose proof Hne as Hpos. apply IsEmpty_false in Hpos as [Hw Hh].
  assert (Hlo : gfx.ContainsPoint B (gfx.x a) (gfx.y a)).
  { apply Hsub. unfold gfx.ContainsPoint, gfx.right, gfx.bottom. lia. }
  assert (Hhi : gfx.ContainsPoint B (gfx.right a - 1) (gfx.bottom a - 1)).
  { apply Hsub. unfold gfx.ContainsPoint, gfx.right, gfx.bottom. lia. }
  unfold gfx.ContainsPoint, gfx.right, gfx.bottom in Hlo, Hhi.
  assert (HB : gfx.IsEmpty B = false) by (apply IsEmpty_false; lia).
  unfold gfx.IntersectRects. rewrite Hne, HB. cbn [orb].
  unfold gfx.right, gfx.bottom.
  rewrite (Z.max_l (gfx.x a)), (Z.max_l (gfx.y a)) by lia.
  rewrite (Z.min_l (gfx.x a + gfx.width a)) by lia.
  rewrite (Z.min_l (gfx.y a + gfx.height a)) by lia.
  destruct (Z.leb_spec (gfx.x a + gfx.width a) (gfx.x a)); [lia |].
  destruct (Z.leb_spec (gfx.y a + gfx.height a) (gfx.y a)); [lia |].
  cbn [orb]. destruct a as [x0 y0 w0 h0]. unfold gfx.MakeRect. simpl in *.
  f_equal; lia.
Qed.

(** X3: for a starting rectangle of width and height at most 2^24 whose
    area does not exceed a target area below 2^31 (the range where the
    conversions of ComputeExpansionDelta are exact), when the starting
    rectangle grown on all four sides by the delta of
    ComputeExpansionDelta(2, 2, ...) still lies inside the bounding
    rectangle, ExpandRectEquallyToAreaBoundedBy returns exactly that grown
    rectangle; its area is within the target and growing by one more unit
    on each side would exceed the target. *)
Theorem ExpandRectEquallyToAreaBoundedBy_unclipped start T B cache :
  gfx.IsEmpty start = false -> gfx.area start <= T -> T < 2 ^ 31 ->
  gfx.width start <= 2 ^ 24 -> gfx.height start <= 2 ^ 24 ->
  cache_consistent cache ->
  let d := ComputeExpansionDelta 2 2 (gfx.width start) (gfx.height start) T in
  gfx.Subset (gfx.Inset start (- d) (- d)) B ->
  let result := (ExpandRectEquallyToAreaBoundedBy start T B cache).1 in
  0 <= d /\
  result = gfx.Inset start (- d) (- d) /\
  gfx.area result <= T < gfx.area (gfx.Inset start (- (d + 1)) (- (d + 1))).
Proof.
  intros Hne Harea HT31 Hw24 Hh24 Hc. cbv zeta. intros Hfit.
  pose proof Hne as Hpos. apply IsEmpty_false in Hpos as [Hw Hh].
  assert (HT : 0 < T) by (unfold gfx.area in Harea; nia).
  destruct (ComputeExpansionDelta_grows 2 2 (gfx.width start) (gfx.height start) T
              ltac:(lia) ltac:(lia) ltac:(lia) ltac:(lia) Harea HT31) as [Hd Hall].
  pose proof (ComputeExpansionDelta_22_upper (gfx.width start) (gfx.height start) T
                ltac:(lia) ltac:(lia) ltac:(lia)) as Hup.
  rewrite (Expand_result start T B cache Hne Hc).
  set (d := ComputeExpansionDelta 2 2 (gfx.width start) (gfx.height start) T) in *.
  specialize (Hall d ltac:(lia)).
  assert (Hgrown : gfx.Inset start (- d) (- d)
                   = gfx.RawRect (gfx.x start - d) (gfx.y start - d)
                       (gfx.width start + 2 * d) (gfx.height start + 2 * d)).
  { unfold gfx.Inset, gfx.Inset4. f_equal; lia. }
  assert (Hexp : expanded_start start T = gfx.Inset start (- d) (- d)).
  { unfold expanded_start. fold d. destruct (Z.ltb_spec 0 d); [reflexivity |].
    assert (d = 0) as -> by lia. rewrite Hgrown.
    destruct start as [x0 y0 w0 h0]. simpl in *. f_equal; lia. }
  assert (Hne' : gfx.IsEmpty (gfx.Inset start (- d) (- d)) = false).
  { rewrite Hgrown. apply IsEmpty_false. simpl. lia. }
  assert (Hres : expand_uncached start T B = gfx.Inset start (- d) (- d)).
  { unfold expand_uncached. fold d.
    change (if 0 <? d then gfx.Inset start (- d) (- d) else start)
      with (expanded_start start T).
    rewrite Hexp, (IntersectRects_inside _ B Hne' Hfit), Hne'.
    destruct (Z.leb_spec 0 d); [| lia].
    rewrite bool_decide_eq_true_2 by reflexivity. reflexivity. }
  split; [exact Hd |]. split; [exact Hres |]. split.
  { rewrite Hres, Hgrown. unfold gfx.area. simpl. exact Hall. }
  unfold gfx.area, gfx.Inset, gfx.Inset4. simpl.
  rewrite !Z.max_l by lia.
  replace (gfx.width start - - (d + 1) - - (d + 1))
    with (gfx.width start + 2 * (d + 1)) by lia.
  replace (gfx.height start - - (d + 1) - - (d + 1))
    with (gfx.height start + 2 * (d + 1)) by lia.
  exact Hup.
Qed.

(** X3, at a 50 x 50 start at (100, 100) inside a 1000 x 1000 bounding
    rectangle with target area 10000: the result is the 100 x 100 rectangle
    at (75, 75). *)
Lemma ExpandRectEquallyToAreaBoundedBy_unclipped_witness :
  (ExpandRectEquallyToAreaBoundedBy (gfx.MakeRect 100 100 50 50) 10000
     (gfx.MakeRect 0 0 1000 1000) None).1
  = gfx.RawRect 75 75 100 100.
Proof.
  refine (proj1 (proj2 (ExpandRectEquallyToAreaBoundedBy_unclipped
                          (gfx.MakeRect 100 100 50 50) 10000
                          (gfx.MakeRect 0 0 1000 1000) None _ _ _ _ _ _ _))).
  - reflexivity.
  - vm_compute. discriminate.
  - reflexivity.
  - vm_compute. discriminate.
  - vm_compute. discriminate.
  - exact I.
  - assert (Hd : ComputeExpansionDelta 2 2 50 50 10000 = 25)
      by (vm_compute; reflexivity).
    cbn [gfx.MakeRect gfx.width gfx.height].
    change (0 `max` 50) with 50. rewrite Hd.
    intros px py. unfold gfx.ContainsPoint, gfx.right, gfx.bottom. simpl. lia.
Defined.

(** X5: the five compare-and-swap steps applied to the four edge events
    return a permutation of the events in which distances never decrease
    from one position to a later one. *)
Theorem sort_events_closest_first (evs : list EdgeEvent) :
  length evs = 4%nat ->
  evs ≡ₚ sort_events evs /\
  forall (i j : nat) ei ej,
    (i <= j)%nat ->
    sort_events evs !! i = Some ei -> sort_events evs !! j = Some ej ->
    distance ei <= distance ej.
Proof.
  intros Hlen. destruct (sort_events_sorted_perm evs Hlen) as [Hperm Hsorted].
  split; [exact Hperm |].
  assert (Hlen' : length (sort_events evs) = 4%nat).
  { rewrite <- Hlen. symmetry. apply Permutation_length, Hperm. }
  destruct (sort_events evs) as [| a [| b [| c [| d [| ? ?]]]]];
    try discriminate Hlen'.
  inversion Hsorted as [| ? ? Hs1 Ha]; subst.
  inversion Hs1 as [| ? ? Hs2 Hb]; subst.
  inversion Hs2 as [| ? ? _ Hc]; subst.
  inversion Ha as [| ? ? Hab Ha']; subst.
  inversion Ha' as [| ? ? Hac Ha'']; subst.
  inversion Ha'' as [| ? ? Had _]; subst.
  inversion Hb as [| ? ? Hbc Hb']; subst.
  inversion Hb' as [| ? ? Hbd _]; subst.
  inversion Hc as [| ? ? Hcd _]; subst.
  unfold closer in *.
  intros i j ei ej Hij Hi Hj.
  destruct i as [| [| [| [| i]]]]; destruct j as [| [| [| [| j]]]];
    simpl in Hi, Hj; try discriminate; try lia;
    injection Hi as <-; injection Hj as <-; lia.
Qed.

(** X5, at the distances 7, 3, 9, 1 for the bottom, top, left and right
    events. *)
Lemma sort_events_closest_first_witness :
  map distance
    (sort_events [mkEvent BOTTOM NUM_Y_EDGES 7; mkEvent TOP NUM_Y_EDGES 3;
                  mkEvent LEFT NUM_X_EDGES 9; mkEvent RIGHT NUM_X_EDGES 1])
  = [1; 3; 7; 9]
  /\ [mkEvent BOTTOM NUM_Y_EDGES 7; mkEvent TOP NUM_Y_EDGES 3;
      mkEvent LEFT NUM_X_EDGES 9; mkEvent RIGHT NUM_X_EDGES 1]
     ≡ₚ sort_events [mkEvent BOTTOM NUM_Y_EDGES 7; mkEvent TOP NUM_Y_EDGES 3;
                     mkEvent LEFT NUM_X_EDGES 9; mkEvent RIGHT NUM_X_EDGES 1].
Proof.
  split; [reflexivity |].
  apply (sort_events_closest_first
           [mkEvent BOTTOM NUM_Y_EDGES 7; mkEvent TOP NUM_Y_EDGES 3;
            mkEvent LEFT NUM_X_EDGES 9; mkEvent RIGHT NUM_X_EDGES 1]).
  reflexivity.
Defined.

(** ** Further properties: the coverage walk *)

Lemma Inset4_left_top g l t :
  0 <= l -> 0 <= t ->
  gfx.Subset (gfx.Inset4 g l t 0 0) g /\
  gfx.x (gfx.Inset4 g l t 0 0) = gfx.x g + l /\
  gfx.y (gfx.Inset4 g l t 0 0) = gfx.y g + t.
Proof.
  intros Hl Ht. split; [| split; reflexivity].
  intros px py. unfold gfx.ContainsPoint, gfx.Inset4, gfx.right, gfx.bottom. simpl.
  lia.
Qed.

Lemma Disjoint_left_of a b : gfx.right a <= gfx.x b -> gfx.Disjoint a b.
Proof.
  intros Hab px py. unfold gfx.ContainsPoint, gfx.right in *. lia.
Qed.

Lemma Disjoint_above a b : gfx.bottom a <= gfx.y b -> gfx.Disjoint a b.
Proof.
  intros Hab px py. unfold gfx.ContainsPoint, gfx.bottom in *. lia.
Qed.

Section Walk.

Context `{FloatOps}.
Variables (w : World) (tiling : PictureLayerTiling).

Lemma CoverageIterator_next_window it :
  let it' := CoverageIterator_next w tiling it in
  dest_rect_ it' = dest_rect_ it /\ left_ it' = left_ it /\ top_ it' = top_ it /\
  right_ it' = right_ it /\ bottom_ it' = bottom_ it /\ tree_ it' = tree_ it.
Proof.
  cbv zeta. unfold CoverageIterator_next.
  destruct (bottom_ it <? tile_j_ it); [split_and!; reflexivity |].
  cbv zeta. destruct (_ && _); simpl; split_and!; reflexivity.
Qed.

(** The cell the increment moves to, and the tile it reads there. *)
Lemma CoverageIterator_next_cell it :
  iterator_valid it = true ->
  let it' := CoverageIterator_next w tiling it in
  (tile_i_ it < right_ it ->
   tile_i_ it' = tile_i_ it + 1 /\ tile_j_ it' = tile_j_ it) /\
  (right_ it <= tile_i_ it ->
   tile_i_ it' = left_ it /\ tile_j_ it' = tile_j_ it + 1) /\
  (iterator_valid it' = true ->
   current_tile_ it'
   = TileAt w tiling (tree_ it) (tile_i_ it') (tile_j_ it')).
Proof.
  unfold iterator_valid. intros Hvalid%Z.leb_le. cbv zeta.
  unfold CoverageIterator_next.
  destruct (Z.ltb_spec (bottom_ it) (tile_j_ it)); [lia |]. cbv zeta.
  destruct (Z.ltb_spec (right_ it) (tile_i_ it + 1)) as [Hrow | Hrow]; cbn [andb].
  - destruct (Z.ltb_spec (bottom_ it) (tile_j_ it + 1)); simpl;
      (split; [lia |]); (split; [auto |]).
    + intros Hv%Z.leb_le. lia.
    + reflexivity.
  - simpl. split; [auto |]. split; [lia |]. reflexivity.
Qed.

(** The geometry rectangle after an increment: clipped to the destination
    rectangle and pushed off the previous one. *)
Lemma CoverageIterator_next_geometry it :
  iterator_valid it = true ->
  let it' := CoverageIterator_next w tiling it in
  iterator_valid it' = true ->
  gfx.Subset (current_geometry_rect_ it') (dest_rect_ it) /\
  (left_ it <= tile_i_ it ->
   (tile_i_ it < right_ it ->
    gfx.right (current_geometry_rect_ it) <= gfx.x (current_geometry_rect_ it')) /\
   (right_ it <= tile_i_ it ->
    gfx.bottom (current_geometry_rect_ it) <= gfx.y (current_geometry_rect_ it')
    /\ gfx.x (dest_rect_ it) <= gfx.x (current_geometry_rect_ it'))).
Proof.
  unfold iterator_valid. intros Hvalid%Z.leb_le. cbv zeta.
  unfold CoverageIterator_next.
  destruct (Z.ltb_spec (bottom_ it) (tile_j_ it)); [lia |]. cbv zeta.
  destruct (Z.ltb_spec (right_ it) (tile_i_ it + 1)) as [Hrow | Hrow]; cbn [andb].
  - destruct (Z.ltb_spec (bottom_ it) (tile_j_ it + 1)); simpl.
    + intros Hv%Z.leb_le. lia.
    + intros _.
      set (g0 := gfx.IntersectRects _ (dest_rect_ it)).
      assert (Hg0 : gfx.Subset g0 (dest_rect_ it)) by apply Subset_IntersectRects_r.
      destruct (Z.ltb_spec (tile_i_ it) (left_ it)) as [Hfirst | Hfirst].
      * split; [exact Hg0 |]. intros Hle. lia.
      * destruct (Inset4_left_top g0
                    (Z.max 0 (gfx.x (dest_rect_ it) - gfx.x g0))
                    (Z.max 0 (gfx.bottom (current_geometry_rect_ it) - gfx.y g0))
                    ltac:(lia) ltac:(lia)) as (Hsub & Hx & Hy).
        split; [eapply Subset_trans; [exact Hsub | exact Hg0] |].
        intros _. split; [lia |]. intros _. rewrite Hx, Hy. lia.
  - simpl. intros _.
    set (g0 := gfx.IntersectRects _ (dest_rect_ it)).
    assert (Hg0 : gfx.Subset g0 (dest_rect_ it)) by apply Subset_IntersectRects_r.
    destruct (Z.ltb_spec (tile_i_ it) (left_ it)) as [Hfirst | Hfirst].
    + split; [exact Hg0 |]. intros Hle. lia.
    + destruct (Inset4_left_top g0
                  (Z.max 0 (gfx.right (current_geometry_rect_ it) - gfx.x g0))
                  (Z.max 0 (gfx.y (current_geometry_rect_ it) - gfx.y g0))
                  ltac:(lia) ltac:(lia)) as (Hsub & Hx & Hy).
      split; [eapply Subset_trans; [exact Hsub | exact Hg0] |].
      intros _. split; [| lia]. intros _. rewrite Hx. lia.
Qed.

Lemma on_cell_next dest_rect it :
  on_cell dest_rect it -> iterator_valid it = true ->
  on_cell dest_rect (CoverageIterator_next w tiling it).
Proof.
  intros [Hdest Hit] Hvalid. destruct (Hit Hvalid) as [Hleft Hsub].
  destruct (CoverageIterator_next_window it) as (Hd & Hl & _ & Hr & _).
  split; [congruence |]. intros Hvalid'.
  destruct (CoverageIterator_next_geometry it Hvalid Hvalid') as [Hin _].
  destruct (CoverageIterator_next_cell it Hvalid) as (Hsame & Hnew & _).
  rewrite Hl. split; [| rewrite <- Hdest; exact Hin].
  destruct (Z.lt_ge_cases (tile_i_ it) (right_ it)) as [Hlt | Hge].
  - destruct (Hsame Hlt) as [-> _]. lia.
  - destruct (Hnew Hge) as [-> _]. lia.
Qed.

Lemma on_cell_new dest_scale dest_rect :
  on_cell dest_rect (CoverageIterator_new w tiling dest_scale dest_rect).
Proof.
  unfold CoverageIterator_new.
  destruct (gfx.IsEmpty dest_rect); [split; [reflexivity | discriminate] |].
  destruct (gfx.IsEmpty (gfx.IntersectRects _ _));
    [split; [reflexivity | discriminate] |].
  set (it := mkIter _ _ _ _ _ _ _ _ _ _ _).
  destruct (CoverageIterator_next_window it) as (Hd & Hl & _).
  split; [rewrite Hd; reflexivity |]. intros Hvalid'.
  destruct (iterator_valid it) eqn:Hvalid.
  - destruct (CoverageIterator_next_geometry it Hvalid Hvalid') as [Hin _].
    destruct (CoverageIterator_next_cell it Hvalid) as (Hsame & Hnew & _).
    split; [| exact Hin]. rewrite Hl.
    destruct (Z.lt_ge_cases (tile_i_ it) (right_ it)) as [Hlt | Hge].
    + destruct (Hsame Hlt) as [-> _]. simpl. lia.
    + destruct (Hnew Hge) as [-> _]. lia.
  - exfalso. unfold iterator_valid in Hvalid. apply Z.leb_gt in Hvalid.
    destruct (iterator_done_stays w tiling it Hvalid) as [Hstay _].
    rewrite Hstay in Hvalid'. unfold iterator_valid in Hvalid'.
    apply Z.leb_le in Hvalid'. lia.
Qed.

(** X6: for any destination scale and rectangle, every geometry rectangle
    the coverage iterator yields lies inside the destination rectangle, and
    two consecutive steps never overlap: the next step is either the next
    cell of the same row, starting at or right of the previous right edge,
    or a cell of the next row, starting at or below the previous bottom
    edge.  The tile bounds are those of the modelled TilingData. *)
Theorem CoverageIterator_steps_inside_and_apart dest_scale dest_rect fuel :
  let steps :=
    coverage_steps w tiling fuel
      (CoverageIterator_new w tiling dest_scale dest_rect) in
  (forall n s, steps !! n = Some s -> gfx.Subset s.1.1 dest_rect) /\
  (forall n sa sb,
     steps !! n = Some sa -> steps !! S n = Some sb ->
     gfx.Disjoint sa.1.1 sb.1.1 /\
     ((sb.2 = (sa.2.1 + 1, sa.2.2) /\ gfx.right sa.1.1 <= gfx.x sb.1.1) \/
      (sb.2.2 = sa.2.2 + 1 /\ gfx.bottom sa.1.1 <= gfx.y sb.1.1
       /\ gfx.x dest_rect <= gfx.x sb.1.1))).
Proof.
  cbv zeta. pose proof (on_cell_new dest_scale dest_rect) as Hstart.
  revert Hstart. generalize (CoverageIterator_new w tiling dest_scale dest_rect).
  induction fuel as [| fuel IH]; intros it Hit.
  { split; intros n; intros; simpl in *; rewrite lookup_nil in *; discriminate. }
  cbn [coverage_steps]. destruct (iterator_valid it) eqn:Hvalid.
  2: { split; intros n; intros; rewrite lookup_nil in *; discriminate. }
  destruct (IH _ (on_cell_next dest_rect it Hit Hvalid)) as [IHin IHapart].
  destruct Hit as [Hdest Hit]. destruct (Hit Hvalid) as [Hleft Hsub].
  split.
  - intros [| n] s Hs; [injection Hs as <-; exact Hsub |]. exact (IHin n s Hs).
  - intros [| n] sa sb Ha Hb; [| exact (IHapart n sa sb Ha Hb)].
    injection Ha as <-. cbn [lookup list_lookup] in Hb.
    destruct fuel as [| fuel]; [discriminate Hb |]. cbn [coverage_steps] in Hb.
    destruct (iterator_valid (CoverageIterator_next w tiling it)) eqn:Hvalid';
      [| discriminate Hb].
    injection Hb as <-. cbn [fst snd].
    destruct (CoverageIterator_next_geometry it Hvalid Hvalid') as [_ Hpush].
    destruct (Hpush Hleft) as [Hrow Hnew].
    destruct (CoverageIterator_next_cell it Hvalid) as (Hsame & Hjump & _).
    destruct (Z.lt_ge_cases (tile_i_ it) (right_ it)) as [Hlt | Hge].
    + destruct (Hsame Hlt) as [Hi Hj]. specialize (Hrow Hlt).
      split; [apply Disjoint_left_of, Hrow |]. left.
      rewrite Hi, Hj. split; [reflexivity | exact Hrow].
    + destruct (Hjump Hge) as [Hi Hj]. destruct (Hnew Hge) as [Hbelow Hx].
      split; [apply Disjoint_above, Hbelow |]. right.
      rewrite Hj, <- Hdest. auto.
Qed.

End Walk.

Lemma bind_row (cols : list Z) (j : Z) :
  (i ← cols; [(i, j)]) = (fun i' => (i', j)) <$> cols.
Proof.
  induction cols as [| i rest IH]; [reflexivity |].
  cbn [mbind list_bind fmap list_fmap app]. rewrite IH. reflexivity.
Qed.

Lemma cells_of_range_cons l t r b :
  t <= b ->
  cells_of_range (l, t, r, b) = row_from l r t ++ cells_of_range (l, t + 1, r, b).
Proof.
  intros Htb. unfold cells_of_range, row_from.
  rewrite (seqZ_cons t) by lia. cbn [mbind list_bind].
  rewrite bind_row.
  replace (Z.succ t) with (t + 1) by lia.
  replace (Z.pred (b - t + 1)) with (b - (t + 1) + 1) by lia. reflexivity.
Qed.

Lemma cells_of_range_nil l t r b : b < t -> cells_of_range (l, t, r, b) = [].
Proof.
  intros Hbt. unfold cells_of_range. rewrite (seqZ_nil t) by lia. reflexivity.
Qed.

Lemma row_from_cons i r j : i <= r -> row_from i r j = (i, j) :: row_from (i + 1) r j.
Proof.
  intros Hir. unfold row_from. rewrite (seqZ_cons i) by lia.
  cbn [fmap list_fmap]. f_equal.
  replace (Z.succ i) with (i + 1) by lia.
  replace (Z.pred (r - i + 1)) with (r - (i + 1) + 1) by lia. reflexivity.
Qed.

Lemma row_from_nil i r j : r < i -> row_from i r j = [].
Proof. intros Hri. unfold row_from. rewrite (seqZ_nil i) by lia. reflexivity. Qed.

Section Window.

Context `{FloatOps}.
Variables (w : World) (tiling : PictureLayerTiling).

Lemma coverage_steps_done fuel it :
  iterator_valid it = false -> coverage_steps w tiling fuel it = [].
Proof. intros Hv. destruct fuel; [reflexivity |]. simpl. rewrite Hv. reflexivity. Qed.

Lemma coverage_steps_remaining tr fuel : forall it,
  iterator_valid it = true ->
  left_ it <= tile_i_ it <= right_ it ->
  tree_ it = tr ->
  current_tile_ it = TileAt w tiling tr (tile_i_ it) (tile_j_ it) ->
  (length (row_from (tile_i_ it) (right_ it) (tile_j_ it)
           ++ cells_of_range (left_ it, (tile_j_ it + 1)%Z, right_ it, bottom_ it))
   <= fuel)%nat ->
  tile_and_cell <$> coverage_steps w tiling fuel it
  = (fun cell => (TileAt w tiling tr cell.1 cell.2, cell))
    <$> (row_from (tile_i_ it) (right_ it) (tile_j_ it)
         ++ cells_of_range (left_ it, tile_j_ it + 1, right_ it, bottom_ it)).
Proof.
  induction fuel as [| fuel IH]; intros it Hvalid Hi Htree Htile Hfuel.
  { rewrite row_from_cons in Hfuel by lia. simpl in Hfuel. lia. }
  cbn [coverage_steps]. rewrite Hvalid.
  rewrite row_from_cons in * by lia.
  cbn [app fmap list_fmap length] in *. f_equal.
  { unfold tile_and_cell. cbn [fst snd]. rewrite Htile. reflexivity. }
  destruct (CoverageIterator_next_window w tiling it) as (_ & Hl & _ & Hr & Hb & Ht).
  destruct (CoverageIterator_next_cell w tiling it Hvalid) as (Hsame & Hjump & Hread).
  pose proof Hvalid as Hj. unfold iterator_valid in Hj. apply Z.leb_le in Hj.
  destruct (Z.lt_ge_cases (tile_i_ it) (right_ it)) as [Hlt | Hge].
  - destruct (Hsame Hlt) as [Hi' Hj'].
    assert (Hvalid' : iterator_valid (CoverageIterator_next w tiling it) = true).
    { unfold iterator_valid. apply Z.leb_le. lia. }
    rewrite (IH _ Hvalid'); rewrite ?Hl, ?Hr, ?Hb, ?Hi', ?Hj', ?Ht;
      try reflexivity; try lia; try congruence.
    rewrite (Hread Hvalid'), Hi', Hj'. congruence.
  - destruct (Hjump Hge) as [Hi' Hj'].
    rewrite (row_from_nil (tile_i_ it + 1)) in * by lia. cbn [app] in *.
    destruct (Z.le_gt_cases (tile_j_ it + 1) (bottom_ it)) as [Hmore | Hlast].
    + assert (Hvalid' : iterator_valid (CoverageIterator_next w tiling it) = true).
      { unfold iterator_valid. apply Z.leb_le. lia. }
      rewrite (cells_of_range_cons _ (tile_j_ it + 1)) in * by lia.
      rewrite (IH _ Hvalid'); rewrite ?Hl, ?Hr, ?Hb, ?Hi', ?Hj', ?Ht;
        try reflexivity; try lia; try congruence.
      rewrite (Hread Hvalid'), Hi', Hj'. congruence.
    + rewrite cells_of_range_nil by lia.
      rewrite coverage_steps_done; [reflexivity |].
      unfold iterator_valid. apply Z.leb_gt. lia.
Qed.

(** X7: for a non-empty destination rectangle whose content rectangle is
    not empty, the coverage iterator visits exactly the cells between the
    tile indices of the content rectangle's corners, row by row and left to
    right, and at each cell yields the tile that TileAt returns for the
    tiling's current tree. *)
Theorem CoverageIterator_visits_window dest_scale dest_rect fuel :
  let content_rect :=
    gfx.IntersectRects
      (ScaleToEnclosingRect dest_rect
         (float_div (contents_scale_ tiling) dest_scale))
      (ContentRect tiling) in
  let td := tiling_data_ tiling in
  let window :=
    (TileXIndexFromSrcCoord td (gfx.x content_rect),
     TileYIndexFromSrcCoord td (gfx.y content_rect),
     TileXIndexFromSrcCoord td (gfx.right content_rect - 1),
     TileYIndexFromSrcCoord td (gfx.bottom content_rect - 1)) in
  gfx.IsEmpty dest_rect = false -> gfx.IsEmpty content_rect = false ->
  (length (cells_of_range window) <= fuel)%nat ->
  tile_and_cell
  <$> coverage_steps w tiling fuel
        (CoverageIterator_new w tiling dest_scale dest_rect)
  = (fun cell => (TileAt w tiling (current_tree_ tiling) cell.1 cell.2, cell))
    <$> cells_of_range window.
Proof.
  cbv zeta. unfold ContentRect. intros Hdest Hcontent Hfuel.
  unfold CoverageIterator_new. rewrite Hdest, Hcontent.
  set (content_rect := gfx.IntersectRects _ _) in *.
  apply IsEmpty_false in Hcontent as [Hcw Hch].
  assert (Hx : TileXIndexFromSrcCoord (tiling_data_ tiling) (gfx.x content_rect)
               <= TileXIndexFromSrcCoord (tiling_data_ tiling)
                    (gfx.right content_rect - 1)).
  { apply IndexFromSrcCoord_mono. unfold gfx.right. lia. }
  assert (Hy : TileYIndexFromSrcCoord (tiling_data_ tiling) (gfx.y content_rect)
               <= TileYIndexFromSrcCoord (tiling_data_ tiling)
                    (gfx.bottom content_rect - 1)).
  { apply IndexFromSrcCoord_mono. unfold gfx.bottom. lia. }
  set (l := TileXIndexFromSrcCoord _ (gfx.x content_rect)) in *.
  set (t := TileYIndexFromSrcCoord _ (gfx.y content_rect)) in *.
  set (r := TileXIndexFromSrcCoord _ (gfx.right content_rect - 1)) in *.
  set (b := TileYIndexFromSrcCoord _ (gfx.bottom content_rect - 1)) in *.
  set (it := mkIter _ _ _ _ _ _ _ _ _ _ _).
  assert (Hvalid : iterator_valid it = true).
  { unfold iterator_valid. apply Z.leb_le. simpl. exact Hy. }
  destruct (CoverageIterator_next_window w tiling it) as (_ & Hl & _ & Hr & Hb & Ht).
  destruct (CoverageIterator_next_cell w tiling it Hvalid) as (Hsame & _ & Hread).
  destruct (Hsame ltac:(simpl; lia)) as [Hi' Hj']. simpl in Hi', Hj', Hl, Hr, Hb, Ht.
  assert (Hvalid' : iterator_valid (CoverageIterator_next w tiling it) = true).
  { unfold iterator_valid. apply Z.leb_le. rewrite Hj', Hb. exact Hy. }
  rewrite (cells_of_range_cons l t r b) in * by exact Hy.
  rewrite (coverage_steps_remaining (current_tree_ tiling) fuel _ Hvalid');
    rewrite ?Hl, ?Hr, ?Hb, ?Hi', ?Hj', ?Ht; try reflexivity; try lia.
  - replace (l - 1 + 1) with l by lia. reflexivity.
  - rewrite (Hread Hvalid'), Hi', Hj'. reflexivity.
  - replace (l - 1 + 1) with l by lia. exact Hfuel.
Qed.

End Window.

Lemma IntersectRects_again a b :
  gfx.IsEmpty (gfx.IntersectRects a b) = false ->
  gfx.IntersectRects (gfx.IntersectRects a b) b = gfx.IntersectRects a b.
Proof.
  intros Hne.
  destruct (IntersectRects_nonempty a b Hne) as (_ & Hb & Hx & Hy & Hraw).
  rewrite Hraw in Hne |- *. apply IsEmpty_false in Hb as [Hbw Hbh].
  unfold gfx.IntersectRects at 1. rewrite Hne.
  assert (Hbe : gfx.IsEmpty b = false) by (apply IsEmpty_false; lia).
  rewrite Hbe. cbn [orb]. cbv zeta.
  unfold gfx.right, gfx.bottom in *. cbn [gfx.x gfx.y gfx.width gfx.height].
  destruct (Z.leb_spec
              (Z.min (Z.max (gfx.x a) (gfx.x b)
                      + (Z.min (gfx.x a + gfx.width a) (gfx.x b + gfx.width b)
                         - Z.max (gfx.x a) (gfx.x b)))
                     (gfx.x b + gfx.width b))
              (Z.max (Z.max (gfx.x a) (gfx.x b)) (gfx.x b))); [lia |].
  destruct (Z.leb_spec
              (Z.min (Z.max (gfx.y a) (gfx.y b)
                      + (Z.min (gfx.y a + gfx.height a) (gfx.y b + gfx.height b)
                         - Z.max (gfx.y a) (gfx.y b)))
                     (gfx.y b + gfx.height b))
              (Z.max (Z.max (gfx.y a) (gfx.y b)) (gfx.y b))); [lia |].
  cbn [orb]. unfold gfx.MakeRect. f_equal; lia.
Qed.

Section NoGaps.

Context `{FloatOps}.
Variables (w : World) (tiling : PictureLayerTiling).

(** Every step of the walk stands on a cell of the window and shows the
    tile of that cell. *)
Lemma coverage_steps_in_window fuel : forall it,
  left_ it <= right_ it ->
  (iterator_valid it = true ->
   left_ it <= tile_i_ it <= right_ it /\ top_ it <= tile_j_ it /\
   current_tile_ it = TileAt w tiling (tree_ it) (tile_i_ it) (tile_j_ it)) ->
  Forall (fun s : gfx.Rect * option Tile * (Z * Z) =>
            s.1.2 = TileAt w tiling (tree_ it) s.2.1 s.2.2 /\
            left_ it <= s.2.1 <= right_ it /\ top_ it <= s.2.2 <= bottom_ it)
         (coverage_steps w tiling fuel it).
Proof.
  induction fuel as [| fuel IH]; intros it Hlr Hit; [constructor |].
  cbn [coverage_steps]. destruct (iterator_valid it) eqn:Hvalid; [| constructor].
  destruct (Hit eq_refl) as (Hi & Hj & Htile).
  pose proof Hvalid as Hb. unfold iterator_valid in Hb. apply Z.leb_le in Hb.
  destruct (CoverageIterator_next_window w tiling it)
    as (_ & Hl & Ht & Hr & Hbt & Htr).
  destruct (CoverageIterator_next_cell w tiling it Hvalid) as (Hsame & Hjump & Hread).
  constructor.
  - cbn [fst snd]. split; [exact Htile |]. lia.
  - specialize (IH (CoverageIterator_next w tiling it)).
    rewrite Hl, Ht, Hr, Hbt, Htr in IH. apply IH; [exact Hlr |].
    intros Hvalid'. split_and!.
    + destruct (Z.lt_ge_cases (tile_i_ it) (right_ it)) as [Hlt | Hge].
      * destruct (Hsame Hlt) as [-> _]. lia.
      * destruct (Hjump Hge) as [-> _]. lia.
    + destruct (Z.lt_ge_cases (tile_i_ it) (right_ it)) as [Hlt | Hge].
      * destruct (Hsame Hlt) as [-> _]. lia.
      * destruct (Hjump Hge) as [-> _]. lia.
    + destruct (Z.lt_ge_cases (tile_i_ it) (right_ it)) as [Hlt | Hge].
      * destruct (Hsame Hlt) as [_ ->]. lia.
      * destruct (Hjump Hge) as [_ ->]. lia.
    + exact (Hread Hvalid').
Qed.

(** X19: on a grid that has tiles, when every cell of the live rectangle
    holds a tile of the current tree, a coverage walk whose content
    rectangle lies inside the live rectangle yields a tile at every step:
    it never reports a missing tile, for any destination scale. *)
Theorem CoverageIterator_finds_live_tiles dest_scale dest_rect fuel :
  let content_rect :=
    gfx.IntersectRects
      (ScaleToEnclosingRect dest_rect
         (float_div (contents_scale_ tiling) dest_scale))
      (ContentRect tiling) in
  let td := tiling_data_ tiling in
  0 < num_tiles_x td -> 0 < num_tiles_y td ->
  gfx.Subset content_rect (live_tiles_rect_ tiling) ->
  (forall i j,
     in_range (index_range td (live_tiles_rect_ tiling)) (i, j) = true ->
     is_Some (TileAt w tiling (current_tree_ tiling) i j)) ->
  Forall (fun s : gfx.Rect * option Tile * (Z * Z) => is_Some s.1.2)
         (coverage_steps w tiling fuel
            (CoverageIterator_new w tiling dest_scale dest_rect)).
Proof.
  cbv zeta. unfold ContentRect. intros Hnx Hny Hsub Hlive.
  unfold CoverageIterator_new.
  destruct (gfx.IsEmpty dest_rect).
  { destruct fuel; constructor. }
  cbv zeta.
  set (content_rect := gfx.IntersectRects _ _) in *.
  destruct (gfx.IsEmpty content_rect) eqn:Hcontent.
  { destruct fuel; constructor. }
  pose proof Hcontent as Hsize. apply IsEmpty_false in Hsize as [Hcw Hch].
  assert (Hx : TileXIndexFromSrcCoord (tiling_data_ tiling) (gfx.x content_rect)
               <= TileXIndexFromSrcCoord (tiling_data_ tiling)
                    (gfx.right content_rect - 1)).
  { apply IndexFromSrcCoord_mono. unfold gfx.right. lia. }
  assert (Hy : TileYIndexFromSrcCoord (tiling_data_ tiling) (gfx.y content_rect)
               <= TileYIndexFromSrcCoord (tiling_data_ tiling)
                    (gfx.bottom content_rect - 1)).
  { apply IndexFromSrcCoord_mono. unfold gfx.bottom. lia. }
  assert (Hrange : index_range (tiling_data_ tiling) content_rect
                   = Some (TileXIndexFromSrcCoord (tiling_data_ tiling)
                             (gfx.x content_rect),
                           TileYIndexFromSrcCoord (tiling_data_ tiling)
                             (gfx.y content_rect),
                           TileXIndexFromSrcCoord (tiling_data_ tiling)
                             (gfx.right content_rect - 1),
                           TileYIndexFromSrcCoord (tiling_data_ tiling)
                             (gfx.bottom content_rect - 1))).
  { unfold index_range.
    rewrite (proj2 (Z.leb_gt _ _) Hnx), (proj2 (Z.leb_gt _ _) Hny). cbn [orb].
    cbv zeta. subst content_rect.
    rewrite IntersectRects_again by exact Hcontent. rewrite Hcontent.
    reflexivity. }
  set (l := TileXIndexFromSrcCoord _ (gfx.x content_rect)) in *.
  set (t := TileYIndexFromSrcCoord _ (gfx.y content_rect)) in *.
  set (r := TileXIndexFromSrcCoord _ (gfx.right content_rect - 1)) in *.
  set (b := TileYIndexFromSrcCoord _ (gfx.bottom content_rect - 1)) in *.
  destruct (index_range_mono (tiling_data_ tiling) (live_tiles_rect_ tiling)
              content_rect l t r b Hsub Hrange)
    as (l' & t' & r' & b' & Hliverange & Hl' & Hr' & Ht' & Hb').
  set (it := mkIter _ _ _ _ _ _ _ _ _ _ _).
  assert (Hvalid : iterator_valid it = true).
  { unfold iterator_valid. apply Z.leb_le. simpl. exact Hy. }
  destruct (CoverageIterator_next_window w tiling it) as (_ & Hl & Ht & Hr & Hb & Htr).
  destruct (CoverageIterator_next_cell w tiling it Hvalid) as (Hsame & _ & Hread).
  destruct (Hsame ltac:(simpl; lia)) as [Hi' Hj'].
  simpl in Hi', Hj', Hl, Hr, Hb, Ht, Htr.
  pose proof (coverage_steps_in_window fuel (CoverageIterator_next w tiling it))
    as Hsteps.
  rewrite Hl, Ht, Hr, Hb, Htr, Hi', Hj' in Hsteps.
  eapply Forall_impl; [apply Hsteps |].
  - exact Hx.
  - intros Hvalid'. split_and!; try lia.
    rewrite (Hread Hvalid'), Hi', Hj'. reflexivity.
  - intros [[g tile] [i j]] (Htile & Hi & Hj). cbn [fst snd] in *.
    rewrite Htile. apply Hlive. rewrite Hliverange. cbn [in_range fst snd].
    rewrite !andb_true_iff, !Z.leb_le. lia.
Qed.

End NoGaps.

(** ** Further properties: tiles and bundles *)

Section Footprint.

Context `{FloatOps}.

Lemma bundle_AddTileAt_other w id tree i j tile id' tree' i' j' :
  (tree', i', j') <> (tree, i, j) ->
  bundle_TileAt (bundle_AddTileAt w id tree i j tile) id' tree' i' j'
  = bundle_TileAt w id' tree' i' j'.
Proof.
  intros Hne. unfold bundle_AddTileAt.
  destruct (bundles w !! id) as [b |] eqn:Hb; [| reflexivity].
  rewrite !bundle_TileAt_eq. simpl.
  destruct (decide (id' = id)) as [-> | Hid].
  - rewrite lookup_insert_eq, Hb. simpl. apply lookup_insert_ne. congruence.
  - rewrite lookup_insert_ne by congruence. reflexivity.
Qed.

Lemma bundle_AddTileAt_TileAt w id tree i j tile t0 tree' i' j' :
  (tree', i', j') <> (tree, i, j) ->
  TileAt (bundle_AddTileAt w id tree i j tile) t0 tree' i' j'
  = TileAt w t0 tree' i' j'.
Proof.
  intros Hne. rewrite !TileAt_eq.
  destruct (tile_bundles_ t0 !! _); [| reflexivity].
  apply bundle_AddTileAt_other, Hne.
Qed.

Lemma client_CreateTile_TileAt client w rect t0 tree i j :
  TileAt (client_CreateTile client w rect).1 t0 tree i j = TileAt w t0 tree i j.
Proof. reflexivity. Qed.

(** What looking up or creating the bundle of a cell changes. *)
Lemma bundle_for_tile_footprint w t i j twin w1 t1 id :
  bundle_for_tile w t i j twin = (w1, t1, id) ->
  let key := ComputeTileBundleIndex i j in
  t1 = set_tile_bundles t (tile_bundles_ t1) /\
  tile_bundles_ t1 !! key = Some id /\
  (forall k, k <> key -> tile_bundles_ t1 !! k = tile_bundles_ t !! k) /\
  (is_Some (tile_bundles_ t !! key) -> w1 = w /\ t1 = t) /\
  tile_requests w1 = tile_requests w /\ next_tile w1 = next_tile w /\
  (bundle_requests w1 = bundle_requests w \/
   tile_bundles_ t !! key = None /\ twin_candidate t twin key = None /\
   id = next_bundle w /\
   bundles w1 = <[id := mkBundle (key.1 * 2) (key.2 * 2) 2 2 ∅]> (bundles w) /\
   next_bundle w1 = S (next_bundle w) /\
   bundle_requests w1
   = bundle_requests w ++ [(key.1 * 2, key.2 * 2, 2, 2)]).
Proof.
  rewrite bundle_for_tile_eq. cbv zeta.
  destruct (tile_bundles_ t !! ComputeTileBundleIndex i j) as [id0 |] eqn:Hkey.
  - intros Heq. injection Heq as <- <- <-.
    rewrite set_tile_bundles_same. split_and!; auto.
  - rewrite CreateBundleForTileAt_eq. cbv zeta.
    destruct (twin_candidate t twin (ComputeTileBundleIndex i j)) as [idt |] eqn:Htw.
    + intros Heq. injection Heq as <- <- <-. simpl.
      split_and!; auto.
      * apply lookup_insert_eq.
      * intros k Hk. apply lookup_insert_ne. congruence.
      * intros [? Hf]. discriminate Hf.
    + unfold client_CreateTileBundle. intros Heq. injection Heq as <- <- <-. simpl.
      split_and!; auto.
      * apply lookup_insert_eq.
      * intros k Hk. apply lookup_insert_ne. congruence.
      * intros [? Hf]. discriminate Hf.
      * right. split_and!; reflexivity.
Qed.

(** The second half of CreateTile, once the bundle is at hand. *)
Lemma CreateTile_store client w1 t1 tree i j id :
  let r := match adopted_tile client w1 t1 tree i j with
           | Some candidate_tile =>
               (bundle_AddTileAt w1 id tree i j candidate_tile, t1)
           | None =>
               let tile_rect :=
                 gfx.set_size (TileBoundsWithBorder (tiling_data_ t1) i j)
                              (max_texture_size (tiling_data_ t1)) in
               match (client_CreateTile client w1 tile_rect).2 with
               | Some tl =>
                   (bundle_AddTileAt (client_CreateTile client w1 tile_rect).1
                      id tree i j tl, t1)
               | None => ((client_CreateTile client w1 tile_rect).1, t1)
               end
           end in
  r.2 = t1 /\
  (forall t0 tree' i' j', (tree', i', j') <> (tree, i, j) ->
     TileAt r.1 t0 tree' i' j' = TileAt w1 t0 tree' i' j') /\
  bundle_requests r.1 = bundle_requests w1 /\
  next_bundle r.1 = next_bundle w1 /\
  (tile_requests r.1 = tile_requests w1 \/
   exists rect, tile_requests r.1 = tile_requests w1 ++ [rect]) /\
  (forall id', is_Some (bundles r.1 !! id') <-> is_Some (bundles w1 !! id')).
Proof.
  cbv zeta.
  assert (Hlive : forall w0 tile id',
            is_Some (bundles (bundle_AddTileAt w0 id tree i j tile) !! id')
            <-> is_Some (bundles w0 !! id')).
  { intros w0 tile id'. unfold bundle_AddTileAt.
    destruct (bundles w0 !! id) as [b |] eqn:Hb; [| reflexivity]. simpl.
    destruct (decide (id' = id)) as [-> | Hne].
    - rewrite lookup_insert_eq, Hb. split; eauto.
    - rewrite lookup_insert_ne by congruence. reflexivity. }
  destruct (adopted_tile client w1 t1 tree i j) as [cand |].
  - destruct (bundle_AddTileAt_logs w1 id tree i j cand) as (Hl & Hn & Hb & Hnb).
    cbn [fst snd]. split_and!; auto.
    intros t0 tree' i' j' Hne. apply bundle_AddTileAt_TileAt, Hne.
  - pose proof (client_CreateTile_spec client w1
                  (gfx.set_size (TileBoundsWithBorder (tiling_data_ t1) i j)
                     (max_texture_size (tiling_data_ t1)))) as Hspec.
    destruct (client_CreateTile client w1 _) as [w2 tile] eqn:Hreq.
    destruct Hspec as (Hb & Hnb & Hbr & Hlog & _). cbn [fst snd].
    assert (Hsame : forall t0 tree' i' j',
              TileAt w2 t0 tree' i' j' = TileAt w1 t0 tree' i' j').
    { intros. rewrite !TileAt_eq. destruct (tile_bundles_ t0 !! _); [| reflexivity].
      rewrite !bundle_TileAt_eq, Hb. reflexivity. }
    destruct tile as [tl |]; cbn [fst snd].
    + destruct (bundle_AddTileAt_logs w2 id tree i j tl) as (Hl & Hn & Hb' & Hnb').
      split_and!; try congruence.
      * intros t0 tree' i' j' Hne.
        rewrite bundle_AddTileAt_TileAt by exact Hne. apply Hsame.
      * right. eexists. rewrite Hl. exact Hlog.
      * intros id'. rewrite Hlive, Hb. reflexivity.
    + split_and!; try congruence; eauto.
      intros id'. rewrite Hb. reflexivity.
Qed.

Lemma CreateTile_request_count client w t tree i j twin :
  (length (tile_requests (CreateTile client w t tree i j twin).1)
   <= S (length (tile_requests w)))%nat.
Proof.
  destruct (bundle_for_tile w t i j twin) as [[w1 t1] id] eqn:Hfind.
  destruct (bundle_for_tile_footprint w t i j twin w1 t1 id Hfind)
    as (_ & Hkey & _ & _ & Htr & _).
  rewrite (CreateTile_eq client w t tree i j twin w1 t1 id Hfind Hkey). cbv zeta.
  destruct (CreateTile_store client w1 t1 tree i j id) as (_ & _ & _ & _ & Hreq & _).
  cbv zeta in Hreq.
  destruct Hreq as [-> | [rect ->]]; rewrite ?length_app, Htr; simpl; lia.
Qed.

(** X8: CreateTile changes only the bundle map of the tiling, leaves the
    key of the cell's bundle present (also when the collaborator returns
    no tile) and every other key as it was; when the key was present
    already, the tiling and the bundle requests are unchanged and no slot
    other than (tree, i, j) changes, seen through any tiling; it makes at
    most one tile request and at most one bundle request. *)
Theorem CreateTile_footprint client w t tree i j twin :
  let r := CreateTile client w t tree i j twin in
  let key := ComputeTileBundleIndex i j in
  r.2 = set_tile_bundles t (tile_bundles_ r.2) /\
  is_Some (tile_bundles_ r.2 !! key) /\
  (forall k, k <> key -> tile_bundles_ r.2 !! k = tile_bundles_ t !! k) /\
  (is_Some (tile_bundles_ t !! key) ->
   r.2 = t /\ bundle_requests r.1 = bundle_requests w /\
   forall t0 tree' i' j', (tree', i', j') <> (tree, i, j) ->
     TileAt r.1 t0 tree' i' j' = TileAt w t0 tree' i' j') /\
  (length (tile_requests r.1) <= S (length (tile_requests w)))%nat /\
  (length (bundle_requests r.1) <= S (length (bundle_requests w)))%nat.
Proof.
  cbv zeta.
  destruct (bundle_for_tile w t i j twin) as [[w1 t1] id] eqn:Hfind.
  destruct (bundle_for_tile_footprint w t i j twin w1 t1 id Hfind)
    as (Hfields & Hkey & Hother & Hpresent & Htr & _ & Hbr).
  rewrite (CreateTile_eq client w t tree i j twin w1 t1 id Hfind Hkey). cbv zeta.
  destruct (CreateTile_store client w1 t1 tree i j id)
    as (Ht & Hframe & Hb & _ & Hreq & _).
  cbv zeta in Ht, Hframe, Hb, Hreq.
  rewrite Ht, Hb. split_and!.
  - exact Hfields.
  - rewrite Hkey. eauto.
  - exact Hother.
  - intros Hsome. destruct (Hpresent Hsome) as [-> ->].
    split_and!; [reflexivity | reflexivity | exact Hframe].
  - destruct Hreq as [-> | [rect ->]]; rewrite ?length_app, Htr; simpl; lia.
  - destruct Hbr as [-> | (_ & _ & _ & _ & _ & ->)]; rewrite ?length_app; simpl; lia.
Qed.

End Footprint.

Section SmallSteps.

Context `{FloatOps}.

Lemma RemoveTile_reports (w : World) (t : PictureLayerTiling) tree i j :
  (RemoveTile w t tree i j).2 = true <-> is_Some (TileAt w t tree i j).
Proof.
  rewrite RemoveTile_eq, TileAt_eq.
  destruct (tile_bundles_ t !! ComputeTileBundleIndex i j) as [id |];
    [| split; [discriminate | intros [? Hf]; discriminate Hf]].
  rewrite bundle_TileAt_eq.
  destruct (bundles w !! id) as [b |];
    [| split; [discriminate | intros [? Hf]; discriminate Hf]].
  cbn [snd]. apply bool_decide_eq_true.
Qed.

Lemma RemoveTile_live (w : World) (t : PictureLayerTiling) tree i j id :
  is_Some (bundles (RemoveTile w t tree i j).1 !! id) <-> is_Some (bundles w !! id).
Proof.
  rewrite RemoveTile_eq.
  destruct (tile_bundles_ t !! ComputeTileBundleIndex i j) as [id0 |];
    [| reflexivity].
  destruct (bundles w !! id0) as [b |] eqn:Hb; [| reflexivity].
  cbn [fst]. unfold update_bundle, set_bundles. cbn [bundles].
  destruct (decide (id = id0)) as [-> | Hne].
  - rewrite lookup_insert_eq, Hb. split; eauto.
  - rewrite lookup_insert_ne by congruence. reflexivity.
Qed.

(** The facts about one removal of a pending tile that the loops use. *)
Lemma RemoveTile_reports_and_clears_parts (w : World) (t : PictureLayerTiling)
    (cell : Z * Z) :
  let r := RemoveTile w t PENDING_TREE cell.1 cell.2 in
  (r.2 = true <-> is_Some (TileAt w t PENDING_TREE cell.1 cell.2)) /\
  TileAt r.1 t PENDING_TREE cell.1 cell.2 = None /\
  (forall t0 tree' i' j', (tree', i', j') <> (PENDING_TREE, cell.1, cell.2) ->
     TileAt r.1 t0 tree' i' j' = TileAt w t0 tree' i' j') /\
  (tile_requests r.1 = tile_requests w /\ bundle_requests r.1 = bundle_requests w) /\
  (forall id, is_Some (bundles r.1 !! id) <-> is_Some (bundles w !! id)).
Proof.
  cbv zeta. destruct (RemoveTile_logs w t PENDING_TREE cell.1 cell.2)
    as (Htr & _ & Hbr & _).
  split_and!; try assumption.
  - apply RemoveTile_reports.
  - apply RemoveTile_removed.
  - intros t0 tree' i' j' Hne. apply RemoveTile_other, Hne.
  - intros id. apply RemoveTile_live.
Qed.

(** X10: RemoveTile returns true exactly when the slot held a tile, leaves
    the slot empty, changes no other slot (seen through any tiling), does
    nothing when the cell has no bundle, returns false when repeated, and
    makes no request to the collaborator. *)
Theorem RemoveTile_reports_and_clears w t tree i j :
  let r := RemoveTile w t tree i j in
  (r.2 = true <-> is_Some (TileAt w t tree i j)) /\
  TileAt r.1 t tree i j = None /\
  (forall t0 tree' i' j', (tree', i', j') <> (tree, i, j) ->
     TileAt r.1 t0 tree' i' j' = TileAt w t0 tree' i' j') /\
  (tile_bundles_ t !! ComputeTileBundleIndex i j = None -> r = (w, false)) /\
  RemoveTile r.1 t tree i j = (r.1, false) /\
  tile_requests r.1 = tile_requests w /\
  bundle_requests r.1 = bundle_requests w.
Proof.
  cbv zeta.
  destruct (RemoveTile_logs w t tree i j) as (Htr & _ & Hbr & _).
  split_and!; try assumption.
  - apply RemoveTile_reports.
  - apply RemoveTile_removed.
  - intros t0 tree' i' j' Hne. apply RemoveTile_other, Hne.
  - intros Hnone. rewrite RemoveTile_eq, Hnone. reflexivity.
  - rewrite !RemoveTile_eq.
    destruct (tile_bundles_ t !! ComputeTileBundleIndex i j) as [id |];
      [| reflexivity].
    destruct (bundles w !! id) as [b |] eqn:Hb; cbn [fst]; [| rewrite Hb; reflexivity].
    unfold update_bundle, set_bundles. cbn [bundles].
    rewrite lookup_insert_eq. unfold without_slot. cbn [tiles_ index_offset_x
      index_offset_y index_count_x index_count_y].
    rewrite delete_delete_eq, insert_insert_eq, lookup_delete_eq.
    f_equal; apply bool_decide_eq_false; intros [? Hf]; discriminate Hf.
Qed.

(** X9: when no bundle is taken from the twin, CreateBundleForTileAt at a
    cell with non-negative indices requests one 2 x 2 bundle from the
    collaborator, stores it, empty, under the cell's bundle key, and the
    cells the requested bundle covers are the cell itself and exactly the
    non-negative cells that share its bundle key. *)
Theorem CreateBundleForTileAt_covers_cell w t i j twin :
  0 <= i -> 0 <= j ->
  twin_candidate t twin (ComputeTileBundleIndex i j) = None ->
  let r := CreateBundleForTileAt w t i j twin in
  exists offset_x offset_y,
    bundle_requests r.1.1 = bundle_requests w ++ [(offset_x, offset_y, 2, 2)] /\
    bundles r.1.1 !! r.2 = Some (mkBundle offset_x offset_y 2 2 ∅) /\
    tile_bundles_ r.1.2 !! ComputeTileBundleIndex i j = Some r.2 /\
    (offset_x <= i < offset_x + 2 /\ offset_y <= j < offset_y + 2) /\
    forall i' j', 0 <= i' -> 0 <= j' ->
      (ComputeTileBundleIndex i' j' = ComputeTileBundleIndex i j
       <-> offset_x <= i' < offset_x + 2 /\ offset_y <= j' < offset_y + 2).
Proof.
  intros Hi Hj Htwin. cbv zeta. rewrite CreateBundleForTileAt_eq. cbv zeta.
  rewrite Htwin. unfold client_CreateTileBundle. cbn [fst snd bundles
    bundle_requests tile_bundles_ set_tile_bundles].
  unfold ComputeTileBundleIndex, kTileBundleWidth, kTileBundleHeight. cbn [fst snd].
  exists (i ÷ 2 * 2), (j ÷ 2 * 2).
  rewrite !lookup_insert_eq.
  rewrite !Z.quot_div_nonneg by lia.
  pose proof (Z.div_mod i 2 ltac:(lia)). pose proof (Z.mod_pos_bound i 2 ltac:(lia)).
  pose proof (Z.div_mod j 2 ltac:(lia)). pose proof (Z.mod_pos_bound j 2 ltac:(lia)).
  split_and!; try reflexivity; try lia.
  intros i' j' Hi' Hj'. rewrite !Z.quot_div_nonneg by lia.
  pose proof (Z.div_mod i' 2 ltac:(lia)). pose proof (Z.mod_pos_bound i' 2 ltac:(lia)).
  pose proof (Z.div_mod j' 2 ltac:(lia)). pose proof (Z.mod_pos_bound j' 2 ltac:(lia)).
  split.
  - intros Heq. injection Heq as Hx Hy. lia.
  - intros [Hx Hy]. f_equal; lia.
Qed.

Lemma SetLiveTilesRect_live client w t r :
  live_tiles_rect_ (SetLiveTilesRect client w t r).2 = r.
Proof.
  unfold SetLiveTilesRect.
  destruct (bool_decide (live_tiles_rect_ t = r)) eqn:Hsame.
  - apply bool_decide_eq_true in Hsame. exact Hsame.
  - destruct (remove_tiles _ _ _) as [w1 t1].
    destruct (gfx.IsEmpty r); [reflexivity |].
    destruct (create_tiles _ _ _ _ _) as [w2 t2]. reflexivity.
Qed.

End SmallSteps.

Section Invalidation.

Context `{FloatOps}.

Lemma invalidate_cells_app t cells cells' acc :
  invalidate_cells t (cells ++ cells') acc
  = invalidate_cells t cells' (invalidate_cells t cells acc).
Proof. unfold invalidate_cells. apply fold_left_app. Qed.

Lemma invalidate_rects_cells t layer_region : forall acc,
  invalidate_rects t layer_region acc
  = invalidate_cells t (invalidated_cells t layer_region) acc.
Proof.
  induction layer_region as [| rect region IH]; intros acc; [reflexivity |].
  unfold invalidated_cells. cbn [mbind list_bind].
  fold (invalidated_cells t region).
  rewrite invalidate_cells_app, <- IH.
  unfold invalidate_rects at 1. cbn [fold_left].
  destruct (gfx.IsEmpty _); reflexivity.
Qed.

(** CreateTile on a cell whose bundle is in the collection. *)
Lemma CreateTile_existing client w t tree i j twin id :
  tile_bundles_ t !! ComputeTileBundleIndex i j = Some id ->
  is_Some (bundles w !! id) ->
  let r := CreateTile client w t tree i j twin in
  r.2 = t /\
  (forall t0 tree' i' j', (tree', i', j') <> (tree, i, j) ->
     TileAt r.1 t0 tree' i' j' = TileAt w t0 tree' i' j') /\
  bundle_requests r.1 = bundle_requests w /\
  (length (tile_requests r.1) <= S (length (tile_requests w)))%nat /\
  (forall id', is_Some (bundles r.1 !! id') <-> is_Some (bundles w !! id')) /\
  ((forall rect, CreateTile_returns_tile client rect = true) ->
   is_Some (TileAt r.1 t tree i j)).
Proof.
  intros Hkey Hlive. cbv zeta.
  assert (Hfind : bundle_for_tile w t i j twin = (w, t, id)).
  { rewrite bundle_for_tile_eq, Hkey. reflexivity. }
  rewrite (CreateTile_eq client w t tree i j twin w t id Hfind Hkey). cbv zeta.
  destruct (CreateTile_store client w t tree i j id)
    as (Ht & Hframe & Hb & _ & Hreq & Hsame).
  cbv zeta in Ht, Hframe, Hb, Hreq, Hsame.
  split_and!; try assumption.
  - destruct Hreq as [-> | [rect ->]]; rewrite ?length_app; simpl; lia.
  - intros Hclient.
    destruct (adopted_tile client w t tree i j) as [cand |].
    + destruct (CreateTile_adopts w t tree i j id cand Hkey Hlive) as (Hcand & _).
      cbv zeta in Hcand. cbn [fst]. rewrite Hcand. eauto.
    + destruct (CreateTile_requests client w t tree i j id Hkey Hlive) as [_ Hnew].
      cbv zeta in Hnew. unfold tile_requested in Hnew. cbv zeta in Hnew.
      rewrite Hclient in Hnew. destruct Hnew as (_ & Hnew & _).
      rewrite Hnew. eauto.
Qed.

(** The creation pass over cells whose bundles are in the collection. *)
Lemma create_tiles_existing client tree twin t cells : forall w,
  (forall cell, cell ∈ cells ->
     exists id, tile_bundles_ t !! cell_key cell = Some id
                /\ is_Some (bundles w !! id)) ->
  let r := create_tiles client tree twin cells (w, t) in
  r.2 = t /\
  (forall t0 tree' i' j', tree' <> tree \/ (i', j') ∉ cells ->
     TileAt r.1 t0 tree' i' j' = TileAt w t0 tree' i' j') /\
  bundle_requests r.1 = bundle_requests w /\
  (length (tile_requests r.1) <= length (tile_requests w) + length cells)%nat /\
  ((forall rect, CreateTile_returns_tile client rect = true) ->
   forall cell, cell ∈ cells -> is_Some (TileAt r.1 t tree cell.1 cell.2)).
Proof.
  induction cells as [| cell cells IH]; intros w Hcells; cbv zeta.
  { cbn [create_tiles fold_left fst snd length]. split_and!; auto; [lia |].
    intros _ cell Hin. apply elem_of_nil in Hin. destruct Hin. }
  rewrite create_tiles_cons. cbn [fst snd].
  destruct (Hcells cell ltac:(left)) as (id & Hkey & Hlive).
  destruct (CreateTile_existing client w t tree cell.1 cell.2 twin id Hkey Hlive)
    as (Ht & Hframe & Hb & Hreq & Hsame & Hnew).
  cbv zeta in Ht, Hframe, Hb, Hreq, Hsame, Hnew.
  destruct (CreateTile client w t tree cell.1 cell.2 twin) as [w1 t1] eqn:Hstep.
  cbn [fst snd] in *. subst t1.
  assert (Hcells1 : forall c, c ∈ cells ->
            exists id, tile_bundles_ t !! cell_key c = Some id
                       /\ is_Some (bundles w1 !! id)).
  { intros c Hc. destruct (Hcells c ltac:(right; exact Hc)) as (idc & Hk & Hl).
    exists idc. split; [exact Hk |]. apply Hsame, Hl. }
  destruct (IH w1 Hcells1) as (Ht' & Hframe' & Hb' & Hreq' & Hnew').
  cbv zeta in Ht', Hframe', Hb', Hreq', Hnew'.
  split_and!.
  - exact Ht'.
  - intros t0 tree' i' j' Hout. rewrite Hframe'.
    + apply Hframe. destruct Hout as [Htree | Hcell]; [congruence |].
      intros Heq. apply Hcell. injection Heq as _ -> ->.
      rewrite <- surjective_pairing. left.
    + destruct Hout as [Htree | Hcell]; [left; exact Htree |].
      right. intros Hin. apply Hcell. right. exact Hin.
  - congruence.
  - cbn [length]. lia.
  - intros Hclient c Hc.
    destruct (decide (c ∈ cells)) as [Hin | Hout]; [apply (Hnew' Hclient c Hin) |].
    apply elem_of_cons in Hc as [-> | Hc]; [| contradiction].
    rewrite Hframe' by (right; rewrite <- surjective_pairing; exact Hout).
    apply Hnew, Hclient.
Qed.

(** The removal pass of Invalidate. *)
Lemma invalidate_cells_frame t cells : forall w keys,
  let r := invalidate_cells t cells (w, keys) in
  (tile_requests r.1 = tile_requests w /\ bundle_requests r.1 = bundle_requests w) /\
  (forall t0 tree' i' j', tree' <> PENDING_TREE \/ (i', j') ∉ cells ->
     TileAt r.1 t0 tree' i' j' = TileAt w t0 tree' i' j') /\
  (forall cell, cell ∈ cells -> TileAt r.1 t PENDING_TREE cell.1 cell.2 = None) /\
  (forall cell, cell ∈ r.2 <->
     cell ∈ keys \/ (cell ∈ cells /\ is_Some (TileAt w t PENDING_TREE cell.1 cell.2))) /\
  (length r.2 <= length keys + length cells)%nat /\
  (forall id, is_Some (bundles r.1 !! id) <-> is_Some (bundles w !! id)).
Proof.
  induction cells as [| cell cells IH]; intros w keys; cbv zeta.
  { cbn [invalidate_cells fold_left fst snd length]. split_and!; auto; try lia.
    - intros cell Hin. apply elem_of_nil in Hin. destruct Hin.
    - intros cell. split; [auto |]. intros [Hin | [Hin _]]; [exact Hin |].
      apply elem_of_nil in Hin. destruct Hin. }
  unfold invalidate_cells. cbn [fold_left].
  destruct (RemoveTile_reports_and_clears_parts w t cell) as (Hrep & Hgone & Hother & Hlogs & Hsame).
  destruct (RemoveTile w t PENDING_TREE cell.1 cell.2) as [w1 deleted] eqn:Hrm.
  cbn [fst snd] in *.
  fold (invalidate_cells t cells
          (w1, if deleted then keys ++ [cell] else keys)).
  destruct (IH w1 (if deleted then keys ++ [cell] else keys))
    as (Hlogs' & Hframe' & Hgone' & Hkeys' & Hlen' & Hsame').
  cbv zeta in Hlogs', Hframe', Hgone', Hkeys', Hlen', Hsame'.
  split_and!.
  - destruct Hlogs, Hlogs'; congruence.
  - destruct Hlogs, Hlogs'; congruence.
  - intros t0 tree' i' j' Hout. rewrite Hframe'.
    + apply Hother. destruct Hout as [Htree | Hcell]; [congruence |].
      intros Heq. apply Hcell. injection Heq as _ -> ->.
      rewrite <- surjective_pairing. left.
    + destruct Hout as [Htree | Hcell]; [left; exact Htree |].
      right. intros Hin. apply Hcell. right. exact Hin.
  - intros c Hc.
    destruct (decide (c ∈ cells)) as [Hin | Hout]; [apply (Hgone' c Hin) |].
    apply elem_of_cons in Hc as [-> | Hc]; [| contradiction].
    rewrite Hframe' by (right; rewrite <- surjective_pairing; exact Hout).
    exact Hgone.
  - intros c. rewrite Hkeys'. rewrite elem_of_cons.
    assert (Hstep : c ∈ cells -> c <> cell ->
              TileAt w1 t PENDING_TREE c.1 c.2 = TileAt w t PENDING_TREE c.1 c.2).
    { intros _ Hne. apply Hother. intros Heq. apply Hne. injection Heq as Hi Hj.
      destruct c, cell. simpl in *. congruence. }
    destruct (decide (c = cell)) as [-> | Hne].
    + rewrite Hgone. destruct deleted.
      * rewrite elem_of_app, list_elem_of_singleton.
        split; [intros _ | auto]. right. split; [left; reflexivity |].
        apply Hrep. reflexivity.
      * split; [intros [Hin | [_ [? Hf]]]; [auto | discriminate Hf] |].
        intros [Hin | [_ Hsome]]; [auto |].
        apply Hrep in Hsome. discriminate Hsome.
    + assert (Hk : c ∈ (if deleted then keys ++ [cell] else keys) <-> c ∈ keys).
      { destruct deleted; [| reflexivity].
        rewrite elem_of_app, list_elem_of_singleton. tauto. }
      rewrite Hk. split.
      * intros [Hin | [Hin Hsome]]; [auto |]. right.
        rewrite Hstep in Hsome by assumption. auto.
      * intros [Hin | [[Heq | Hin] Hsome]]; [auto | contradiction |]. right.
        rewrite Hstep by assumption. auto.
  - cbn [length]. destruct deleted; rewrite ?length_app in Hlen'; simpl in Hlen'; lia.
  - intros id. rewrite Hsame'. apply Hsame.
Qed.

End Invalidation.

Section InvalidateFrame.

Context `{FloatOps}.

(** X15: Invalidate leaves the tiling record, bundle map included, and
    the bundle requests unchanged; slots of the other tree and cells the
    region does not reach inside the live rectangle are unchanged; a
    pending slot that was empty stays empty; at most one tile is requested
    per visited cell; and with a collaborator that returns a tile for every
    request, exactly the pending slots that held a tile hold one
    afterwards. *)
Theorem Invalidate_recreates_in_place client w t layer_region :
  let r := Invalidate client w t layer_region in
  r.2 = t /\
  bundle_requests r.1 = bundle_requests w /\
  (forall t0 tree i j,
     tree <> PENDING_TREE \/ (i, j) ∉ invalidated_cells t layer_region ->
     TileAt r.1 t0 tree i j = TileAt w t0 tree i j) /\
  (forall i j, TileAt w t PENDING_TREE i j = None ->
               TileAt r.1 t PENDING_TREE i j = None) /\
  (length (tile_requests r.1)
   <= length (tile_requests w) + length (invalidated_cells t layer_region))%nat /\
  ((forall rect, CreateTile_returns_tile client rect = true) ->
   forall i j, is_Some (TileAt r.1 t PENDING_TREE i j)
               <-> is_Some (TileAt w t PENDING_TREE i j)).
Proof.
  cbv zeta. unfold Invalidate. rewrite invalidate_rects_cells.
  destruct (invalidate_cells_frame t (invalidated_cells t layer_region) w [])
    as ([Htr Hbr] & Hframe & Hgone & Hkeys & Hlen & Hsame).
  cbv zeta in Htr, Hbr, Hframe, Hgone, Hkeys, Hlen, Hsame.
  destruct (invalidate_cells t (invalidated_cells t layer_region) (w, []))
    as [w1 keys] eqn:Hremoved.
  cbn [fst snd length] in *.
  assert (Hkey : forall cell, cell ∈ keys <->
            cell ∈ invalidated_cells t layer_region
            /\ is_Some (TileAt w t PENDING_TREE cell.1 cell.2)).
  { intros cell. rewrite Hkeys. split; [| auto].
    intros [Hin | Hin]; [apply elem_of_nil in Hin; destruct Hin | exact Hin]. }
  assert (Hlive : forall cell, cell ∈ keys ->
            exists id, tile_bundles_ t !! cell_key cell = Some id
                       /\ is_Some (bundles w1 !! id)).
  { intros cell [_ Hsome]%Hkey. rewrite TileAt_eq in Hsome. unfold cell_key.
    destruct (tile_bundles_ t !! ComputeTileBundleIndex cell.1 cell.2) as [id |];
      [| destruct Hsome as [? Hf]; discriminate Hf].
    exists id. split; [reflexivity |]. apply Hsame.
    rewrite bundle_TileAt_eq in Hsome.
    destruct (bundles w !! id); [eauto | destruct Hsome as [? Hf]; discriminate Hf]. }
  destruct (create_tiles_existing client PENDING_TREE (GetTwinTiling client) t keys
              w1 Hlive) as (Ht & Hframe' & Hbr' & Hreq' & Hnew').
  cbv zeta in Ht, Hframe', Hbr', Hreq', Hnew'.
  assert (Hkept : forall i j, (i, j) ∉ keys ->
            TileAt (create_tiles client PENDING_TREE (GetTwinTiling client) keys
                      (w1, t)).1 t PENDING_TREE i j
            = TileAt w1 t PENDING_TREE i j).
  { intros i j Hout. apply Hframe'. right. exact Hout. }
  split_and!.
  - exact Ht.
  - congruence.
  - intros t0 tree i j Hout. rewrite Hframe'.
    + apply Hframe, Hout.
    + destruct Hout as [Htree | Hcell]; [left; exact Htree |].
      right. intros Hin. apply Hcell. apply Hkey in Hin. tauto.
  - intros i j Hnone.
    assert (Hout : (i, j) ∉ keys).
    { intros [_ Hsome]%Hkey. cbn [fst snd] in Hsome. rewrite Hnone in Hsome.
      destruct Hsome as [? Hf]. discriminate Hf. }
    rewrite (Hkept i j Hout).
    destruct (decide ((i, j) ∈ invalidated_cells t layer_region)) as [Hin | Hnot].
    + apply (Hgone (i, j) Hin).
    + rewrite Hframe by (right; exact Hnot). exact Hnone.
  - rewrite Htr in Hreq'. simpl in Hlen. lia.
  - intros Hclient i j.
    destruct (decide ((i, j) ∈ keys)) as [Hin | Hout].
    + split; [intros _; apply Hkey in Hin; apply Hin |].
      intros _. apply (Hnew' Hclient (i, j) Hin).
    + rewrite (Hkept i j Hout).
      destruct (decide ((i, j) ∈ invalidated_cells t layer_region)) as [Hcell | Hnot].
      * pose proof (Hgone (i, j) Hcell) as Hg. cbn [fst snd] in Hg. rewrite Hg. split; [intros [? Hf]; discriminate Hf |].
        intros Hsome. exfalso. apply Hout, Hkey. auto.
      * rewrite Hframe by (right; exact Hnot). reflexivity.
Qed.

End InvalidateFrame.

Section Fields.

Context `{FloatOps}.

Lemma set_tile_bundles_twice (t : PictureLayerTiling) m m' :
  set_tile_bundles (set_tile_bundles t m) m' = set_tile_bundles t m'.
Proof. reflexivity. Qed.

Lemma CreateTile_fields client w t tree i j twin :
  (CreateTile client w t tree i j twin).2
  = set_tile_bundles t (tile_bundles_ (CreateTile client w t tree i j twin).2).
Proof.
  destruct (bundle_for_tile w t i j twin) as [[w1 t1] id] eqn:Hfind.
  destruct (bundle_for_tile_footprint w t i j twin w1 t1 id Hfind)
    as (Hfields & Hkey & _).
  rewrite (CreateTile_eq client w t tree i j twin w1 t1 id Hfind Hkey). cbv zeta.
  destruct (CreateTile_store client w1 t1 tree i j id) as (Ht & _).
  cbv zeta in Ht. rewrite Ht. exact Hfields.
Qed.

Lemma create_tiles_fields client tree twin cells : forall w t,
  (create_tiles client tree twin cells (w, t)).2
  = set_tile_bundles t
      (tile_bundles_ (create_tiles client tree twin cells (w, t)).2).
Proof.
  induction cells as [| cell cells IH]; intros w t.
  - symmetry. apply set_tile_bundles_same.
  - rewrite create_tiles_cons. cbn [fst snd].
    pose proof (CreateTile_fields client w t tree cell.1 cell.2 twin) as Hstep.
    destruct (CreateTile client w t tree cell.1 cell.2 twin) as [w1 t1].
    cbn [fst snd] in *. rewrite (IH w1 t1) at 1. rewrite Hstep at 1. reflexivity.
Qed.

(** SetLiveTilesRect changes the bundle collection and the live rectangle
    of the tiling, and no other field. *)
Lemma SetLiveTilesRect_fields client w t r :
  (SetLiveTilesRect client w t r).2
  = set_live_tiles_rect
      (set_tile_bundles t (tile_bundles_ (SetLiveTilesRect client w t r).2)) r.
Proof.
  unfold SetLiveTilesRect.
  destruct (bool_decide (live_tiles_rect_ t = r)) eqn:Hsame.
  - apply bool_decide_eq_true in Hsame. subst r. destruct t; reflexivity.
  - destruct (remove_tiles_spec (current_tree_ t)
                (TilingData_DifferenceIterator (tiling_data_ t)
                   (live_tiles_rect_ t) r) w t) as (Hf & _).
    cbv zeta in Hf.
    destruct (remove_tiles _ _ _) as [w1 t1]. cbn [fst snd] in Hf.
    destruct (gfx.IsEmpty r).
    + cbn [snd]. rewrite Hf at 1. reflexivity.
    + pose proof (create_tiles_fields client (current_tree_ t1)
                    (GetTwinTiling client)
                    (TilingData_DifferenceIterator (tiling_data_ t1) r
                       (live_tiles_rect_ t1)) w1 t1) as Hc.
      destruct (create_tiles _ _ _ _ _) as [w2 t2]. cbn [fst snd] in *.
      rewrite Hc at 1. rewrite Hf at 1. reflexivity.
Qed.

Lemma create_tiles_request_count client tree twin cells : forall w t,
  (length (tile_requests (create_tiles client tree twin cells (w, t)).1)
   <= length (tile_requests w) + length cells)%nat.
Proof.
  induction cells as [| cell cells IH]; intros w t; [simpl; lia |].
  rewrite create_tiles_cons. cbn [fst snd length].
  pose proof (CreateTile_request_count client w t tree cell.1 cell.2 twin) as Hone.
  destruct (CreateTile client w t tree cell.1 cell.2 twin) as [w1 t1].
  cbn [fst] in Hone. specialize (IH w1 t1). lia.
Qed.

(** X12: SetLiveTilesRect changes the bundle map and the live rectangle
    of the tiling and nothing else of it, stores the new rectangle, asks
    the collaborator for at most one tile per cell of the new rectangle
    that the old one did not cover and for none when the new rectangle is
    empty, returns at once when the rectangle is the current one, and is a
    no-op when repeated. *)
Theorem SetLiveTilesRect_bounded_effect client w t r :
  let st := SetLiveTilesRect client w t r in
  st.2 = set_live_tiles_rect (set_tile_bundles t (tile_bundles_ st.2)) r /\
  (length (tile_requests st.1)
   <= length (tile_requests w)
      + length (TilingData_DifferenceIterator (tiling_data_ t) r
                  (live_tiles_rect_ t)))%nat /\
  (gfx.IsEmpty r = true -> tile_requests st.1 = tile_requests w) /\
  (live_tiles_rect_ t = r -> st = (w, t)) /\
  SetLiveTilesRect client st.1 st.2 r = st.
Proof.
  cbv zeta. split; [apply SetLiveTilesRect_fields |].
  assert (Hlive : live_tiles_rect_ (SetLiveTilesRect client w t r).2 = r).
  { rewrite SetLiveTilesRect_fields. reflexivity. }
  assert (Hagain : SetLiveTilesRect client (SetLiveTilesRect client w t r).1
                     (SetLiveTilesRect client w t r).2 r
                   = SetLiveTilesRect client w t r).
  { destruct (SetLiveTilesRect client w t r) as [w' t']. cbn [fst snd] in *.
    unfold SetLiveTilesRect. rewrite bool_decide_eq_true_2 by exact Hlive.
    reflexivity. }
  split_and!; try exact Hagain.
  - unfold SetLiveTilesRect.
    destruct (bool_decide (live_tiles_rect_ t = r)); [cbn [fst]; lia |].
    destruct (remove_tiles_spec (current_tree_ t)
                (TilingData_DifferenceIterator (tiling_data_ t)
                   (live_tiles_rect_ t) r) w t) as (Hf & (Htr & _) & _).
    cbv zeta in Hf, Htr.
    destruct (remove_tiles _ _ _) as [w1 t1]. cbn [fst snd] in Hf, Htr.
    destruct (gfx.IsEmpty r); [cbn [fst]; rewrite Htr; lia |].
    pose proof (create_tiles_request_count client (current_tree_ t1)
                  (GetTwinTiling client)
                  (TilingData_DifferenceIterator (tiling_data_ t1) r
                     (live_tiles_rect_ t1)) w1 t1) as Hcount.
    destruct (create_tiles _ _ _ _ _) as [w2 t2]. cbn [fst snd] in *.
    rewrite Hf in Hcount. cbn [tiling_data_ live_tiles_rect_ set_tile_bundles]
      in Hcount. rewrite Htr in Hcount. exact Hcount.
  - intros Hempty. unfold SetLiveTilesRect.
    destruct (bool_decide (live_tiles_rect_ t = r)); [reflexivity |].
    destruct (remove_tiles_spec (current_tree_ t)
                (TilingData_DifferenceIterator (tiling_data_ t)
                   (live_tiles_rect_ t) r) w t) as (_ & (Htr & _) & _).
    cbv zeta in Htr.
    destruct (remove_tiles _ _ _) as [w1 t1]. cbn [fst snd] in Htr.
    rewrite Hempty. exact Htr.
  - intros Hsame. unfold SetLiveTilesRect.
    rewrite bool_decide_eq_true_2 by exact Hsame. reflexivity.
Qed.

Lemma Invalidate_tiling client w t layer_region :
  (Invalidate client w t layer_region).2 = t.
Proof.
  unfold Invalidate. rewrite invalidate_rects_cells.
  destruct (invalidate_cells_frame t (invalidated_cells t layer_region) w [])
    as (_ & _ & _ & Hkeys & _ & Hsame).
  cbv zeta in Hkeys, Hsame.
  destruct (invalidate_cells t (invalidated_cells t layer_region) (w, []))
    as [w1 keys] eqn:Hremoved.
  cbn [fst snd] in *.
  apply create_tiles_existing.
  intros cell [Hin | [_ Hsome]]%Hkeys; [apply elem_of_nil in Hin; destruct Hin |].
  rewrite TileAt_eq in Hsome. unfold cell_key.
  destruct (tile_bundles_ t !! ComputeTileBundleIndex cell.1 cell.2) as [id |];
    [| destruct Hsome as [? Hf]; discriminate Hf].
  exists id. split; [reflexivity |]. apply Hsame.
  rewrite bundle_TileAt_eq in Hsome.
  destruct (bundles w !! id); [eauto | destruct Hsome as [? Hf]; discriminate Hf].
Qed.

Lemma Subset_EmptyRect r : gfx.Subset gfx.EmptyRect r.
Proof.
  intros px py. unfold gfx.ContainsPoint, gfx.EmptyRect, gfx.right, gfx.bottom.
  simpl. lia.
Qed.

(** X16: SetLayerBounds does nothing when the bounds are unchanged.
    Otherwise it stores the bounds, keeps scale and tree, sets the total
    size of both grids to the scaled bounds, sets the tile size to the one
    the collaborator calculates, and leaves the live rectangle inside the
    content rectangle; when the tile size changed it creates nothing,
    empties the bundle map and the live rectangle and sets the bundle grid
    from ComputeBundleTextureSize; when it did not, the live rectangle is
    the old one clipped to the new content bounds. *)
Theorem SetLayerBounds_postconditions client w t layer_bounds :
  let r := SetLayerBounds client w t layer_bounds in
  let content_bounds := ScaleToCeiledSize layer_bounds (contents_scale_ t) in
  let tile_size := CalculateTileSize client content_bounds in
  (layer_bounds_ t = layer_bounds -> r = (w, t)) /\
  (layer_bounds_ t <> layer_bounds ->
   layer_bounds_ r.2 = layer_bounds /\
   contents_scale_ r.2 = contents_scale_ t /\
   current_tree_ r.2 = current_tree_ t /\
   total_size (tiling_data_ r.2) = content_bounds /\
   total_size (bundle_tiling_data_ r.2) = content_bounds /\
   max_texture_size (tiling_data_ r.2) = tile_size /\
   gfx.Subset (live_tiles_rect_ r.2) (ContentRect r.2) /\
   (tile_size <> max_texture_size (tiling_data_ t) ->
    r.1 = w /\ tile_bundles_ r.2 = ∅ /\ live_tiles_rect_ r.2 = gfx.EmptyRect /\
    max_texture_size (bundle_tiling_data_ r.2)
    = ComputeBundleTextureSize tile_size (tiling_data_ t) /\
    forall tree i j, TileAt r.1 r.2 tree i j = None) /\
   (tile_size = max_texture_size (tiling_data_ t) ->
    live_tiles_rect_ r.2
    = gfx.IntersectRects (live_tiles_rect_ t) (gfx.RectOfSize content_bounds) /\
    max_texture_size (bundle_tiling_data_ r.2)
    = max_texture_size (bundle_tiling_data_ t))).
Proof.
  cbv zeta. unfold SetLayerBounds. split.
  - intros Hsame. rewrite bool_decide_eq_true_2 by exact Hsame. reflexivity.
  - intros Hdiff. rewrite bool_decide_eq_false_2 by exact Hdiff. cbv zeta.
    cbn [contents_scale_ tiling_data_ bundle_tiling_data_ tile_bundles_
         live_tiles_rect_ current_tree_ layer_bounds_].
    destruct (decide (CalculateTileSize client
                        (ScaleToCeiledSize layer_bounds (contents_scale_ t))
                      = max_texture_size (tiling_data_ t))) as [Hsize | Hsize].
    + rewrite bool_decide_eq_true_2 by exact Hsize. cbn [negb].
      set (t0 := mkTiling _ _ _ _ _ _ _).
      set (bounded := gfx.IntersectRects _ _).
      pose proof (SetLiveTilesRect_fields client w t0 bounded) as Hf.
      destruct (SetLiveTilesRect client w t0 bounded) as [w1 t1].
      cbn [fst snd] in Hf.
      rewrite Invalidate_tiling. cbn [snd fst]. rewrite Hf.
      cbn [layer_bounds_ contents_scale_ current_tree_ tiling_data_
           bundle_tiling_data_ live_tiles_rect_ set_live_tiles_rect
           set_tile_bundles total_size max_texture_size SetTotalSize t0].
      unfold ContentRect.
      cbn [tiling_data_ total_size SetTotalSize set_live_tiles_rect].
      split_and!; try reflexivity.
      * symmetry. exact Hsize.
      * apply Subset_IntersectRects_r.
      * intros Hne. contradiction.
      * intros _. split; reflexivity.
    + rewrite bool_decide_eq_false_2 by exact Hsize. cbn [negb fst snd].
      unfold Reset, ContentRect.
      cbn [layer_bounds_ contents_scale_ current_tree_ tiling_data_
           bundle_tiling_data_ live_tiles_rect_ set_live_tiles_rect
           set_tile_bundles total_size max_texture_size SetTotalSize
           SetMaxTextureSize tile_bundles_].
      split_and!; try reflexivity.
      * apply Subset_EmptyRect.
      * intros _. split_and!; reflexivity.
      * intros Heq. contradiction.
Qed.

End Fields.

Section Filling.

Context `{FloatOps}.

Lemma occupied_unless_any (w : World) (m : gmap TileBundleMapKey BundleId) :
  occupied_unless w m (fun _ => True).
Proof. intros k id _. left. exact I. Qed.

(** The bundle CreateTile works on, under sound pointers: it is live, no
    tile that was reachable is lost, and a bundle that is not shared with
    the twin brings no tile with it. *)
Lemma bundle_for_tile_view w t i j twin w1 t1 id :
  consistent w (tile_bundles_ t) (twin_bundles twin) ->
  bundle_for_tile w t i j twin = (w1, t1, id) ->
  tile_bundles_ t1 !! ComputeTileBundleIndex i j = Some id /\
  is_Some (bundles w1 !! id) /\
  (forall tree' i' j', is_Some (TileAt w t tree' i' j') ->
     TileAt w1 t1 tree' i' j' = TileAt w t tree' i' j') /\
  (twin_candidate t twin (ComputeTileBundleIndex i j) = None ->
   forall tree' i' j', TileAt w1 t1 tree' i' j' = TileAt w t tree' i' j').
Proof.
  intros Hcons Hfind.
  pose proof (bundle_for_tile_key w t i j twin w1 t1 id Hfind) as Hkey.
  split; [exact Hkey |]. revert Hfind Hkey. rewrite bundle_for_tile_eq.
  destruct (tile_bundles_ t !! ComputeTileBundleIndex i j) as [id0 |] eqn:Hold.
  { intros Heq _. injection Heq as <- <- <-.
    split; [apply (ptr_live _ _ (own_ok _ _ _ Hcons) _ _ Hold) | auto]. }
  rewrite CreateBundleForTileAt_eq. cbv zeta.
  destruct (twin_candidate t twin (ComputeTileBundleIndex i j)) as [idt |] eqn:Htw.
  - intros Heq Hkey. injection Heq as <- <- <-.
    destruct (twin_candidate_Some _ _ _ _ Htw) as (tw & -> & Hidt & _).
    destruct (twin_ok _ _ _ Hcons _ eq_refl) as [Htwin _].
    split; [apply (ptr_live _ _ Htwin _ _ Hidt) |].
    split; [| discriminate].
    intros tree' i' j' Hsome. rewrite !TileAt_eq in *. cbn [tile_bundles_
      set_tile_bundles].
    destruct (decide (ComputeTileBundleIndex i' j' = ComputeTileBundleIndex i j))
      as [Heq | Hne].
    + rewrite Heq, Hold in Hsome. destruct Hsome as [? Hf]. discriminate Hf.
    + rewrite lookup_insert_ne by congruence. reflexivity.
  - unfold client_CreateTileBundle. intros Heq Hkey. injection Heq as <- <- <-.
    cbn [bundles]. split; [rewrite lookup_insert_eq; eauto |].
    assert (Hall : forall tree' i' j',
              TileAt
                (mkWorld
                   (<[next_bundle w :=
                        mkBundle ((ComputeTileBundleIndex i j).1 * kTileBundleWidth)
                          ((ComputeTileBundleIndex i j).2 * kTileBundleHeight)
                          kTileBundleWidth kTileBundleHeight ∅]> (bundles w))
                   (S (next_bundle w)) (next_tile w) (tile_requests w)
                   (bundle_requests w ++
                    [((ComputeTileBundleIndex i j).1 * kTileBundleWidth,
                      (ComputeTileBundleIndex i j).2 * kTileBundleHeight,
                      kTileBundleWidth, kTileBundleHeight)]))
                (set_tile_bundles t
                   (<[ComputeTileBundleIndex i j := next_bundle w]>
                      (tile_bundles_ t))) tree' i' j'
              = TileAt w t tree' i' j').
    { intros tree' i' j'. rewrite !TileAt_eq. cbn [tile_bundles_ set_tile_bundles].
      destruct (decide (ComputeTileBundleIndex i' j' = ComputeTileBundleIndex i j))
        as [Heq | Hne].
      - rewrite Heq, Hold, lookup_insert_eq, bundle_TileAt_eq. cbn [bundles].
        rewrite lookup_insert_eq. cbn [tiles_]. apply lookup_empty.
      - rewrite lookup_insert_ne by congruence.
        destruct (tile_bundles_ t !! ComputeTileBundleIndex i' j') as [id' |] eqn:Hk;
          [| reflexivity].
        pose proof (ptr_fresh _ _ (own_ok _ _ _ Hcons) _ _ Hk) as Hlt.
        rewrite !bundle_TileAt_eq. cbn [bundles].
        rewrite lookup_insert_ne by lia. reflexivity. }
    split; [intros tree' i' j' _; apply Hall | intros _; exact Hall].
Qed.

(** CreateTile under sound pointers. *)
Lemma CreateTile_keeps client w t tree i j twin :
  consistent w (tile_bundles_ t) (twin_bundles twin) ->
  (forall rect, CreateTile_returns_tile client rect = true) ->
  let r := CreateTile client w t tree i j twin in
  consistent r.1 (tile_bundles_ r.2) (twin_bundles twin) /\
  is_Some (TileAt r.1 r.2 tree i j) /\
  (forall tree' i' j',
     is_Some (TileAt w t tree' i' j') -> (tree', i', j') <> (tree, i, j) ->
     TileAt r.1 r.2 tree' i' j' = TileAt w t tree' i' j') /\
  (twin = None ->
   forall tree' i' j', (tree', i', j') <> (tree, i, j) ->
     TileAt r.1 r.2 tree' i' j' = TileAt w t tree' i' j').
Proof.
  intros Hcons Hclient. cbv zeta.
  destruct (CreateTile_preserves client w t tree i j twin _ Hcons
              (occupied_unless_any w _) Hclient) as (_ & Hcons' & _).
  cbv zeta in Hcons'. split; [exact Hcons' |]. clear Hcons'.
  destruct (bundle_for_tile w t i j twin) as [[w1 t1] id] eqn:Hfind.
  destruct (bundle_for_tile_view w t i j twin w1 t1 id Hcons Hfind)
    as (Hkey & Hlive & Hkept & Hfresh).
  rewrite (CreateTile_eq client w t tree i j twin w1 t1 id Hfind Hkey). cbv zeta.
  destruct (CreateTile_store client w1 t1 tree i j id) as (Ht & Hframe & _).
  cbv zeta in Ht, Hframe. rewrite Ht. split_and!.
  - destruct (adopted_tile client w1 t1 tree i j) as [cand |].
    + destruct (CreateTile_adopts w1 t1 tree i j id cand Hkey Hlive) as (Hcand & _).
      cbv zeta in Hcand. cbn [fst]. rewrite Hcand. eauto.
    + destruct (CreateTile_requests client w1 t1 tree i j id Hkey Hlive) as [_ Hnew].
      cbv zeta in Hnew. unfold tile_requested in Hnew. cbv zeta in Hnew.
      rewrite Hclient in Hnew. destruct Hnew as (_ & Hnew & _).
      rewrite Hnew. eauto.
  - intros tree' i' j' Hsome Hne. rewrite (Hframe t1) by exact Hne.
    apply Hkept, Hsome.
  - intros -> tree' i' j' Hne. rewrite (Hframe t1) by exact Hne.
    apply Hfresh. reflexivity.
Qed.

(** The creation pass under sound pointers. *)
Lemma create_tiles_keeps client tree twin cells :
  (forall rect, CreateTile_returns_tile client rect = true) ->
  forall w t,
  consistent w (tile_bundles_ t) (twin_bundles twin) ->
  let r := create_tiles client tree twin cells (w, t) in
  consistent r.1 (tile_bundles_ r.2) (twin_bundles twin) /\
  (forall cell, cell ∈ cells -> is_Some (TileAt r.1 r.2 tree cell.1 cell.2)) /\
  (forall tree' i' j',
     is_Some (TileAt w t tree' i' j') -> tree' <> tree \/ (i', j') ∉ cells ->
     TileAt r.1 r.2 tree' i' j' = TileAt w t tree' i' j') /\
  (twin = None ->
   forall tree' i' j', tree' <> tree \/ (i', j') ∉ cells ->
     TileAt r.1 r.2 tree' i' j' = TileAt w t tree' i' j').
Proof.
  intros Hclient. induction cells as [| cell cells IH]; intros w t Hcons; cbv zeta.
  { cbn [create_tiles fold_left fst snd]. split_and!; auto.
    intros cell Hin. apply elem_of_nil in Hin. destruct Hin. }
  rewrite create_tiles_cons. cbn [fst snd].
  destruct (CreateTile_keeps client w t tree cell.1 cell.2 twin Hcons Hclient)
    as (Hcons1 & Hnew & Hkept & Hexact).
  cbv zeta in Hcons1, Hnew, Hkept, Hexact.
  destruct (CreateTile client w t tree cell.1 cell.2 twin) as [w1 t1].
  cbn [fst snd] in *.
  destruct (IH w1 t1 Hcons1) as (Hcons' & Hnew' & Hkept' & Hexact').
  cbv zeta in Hcons', Hnew', Hkept', Hexact'.
  assert (Hstep : forall tree' i' j',
            tree' <> tree \/ (i', j') ∉ cell :: cells ->
            (tree', i', j') <> (tree, cell.1, cell.2)
            /\ (tree' <> tree \/ (i', j') ∉ cells)).
  { intros tree' i' j' [Htree | Hcell].
    - split; [congruence | left; exact Htree].
    - split.
      + intros Heq. apply Hcell. injection Heq as _ -> ->.
        rewrite <- surjective_pairing. left.
      + right. intros Hin. apply Hcell. right. exact Hin. }
  split_and!.
  - exact Hcons'.
  - intros c Hc.
    destruct (decide (c ∈ cells)) as [Hin | Hout]; [apply (Hnew' c Hin) |].
    apply elem_of_cons in Hc as [-> | Hc]; [| contradiction].
    rewrite Hkept'; [exact Hnew | exact Hnew |].
    right. rewrite <- surjective_pairing. exact Hout.
  - intros tree' i' j' Hsome Hout. destruct (Hstep _ _ _ Hout) as [Hne Hrest].
    rewrite Hkept'; [apply Hkept; assumption | | exact Hrest].
    rewrite Hkept by assumption. exact Hsome.
  - intros Htwin tree' i' j' Hout. destruct (Hstep _ _ _ Hout) as [Hne Hrest].
    rewrite (Hexact' Htwin) by exact Hrest. apply (Hexact Htwin), Hne.
Qed.

End Filling.

Section RoundTrip.

Context `{FloatOps}.

Lemma CreateTile_store_slots client w1 t1 tree i j id id' tree' i' j' :
  (tree', i', j') <> (tree, i, j) ->
  bundle_TileAt
    (match adopted_tile client w1 t1 tree i j with
     | Some candidate_tile =>
         (bundle_AddTileAt w1 id tree i j candidate_tile, t1)
     | None =>
         match (client_CreateTile client w1
                  (gfx.set_size (TileBoundsWithBorder (tiling_data_ t1) i j)
                     (max_texture_size (tiling_data_ t1)))).2 with
         | Some tl =>
             (bundle_AddTileAt
                (client_CreateTile client w1
                   (gfx.set_size (TileBoundsWithBorder (tiling_data_ t1) i j)
                      (max_texture_size (tiling_data_ t1)))).1
                id tree i j tl, t1)
         | None =>
             ((client_CreateTile client w1
                 (gfx.set_size (TileBoundsWithBorder (tiling_data_ t1) i j)
                    (max_texture_size (tiling_data_ t1)))).1, t1)
         end
     end).1 id' tree' i' j'
  = bundle_TileAt w1 id' tree' i' j'.
Proof.
  intros Hne. destruct (adopted_tile client w1 t1 tree i j) as [cand |].
  - apply bundle_AddTileAt_other, Hne.
  - destruct (client_CreateTile client w1 _) as [w2 [tl |]] eqn:Hreq; cbn [fst snd].
    + rewrite bundle_AddTileAt_other by exact Hne.
      apply (f_equal fst) in Hreq. cbn in Hreq. subst w2. reflexivity.
    + apply (f_equal fst) in Hreq. cbn in Hreq. subst w2. reflexivity.
Qed.

Lemma IsEmpty_false_slot b slot :
  is_Some (tiles_ b !! slot) -> Bundle.IsEmpty b = false.
Proof.
  intros Hsome. destruct (Bundle.IsEmpty b) eqn:He; [| reflexivity].
  rewrite (IsEmpty_no_tile b slot He) in Hsome. destruct Hsome as [? Hf].
  discriminate Hf.
Qed.

(** X11: in a tiling whose bundle pointers are sound and whose bundles
    each hold a tile, CreateTile at a free slot followed by RemoveTile and
    RemoveBundleContainingTileAtIfEmpty at the same cell restores the bundle
    map and what TileAt returns at every slot, provided a bundle the
    creation had to add was not taken from the twin. *)
Theorem CreateTile_then_remove_restores client w t tree i j :
  let twin := GetTwinTiling client in
  let key := ComputeTileBundleIndex i j in
  consistent w (tile_bundles_ t) (twin_bundles twin) ->
  occupied_unless w (tile_bundles_ t) (fun _ => False) ->
  TileAt w t tree i j = None ->
  (tile_bundles_ t !! key = None -> twin_candidate t twin key = None) ->
  let created := CreateTile client w t tree i j twin in
  let removed := remove_step tree created (i, j) in
  tile_bundles_ removed.2 = tile_bundles_ t /\
  forall tree' i' j',
    TileAt removed.1 removed.2 tree' i' j' = TileAt w t tree' i' j'.
Proof.
  cbv zeta. intros Hcons Hocc Hfree Hown.
  destruct (bundle_for_tile w t i j (GetTwinTiling client)) as [[w1 t1] id] eqn:Hfind.
  destruct (bundle_for_tile_view w t i j _ w1 t1 id Hcons Hfind)
    as (Hkey & Hlive & _ & Hfresh).
  destruct (bundle_for_tile_footprint w t i j _ w1 t1 id Hfind)
    as (_ & _ & Hother & Hpresent & _ & _ & Hnew).
  assert (Hview : forall tree' i' j',
            TileAt w1 t1 tree' i' j' = TileAt w t tree' i' j').
  { destruct (tile_bundles_ t !! ComputeTileBundleIndex i j) as [id0 |] eqn:Hold.
    - destruct (Hpresent ltac:(eauto)) as [-> ->]. reflexivity.
    - apply Hfresh, Hown. reflexivity. }
  pose proof (CreateTile_eq client w t tree i j _ w1 t1 id Hfind Hkey) as Hcreate.
  cbv zeta in Hcreate.
  destruct (CreateTile_store client w1 t1 tree i j id)
    as (Ht & Hframe & _ & _ & _ & Hsame).
  cbv zeta in Ht, Hframe, Hsame.
  pose proof (fun id' tree' i' j' Hne =>
                CreateTile_store_slots client w1 t1 tree i j id id' tree' i' j' Hne)
    as Hslots.
  rewrite <- Hcreate in Ht, Hframe, Hsame, Hslots. clear Hcreate.
  destruct (CreateTile client w t tree i j (GetTwinTiling client)) as [w2 t2].
  cbn [fst snd] in *. subst t2.
  assert (Htiles : forall tree' i' j',
            TileAt (remove_step tree (w2, t1) (i, j)).1
                   (remove_step tree (w2, t1) (i, j)).2 tree' i' j'
            = TileAt w t tree' i' j').
  { intros tree' i' j'.
    destruct (decide ((tree', i', j') = (tree, i, j))) as [Heq | Hne].
    - injection Heq as -> -> ->. rewrite Hfree.
      apply (remove_step_removed tree w2 t1 (i, j)).
    - rewrite remove_step_other.
      + rewrite Hframe by exact Hne. apply Hview.
      + destruct (decide (tree' = tree)) as [-> | Htree]; [| left; exact Htree].
        right. congruence. }
  split; [| exact Htiles].
  apply map_eq. intros k. unfold remove_step. cbn [fst snd].
  rewrite RemoveBundle_bundles.
  destruct (decide (k = ComputeTileBundleIndex i j)) as [-> | Hk].
  2: { rewrite bool_decide_eq_false_2 by exact Hk. rewrite (Hother k Hk).
       destruct (tile_bundles_ t !! k); reflexivity. }
  rewrite Hkey, bool_decide_eq_true_2 by reflexivity.
  assert (Hlive2 : is_Some (bundles (RemoveTile w2 t1 tree i j).1 !! id)).
  { apply RemoveTile_live, Hsame, Hlive. }
  destruct Hlive2 as [b2 Hb2]. rewrite Hb2.
  assert (Hb2slot : forall tree' i' j',
            tiles_ b2 !! (tree', i', j')
            = if decide ((tree', i', j') = (tree, i, j)) then None
              else bundle_TileAt w1 id tree' i' j').
  { intros tree' i' j'.
    change (tiles_ b2 !! (tree', i', j'))
      with (match Some b2 with
            | Some b => tiles_ b !! (tree', i', j')
            | None => None
            end).
    rewrite <- Hb2, <- bundle_TileAt_eq.
    destruct (decide ((tree', i', j') = (tree, i, j))) as [Heq | Hne].
    - injection Heq as -> -> ->.
      pose proof (RemoveTile_removed w2 t1 tree i j) as Hgone.
      rewrite TileAt_eq, Hkey in Hgone. exact Hgone.
    - rewrite RemoveTile_other_slots by exact Hne. apply Hslots, Hne. }
  destruct (tile_bundles_ t !! ComputeTileBundleIndex i j) as [id0 |] eqn:Hold.
  - destruct (Hpresent ltac:(eauto)) as [-> ->].
    assert (id = id0) as -> by congruence.
    destruct (Hocc _ _ Hold) as [[] | (b & slot & Hb & Hslot)].
    rewrite (IsEmpty_false_slot b2 slot); [reflexivity |].
    destruct slot as [[tree0 i0] j0]. rewrite Hb2slot.
    assert (Hne : (tree0, i0, j0) <> (tree, i, j)).
    { intros Heq. injection Heq as -> -> ->.
      rewrite TileAt_eq, Hold, bundle_TileAt_eq, Hb in Hfree.
      rewrite Hfree in Hslot. destruct Hslot as [? Hf]. discriminate Hf. }
    rewrite decide_False by exact Hne.
    rewrite bundle_TileAt_eq, Hb. exact Hslot.
  - destruct Hnew as [Hsame_requests | (_ & _ & -> & Hheap & _)].
    + exfalso. revert Hfind. rewrite bundle_for_tile_eq, Hold.
      rewrite CreateBundleForTileAt_eq. cbv zeta.
      rewrite (Hown eq_refl). unfold client_CreateTileBundle.
      intros Heq. injection Heq as <- _ _. cbn in Hsame_requests.
      apply (f_equal length) in Hsame_requests.
      rewrite length_app in Hsame_requests. simpl in Hsame_requests. lia.
    + assert (Hempty : tiles_ b2 = ∅).
      { apply map_eq. intros [[tree' i'] j']. rewrite Hb2slot, lookup_empty.
        destruct (decide _); [reflexivity |].
        rewrite bundle_TileAt_eq, Hheap, lookup_insert_eq. apply lookup_empty. }
      unfold Bundle.IsEmpty. rewrite bool_decide_eq_true_2 by exact Hempty.
      reflexivity.
Qed.

End RoundTrip.

Section Erasing.

Context `{FloatOps}.

(** X20: RemoveBundleContainingTileAtIfEmpty never loses a tile: TileAt
    returns the same at every slot before and after; only the bundle map
    changes, and only at the cell's key; a bundle that shows a tile through
    the tiling keeps its key, a live bundle without tiles loses it; and a
    second call changes nothing. *)
Theorem RemoveBundleContainingTileAtIfEmpty_keeps_tiles w t i j :
  let t' := RemoveBundleContainingTileAtIfEmpty w t i j in
  let key := ComputeTileBundleIndex i j in
  (forall tree i' j', TileAt w t' tree i' j' = TileAt w t tree i' j') /\
  t' = set_tile_bundles t (tile_bundles_ t') /\
  (forall k, k <> key -> tile_bundles_ t' !! k = tile_bundles_ t !! k) /\
  (forall tree i' j',
     ComputeTileBundleIndex i' j' = key -> is_Some (TileAt w t tree i' j') ->
     tile_bundles_ t' !! key = tile_bundles_ t !! key) /\
  (forall id b,
     tile_bundles_ t !! key = Some id -> bundles w !! id = Some b ->
     tiles_ b = ∅ -> tile_bundles_ t' !! key = None) /\
  RemoveBundleContainingTileAtIfEmpty w t' i j = t'.
Proof.
  cbv zeta. split_and!.
  - intros tree i' j'. apply RemoveBundle_TileAt.
  - apply RemoveBundle_fields.
  - intros k Hne. rewrite RemoveBundle_bundles.
    rewrite bool_decide_eq_false_2 by exact Hne.
    destruct (tile_bundles_ t !! k); reflexivity.
  - intros tree i' j' Hkey Hsome.
    rewrite <- (RemoveBundle_TileAt w t i j) in Hsome.
    rewrite TileAt_eq, Hkey in Hsome.
    destruct (tile_bundles_ (RemoveBundleContainingTileAtIfEmpty w t i j)
              !! ComputeTileBundleIndex i j) as [id |] eqn:Hafter;
      [| destruct Hsome as [? Hf]; discriminate Hf].
    symmetry. apply (RemoveBundle_sub w t i j), Hafter.
  - intros id b Hid Hb Hempty. rewrite RemoveBundle_bundles, Hid.
    rewrite bool_decide_eq_true_2 by reflexivity. rewrite Hb.
    unfold Bundle.IsEmpty. rewrite bool_decide_eq_true_2 by exact Hempty.
    reflexivity.
  - rewrite (RemoveBundle_eq w (RemoveBundleContainingTileAtIfEmpty w t i j)).
    destruct (tile_bundles_ (RemoveBundleContainingTileAtIfEmpty w t i j)
              !! ComputeTileBundleIndex i j) as [id |] eqn:Hafter; [| reflexivity].
    destruct (bundles w !! id) as [b |] eqn:Hb; [| reflexivity].
    destruct (Bundle.IsEmpty b) eqn:He; [| reflexivity].
    exfalso. rewrite RemoveBundle_bundles in Hafter.
    destruct (tile_bundles_ t !! ComputeTileBundleIndex i j) as [id' |];
      [| discriminate Hafter].
    rewrite bool_decide_eq_true_2 in Hafter by reflexivity.
    destruct (bundles w !! id') as [b' |] eqn:Hb'.
    + destruct (Bundle.IsEmpty b') eqn:He'; [discriminate Hafter |].
      injection Hafter as ->. congruence.
    + injection Hafter as ->. congruence.
Qed.

End Erasing.

(** ** Further properties: filling the live rectangle *)

Section Missing.

Context `{FloatOps}.

Lemma CreateMissingTilesInLiveTilesRect_eq client w t :
  CreateMissingTilesInLiveTilesRect client w t
  = fold_left (create_missing_step client)
      (TilingData_Iterator (tiling_data_ t) (live_tiles_rect_ t)) (w, t).
Proof.
  unfold CreateMissingTilesInLiveTilesRect.
  generalize (w, t).
  induction (TilingData_Iterator (tiling_data_ t) (live_tiles_rect_ t))
    as [| cell cells IH]; intros st; [reflexivity |].
  cbn [fold_left]. rewrite IH. f_equal. destruct st as [w0 t0].
  unfold create_missing_step. cbn [fst snd].
  destruct (TileAt w0 t0 PENDING_TREE cell.1 cell.2); reflexivity.
Qed.

Lemma create_missing_fold client cells :
  (forall rect, CreateTile_returns_tile client rect = true) ->
  forall w t,
  consistent w (tile_bundles_ t) (twin_bundles (GetTwinTiling client)) ->
  let r := fold_left (create_missing_step client) cells (w, t) in
  consistent r.1 (tile_bundles_ r.2) (twin_bundles (GetTwinTiling client)) /\
  r.2 = set_tile_bundles t (tile_bundles_ r.2) /\
  (forall cell, cell ∈ cells -> is_Some (TileAt r.1 r.2 PENDING_TREE cell.1 cell.2)) /\
  (forall tree i j, is_Some (TileAt w t tree i j) ->
     TileAt r.1 r.2 tree i j = TileAt w t tree i j).
Proof.
  intros Hclient. induction cells as [| cell cells IH]; intros w t Hcons; cbv zeta.
  { cbn [fold_left fst snd]. split_and!; auto;
      try (symmetry; apply set_tile_bundles_same).
    intros cell Hin. apply elem_of_nil in Hin. destruct Hin. }
  cbn [fold_left].
  assert (Hstep : let st := create_missing_step client (w, t) cell in
            consistent st.1 (tile_bundles_ st.2) (twin_bundles (GetTwinTiling client))
            /\ st.2 = set_tile_bundles t (tile_bundles_ st.2)
            /\ is_Some (TileAt st.1 st.2 PENDING_TREE cell.1 cell.2)
            /\ (forall tree i j, is_Some (TileAt w t tree i j) ->
                  TileAt st.1 st.2 tree i j = TileAt w t tree i j)).
  { cbv zeta. unfold create_missing_step. cbn [fst snd].
    destruct (TileAt w t PENDING_TREE cell.1 cell.2) as [tile |] eqn:Hhere.
    - cbn [fst snd]. split_and!; auto;
        try (symmetry; apply set_tile_bundles_same); rewrite Hhere; eauto.
    - destruct (CreateTile_keeps client w t PENDING_TREE cell.1 cell.2
                  (GetTwinTiling client) Hcons Hclient)
        as (Hcons1 & Hnew & Hkept & _).
      cbv zeta in Hcons1, Hnew, Hkept. split_and!; auto.
      + apply CreateTile_fields.
      + intros tree i j Hsome. apply Hkept; [exact Hsome |].
        intros Heq. injection Heq as -> -> ->. rewrite Hhere in Hsome.
        destruct Hsome as [? Hf]. discriminate Hf. }
  cbv zeta in Hstep. destruct Hstep as (Hcons1 & Hf1 & Hnew1 & Hkept1).
  destruct (create_missing_step client (w, t) cell) as [w1 t1].
  cbn [fst snd] in *.
  destruct (IH w1 t1 Hcons1) as (Hcons' & Hf' & Hnew' & Hkept').
  cbv zeta in Hcons', Hf', Hnew', Hkept'.
  split_and!.
  - exact Hcons'.
  - rewrite Hf' at 1. rewrite Hf1 at 1. reflexivity.
  - intros c Hc. apply elem_of_cons in Hc as [-> | Hc]; [| apply (Hnew' c Hc)].
    rewrite Hkept' by exact Hnew1. exact Hnew1.
  - intros tree i j Hsome. rewrite Hkept'; [apply Hkept1, Hsome |].
    rewrite Hkept1 by exact Hsome. exact Hsome.
Qed.

Lemma create_missing_noop client cells : forall w t,
  (forall cell, cell ∈ cells -> is_Some (TileAt w t PENDING_TREE cell.1 cell.2)) ->
  fold_left (create_missing_step client) cells (w, t) = (w, t).
Proof.
  induction cells as [| cell cells IH]; intros w t Hall; [reflexivity |].
  cbn [fold_left]. unfold create_missing_step at 2. cbn [fst snd].
  destruct (Hall cell ltac:(left)) as [tile ->].
  apply IH. intros c Hc. apply Hall. right. exact Hc.
Qed.

(** X14: with sound bundle pointers and a collaborator that returns a tile
    for every request, after CreateMissingTilesInLiveTilesRect every cell
    of the live rectangle holds a pending-tree tile, every tile that was
    there before is still the same tile, only the bundle map of the tiling
    changed, a second call changes nothing, and a call on a tiling whose
    live cells all hold tiles changes nothing. *)
Theorem CreateMissingTilesInLiveTilesRect_fills client w t :
  consistent w (tile_bundles_ t) (twin_bundles (GetTwinTiling client)) ->
  (forall rect, CreateTile_returns_tile client rect = true) ->
  let r := CreateMissingTilesInLiveTilesRect client w t in
  (forall i j,
     in_range (index_range (tiling_data_ t) (live_tiles_rect_ t)) (i, j) = true ->
     is_Some (TileAt r.1 r.2 PENDING_TREE i j)) /\
  (forall tree i j, is_Some (TileAt w t tree i j) ->
     TileAt r.1 r.2 tree i j = TileAt w t tree i j) /\
  r.2 = set_tile_bundles t (tile_bundles_ r.2) /\
  CreateMissingTilesInLiveTilesRect client r.1 r.2 = r /\
  ((forall i j,
      in_range (index_range (tiling_data_ t) (live_tiles_rect_ t)) (i, j) = true ->
      is_Some (TileAt w t PENDING_TREE i j)) ->
   r = (w, t)).
Proof.
  intros Hcons Hclient. cbv zeta.
  rewrite CreateMissingTilesInLiveTilesRect_eq.
  destruct (create_missing_fold client
              (TilingData_Iterator (tiling_data_ t) (live_tiles_rect_ t))
              Hclient w t Hcons) as (_ & Hf & Hnew & Hkept).
  cbv zeta in Hf, Hnew, Hkept.
  set (cells := TilingData_Iterator (tiling_data_ t) (live_tiles_rect_ t)) in *.
  destruct (fold_left (create_missing_step client) cells (w, t)) as [w' t'] eqn:Hrun.
  cbn [fst snd] in *.
  assert (Hfilled : forall i j,
            in_range (index_range (tiling_data_ t) (live_tiles_rect_ t)) (i, j) = true ->
            is_Some (TileAt w' t' PENDING_TREE i j)).
  { intros i j Hin. apply (Hnew (i, j)). apply in_Iterator. exact Hin. }
  split_and!.
  - exact Hfilled.
  - exact Hkept.
  - exact Hf.
  - rewrite CreateMissingTilesInLiveTilesRect_eq.
    assert (Hcells : TilingData_Iterator (tiling_data_ t') (live_tiles_rect_ t')
                     = cells) by (rewrite Hf; reflexivity).
    rewrite Hcells. apply create_missing_noop.
    intros [i j] Hin. apply Hfilled. apply in_Iterator. exact Hin.
  - intros Hall. rewrite <- Hrun. apply create_missing_noop.
    intros [i j] Hin. apply Hall. apply in_Iterator. exact Hin.
Qed.

End Missing.

Lemma index_range_empty td r : gfx.IsEmpty r = true -> index_range td r = None.
Proof.
  intros He. unfold index_range.
  destruct (_ || _); [reflexivity |].
  unfold gfx.IntersectRects. rewrite He. reflexivity.
Qed.

Section Live.

Context `{FloatOps}.

Lemma remove_tiles_world tree cells : forall w t t0 tree' i' j',
  tree' <> tree \/ (i', j') ∉ cells ->
  TileAt (remove_tiles tree cells (w, t)).1 t0 tree' i' j' = TileAt w t0 tree' i' j'.
Proof.
  induction cells as [| cell cells IH]; intros w t t0 tree' i' j' Hout;
    [reflexivity |].
  rewrite remove_tiles_cons. unfold remove_step at 1. cbn [fst snd].
  rewrite IH.
  - apply RemoveTile_other. destruct Hout as [Htree | Hcell]; [congruence |].
    intros Heq. apply Hcell. injection Heq as _ -> ->.
    rewrite <- surjective_pairing. left.
  - destruct Hout as [Htree | Hcell]; [left; exact Htree |].
    right. intros Hin. apply Hcell. right. exact Hin.
Qed.

(** The removal pass of SetLiveTilesRect, by cell. *)
Lemma remove_tiles_by_cell w t r :
  let st := remove_tiles (current_tree_ t)
              (TilingData_DifferenceIterator (tiling_data_ t) (live_tiles_rect_ t) r)
              (w, t) in
  st.2 = set_tile_bundles t (tile_bundles_ st.2) /\
  (tile_requests st.1 = tile_requests w /\ bundle_requests st.1 = bundle_requests w) /\
  (forall i j,
     in_range (index_range (tiling_data_ t) (live_tiles_rect_ t)) (i, j) = true ->
     in_range (index_range (tiling_data_ t) r) (i, j) = false ->
     TileAt st.1 st.2 (current_tree_ t) i j = None) /\
  (forall i j,
     in_range (index_range (tiling_data_ t) (live_tiles_rect_ t)) (i, j) = false
     \/ in_range (index_range (tiling_data_ t) r) (i, j) = true ->
     TileAt st.1 st.2 (current_tree_ t) i j = TileAt w t (current_tree_ t) i j) /\
  (forall t0 tree i j, tree <> current_tree_ t ->
     TileAt st.1 t0 tree i j = TileAt w t0 tree i j) /\
  (forall k id, tile_bundles_ st.2 !! k = Some id -> tile_bundles_ t !! k = Some id) /\
  (forall twin, consistent w (tile_bundles_ t) twin ->
                consistent st.1 (tile_bundles_ st.2) twin).
Proof.
  cbv zeta.
  set (cells := TilingData_DifferenceIterator (tiling_data_ t) (live_tiles_rect_ t) r).
  destruct (remove_tiles_spec (current_tree_ t) cells w t)
    as (Hf & (Htr & _ & Hbr & _) & Hgone & Hother & Hkeys & Hcons).
  cbv zeta in Hf, Htr, Hbr, Hgone, Hother, Hkeys, Hcons.
  split_and!; try assumption.
  - intros i j Hin Hout. apply (Hgone (i, j)).
    apply in_DifferenceIterator. auto.
  - intros i j Hcell. apply Hother. right. intros Hin.
    apply in_DifferenceIterator in Hin as [Hin Hout].
    destruct Hcell as [Hcell | Hcell]; congruence.
  - intros t0 tree i j Htree. apply remove_tiles_world. left. exact Htree.
  - intros twin Hc. apply (Hcons twin (fun _ => True) Hc (occupied_unless_any w _)).
Qed.

(** X13: with sound bundle pointers, a collaborator that returns a tile
    for every request and a tile in every cell of the old live rectangle,
    after SetLiveTilesRect every cell of the new live rectangle holds a
    tile of the current tree, and a cell in both rectangles keeps the very
    tile it had; without a twin, when no cell outside the old live
    rectangle held a tile, no cell outside the new one holds a tile. *)
Theorem SetLiveTilesRect_fills_live_cells client w t r :
  consistent w (tile_bundles_ t) (twin_bundles (GetTwinTiling client)) ->
  (forall rect, CreateTile_returns_tile client rect = true) ->
  (forall i j,
     in_range (index_range (tiling_data_ t) (live_tiles_rect_ t)) (i, j) = true ->
     is_Some (TileAt w t (current_tree_ t) i j)) ->
  let st := SetLiveTilesRect client w t r in
  (forall i j,
     in_range (index_range (tiling_data_ t) r) (i, j) = true ->
     is_Some (TileAt st.1 st.2 (current_tree_ t) i j)) /\
  (forall i j,
     in_range (index_range (tiling_data_ t) (live_tiles_rect_ t)) (i, j) = true ->
     in_range (index_range (tiling_data_ t) r) (i, j) = true ->
     TileAt st.1 st.2 (current_tree_ t) i j = TileAt w t (current_tree_ t) i j) /\
  (GetTwinTiling client = None ->
   (forall i j,
      in_range (index_range (tiling_data_ t) (live_tiles_rect_ t)) (i, j) = false ->
      TileAt w t (current_tree_ t) i j = None) ->
   forall i j,
     in_range (index_range (tiling_data_ t) r) (i, j) = false ->
     TileAt st.1 st.2 (current_tree_ t) i j = None).
Proof.
  intros Hcons Hclient Hpre. cbv zeta. unfold SetLiveTilesRect.
  destruct (bool_decide (live_tiles_rect_ t = r)) eqn:Hsame.
  { apply bool_decide_eq_true in Hsame. subst r. cbn [fst snd].
    split_and!; auto. }
  destruct (remove_tiles_by_cell w t r)
    as (Hf & _ & Hgone & Hstay & _ & _ & Hcons1).
  cbv zeta in Hf, Hgone, Hstay, Hcons1.
  destruct (remove_tiles _ _ _) as [w1 t1]. cbn [fst snd] in *.
  specialize (Hcons1 _ Hcons).
  assert (Houtside :
            (forall i j,
               in_range (index_range (tiling_data_ t) (live_tiles_rect_ t)) (i, j)
               = false -> TileAt w t (current_tree_ t) i j = None) ->
            forall i j,
              in_range (index_range (tiling_data_ t) r) (i, j) = false ->
              TileAt w1 t1 (current_tree_ t) i j = None).
  { intros Hnone i j Hout.
    destruct (in_range (index_range (tiling_data_ t) (live_tiles_rect_ t)) (i, j))
      eqn:Hin.
    - apply Hgone; assumption.
    - rewrite Hstay by (left; exact Hin). apply Hnone, Hin. }
  destruct (gfx.IsEmpty r) eqn:Hempty.
  { cbn [fst snd]. rewrite (index_range_empty _ r Hempty). cbn [in_range].
    split_and!; try discriminate.
    intros _ Hnone i j Hout. rewrite TileAt_set_live_tiles_rect.
    apply Houtside; [exact Hnone |].
    rewrite (index_range_empty _ r Hempty). reflexivity. }
  assert (Htd : tiling_data_ t1 = tiling_data_ t) by (rewrite Hf; reflexivity).
  assert (Hlive : live_tiles_rect_ t1 = live_tiles_rect_ t)
    by (rewrite Hf; reflexivity).
  assert (Htree : current_tree_ t1 = current_tree_ t) by (rewrite Hf; reflexivity).
  rewrite Htd, Hlive, Htree.
  destruct (create_tiles_keeps client (current_tree_ t) (GetTwinTiling client)
              (TilingData_DifferenceIterator (tiling_data_ t) r (live_tiles_rect_ t))
              Hclient w1 t1 Hcons1) as (_ & Hnew & Hkept & Hexact).
  cbv zeta in Hnew, Hkept, Hexact.
  destruct (create_tiles _ _ _ _ _) as [w2 t2]. cbn [fst snd] in *.
  assert (Hold : forall i j,
            in_range (index_range (tiling_data_ t) (live_tiles_rect_ t)) (i, j) = true ->
            in_range (index_range (tiling_data_ t) r) (i, j) = true ->
            TileAt w2 (set_live_tiles_rect t2 r) (current_tree_ t) i j
            = TileAt w t (current_tree_ t) i j).
  { intros i j Hin Hin'. rewrite TileAt_set_live_tiles_rect.
    rewrite Hkept.
    - apply Hstay. right. exact Hin'.
    - rewrite Hstay by (right; exact Hin'). apply Hpre, Hin.
    - right. intros Hcell. apply in_DifferenceIterator in Hcell as [_ Hcell].
      congruence. }
  split_and!.
  - intros i j Hin'.
    destruct (in_range (index_range (tiling_data_ t) (live_tiles_rect_ t)) (i, j))
      eqn:Hin.
    + rewrite (Hold i j Hin Hin'). apply Hpre, Hin.
    + rewrite TileAt_set_live_tiles_rect. apply (Hnew (i, j)).
      apply in_DifferenceIterator. auto.
  - exact Hold.
  - intros Htwin Hnone i j Hout. rewrite TileAt_set_live_tiles_rect.
    rewrite (Hexact Htwin).
    + apply Houtside; assumption.
    + right. intros Hcell. apply in_DifferenceIterator in Hcell as [Hcell _].
      congruence.
Qed.

(** X18: the destructor empties the live rectangle and every slot of the
    tiling's current tree inside the old live rectangle, makes no request
    to the collaborator, leaves the slots of the other tree as they were,
    fills no slot that was empty, and adds no bundle key. *)
Theorem PictureLayerTiling_destructor_releases client w t :
  let r := PictureLayerTiling_destructor client w t in
  live_tiles_rect_ r.2 = gfx.EmptyRect /\
  tile_requests r.1 = tile_requests w /\
  bundle_requests r.1 = bundle_requests w /\
  (forall t0 tree i j, tree <> current_tree_ t ->
     TileAt r.1 t0 tree i j = TileAt w t0 tree i j) /\
  (forall i j,
     in_range (index_range (tiling_data_ t) (live_tiles_rect_ t)) (i, j) = true ->
     TileAt r.1 r.2 (current_tree_ t) i j = None) /\
  (forall i j, TileAt w t (current_tree_ t) i j = None ->
               TileAt r.1 r.2 (current_tree_ t) i j = None) /\
  (forall k id, tile_bundles_ r.2 !! k = Some id -> tile_bundles_ t !! k = Some id).
Proof.
  cbv zeta. unfold PictureLayerTiling_destructor, SetLiveTilesRect.
  destruct (bool_decide (live_tiles_rect_ t = gfx.EmptyRect)) eqn:Hsame.
  { apply bool_decide_eq_true in Hsame. cbn [fst snd]. split_and!; auto.
    intros i j Hin. rewrite Hsame, index_range_empty in Hin by reflexivity.
    discriminate Hin. }
  destruct (remove_tiles_by_cell w t gfx.EmptyRect)
    as (Hf & [Htr Hbr] & Hgone & Hstay & Hother & Hkeys & _).
  cbv zeta in Hf, Htr, Hbr, Hgone, Hstay, Hother, Hkeys.
  destruct (remove_tiles _ _ _) as [w1 t1]. cbn [fst snd] in *.
  change (gfx.IsEmpty gfx.EmptyRect) with true. cbn [fst snd].
  rewrite (index_range_empty _ gfx.EmptyRect eq_refl) in Hgone, Hstay.
  cbn [in_range] in Hgone, Hstay.
  split_and!; try assumption; try reflexivity.
  - intros i j Hin. rewrite TileAt_set_live_tiles_rect. apply Hgone; auto.
  - intros i j Hnone. rewrite TileAt_set_live_tiles_rect.
    destruct (in_range (index_range (tiling_data_ t) (live_tiles_rect_ t)) (i, j))
      eqn:Hin.
    + apply Hgone; auto.
    + rewrite Hstay by (left; exact Hin). exact Hnone.
Qed.

End Live.

(** ** Further properties: the two grids *)

(** Along one axis: a grid whose inner tile size is doubled halves the
    tile index. *)
Lemma IndexFromSrcCoord_doubled max_texture total border src :
  0 < max_texture - 2 * border ->
  IndexFromSrcCoord
    (ComputeNumTiles ((max_texture - 2 * border) * 2 + 2 * border) total border)
    ((max_texture - 2 * border) * 2 + 2 * border) border src
  = Z.quot (IndexFromSrcCoord (ComputeNumTiles max_texture total border)
              max_texture border src) 2.
Proof.
  intros Hinner. unfold IndexFromSrcCoord, ComputeNumTiles.
  set (s := max_texture - 2 * border) in *.
  replace (s * 2 + 2 * border - 2 * border) with (s * 2) by lia.
  rewrite <- !Z.quot_quot by lia.
  generalize (Z.quot (src - border) s). generalize (Z.quot (total - 1 - 2 * border) s).
  intros q u.
  destruct (Z.leb_spec (s * 2) 0); [lia |].
  destruct (Z.leb_spec s 0); [lia |].
  destruct (Z.ltb_spec 0 total).
  - repeat match goal with
           | |- context [if ?a <=? ?b then _ else _] => destruct (Z.leb_spec a b)
           end; Z.to_euclidean_division_equations; lia.
  - cbn. reflexivity.
Qed.

Section Grids.

Context `{FloatOps}.

Lemma grids_aligned_fields t m r :
  grids_aligned t -> grids_aligned (set_live_tiles_rect (set_tile_bundles t m) r).
Proof. intros Ha. exact Ha. Qed.

Lemma grids_aligned_Create client contents_scale layer_bounds :
  grids_aligned (Create client contents_scale layer_bounds).
Proof. unfold grids_aligned, Create. cbn. split_and!; try reflexivity. lia. Qed.

Lemma grids_aligned_SetLayerBounds client w t layer_bounds :
  grids_aligned t -> grids_aligned (SetLayerBounds client w t layer_bounds).2.
Proof.
  intros (Hmax & Htotal & Hborder & Hb). unfold SetLayerBounds.
  destruct (bool_decide (layer_bounds_ t = layer_bounds));
    [split_and!; assumption |].
  cbv zeta.
  cbn [contents_scale_ tiling_data_ bundle_tiling_data_ tile_bundles_
       live_tiles_rect_ current_tree_ layer_bounds_].
  destruct (negb _).
  - cbn [snd]. unfold grids_aligned, Reset.
    cbn [tiling_data_ bundle_tiling_data_ set_tile_bundles set_live_tiles_rect
         max_texture_size total_size border_texels SetTotalSize SetMaxTextureSize].
    split_and!; try reflexivity; assumption.
  - set (t0 := mkTiling _ _ _ _ _ _ _).
    set (bounded := gfx.IntersectRects _ _).
    pose proof (SetLiveTilesRect_fields client w t0 bounded) as Hf.
    destruct (SetLiveTilesRect client w t0 bounded) as [w1 t1].
    cbn [fst snd] in Hf. rewrite Invalidate_tiling. rewrite Hf.
    unfold grids_aligned.
    cbn [tiling_data_ bundle_tiling_data_ set_tile_bundles set_live_tiles_rect
         max_texture_size total_size border_texels SetTotalSize t0].
    split_and!; try reflexivity; assumption.
Qed.

Lemma grids_aligned_step client st op :
  grids_aligned st.2 -> grids_aligned (apply_operation client st op).2.
Proof.
  intros Ha. destruct st as [w t]. cbn [fst snd] in *.
  destruct op as [tree i j | tree i j | tree i j | r | region | bounds];
    cbn [apply_operation fst snd].
  - rewrite CreateTile_fields. exact Ha.
  - exact Ha.
  - unfold remove_step. cbn [fst snd]. rewrite RemoveBundle_fields. exact Ha.
  - rewrite SetLiveTilesRect_fields. exact Ha.
  - rewrite Invalidate_tiling. exact Ha.
  - apply grids_aligned_SetLayerBounds, Ha.
Qed.

(** X17: after construction and any sequence of the tiling's operations,
    when a tile is larger than twice the border, the cell of the bundle
    grid that holds a content coordinate is the bundle key
    ComputeTileBundleIndex computes from the cell of the tile grid that
    holds it.  The index arithmetic is that of the modelled TilingData. *)
Theorem bundle_grid_matches_bundle_keys client w0 contents_scale layer_bounds ops x y :
  let st := run_operations client ops
              (w0, Create client contents_scale layer_bounds) in
  let td := tiling_data_ st.2 in
  2 * border_texels td < gfx.size_width (max_texture_size td) ->
  2 * border_texels td < gfx.size_height (max_texture_size td) ->
  (TileXIndexFromSrcCoord (bundle_tiling_data_ st.2) x,
   TileYIndexFromSrcCoord (bundle_tiling_data_ st.2) y)
  = ComputeTileBundleIndex (TileXIndexFromSrcCoord td x)
                           (TileYIndexFromSrcCoord td y).
Proof.
  cbv zeta.
  assert (Ha : grids_aligned
                 (run_operations client ops
                    (w0, Create client contents_scale layer_bounds)).2).
  { unfold run_operations.
    pose proof (grids_aligned_Create client contents_scale layer_bounds) as Hstart.
    change (Create client contents_scale layer_bounds)
      with ((w0, Create client contents_scale layer_bounds).2) in Hstart.
    revert Hstart. generalize (w0, Create client contents_scale layer_bounds).
    induction ops as [| op ops IH]; intros st Hst; [exact Hst |].
    cbn [fold_left]. apply IH, grids_aligned_step, Hst. }
  destruct (run_operations client ops _) as [w t]. cbn [fst snd] in *.
  destruct Ha as (Hmax & Htotal & Hborder & Hb). intros Hw Hh.
  unfold ComputeTileBundleIndex, TileXIndexFromSrcCoord, TileYIndexFromSrcCoord,
    num_tiles_x, num_tiles_y, kTileBundleWidth, kTileBundleHeight.
  rewrite Hmax, Htotal, Hborder. unfold ComputeBundleTextureSize, gfx.MakeSize,
    kTileBundleWidth, kTileBundleHeight. cbn [gfx.size_width gfx.size_height].
  rewrite !Z.max_r by lia.
  rewrite !IndexFromSrcCoord_doubled by lia. reflexivity.
Qed.

End Grids.

(** ** Further properties on the sample tiling *)

(** X7, at the rectangle 300 x 300 at (300, 300) over the empty sample
    tiling: the four cells (1,1), (2,1), (1,2), (2,2) are visited, none
    with a tile. *)
Lemma CoverageIterator_visits_window_witness :
  tile_and_cell
  <$> @coverage_steps rational_scale empty_world sample_tiling 4
        (@CoverageIterator_new rational_scale empty_world sample_tiling one
           (gfx.MakeRect 300 300 300 300))
  = [(None, (1, 1)); (None, (2, 1)); (None, (1, 2)); (None, (2, 2))].
Proof.
  etransitivity.
  - apply (@CoverageIterator_visits_window rational_scale empty_world
             sample_tiling one (gfx.MakeRect 300 300 300 300) 4%nat).
    + reflexivity.
    + vm_compute. reflexivity.
    + vm_compute. lia.
  - vm_compute. reflexivity.
Defined.

(** X9, at cell (3, 2) of the sample tiling without a twin. *)
Lemma CreateBundleForTileAt_covers_cell_witness :
  exists offset_x offset_y,
    bundle_requests
      (@CreateBundleForTileAt rational_scale empty_world sample_tiling 3 2 None).1.1
    = [(offset_x, offset_y, 2, 2)]
    /\ offset_x <= 3 < offset_x + 2 /\ offset_y <= 2 < offset_y + 2.
Proof.
  destruct (@CreateBundleForTileAt_covers_cell rational_scale empty_world
              sample_tiling 3 2 None)
    as (offset_x & offset_y & Hreq & _ & _ & Hin & _).
  - lia.
  - lia.
  - reflexivity.
  - exists offset_x, offset_y. split; [exact Hreq | exact Hin].
Defined.

(** X14, at the sample tiling with its live rectangle set and no tile
    created: cell (2, 1) holds a tile afterwards. *)
Lemma CreateMissingTilesInLiveTilesRect_fills_witness :
  is_Some
    (@TileAt rational_scale
       (@CreateMissingTilesInLiveTilesRect rational_scale
          (sample_client true None) empty_world unfilled_tiling).1
       (@CreateMissingTilesInLiveTilesRect rational_scale
          (sample_client true None) empty_world unfilled_tiling).2
       PENDING_TREE 2 1).
Proof.
  refine (proj1 (@CreateMissingTilesInLiveTilesRect_fills rational_scale
                   (sample_client true None) empty_world unfilled_tiling _ _)
            2 1 _).
  - apply consistent_fresh. reflexivity.
  - intros rect. reflexivity.
  - vm_compute. reflexivity.
Defined.

(** X13, on the sample tiling whose 3 x 3 top-left cells are live and
    hold tiles, with the live rectangle moved to the 3 x 3 bottom-right
    cells: cell (1, 1), in both, keeps the tile it had; cell (3, 3), new,
    holds a tile; cell (0, 0), left behind, held a tile and holds none. *)
Lemma SetLiveTilesRect_fills_live_cells_witness :
  let st := @SetLiveTilesRect rational_scale (sample_client true None)
              partly_live.1 partly_live.2 (gfx.MakeRect 300 300 700 700) in
  is_Some (@TileAt rational_scale partly_live.1 partly_live.2 PENDING_TREE 1 1) /\
  @TileAt rational_scale st.1 st.2 PENDING_TREE 1 1
  = @TileAt rational_scale partly_live.1 partly_live.2 PENDING_TREE 1 1 /\
  is_Some (@TileAt rational_scale st.1 st.2 PENDING_TREE 3 3) /\
  is_Some (@TileAt rational_scale partly_live.1 partly_live.2 PENDING_TREE 0 0) /\
  @TileAt rational_scale st.1 st.2 PENDING_TREE 0 0 = None.
Proof.
  cbv zeta.
  assert (Hret : forall rect,
            @CreateTile_returns_tile rational_scale (sample_client true None) rect
            = true) by (intros rect; reflexivity).
  assert (Htd : @tiling_data_ rational_scale partly_live.2
                = @tiling_data_ rational_scale sample_tiling)
    by (vm_compute; reflexivity).
  assert (Hlive : @live_tiles_rect_ rational_scale partly_live.2
                  = gfx.MakeRect 0 0 600 600) by (vm_compute; reflexivity).
  assert (Htree : @current_tree_ rational_scale partly_live.2 = PENDING_TREE)
    by (vm_compute; reflexivity).
  pose proof (@SetLiveTilesRect_fills_live_cells rational_scale
                (sample_client true None) empty_world sample_tiling
                (gfx.MakeRect 0 0 600 600)) as Hfirst.
  cbv zeta in Hfirst. fold partly_live in Hfirst.
  change (@current_tree_ rational_scale sample_tiling) with PENDING_TREE in Hfirst.
  destruct Hfirst as (Hfill0 & _ & Hnone0).
  { apply consistent_fresh. reflexivity. }
  { exact Hret. }
  { intros i j Hin. rewrite index_range_empty in Hin by reflexivity.
    discriminate Hin. }
  specialize (Hnone0 eq_refl).
  assert (Hnone1 : forall i j,
            in_range (index_range (@tiling_data_ rational_scale sample_tiling)
                        (gfx.MakeRect 0 0 600 600)) (i, j) = false ->
            @TileAt rational_scale partly_live.1 partly_live.2 PENDING_TREE i j
            = None).
  { apply Hnone0. intros i j _. rewrite TileAt_eq.
    change (tile_bundles_ sample_tiling) with (∅ : gmap TileBundleMapKey BundleId).
    rewrite lookup_empty. reflexivity. }
  assert (Hkept : well_kept partly_live.1 (tile_bundles_ partly_live.2)
                    (GetTwinTiling (sample_client true None))).
  { apply (@SetLiveTilesRect_well_kept rational_scale (sample_client true None) Hret).
    split; [apply consistent_fresh; reflexivity |].
    intros k id Hk.
    change ((∅ : gmap TileBundleMapKey BundleId) !! k = Some id) in Hk.
    rewrite lookup_empty in Hk. discriminate Hk. }
  pose proof (@SetLiveTilesRect_fills_live_cells rational_scale
                (sample_client true None) partly_live.1 partly_live.2
                (gfx.MakeRect 300 300 700 700) (proj1 Hkept) Hret) as Hsecond.
  cbv zeta in Hsecond. rewrite Htd, Hlive, Htree in Hsecond.
  destruct (Hsecond Hfill0) as (Hfill & Hkeep & Hnone).
  specialize (Hnone eq_refl Hnone1).
  split_and!.
  - apply Hfill0. vm_compute. reflexivity.
  - apply Hkeep; vm_compute; reflexivity.
  - apply Hfill. vm_compute. reflexivity.
  - apply Hfill0. vm_compute. reflexivity.
  - apply Hnone. vm_compute. reflexivity.
Defined.

(** X17, at the content point (700, 300) of the sample tiling after its
    layer bounds are changed. *)
Lemma bundle_grid_matches_bundle_keys_witness :
  let st := @run_operations rational_scale (sample_client true None)
              [OpSetLayerBounds (gfx.MakeSize 900 900)]
              (empty_world, sample_tiling) in
  (TileXIndexFromSrcCoord (bundle_tiling_data_ st.2) 700,
   TileYIndexFromSrcCoord (bundle_tiling_data_ st.2) 300)
  = ComputeTileBundleIndex (TileXIndexFromSrcCoord (tiling_data_ st.2) 700)
                           (TileYIndexFromSrcCoord (tiling_data_ st.2) 300).
Proof.
  apply (@bundle_grid_matches_bundle_keys rational_scale (sample_client true None)
           empty_world one (gfx.MakeSize 1000 1000)
           [OpSetLayerBounds (gfx.MakeSize 900 900)] 700 300).
  - vm_compute. reflexivity.
  - vm_compute. reflexivity.
Defined.

(** X11, at cell (0, 0) of the empty sample tiling. *)
Lemma CreateTile_then_remove_restores_witness :
  let created := @CreateTile rational_scale (sample_client true None) empty_world
                   sample_tiling PENDING_TREE 0 0 None in
  let removed := @remove_step rational_scale PENDING_TREE created (0, 0) in
  tile_bundles_ removed.2 = tile_bundles_ sample_tiling.
Proof.
  refine (proj1 (@CreateTile_then_remove_restores rational_scale
                   (sample_client true None) empty_world sample_tiling
                   PENDING_TREE 0 0 _ _ _ _)).
  - apply consistent_fresh. reflexivity.
  - intros k id Hk.
    change ((∅ : gmap TileBundleMapKey BundleId) !! k = Some id) in Hk.
    rewrite lookup_empty in Hk. discriminate Hk.
  - reflexivity.
  - intros _. reflexivity.
Defined.

(** X19, at the rectangle 300 x 300 at (300, 300) over the sample tiling
    with all 16 tiles live. *)
Lemma CoverageIterator_finds_live_tiles_witness :
  Forall (fun s : gfx.Rect * option Tile * (Z * Z) => is_Some s.1.2)
         (@coverage_steps rational_scale live_state.1 live_state.2 16
            (@CoverageIterator_new rational_scale live_state.1 live_state.2 one
               (gfx.MakeRect 300 300 300 300))).
Proof.
  refine (@CoverageIterator_finds_live_tiles rational_scale live_state.1
            live_state.2 one (gfx.MakeRect 300 300 300 300) 16 _ _ _ _).
  - vm_compute. reflexivity.
  - vm_compute. reflexivity.
  - assert (Hc : gfx.IntersectRects
                   (@ScaleToEnclosingRect rational_scale
                      (gfx.MakeRect 300 300 300 300)
                      (@float_div rational_scale
                         (@contents_scale_ rational_scale live_state.2) one))
                   (@ContentRect rational_scale live_state.2)
                 = gfx.RawRect 300 300 300 300) by (vm_compute; reflexivity).
    assert (Hl : @live_tiles_rect_ rational_scale live_state.2
                 = gfx.RawRect 0 0 1000 1000) by (vm_compute; reflexivity).
    rewrite Hc, Hl. intros px py.
    unfold gfx.ContainsPoint, gfx.right, gfx.bottom. simpl. lia.
  - intros i j Hin.
    assert (Hr : index_range (@tiling_data_ rational_scale live_state.2)
                   (@live_tiles_rect_ rational_scale live_state.2)
                 = Some (0, 0, 3, 3)) by (vm_compute; reflexivity).
    rewrite Hr in Hin. cbn [in_range fst snd] in Hin.
    rewrite !andb_true_iff, !Z.leb_le in Hin.
    assert (Hi : i = 0 \/ i = 1 \/ i = 2 \/ i = 3) by lia.
    assert (Hj : j = 0 \/ j = 1 \/ j = 2 \/ j = 3) by lia.
    destruct Hi as [-> | [-> | [-> | ->]]];
      destruct Hj as [-> | [-> | [-> | ->]]];
      vm_compute; eexists; reflexivity.
Defined.
